(** * Report-generation pipeline: a shallow embedding and its properties

    The development follows the layout of the sources:

    - [Js]         the few JavaScript primitives the code relies on
                   (truthiness, [parseInt], [Math.ceil] of a quotient);
    - [Cache]      [src/lib/api-football/cache.ts];
    - [Throttle]   [RequestThrottle] of [src/lib/orchestrator/generator.ts];
    - [Client]     [APIFootballClient.request] of [src/lib/api-football/client.ts];
    - [Store]      the [SessionManager] (session store);
    - [Tracker]    the [ProgressTracker];
    - [Chains]     [analyzeSignal], [mergeCategory], [synthesizeFinalReport];
    - [Generator]  [ReportGenerator]: the four stages and the worker pool.

    Time is explicit everywhere: each [Date.now()] read of the source is an
    argument or a read of the world's clock.  Everything the program obtains
    from outside (HTTP responses, model completions, the scheduling of the
    two stage-2 workers, whether the progress callback returns or throws)
    is a field of a world record, so that every definition is a total,
    executable function. *)

From stdpp Require Import gmap strings list fin_maps pretty sorting.
From Stdlib Require Import Ascii ZArith QArith Floats Lia.

Local Open Scope Z_scope.

(* ===================================================================== *)
(** ** JavaScript primitives *)
(* ===================================================================== *)

Module Js.

(** Strings are sequences of code units, each below 256 here (so a header
    value is the sequence of its bytes).

    A JavaScript number that came out of [parseInt], or out of such a
    number by a multiplication: [NaN], an infinity, or a double whose
    value is the integer [z] (every double from 2^53 on is an integer).
    The two zeros are one [Int 0]: every use the code makes of such a
    number (truthiness, a product, a comparison, a timer, its text)
    treats them alike.  [None] of [option Num] elsewhere stands for
    [undefined]. *)
Inductive Num := NaN | Int (z : Z) | Infinity (negative : bool).

(** Truthiness of a string (the empty string is falsy) and of a number
    ([0] and [NaN] are falsy). *)
Definition truthy_str (s : string) : bool :=
  match s with EmptyString => false | _ => true end.

Definition truthy_num (n : Num) : bool :=
  match n with NaN => false | Int z => negb (z =? 0) | Infinity _ => true end.

(** [x > n] for an integer [x]: false against [NaN]. *)
Definition gt (x : Z) (n : Num) : bool :=
  match n with NaN => false | Int z => z <? x | Infinity negative => negative end.

(** [Number.isFinite(n)] *)
Definition isFinite (n : Num) : bool :=
  match n with Int _ => true | _ => false end.

(** [Math.ceil(a / b)] for integers, [b <> 0]. *)
Definition ceil_div (a b : Z) : Z := - ((- a) / b).

(** The double nearest to a natural number [n], ties to the even
    significand: [n] itself below 2^53; from 2^1024 - 2^970 on, infinity. *)
Definition nearest (n : Z) : Num :=
  if n <? 2 ^ 53 then Int n
  else
    let e := Z.log2 n - 52 in
    let q := n / 2 ^ e in
    let r := n mod 2 ^ e in
    let half := 2 ^ (e - 1) in
    let q' := if (half <? r) || ((r =? half) && Z.odd q) then q + 1 else q in
    if 2 ^ 1024 <=? q' * 2 ^ e then Infinity false else Int (q' * 2 ^ e).

Definition negate (n : Num) : Num :=
  match n with
  | NaN => NaN
  | Int z => Int (- z)
  | Infinity negative => Infinity (negb negative)
  end.

(** The double nearest to an integer. *)
Definition of_Z (z : Z) : Num :=
  if z <? 0 then negate (nearest (- z)) else nearest z.

(** [StrWhiteSpaceChar] among the code units below 256: tab, line feed,
    vertical tab, form feed, carriage return, space, no-break space. *)
Definition is_space (c : ascii) : bool :=
  match c with
  | " "%char | "009"%char | "010"%char | "011"%char | "012"%char | "013"%char
  | "160"%char => true
  | _ => false
  end.

Definition digit_val (radix : Z) (c : ascii) : option Z :=
  let n := Z.of_nat (nat_of_ascii c) in
  let v :=
    if (48 <=? n) && (n <=? 57) then Some (n - 48)
    else if (97 <=? n) && (n <=? 102) then Some (n - 87)
    else if (65 <=? n) && (n <=? 70) then Some (n - 55)
    else None in
  match v with
  | Some d => if d <? radix then Some d else None
  | None => None
  end.

Fixpoint skip_spaces (s : string) : string :=
  match s with
  | String c rest => if is_space c then skip_spaces rest else s
  | EmptyString => s
  end.

(** The longest prefix of digits, read in the given radix; [None] when the
    text does not start with a digit. *)
Fixpoint digits (radix : Z) (acc : option Z) (s : string) : option Z :=
  match s with
  | String c rest =>
      match digit_val radix c with
      | Some d => digits radix (Some (from_option id 0 acc * radix + d)) rest
      | None => acc
      end
  | EmptyString => acc
  end.

(** The number for the digits read: the double nearest to their value
    (for more than 20 significant decimal digits the language allows an
    implementation to read the digits after the 20th as zeros; the
    nearest double is taken here). *)
Definition signed (neg : bool) (o : option Z) : Num :=
  match o with
  | Some z => if neg then negate (nearest z) else nearest z
  | None => NaN
  end.

(** [parseInt(s, radix)]: leading white space, an optional sign, then the
    longest run of digits; anything after it is ignored; [NaN] when there
    is no digit.  Without a radix a [0x] prefix selects base 16. *)
Definition parse_body (explicit_radix : bool) (neg : bool) (s : string) : Num :=
  match s with
  | String "0" (String x rest) =>
      if negb explicit_radix && (Ascii.eqb x "x" || Ascii.eqb x "X")
      then signed neg (digits 16 None rest)
      else signed neg (digits 10 None s)
  | _ => signed neg (digits 10 None s)
  end.

Definition parse_signed (explicit_radix : bool) (s : string) : Num :=
  match skip_spaces s with
  | String "-" rest => parse_body explicit_radix true rest
  | String "+" rest => parse_body explicit_radix false rest
  | t => parse_body explicit_radix false t
  end.

Definition parseInt (s : string) : Num := parse_signed false s.
Definition parseInt10 (s : string) : Num := parse_signed true s.

(** [n * k] for an integer [k] that is a double: the product of two
    doubles is the double nearest to the exact product; [NaN] is
    absorbing, and so is an infinity but against 0. *)
Definition mul (n : Num) (k : Z) : Num :=
  match n with
  | NaN => NaN
  | Int z => of_Z (z * k)
  | Infinity negative =>
      if k =? 0 then NaN else Infinity (if k <? 0 then negb negative else negative)
  end.

(** The double-quote character, as a string. *)
Definition dquote : string := String (ascii_of_nat 34) EmptyString.

(** *** The text of a number *)

(** The number of decimal digits of a natural number. *)
Definition width (n : Z) : Z := Z.of_nat (String.length (pretty n)).

Fixpoint strip_zeros (fuel : nat) (n : Z) : Z :=
  match fuel with
  | O => n
  | S fuel' => if (0 <? n) && (n mod 10 =? 0) then strip_zeros fuel' (n / 10) else n
  end.

(** The decimal with the fewest significant digits among those whose
    nearest double is [v] (the one closest to [v] when several have that
    few), for a double [v] above 2^53: with [k] significant digits the
    candidates are [v] cut after [k] digits and the next such number. *)
Fixpoint shortest_from (fuel : nat) (k : Z) (v : Z) : Z :=
  match fuel with
  | O => v
  | S fuel' =>
      let p := width v - k in
      let down := v / 10 ^ p * 10 ^ p in
      let up := down + 10 ^ p in
      let fits c := match nearest c with Int v' => v' =? v | _ => false end in
      match fits down, fits up with
      | true, true =>
          if v - down <? up - v then down
          else if up - v <? v - down then up
          else if Z.even (down / 10 ^ p) then down else up
      | true, false => down
      | false, true => up
      | false, false => if p <=? 0 then v else shortest_from fuel' (k + 1) v
      end
  end.

Definition shortest (v : Z) : Z := shortest_from 17 1 v.

(** [Number::toString] of a positive integer-valued double: up to 21
    digits the digits and then zeros, beyond that the exponent form. *)
Definition show_nat (v : Z) : string :=
  let c := if v <? 2 ^ 53 then v else shortest v in
  let n := width c in
  if n <=? 21 then pretty c
  else
    let s := pretty (strip_zeros 400 c) in
    match s with
    | String d EmptyString => String d ("e+" +:+ pretty (n - 1))
    | String d rest => String d ("." +:+ rest +:+ "e+" +:+ pretty (n - 1))
    | EmptyString => s
    end.

(** Template-literal rendering of a number. *)
Definition show (n : Num) : string :=
  match n with
  | NaN => "NaN"
  | Infinity negative => if negative then "-Infinity" else "Infinity"
  | Int z =>
      if z =? 0 then "0"
      else if z <? 0 then "-" +:+ show_nat (- z) else show_nat z
  end.

End Js.

(* ===================================================================== *)
(** ** The TTL cache ([cache.ts]) *)
(* ===================================================================== *)

Module Cache.

Record CacheEntry (T : Type) := mkEntry { data : T; expiresAt : Z }.
Arguments mkEntry {T} _ _.
Arguments data {T} _.
Arguments expiresAt {T} _.

(** Endpoint-specific TTL configuration (in milliseconds). *)
Definition ENDPOINT_TTL_TABLE : list (string * Z) :=
  [ ("/fixtures",            2 * 60 * 1000);
    ("/fixtures/statistics", 5 * 60 * 1000);
    ("/fixtures/events",     2 * 60 * 1000);
    ("/fixtures/lineups",    10 * 60 * 1000);
    ("/injuries",            60 * 60 * 1000);
    ("/standings",           30 * 60 * 1000);
    ("/fixtures/headtohead", 24 * 60 * 60 * 1000);
    ("/leagues",             7 * 24 * 60 * 60 * 1000);
    ("/teams",               7 * 24 * 60 * 60 * 1000);
    ("/timezone",            30 * 24 * 60 * 60 * 1000) ].

Definition ENDPOINT_TTL_CONFIG : gmap string Z := list_to_map ENDPOINT_TTL_TABLE.

Definition defaultTTL : Z := 60 * 60 * 1000.

(** Request parameters: the object's own keys with their values as the
    template literal renders them. *)
Abbreviation Params := (gmap string string).

Definition key_le (a b : string * string) : Prop := String.leb a.1 b.1.

Definition sortedParams (params : Params) : list (string * string) :=
  merge_sort key_le (map_to_list params).

Fixpoint join (sep : string) (l : list string) : string :=
  match l with
  | [] => EmptyString
  | [x] => x
  | x :: rest => x +:+ sep +:+ join sep rest
  end.

(** [generateKey]: the endpoint, a question mark, and the [k=v] pairs in
    sorted key order joined by ampersands. *)
Definition generateKey (endpoint : string) (params : Params) : string :=
  endpoint +:+ "?" +:+
    join "&" (map (λ kv, kv.1 +:+ "=" +:+ kv.2) (sortedParams params)).

Section WithData.
Context {T : Type}.
Abbreviation cache := (gmap string (CacheEntry T)).

(** [get]: absent when there is no entry; an entry read strictly after
    its [expiresAt] is deleted and reported absent. *)
Definition get (now : Z) (endpoint : string) (params : Params) (c : cache)
  : option T * cache :=
  let key := generateKey endpoint params in
  match c !! key with
  | None => (None, c)
  | Some entry =>
      if expiresAt entry <? now then (None, delete key c)
      else (Some (data entry), c)
  end.

(** [ttl || ENDPOINT_TTL_CONFIG[endpoint] || this.defaultTTL] *)
Definition effectiveTTL (ttl : option Z) (endpoint : string) : Z :=
  match ttl with
  | Some t => if t =? 0 then
                match ENDPOINT_TTL_CONFIG !! endpoint with
                | Some e => if e =? 0 then defaultTTL else e
                | None => defaultTTL
                end
              else t
  | None => match ENDPOINT_TTL_CONFIG !! endpoint with
            | Some e => if e =? 0 then defaultTTL else e
            | None => defaultTTL
            end
  end.

Definition set (now : Z) (endpoint : string) (params : Params) (d : T)
    (ttl : option Z) (c : cache) : cache :=
  let key := generateKey endpoint params in
  let expires := now + effectiveTTL ttl endpoint in
  <[key := mkEntry d expires]> c.

Definition delete_entry (endpoint : string) (params : Params) (c : cache) : cache :=
  delete (generateKey endpoint params) c.

Definition clear (c : cache) : cache := ∅.

(** [cleanup]: the periodic sweep drops every entry past its expiry. *)
Definition cleanup (now : Z) (c : cache) : cache :=
  filter (λ kv, ¬ (expiresAt kv.2 < now)) c.

End WithData.

End Cache.

(* ===================================================================== *)
(** ** Properties of the cache *)
(* ===================================================================== *)

Module CacheFacts.
Import Cache.

Lemma table_positive endpoint ttl :
  ENDPOINT_TTL_CONFIG !! endpoint = Some ttl → 0 < ttl.
Proof.
  unfold ENDPOINT_TTL_CONFIG. intros H.
  apply elem_of_list_to_map_2 in H.
  unfold ENDPOINT_TTL_TABLE in H.
  repeat (apply elem_of_cons in H as [H|H]; [inversion H; subst; lia|]).
  by apply elem_of_nil in H.
Qed.

Lemma effectiveTTL_table endpoint ttl :
  ENDPOINT_TTL_CONFIG !! endpoint = Some ttl →
  effectiveTTL None endpoint = ttl.
Proof.
  intros H. pose proof (table_positive _ _ H) as Hpos.
  unfold effectiveTTL. rewrite H.
  destruct (ttl =? 0) eqn:E; [lia|done].
Qed.

(** C7.  After a [set] without explicit TTL on an endpoint of the TTL
    table, a [get] with the same endpoint and parameters at any time up to
    the expiry (in particular at once) returns the stored value and leaves
    the cache as it is; a [get] strictly after the endpoint's TTL has
    elapsed returns absent and the entry is gone from the cache it leaves. *)
Theorem C7_set_then_get {T : Type} (c : gmap string (CacheEntry T))
    (now : Z) (endpoint : string) (params : Params) (d : T) (ttl : Z) :
  ENDPOINT_TTL_CONFIG !! endpoint = Some ttl →
  let c1 := set now endpoint params d None c in
  get now endpoint params c1 = (Some d, c1)
  ∧ (∀ t, t ≤ now + ttl → get t endpoint params c1 = (Some d, c1))
  ∧ (∀ t, now + ttl < t →
       (get t endpoint params c1).1 = None
       ∧ (get t endpoint params c1).2 !! generateKey endpoint params = None
       ∧ (get t endpoint params (get t endpoint params c1).2).1 = None).
Proof.
  intros Htab c1.
  pose proof (table_positive _ _ Htab) as Hpos.
  assert (Hlk : c1 !! generateKey endpoint params
                = Some (mkEntry d (now + ttl))).
  { unfold c1, set. rewrite (effectiveTTL_table _ _ Htab).
    apply lookup_insert_eq. }
  assert (Hfresh : ∀ t, t ≤ now + ttl → get t endpoint params c1 = (Some d, c1)).
  { intros t Ht. unfold get. rewrite Hlk. simpl.
    destruct (now + ttl <? t) eqn:E; [lia|done]. }
  split; [apply Hfresh; lia|]. split; [exact Hfresh|].
  intros t Ht.
  assert (Hg : get t endpoint params c1
               = (None, delete (generateKey endpoint params) c1)).
  { unfold get. rewrite Hlk. simpl.
    destruct (now + ttl <? t) eqn:E; [done|lia]. }
  rewrite Hg. simpl. split; [done|]. split; [apply lookup_delete_eq|].
  unfold get. by rewrite lookup_delete_eq.
Qed.

Lemma C7_set_then_get_witness :
  let c1 := set 1000 "/fixtures" {[ "id" := "12345" ]} "payload"%string None ∅ in
  get 1000 "/fixtures" {[ "id" := "12345" ]} c1 = (Some "payload"%string, c1)
  ∧ (get 121001 "/fixtures" {[ "id" := "12345" ]} c1).1 = None.
Proof.
  pose proof (C7_set_then_get (T := string) ∅ 1000 "/fixtures"
                {[ "id" := "12345" ]} "payload" 120000 eq_refl) as (H1 & _ & H3).
  split; [exact H1|]. apply (H3 121001). lia.
Defined.

End CacheFacts.

(* ===================================================================== *)
(** ** The request throttle ([RequestThrottle], generator.ts) *)
(* ===================================================================== *)

Module Throttle.

Record RequestThrottle := mkThrottle {
  lastRequestTime : Z;
  minDelayMs : Z;
}.

(** [constructor(requestsPerMinute = 30)], for a rate that is a positive
    integer.  [60000 / requestsPerMinute] is a division of doubles: its
    result is within a relative error of 2^-53 of the quotient, which is
    an integer or at least [1 / requestsPerMinute] away from one up to
    60000 and lies strictly between 0 and 1 beyond, so [Math.ceil] of it
    is the ceiling of the quotient. *)
Definition new (requestsPerMinute : Z) : RequestThrottle :=
  {| lastRequestTime := 0; minDelayMs := Js.ceil_div 60000 requestsPerMinute |}.

(** The rate the generator configures: [parseInt(env || '8', 10)], kept
    when finite and positive, 8 otherwise. *)
Definition configured_rate (env : option string) : Z :=
  let text := match env with
              | Some s => if Js.truthy_str s then s else "8"
              | None => "8"
              end in
  match Js.parseInt10 text with
  | Js.Int rpm => if 0 <? rpm then rpm else 8
  | Js.NaN | Js.Infinity _ => 8
  end.

(** [throttle()] runs in two pieces.  The first reads the clock and
    compares with [lastRequestTime]; when the gap is short it arms a
    timer and suspends.  The second piece, [this.lastRequestTime =
    Date.now()], runs at once when there was no wait and after the timer
    otherwise.  Between the two pieces of a waiting call any other caller
    may run. *)
Inductive event :=
| Call (caller : nat) (now : Z)    (* [throttle()] is entered at [now]; when it
                                       does not wait, both clock reads give [now] *)
| Wake (caller : nat) (now : Z).   (* the caller's timer has fired; clock reads [now] *)

Record machine := mkMachine {
  thr : RequestThrottle;
  sleeping : list (nat * Z);   (* suspended callers with the time their timer is due *)
  acquired : list Z;           (* the times at which [throttle()] returned, in order *)
}.

Definition start (t : RequestThrottle) : machine :=
  {| thr := t; sleeping := []; acquired := [] |}.

Definition mark (now : Z) (m : machine) (rest : list (nat * Z)) : machine :=
  {| thr := {| lastRequestTime := now; minDelayMs := minDelayMs (thr m) |};
     sleeping := rest;
     acquired := acquired m ++ [now] |}.

Fixpoint due_of (c : nat) (l : list (nat * Z)) : option Z :=
  match l with
  | [] => None
  | (c', d) :: rest => if decide (c = c') then Some d else due_of c rest
  end.

Definition drop_caller (c : nat) (l : list (nat * Z)) : list (nat * Z) :=
  filter (λ p, p.1 ≠ c) l.

(** One event.  [None]: the event cannot happen (a timer firing early, or
    a wake-up of a caller that is not waiting). *)
Definition step (m : machine) (e : event) : option machine :=
  match e with
  | Call c now =>
      let timeSinceLastRequest := now - lastRequestTime (thr m) in
      if timeSinceLastRequest <? minDelayMs (thr m) then
        let delayNeeded := minDelayMs (thr m) - timeSinceLastRequest in
        Some {| thr := thr m;
                sleeping := sleeping m ++ [(c, now + delayNeeded)];
                acquired := acquired m |}
      else Some (mark now m (sleeping m))
  | Wake c now =>
      match due_of c (sleeping m) with
      | Some due => if due <=? now then Some (mark now m (drop_caller c (sleeping m)))
                    else None
      | None => None
      end
  end.

Fixpoint run (m : machine) (evs : list event) : option machine :=
  match evs with
  | [] => Some m
  | e :: rest => match step m e with
                 | Some m' => run m' rest
                 | None => None
                 end
  end.

(** Consecutive acquisitions are at least [d] apart. *)
Fixpoint spaced (d : Z) (l : list Z) : Prop :=
  match l with
  | a :: (b :: _) as rest => a + d ≤ b ∧ spaced d rest
  | _ => True
  end.

(** The calls of a trace do not overlap: [throttle()] is entered only
    when no earlier call is still suspended in it, which is how
    [collectData] uses it (each call is awaited before the next). *)
Fixpoint sequential (m : machine) (evs : list event) : Prop :=
  match evs with
  | [] => True
  | e :: rest =>
      match e with Call _ _ => sleeping m = [] | Wake _ _ => True end
      ∧ match step m e with
        | Some m' => sequential m' rest
        | None => True
        end
  end.

End Throttle.

Module ThrottleFacts.
Import Throttle.

Lemma spaced_snoc d l x :
  spaced d l →
  (∀ y, last l = Some y → y + d ≤ x) →
  spaced d (l ++ [x]).
Proof.
  induction l as [|a l IH]; [done|].
  intros Hs Hl. destruct l as [|b l].
  - simpl. split; [|done]. apply Hl. done.
  - destruct Hs as [Hab Hs]. change ((a :: b :: l) ++ [x]) with (a :: ((b :: l) ++ [x])).
    simpl. split; [done|]. apply IH; [done|].
    intros y Hy. apply Hl. done.
Qed.

(** What holds between events of a non-overlapping trace. *)
Definition seq_inv (m : machine) : Prop :=
  spaced (minDelayMs (thr m)) (acquired m)
  ∧ (∀ y, last (acquired m) = Some y → y = lastRequestTime (thr m))
  ∧ (sleeping m = []
     ∨ ∃ c, sleeping m = [(c, lastRequestTime (thr m) + minDelayMs (thr m))]).

Lemma seq_inv_step m e m' :
  seq_inv m →
  match e with Call _ _ => sleeping m = [] | Wake _ _ => True end →
  step m e = Some m' →
  seq_inv m' ∧ minDelayMs (thr m') = minDelayMs (thr m).
Proof.
  intros (Hsp & Hlast & Hsl) Hseq Hstep. destruct e as [c now|c now]; simpl in Hstep.
  - destruct (now - lastRequestTime (thr m) <? minDelayMs (thr m)) eqn:E.
    + inversion Hstep; subst; clear Hstep. simpl. rewrite Hseq. simpl.
      split; [|done]. split; [done|]. split; [done|]. right. exists c.
      replace (now + (minDelayMs (thr m) - (now - lastRequestTime (thr m))))
        with (lastRequestTime (thr m) + minDelayMs (thr m)) by lia.
      done.
    + inversion Hstep; subst; clear Hstep. simpl. split; [|done].
      split; [|split].
      * apply spaced_snoc; [done|]. intros y Hy. apply Hlast in Hy. simpl. lia.
      * intros y. simpl. rewrite last_snoc. congruence.
      * by left.
  - destruct (due_of c (sleeping m)) as [due|] eqn:Hdue; [|done].
    destruct (due <=? now) eqn:E; [|done].
    inversion Hstep; subst; clear Hstep. simpl. split; [|done].
    destruct Hsl as [Hsl|[c' Hsl]]; [rewrite Hsl in Hdue; done|].
    rewrite Hsl in Hdue. simpl in Hdue.
    destruct (decide (c = c')) as [->|Hne]; [|done].
    inversion Hdue; subst due.
    split; [|split].
    + apply spaced_snoc; [done|]. intros y Hy. apply Hlast in Hy. simpl. lia.
    + intros y. simpl. rewrite last_snoc. congruence.
    + left. rewrite Hsl. unfold drop_caller. rewrite filter_cons. simpl.
      case_decide; [done|]. by rewrite filter_nil.
Qed.

Lemma seq_inv_run evs : ∀ m m',
  seq_inv m → sequential m evs → run m evs = Some m' →
  seq_inv m' ∧ minDelayMs (thr m') = minDelayMs (thr m).
Proof.
  induction evs as [|e evs IH]; intros m m' Hinv Hseq Hrun; simpl in *.
  - inversion Hrun; subst. done.
  - destruct Hseq as [Hnow Hseq].
    destruct (step m e) as [m1|] eqn:Hstep; [|done].
    destruct (seq_inv_step _ _ _ Hinv Hnow Hstep) as [Hinv1 Hd1].
    destruct (IH _ _ Hinv1 Hseq Hrun) as [Hinv' Hd']. split; [done|]. congruence.
Qed.

Lemma ceil_div_spec a b : 0 < b → b * (Js.ceil_div a b - 1) < a ≤ b * Js.ceil_div a b.
Proof.
  intros Hb. unfold Js.ceil_div.
  pose proof (Z.div_mod (- a) b ltac:(lia)) as Hdm.
  pose proof (Z.mod_pos_bound (- a) b Hb) as Hr.
  set (q := (- a) / b) in *. set (r := (- a) mod b) in *.
  replace (b * (- q - 1)) with (- (b * q) - b) by ring.
  replace (b * - q) with (- (b * q)) by ring. lia.
Qed.

(** C2 (amended).  For every positive rate [N], in any trace of calls on
    one throttle in which no call is entered while another is still
    suspended, any two consecutive acquisitions are at least
    [ceil(60000/N)] ms apart, and that spacing is the least integer
    number of ms with [N] spacings covering a minute. *)
Theorem C2_sequential_spacing (N : Z) (evs : list event) (m' : machine) :
  0 < N →
  sequential (start (new N)) evs →
  run (start (new N)) evs = Some m' →
  spaced (Js.ceil_div 60000 N) (acquired m')
  ∧ N * (Js.ceil_div 60000 N - 1) < 60000 ≤ N * Js.ceil_div 60000 N.
Proof.
  intros HN Hseq Hrun. split; [|by apply ceil_div_spec].
  assert (Hinv0 : seq_inv (start (new N))).
  { split; [done|]. split; [done|]. by left. }
  destruct (seq_inv_run _ _ _ Hinv0 Hseq Hrun) as [(Hsp & _) Hd].
  rewrite Hd in Hsp. exact Hsp.
Qed.

Lemma C2_sequential_spacing_witness :
  ∃ m', run (start (new 8)) [Call 0 1000000; Call 0 1000100; Wake 0 1007500;
                             Call 0 1020000] = Some m'
        ∧ acquired m' = [1000000; 1007500; 1020000]
        ∧ spaced 7500 (acquired m').
Proof.
  eexists. split; [reflexivity|]. split; [reflexivity|].
  refine (proj1 (C2_sequential_spacing 8
            [Call 0 1000000; Call 0 1000100; Wake 0 1007500; Call 0 1020000]
            _ _ _ eq_refl)).
  - lia.
  - simpl. repeat split.
Defined.

(** The claim as stated, for every trace the machine accepts: timers
    never fire early, and callers may overlap. *)
Definition spacing_for_all_traces : Prop :=
  ∀ (N : Z) (evs : list event) (m' : machine),
    0 < N →
    run (start (new N)) evs = Some m' →
    spaced (Js.ceil_div 60000 N) (acquired m').

(** C2, counterexample.  With [N = 8] (7500 ms) a first call acquires at
    1000000; two callers then enter at 1000100 and 1000200, both compute
    their wait from the same [lastRequestTime] and both timers are due at
    1007500: the two acquisitions that follow are 0 ms apart. *)
Lemma C2_racing_callers_counterexample : ¬ spacing_for_all_traces.
Proof.
  intros H.
  specialize (H 8 [Call 0 1000000; Call 1 1000100; Call 2 1000200;
                   Wake 1 1007500; Wake 2 1007500] _ ltac:(lia) eq_refl).
  vm_compute in H. destruct H as (_ & H & _). apply H. reflexivity.
Qed.

End ThrottleFacts.

(* ===================================================================== *)
(** ** The external data client ([APIFootballClient.request], client.ts) *)
(* ===================================================================== *)

Module Client.

(** Rate limit metadata captured from the response headers. *)
Record RateLimitInfo := mkRateLimit {
  requestsRemaining : option Js.Num;
  requestsLimit : option Js.Num;
}.

Record APIFootballError := mkError {
  message : string;
  statusCode : option Z;
  endpoint : string;
}.

(** The parsed body: the members of [data.errors] (empty for [[]] or a
    missing member), their JSON text, and the payload. *)
Record Body (T : Type) := mkBody {
  errors : list (string * string);
  errors_json : string;
  response : T;
}.
Arguments mkBody {T} _ _ _.
Arguments errors {T} _.
Arguments errors_json {T} _.
Arguments response {T} _.

(** What [await response.json()] followed by the read of [data.errors]
    gives: the parsed body, or an error that is not an [APIFootballError]
    (the body is not JSON, or is [null]), with its text. *)
Inductive Json (T : Type) := Parsed (data : Body T) | Unparsable (rendered : string).
Arguments Parsed {T} _.
Arguments Unparsable {T} _.

(** What the code reads of a [fetch] response.  A header is [None] when
    [headers.get] gives [null]. *)
Record Response (T : Type) := mkResponse {
  status : Z;
  statusText : string;
  h_remaining : option string;     (* x-ratelimit-requests-remaining *)
  h_limit : option string;         (* x-ratelimit-requests-limit *)
  h_retry_after : option string;   (* retry-after *)
  body : Json T;
}.
Arguments mkResponse {T} _ _ _ _ _ _.
Arguments status {T} _.
Arguments statusText {T} _.
Arguments h_remaining {T} _.
Arguments h_limit {T} _.
Arguments h_retry_after {T} _.
Arguments body {T} _.

Inductive FetchOutcome (T : Type) :=
| NetworkError (rendered : string)   (* [fetch] rejects; the text of the error *)
| Responded (r : Response T).
Arguments NetworkError {T} _.
Arguments Responded {T} _.

(** The world of one [request]: what the [attempt]-th [fetch] gives, and
    the clock at that attempt's cache lookup and cache store. *)
Record World (T : Type) := mkWorld {
  fetch : Z → FetchOutcome T;
  lookup_time : Z → Z;
  store_time : Z → Z;
}.
Arguments mkWorld {T} _ _ _.
Arguments fetch {T} _ _.
Arguments lookup_time {T} _ _.
Arguments store_time {T} _ _.

Record State (T : Type) := mkState {
  cache : gmap string (Cache.CacheEntry (Body T));
  slept : list Js.Num;       (* the delays handed to [setTimeout], in order *)
  fetched : nat;             (* number of [fetch] calls issued *)
}.
Arguments mkState {T} _ _ _.
Arguments cache {T} _.
Arguments slept {T} _.
Arguments fetched {T} _.

Inductive Outcome (T : Type) :=
| Returned (data : Body T)
| Failed (e : APIFootballError)
| OutOfFuel.
Arguments Returned {T} _.
Arguments Failed {T} _.
Arguments OutOfFuel {T}.

Definition maxRetries : Z := 3.
Definition retryDelay : Z := 1000.

Definition ok {T} (r : Response T) : bool :=
  (200 <=? status r) && (status r <=? 299).

(** [headers.get(h) ? parseInt(headers.get(h)!) : undefined] *)
Definition header_number (h : option string) : option Js.Num :=
  match h with
  | Some s => if Js.truthy_str s then Some (Js.parseInt s) else None
  | None => None
  end.

Definition rateLimit_of {T} (r : Response T) : RateLimitInfo :=
  {| requestsRemaining := header_number (h_remaining r);
     requestsLimit := header_number (h_limit r) |}.

(** [retryAfter ? parseInt(retryAfter) * 1000
                : this.retryDelay * Math.pow(2, attempt - 1)], for the
    attempt numbers that [request] passes, which are 1 and above. *)
Definition delay_429 {T} (r : Response T) (attempt : Z) : Js.Num :=
  match h_retry_after r with
  | Some s => if Js.truthy_str s then Js.mul (Js.parseInt s) 1000
              else Js.Int (retryDelay * 2 ^ (attempt - 1))
  | None => Js.Int (retryDelay * 2 ^ (attempt - 1))
  end.

(** [`${x || 0}`] and [`${x || 'unknown'}`] *)
Definition or_text (x : option Js.Num) (dflt : string) : string :=
  match x with
  | Some n => if Js.truthy_num n then Js.show n else dflt
  | None => dflt
  end.

Definition rate_limit_message (rl : RateLimitInfo) : string :=
  "Rate limit exceeded. Requests remaining: " +:+ or_text (requestsRemaining rl) "0"
    +:+ "/" +:+ or_text (requestsLimit rl) "unknown".

Fixpoint member (k : string) (errs : list (string * string)) : option string :=
  match errs with
  | [] => None
  | (k', v) :: rest => if String.eqb k k' then Some v else member k rest
  end.

(** [errors.rateLimit] is truthy. *)
Definition has_rateLimit (errs : list (string * string)) : bool :=
  match member "rateLimit" errs with
  | Some v => Js.truthy_str v
  | None => false
  end.

Definition sleep {T} (d : Js.Num) (st : State T) : State T :=
  mkState (cache st) (slept st ++ [d]) (fetched st).

Section Request.
Context {T : Type} (w : World T) (endpoint : string) (params : Cache.Params).

(** The [catch] branch for anything that is not an [APIFootballError]:
    a linear delay and another attempt, or the final error. *)
Definition on_other_error (again : Z → State T → Outcome T * State T)
    (rendered : string) (attempt : Z) (st : State T) : Outcome T * State T :=
  if attempt <? maxRetries then
    again (attempt + 1) (sleep (Js.Int (retryDelay * attempt)) st)
  else
    (Failed (mkError ("API-Football request failed after " +:+ pretty maxRetries
                        +:+ " attempts: " +:+ rendered) None endpoint), st).

Definition on_response (again : Z → State T → Outcome T * State T)
    (r : Response T) (attempt : Z) (st : State T) : Outcome T * State T :=
  let rateLimit := rateLimit_of r in
  if negb (ok r) then
    if status r =? 429 then
      let delay := delay_429 r attempt in
      if attempt <? maxRetries then again (attempt + 1) (sleep delay st)
      else (Failed (mkError (rate_limit_message rateLimit) (Some 429) endpoint), st)
    else if status r =? 401 then
      (Failed (mkError
         "Invalid API key. Please check APIFOOTBALL_API_KEY environment variable."
         (Some 401) endpoint), st)
    else if (500 <=? status r) && (attempt <? maxRetries) then
      again (attempt + 1) (sleep (Js.Int (retryDelay * attempt)) st)
    else
      (Failed (mkError ("API-Football request failed: " +:+ pretty (status r)
                          +:+ " " +:+ statusText r) (Some (status r)) endpoint), st)
  else
    match body r with
    | Unparsable rendered => on_other_error again rendered attempt st
    | Parsed data =>
        if negb (bool_decide (errors data = [])) then
          if has_rateLimit (errors data) && (attempt <? maxRetries) then
            again (attempt + 1) (sleep (Js.Int 12000) st)
          else
            (Failed (mkError ("API-Football returned errors: " +:+ errors_json data)
                       None endpoint), st)
        else
          (Returned data,
           mkState (Cache.set (store_time w attempt) endpoint params data None (cache st))
                   (slept st) (fetched st))
    end.

(** [request(endpoint, params, attempt)].  Each call looks the cache up
    first; on a miss it issues one [fetch]. *)
Fixpoint request (fuel : nat) (attempt : Z) (st : State T) : Outcome T * State T :=
  match fuel with
  | O => (OutOfFuel, st)
  | S fuel' =>
      let '(cached, c1) := Cache.get (lookup_time w attempt) endpoint params (cache st) in
      match cached with
      | Some data => (Returned data, mkState c1 (slept st) (fetched st))
      | None =>
          let st1 := mkState c1 (slept st) (S (fetched st)) in
          match fetch w attempt with
          | NetworkError rendered =>
              on_other_error (request fuel') rendered attempt st1
          | Responded r => on_response (request fuel') r attempt st1
          end
      end
  end.

(** The entry point: [attempt = 1]; three attempts are the most the
    guards [attempt < maxRetries] allow. *)
Definition request_first (st : State T) : Outcome T * State T :=
  request (Z.to_nat maxRetries) 1 st.

End Request.

End Client.

Module ClientFacts.
Import Client.

Section Facts.
Context {T : Type} (w : World T) (endpoint : string) (params : Cache.Params).

(** The recursion never runs out of fuel: every retry is guarded by
    [attempt < maxRetries]. *)
Lemma request_total fuel attempt st :
  0 < Z.of_nat fuel → maxRetries - attempt < Z.of_nat fuel →
  (request w endpoint params fuel attempt st).1 ≠ OutOfFuel.
Proof.
  revert attempt st. induction fuel as [|fuel IH]; intros attempt st H1 Hf; [lia|].
  assert (Hrec : ∀ st', (attempt <? maxRetries) = true →
            (request w endpoint params fuel (attempt + 1) st').1 ≠ OutOfFuel).
  { intros st' Hlt. apply IH; lia. }
  simpl. destruct (Cache.get _ _ _ _) as [[d|] c1]; [done|].
  destruct (fetch w attempt) as [e|r].
  - unfold on_other_error. destruct (attempt <? maxRetries) eqn:E; [by apply Hrec|done].
  - unfold on_response, on_other_error.
    repeat (match goal with
            | |- context [if ?b then _ else _] => destruct b eqn:?
            | |- context [match body r with _ => _ end] => destruct (body r)
            end; simpl; try done; try (apply Hrec; done));
      try (apply Hrec; apply andb_prop in Heqb1; tauto);
      try (apply Hrec; apply andb_prop in Heqb2; tauto).
Qed.

Lemma miss_stays_miss now (c : gmap string (Cache.CacheEntry (Body T))) :
  c !! Cache.generateKey endpoint params = None →
  Cache.get now endpoint params c = (None, c).
Proof. intros H. unfold Cache.get. by rewrite H. Qed.

Lemma not_ok_429 (r : Response T) : status r = 429 → ok r = false.
Proof. intros Hr. unfold ok. rewrite Hr. done. Qed.

(** One rate-limited attempt below the limit: wait, then try again. *)
Lemma request_429_retry fuel attempt (st : State T) (r : Response T) :
  cache st !! Cache.generateKey endpoint params = None →
  fetch w attempt = Responded r → status r = 429 →
  (attempt <? maxRetries) = true →
  request w endpoint params (S fuel) attempt st
  = request w endpoint params fuel (attempt + 1)
      (mkState (cache st) (slept st ++ [delay_429 r attempt]) (S (fetched st))).
Proof.
  intros Hmiss Hf Hs Hlt. cbn [request].
  rewrite (miss_stays_miss _ _ Hmiss), Hf.
  unfold on_response. rewrite (not_ok_429 _ Hs), Hs, Hlt. done.
Qed.

(** The rate-limited attempt at the limit: the distinguished error. *)
Lemma request_429_exhausted fuel attempt (st : State T) (r : Response T) :
  cache st !! Cache.generateKey endpoint params = None →
  fetch w attempt = Responded r → status r = 429 →
  (attempt <? maxRetries) = false →
  request w endpoint params (S fuel) attempt st
  = (Failed (mkError (rate_limit_message (rateLimit_of r)) (Some 429) endpoint),
     mkState (cache st) (slept st) (S (fetched st))).
Proof.
  intros Hmiss Hf Hs Hlt. cbn [request].
  rewrite (miss_stays_miss _ _ Hmiss), Hf.
  unfold on_response. rewrite (not_ok_429 _ Hs), Hs, Hlt. done.
Qed.

(** When every attempt is answered with HTTP 429 (and the cache has no
    entry for the request), [request] issues exactly [maxRetries = 3]
    calls, waits [delay_429] before each retry, and on exhaustion fails
    with an [APIFootballError] of status code 429 whose message carries
    the remaining and total quota read from the last response.  The
    wait is [retryDelay * 2^(attempt-1)] when the [retry-after] header is
    absent or empty (1000 and 2000 ms: the code has no cap of its own),
    and the product of the header's number and 1000 otherwise. *)
Theorem rate_limited_retries (st : State T) (r1 r2 r3 : Response T) :
  cache st !! Cache.generateKey endpoint params = None →
  fetch w 1 = Responded r1 → fetch w 2 = Responded r2 → fetch w 3 = Responded r3 →
  status r1 = 429 → status r2 = 429 → status r3 = 429 →
  request_first w endpoint params st
  = (Failed (mkError
               ("Rate limit exceeded. Requests remaining: "
                  +:+ or_text (header_number (h_remaining r3)) "0" +:+ "/"
                  +:+ or_text (header_number (h_limit r3)) "unknown")
               (Some 429) endpoint),
     mkState (cache st) (slept st ++ [delay_429 r1 1; delay_429 r2 2])
             (3 + fetched st)%nat)
  ∧ (∀ (r : Response T) (attempt : Z) (s : string) (secs : Z),
       h_retry_after r = Some s → Js.truthy_str s = true →
       Js.parseInt s = Js.Int secs → 0 ≤ secs * 1000 < 2 ^ 53 →
       delay_429 r attempt = Js.Int (secs * 1000))
  ∧ (∀ (r : Response T) (attempt : Z),
       1 ≤ attempt →
       h_retry_after r = None ∨ h_retry_after r = Some EmptyString →
       delay_429 r attempt = Js.Int (retryDelay * 2 ^ (attempt - 1))).
Proof.
  intros Hmiss F1 F2 F3 S1 S2 S3. split; [|split].
  - unfold request_first. change (Z.to_nat maxRetries) with 3%nat.
    rewrite (request_429_retry 2 1 st r1 Hmiss F1 S1 eq_refl).
    change (1 + 1) with 2.
    set (st1 := mkState (cache st) (slept st ++ [delay_429 r1 1]) (S (fetched st))).
    rewrite (request_429_retry 1 2 st1 r2 Hmiss F2 S2 eq_refl).
    change (2 + 1) with 3.
    set (st2 := mkState (cache st1) (slept st1 ++ [delay_429 r2 2]) (S (fetched st1))).
    rewrite (request_429_exhausted 0 3 st2 r3 Hmiss F3 S3 eq_refl).
    cbn. rewrite <- app_assoc. done.
  - intros r attempt s secs Hh Ht Hp Hsafe. unfold delay_429. rewrite Hh, Ht, Hp.
    unfold Js.mul, Js.of_Z, Js.nearest.
    destruct (secs * 1000 <? 0) eqn:E1; [lia|].
    destruct (secs * 1000 <? 2 ^ 53) eqn:E2; [done|lia].
  - intros r attempt _ [Hh|Hh]; unfold delay_429; by rewrite Hh.
Qed.

End Facts.

Definition always_429 (retry_after : option string) : World unit :=
  mkWorld (λ _, Responded (mkResponse 429 "Too Many Requests" (Some "0") (Some "100")
                             retry_after (Unparsable "SyntaxError")))
          (λ _, 0) (λ _, 0).

Lemma rate_limited_retries_witness :
  request_first (always_429 None) "/fixtures" {[ "id" := "12345" ]}
                (mkState ∅ [] 0)
  = (Failed (mkError "Rate limit exceeded. Requests remaining: 0/100"
                     (Some 429) "/fixtures"),
     mkState ∅ [Js.Int 1000; Js.Int 2000] 3).
Proof.
  refine (eq_trans (proj1 (rate_limited_retries (always_429 None) "/fixtures"
                             {[ "id" := "12345" ]} (mkState ∅ [] 0) _ _ _
                             eq_refl eq_refl eq_refl eq_refl
                             eq_refl eq_refl eq_refl)) _).
  reflexivity.
Defined.

Example retry_after_honoured :
  (request_first (always_429 (Some "7")) "/fixtures" {[ "id" := "12345" ]}
                 (mkState ∅ [] 0)).2
  = mkState ∅ [Js.Int 7000; Js.Int 7000] 3.
Proof. reflexivity. Qed.


End ClientFacts.

(* ===================================================================== *)
(** ** The session store ([SessionManager]) *)
(* ===================================================================== *)

Module Store.

Inductive SessionStatus := pending | generating | completed | error.

Record ChatMessage := mkChat {
  role : string;
  content : string;
  timestamp : Z;
}.

(** A per-signal result.  The last four members are copied from the
    result of [analyzeSignal]; [None] is a member missing at run time
    (the checks of [analyzeSignal] do not look at [insights]). *)
Record PartialReport := mkPartial {
  p_categoryId : string;
  p_signalId : string;
  p_title : string;
  p_insights : option (list string);
  p_narrative : option string;
  p_emoji : option string;
  p_confidence : option Q;
}.

Record Section_ := mkSection {
  s_title : string;
  s_content : string;
  s_emoji : string;
}.

Record CategoryReport := mkCategoryReport {
  c_categoryId : string;
  c_title : string;
  c_sections : list Section_;
  c_talkingPoints : list string;
}.

Record Team := mkTeam { team_id : Z; team_name : string }.

(** The members of a fixture record that the pipeline reads. *)
Record FixtureData := mkFixture {
  home : Team;
  away : Team;
  league_id : Z;
  league_name : string;
  league_season : Z;
  date : string;
}.

(** The other fragments are opaque payloads (their JSON text). *)
Record CollectedData := mkCollected {
  fixture : option FixtureData;
  statistics : option string;
  injuries : option string;
  lineups : option string;
  h2h : option string;
  standings : option string;
}.

Definition no_data : CollectedData := mkCollected None None None None None None.

(** The [collectedData] member of an update: an object literal whose
    members are all optional.  For each one, [None] is a member the
    literal does not have, [Some None] a member given as [undefined],
    and [Some (Some d)] a member with a value. *)
Record CollectedUpdate := mkCollectedUpdate {
  cu_fixture : option (option FixtureData);
  cu_statistics : option (option string);
  cu_injuries : option (option string);
  cu_lineups : option (option string);
  cu_h2h : option (option string);
  cu_standings : option (option string);
}.

(** The literal that has exactly the members of [f] that hold a value. *)
Definition members (f : CollectedData) : CollectedUpdate :=
  {| cu_fixture := Some <$> fixture f;
     cu_statistics := Some <$> statistics f;
     cu_injuries := Some <$> injuries f;
     cu_lineups := Some <$> lineups f;
     cu_h2h := Some <$> h2h f;
     cu_standings := Some <$> standings f |}.

Record Session := mkSession {
  sessionId : string;
  fixtureId : Z;
  createdAt : Z;
  status : SessionStatus;
  error_ : option string;
  collectedData : CollectedData;
  partialReports : gmap string PartialReport;    (* key: "category.signal" *)
  categoryReports : gmap string CategoryReport;  (* key: "category" *)
  finalReport : option string;
  chatHistory : list ChatMessage;
}.

Record UpdateSessionParams := mkUpdate {
  u_status : option SessionStatus;
  u_error : option string;
  u_collectedData : option CollectedUpdate;
  u_partialReport : option (string * PartialReport);
  u_categoryReport : option (string * CategoryReport);
  u_finalReport : option string;
  u_chatMessage : option ChatMessage;
}.

Definition no_update : UpdateSessionParams :=
  mkUpdate None None None None None None None.

(** The manager: the [sessions] map and [SESSION_TTL], which is
    [parseInt(process.env.SESSION_TTL_MS || '7200000')]. *)
Record SessionManager := mkManager {
  sessions : gmap string Session;
  SESSION_TTL : Js.Num;
}.

Definition session_ttl (env : option string) : Js.Num :=
  match env with
  | Some s => if Js.truthy_str s then Js.parseInt s else Js.Int 7200000
  | None => Js.Int 7200000
  end.

Definition new (env : option string) : SessionManager :=
  {| sessions := ∅; SESSION_TTL := session_ttl env |}.

(** [Date.now() - session.createdAt > this.SESSION_TTL]; a comparison
    with [NaN] is false. *)
Definition expired (m : SessionManager) (now : Z) (s : Session) : bool :=
  Js.gt (now - createdAt s) (SESSION_TTL m).

Definition createSession (now : Z) (uuid : string) (fixtureId : Z) (m : SessionManager)
  : string * SessionManager :=
  let session := {| sessionId := uuid; fixtureId := fixtureId; createdAt := now;
                    status := pending; error_ := None; collectedData := no_data;
                    partialReports := ∅; categoryReports := ∅;
                    finalReport := None; chatHistory := [] |} in
  (uuid, {| sessions := <[uuid := session]> (sessions m); SESSION_TTL := SESSION_TTL m |}).

Definition deleteSession (sessionId : string) (m : SessionManager) : bool * SessionManager :=
  (bool_decide (is_Some (sessions m !! sessionId)),
   {| sessions := delete sessionId (sessions m); SESSION_TTL := SESSION_TTL m |}).

(** [getSession]: an expired session is deleted on the way. *)
Definition getSession (now : Z) (sessionId : string) (m : SessionManager)
  : option Session * SessionManager :=
  match sessions m !! sessionId with
  | None => (None, m)
  | Some session =>
      if expired m now session then (None, (deleteSession sessionId m).2)
      else (Some session, m)
  end.

(** [new || old] on values of which only [undefined] is falsy here. *)
Definition over {A} (new old : option A) : option A :=
  match new with Some _ => new | None => old end.

(** One member under the spread: a member the later literal has
    replaces the earlier one, also when it is [undefined]. *)
Definition spread {A} (new : option (option A)) (old : option A) : option A :=
  match new with Some v => v | None => old end.

(** [{...session.collectedData, ...updates.collectedData}] *)
Definition merge_collected (old : CollectedData) (upd : CollectedUpdate) : CollectedData :=
  {| fixture := spread (cu_fixture upd) (fixture old);
     statistics := spread (cu_statistics upd) (statistics old);
     injuries := spread (cu_injuries upd) (injuries old);
     lineups := spread (cu_lineups upd) (lineups old);
     h2h := spread (cu_h2h upd) (h2h old);
     standings := spread (cu_standings upd) (standings old) |}.

(** What the spread gives for a literal without [undefined] members:
    the members of [upd] that hold a value laid over [old]. *)
Definition add_collected (old upd : CollectedData) : CollectedData :=
  {| fixture := over (fixture upd) (fixture old);
     statistics := over (statistics upd) (statistics old);
     injuries := over (injuries upd) (injuries old);
     lineups := over (lineups upd) (lineups old);
     h2h := over (h2h upd) (h2h old);
     standings := over (standings upd) (standings old) |}.

Definition truthy_opt (o : option string) : option string :=
  match o with
  | Some s => if Js.truthy_str s then Some s else None
  | None => None
  end.

(** The body of [updateSession] once the session is in hand: each member
    of [updates] that is present (and truthy) is applied in turn. *)
Definition apply_update (updates : UpdateSessionParams) (session : Session) : Session :=
  {| sessionId := sessionId session;
     fixtureId := fixtureId session;
     createdAt := createdAt session;
     status := from_option id (status session) (u_status updates);
     error_ := over (truthy_opt (u_error updates)) (error_ session);
     collectedData :=
       match u_collectedData updates with
       | Some cd => merge_collected (collectedData session) cd
       | None => collectedData session
       end;
     partialReports :=
       match u_partialReport updates with
       | Some (key, report) => <[key := report]> (partialReports session)
       | None => partialReports session
       end;
     categoryReports :=
       match u_categoryReport updates with
       | Some (key, report) => <[key := report]> (categoryReports session)
       | None => categoryReports session
       end;
     finalReport := over (truthy_opt (u_finalReport updates)) (finalReport session);
     chatHistory :=
       match u_chatMessage updates with
       | Some msg => chatHistory session ++ [msg]
       | None => chatHistory session
       end |}.

Definition updateSession (now : Z) (sessionId : string) (updates : UpdateSessionParams)
    (m : SessionManager) : bool * SessionManager :=
  match getSession now sessionId m with
  | (None, m') => (false, m')
  | (Some session, m') =>
      (true, {| sessions := <[sessionId := apply_update updates session]> (sessions m');
                SESSION_TTL := SESSION_TTL m' |})
  end.

(** [cleanupExpiredSessions] *)
Definition cleanupExpiredSessions (now : Z) (m : SessionManager) : nat * SessionManager :=
  let kept := filter (λ kv, expired m now kv.2 = false) (sessions m) in
  ((size (sessions m) - size kept)%nat,
   {| sessions := kept; SESSION_TTL := SESSION_TTL m |}).

Definition getActiveSessionsCount (m : SessionManager) : nat := size (sessions m).

End Store.

(* ===================================================================== *)
(** ** The report blueprint ([blueprint.ts]) *)
(* ===================================================================== *)

Module Blueprint.

Record SignalDefinition := mkSignal {
  sig_id : string;
  sig_name : string;
  sig_description : string;
  dataRequirements : list string;
}.

Record CategoryDefinition := mkCategory {
  cat_id : string;
  cat_name : string;
  cat_description : string;
  cat_emoji : string;
  signals : list SignalDefinition;
}.

Definition REPORT_BLUEPRINT : list CategoryDefinition :=
  [ mkCategory "game_context" "Game Context"
      "Essential match information and context" "⚽"
      [ mkSignal "home_vs_away" "Home vs Away Analysis"
          "Team names, venue advantage, and basic matchup info" ["fixture"];
        mkSignal "competition_round_schedule" "Competition Context"
          "League, round, season context, and schedule positioning"
          ["fixture"; "standings"];
        mkSignal "kickoff_weather_pitch" "Match Conditions"
          "Kickoff time, weather conditions, pitch status" ["fixture"] ];
    mkCategory "team_context" "Team Context"
      "Recent form and tactical trends" "📊"
      [ mkSignal "recent_form_results" "Recent Form & Results"
          "Last 5-10 matches for each team, win/loss patterns" ["standings"; "h2h"];
        mkSignal "tactical_shape_trends" "Tactical Shape & Trends"
          "Formation preferences, style of play, tactical evolution"
          ["lineups"; "statistics"] ];
    mkCategory "key_players" "Key Players"
      "Critical players and lineup information" "⭐"
      [ mkSignal "key_players_lineup" "Key Players & Expected Lineup"
          "Star players, probable starting XI, tactical roles"
          ["lineups"; "statistics"];
        mkSignal "injury_report" "Injuries & Suspensions"
          "Unavailable players, impact on team strength" ["injuries"] ];
    mkCategory "tactical_battle" "Tactical Battle"
      "Strategic matchups and managerial approach" "🎯"
      [ mkSignal "managerial_approach" "Managerial Approach"
          "Coach philosophy, recent tactical decisions" ["lineups"; "statistics"];
        mkSignal "matchup_analysis" "Key Matchups"
          "Position-by-position battles, tactical weaknesses to exploit"
          ["lineups"; "statistics"] ];
    mkCategory "psych_context" "Psychological Context"
      "Mental factors and historical context" "🧠"
      [ mkSignal "motivation_factors" "Motivation & Stakes"
          "What each team is playing for, psychological drivers"
          ["fixture"; "standings"];
        mkSignal "h2h_history_psychology" "Head-to-Head Psychology"
          "Recent H2H results, psychological edge, historical trends" ["h2h"] ] ].

(** [getAllSignals]: every signal with its category id, in blueprint order. *)
Definition getAllSignals : list (string * SignalDefinition) :=
  flat_map (λ category, map (λ signal, (cat_id category, signal)) (signals category))
           REPORT_BLUEPRINT.

(** The composite key [`${categoryId}.${signal.id}`]. *)
Definition composite_key (categoryId : string) (signal : SignalDefinition) : string :=
  categoryId +:+ "." +:+ sig_id signal.

Definition task_key (task : string * SignalDefinition) : string :=
  composite_key task.1 task.2.

End Blueprint.

(* ===================================================================== *)
(** ** The progress tracker ([ProgressTracker]) *)
(* ===================================================================== *)

Module Tracker.

Inductive ProgressStage :=
  data_collection | signal_generation | category_merge | final_synthesis.

Record Details := mkDetails {
  current : option Z;
  total : option Z;
  d_categoryId : option string;
  d_signalId : option string;
}.

Record ProgressUpdate := mkProgress {
  stage : ProgressStage;
  progress : Z;                    (* 0-100 *)
  message : string;
  currentTask : option string;
  details : option Details;
}.

Record ProgressTracker := mkTracker {
  totalSignals : Z;
  totalCategories : Z;
  completedSignals : Z;
  completedCategories : Z;
}.

Definition new (totalSignals totalCategories : Z) : ProgressTracker :=
  mkTracker totalSignals totalCategories 0 0.

(** [20 + Math.floor((completedSignals / totalSignals) * 50)].  The source
    computes the quotient in floating point; for positive totals the
    integer quotient below is its mathematical value, and both are
    monotone in the counter.  [float_agrees] further down checks that the
    two coincide for the totals of the blueprint. *)
Definition signal_percent (t : ProgressTracker) : Z :=
  20 + (completedSignals t * 50) / totalSignals t.

(** [70 + Math.floor((completedCategories / totalCategories) * 20)] *)
Definition category_percent (t : ProgressTracker) : Z :=
  70 + (completedCategories t * 20) / totalCategories t.

(** Each [emit...] gives the tracker after the call and the update handed
    to the callback. *)
Definition emitDataCollection (message : string) (t : ProgressTracker)
  : ProgressTracker * ProgressUpdate :=
  (t, mkProgress data_collection 10 message (Some message) None).

Definition emitSignalStart (categoryId signalId signalName : string) (t : ProgressTracker)
  : ProgressTracker * ProgressUpdate :=
  (t, mkProgress signal_generation (signal_percent t)
        ("Analyzing: " +:+ signalName) (Some signalName)
        (Some (mkDetails (Some (completedSignals t + 1)) (Some (totalSignals t))
                         (Some categoryId) (Some signalId)))).

Definition emitSignalComplete (categoryId signalId : string) (t : ProgressTracker)
  : ProgressTracker * ProgressUpdate :=
  let t' := mkTracker (totalSignals t) (totalCategories t)
                      (completedSignals t + 1) (completedCategories t) in
  (t', mkProgress signal_generation (signal_percent t')
         ("Completed " +:+ pretty (completedSignals t') +:+ "/"
            +:+ pretty (totalSignals t') +:+ " signals") None
         (Some (mkDetails (Some (completedSignals t')) (Some (totalSignals t'))
                          (Some categoryId) (Some signalId)))).

Definition emitCategoryStart (categoryId categoryName : string) (t : ProgressTracker)
  : ProgressTracker * ProgressUpdate :=
  (t, mkProgress category_merge (category_percent t)
        ("Merging category: " +:+ categoryName) (Some categoryName)
        (Some (mkDetails (Some (completedCategories t + 1)) (Some (totalCategories t))
                         (Some categoryId) None))).

Definition emitCategoryComplete (categoryId : string) (t : ProgressTracker)
  : ProgressTracker * ProgressUpdate :=
  let t' := mkTracker (totalSignals t) (totalCategories t)
                      (completedSignals t) (completedCategories t + 1) in
  (t', mkProgress category_merge (category_percent t')
         ("Completed " +:+ pretty (completedCategories t') +:+ "/"
            +:+ pretty (totalCategories t') +:+ " categories") None
         (Some (mkDetails (Some (completedCategories t')) (Some (totalCategories t'))
                          (Some categoryId) None))).

Definition emitFinalSynthesis (message : string) (progress : Z) (t : ProgressTracker)
  : ProgressTracker * ProgressUpdate :=
  (t, mkProgress final_synthesis (90 + progress) message (Some message) None).

Definition getCurrentProgress (t : ProgressTracker) : Z :=
  if completedSignals t <? totalSignals t then signal_percent t
  else if completedCategories t <? totalCategories t then category_percent t
  else 90.

(** The same percentages in double precision, as the source computes
    them.  [floor_is x k] says that [Math.floor(x)] is the integer [k]. *)
Definition floor_is (x : float) (k : Z) : bool :=
  PrimFloat.leb (PrimFloat.of_uint63 (Uint63.of_Z k)) x
  && PrimFloat.ltb x (PrimFloat.of_uint63 (Uint63.of_Z (k + 1))).

(** [Math.floor((completed / total) * scale)] is the integer quotient. *)
Definition float_agrees_at (completed total scale : Z) : bool :=
  floor_is (PrimFloat.mul
              (PrimFloat.div (PrimFloat.of_uint63 (Uint63.of_Z completed))
                             (PrimFloat.of_uint63 (Uint63.of_Z total)))
              (PrimFloat.of_uint63 (Uint63.of_Z scale)))
           (completed * scale / total).

End Tracker.

(* ===================================================================== *)
(** ** The completion chains ([signal-chain.ts], [category-chain.ts],
       [final-chain.ts], [model-factory.ts]) *)
(* ===================================================================== *)

Module Chains.

(** An exception-or-value result; the payload of [Throw] is the message
    of the [Error] thrown. *)
Inductive Res (A : Type) := Ok (a : A) | Throw (message : string).
Arguments Ok {A} _.
Arguments Throw {A} _.

(** What [chain.invoke] does: it rejects (the text is the rendering of
    the rejection, as a template literal prints it) or resolves. *)
Inductive ChainOutcome (A : Type) := Rejects (rendered : string) | Resolves (result : A).
Arguments Rejects {A} _.
Arguments Resolves {A} _.

(** The structured result of the signal chain as it is at run time: any
    member may be missing ([None]). *)
Record SignalReportOutput := mkSignalOutput {
  insights : option (list string);
  narrative : option string;
  emoji : option string;
  confidence : option Q;        (* [None]: not of type number; a number is
                                    taken to be a rational *)
}.

Record SignalChainInput := mkSignalInput {
  si_homeTeam : string;
  si_awayTeam : string;
  si_league : string;
  si_date : string;
  signalName : string;
  signalDescription : string;
  si_collectedData : string;
}.

Record CategoryReportOutput := mkCategoryOutput {
  co_title : string;
  co_sections : list Store.Section_;
  co_talkingPoints : list string;
}.

Record CategoryChainInput := mkCategoryInput {
  ci_homeTeam : string;
  ci_awayTeam : string;
  categoryName : string;
  categoryEmoji : string;
  signalReports : string;
}.

Record FinalReportOutput := mkFinalOutput {
  fo_title : string;
  fo_subtitle : string;
  fo_sections : list Store.Section_;
  quickTalkingPoints : list string;
}.

Record FinalChainInput := mkFinalInput {
  fi_homeTeam : string;
  fi_awayTeam : string;
  fi_league : string;
  fi_date : string;
  fi_categoryReports : string;
}.

(** The completion service and its configuration. *)
Record Model := mkModel {
  OPENAI_API_KEY : option string;
  signalChain : SignalChainInput → ChainOutcome SignalReportOutput;
  categoryChain : CategoryChainInput → ChainOutcome CategoryReportOutput;
  finalChain : FinalChainInput → ChainOutcome FinalReportOutput;
}.

(** [getChatModel] throws when the key is not set; the three
    [create...Chain] functions call it first. *)
Definition getChatModel (m : Model) : Res unit :=
  match Store.truthy_opt (OPENAI_API_KEY m) with
  | Some _ => Ok tt
  | None => Throw "OPENAI_API_KEY environment variable is not set"
  end.

Definition fallback (input : SignalChainInput) : SignalReportOutput :=
  {| insights := Some ["Unable to analyze " +:+ signalName input
                         +:+ " - data temporarily unavailable"];
     narrative := Some ("Analysis for " +:+ signalName input
                          +:+ " could not be completed at this time due to processing limitations.");
     emoji := Some "⚽";
     confidence := Some (3 # 10)%Q |}.

(** [!result.narrative || !result.emoji || typeof result.confidence !== 'number'] *)
Definition incomplete (result : SignalReportOutput) : bool :=
  negb (bool_decide (is_Some (Store.truthy_opt (narrative result))))
  || negb (bool_decide (is_Some (Store.truthy_opt (emoji result))))
  || negb (bool_decide (is_Some (confidence result))).

Definition fill_defaults (result : SignalReportOutput) : SignalReportOutput :=
  {| insights := Some (from_option id [] (insights result));
     narrative := Some (from_option id "No narrative available - data analysis in progress."
                                    (Store.truthy_opt (narrative result)));
     emoji := Some (from_option id "⚽" (Store.truthy_opt (emoji result)));
     confidence := Some (from_option id (1 # 2)%Q (confidence result)) |}.

(** The part of [analyzeSignal] that runs once [chain.invoke] has
    settled: the [try] block after the [await], and the [catch]. *)
Definition settle_signal (input : SignalChainInput)
    (outcome : ChainOutcome SignalReportOutput) : SignalReportOutput :=
  match outcome with
  | Resolves result => if incomplete result then fill_defaults result else result
  | Rejects _ => fallback input
  end.

(** [analyzeSignal]: the chain is created before the [try]. *)
Definition analyzeSignal (m : Model) (input : SignalChainInput) : Res SignalReportOutput :=
  match getChatModel m with
  | Throw e => Throw e
  | Ok _ => Ok (settle_signal input (signalChain m input))
  end.

Definition mergeCategory (m : Model) (input : CategoryChainInput) : Res CategoryReportOutput :=
  match getChatModel m with
  | Throw e => Throw e
  | Ok _ =>
      match categoryChain m input with
      | Resolves result => Ok result
      | Rejects rendered =>
          Throw ("Failed to merge category " +:+ Js.dquote +:+ categoryName input
                   +:+ Js.dquote +:+ ": " +:+ rendered)
      end
  end.

Definition synthesizeFinalReport (m : Model) (input : FinalChainInput) : Res FinalReportOutput :=
  match getChatModel m with
  | Throw e => Throw e
  | Ok _ =>
      match finalChain m input with
      | Resolves result => Ok result
      | Rejects rendered => Throw ("Failed to synthesize final report: " +:+ rendered)
      end
  end.

End Chains.

(* ===================================================================== *)
(** ** The pipeline orchestrator ([ReportGenerator], generator.ts) *)
(* ===================================================================== *)

Module Generator.
Import Chains.

(** What the [APIFootballProxy] methods return. *)
Record ProxyResult (T : Type) := mkProxy {
  success : bool;
  data : option T;
  error : option string;
  statusCode : option Z;
}.
Arguments mkProxy {T} _ _ _ _.
Arguments success {T} _.
Arguments data {T} _.
Arguments error {T} _.
Arguments statusCode {T} _.

(** Everything one run obtains from outside.  [clock n] is the value of
    the [n]-th [Date.now()] read of the run; [schedule k] decides which
    of the runnable stage-2 workers resumes at the [k]-th scheduling
    point.  The formatting helpers are functions of opaque payloads:
    [formatCollectedDataForSignal] may throw on a malformed payload, the
    others only render text.

    [progressCallback n u] is what the caller's progress callback does
    when it is called for the [n]-th time (counting from 0), with the
    update [u]: it returns ([None]) or throws.  The text is the message
    of the error thrown or, for a value that is not an [Error], the
    text the [catch] clauses put in its place ("Unknown error").

    [lingering] bounds the resumptions of the other workers between
    the moment a stage-2 worker is rejected and the moment the
    rejection has reached the [catch] of [generate]: a worker that
    [Array.from] has not started yet is started, and continuations that
    were already queued run first.  The workers that are still
    suspended at that moment go on on their own once the run has
    settled; what they do then is not part of the result of the run. *)
Record World := mkWorld {
  clock : nat → Z;
  requestsPerMinute : option string;      (* APIFOOTBALL_REQUESTS_PER_MINUTE *)
  model : Model;
  getFixtures : Z → ProxyResult (list Store.FixtureData);
  getStatistics : Z → ProxyResult string;
  getInjuries : Z → ProxyResult string;
  getLineups : Z → ProxyResult string;
  getH2H : string → ProxyResult string;
  getStandings : Z → Z → ProxyResult string;
  formatCollectedDataForSignal : Store.CollectedData → list string → Res string;
  toLocaleDateString : string → string;
  renderPartialReports : list Store.PartialReport → string;
  formatCategoryReportsForFinal : gmap string Store.CategoryReport → string;
  renderFinalReport : FinalReportOutput → string;
  schedule : nat → nat;
  progressCallback : nat → Tracker.ProgressUpdate → option string;
  lingering : nat;
}.

(** The same world around another progress callback. *)
Definition with_callback (cb : nat → Tracker.ProgressUpdate → option string) (w : World)
  : World :=
  mkWorld (clock w) (requestsPerMinute w) (model w) (getFixtures w) (getStatistics w)
          (getInjuries w) (getLineups w) (getH2H w) (getStandings w)
          (formatCollectedDataForSignal w) (toLocaleDateString w)
          (renderPartialReports w) (formatCategoryReportsForFinal w)
          (renderFinalReport w) (schedule w) cb (lingering w).

(** The same world with another bound on the resumptions that follow a
    rejection in stage 2. *)
Definition with_lingering (n : nat) (w : World) : World :=
  mkWorld (clock w) (requestsPerMinute w) (model w) (getFixtures w) (getStatistics w)
          (getInjuries w) (getLineups w) (getH2H w) (getStandings w)
          (formatCollectedDataForSignal w) (toLocaleDateString w)
          (renderPartialReports w) (formatCategoryReportsForFinal w)
          (renderFinalReport w) (schedule w) (progressCallback w) n.

(** The progress callback returns normally whenever it is called. *)
Definition callback_returns (w : World) : Prop :=
  ∀ n u, progressCallback w n u = None.

(** One [updateSession] call of a run: the update handed over, and the
    session found in the store under the run's id once the call has
    returned. *)
Record Write := mkWrite {
  written : Store.UpdateSessionParams;
  stored : option Store.Session;
}.

(** The state a run works on: the session manager, the tracker, the
    updates the progress callback has been called with so far (whether
    it returned or threw), the throttle and the number of clock reads.
    [calls] records the [updateSession] calls of the run in order;
    nothing reads it. *)
Record GenState := mkGen {
  manager : Store.SessionManager;
  tracker : Tracker.ProgressTracker;
  emitted : list Tracker.ProgressUpdate;
  throttle : Throttle.RequestThrottle;
  ticks : nat;
  calls : list Write;
}.

(** *** A state-and-exception monad *)

Definition M (A : Type) : Type := GenState → Res A * GenState.

Definition ret {A} (a : A) : M A := λ gs, (Ok a, gs).
Definition throw {A} (message : string) : M A := λ gs, (Throw message, gs).

Definition bind {A B} (m : M A) (f : A → M B) : M B :=
  λ gs, match m gs with
        | (Ok a, gs') => f a gs'
        | (Throw e, gs') => (Throw e, gs')
        end.

Notation "'let!' x := m 'in' k" := (bind m (λ x, k))
  (at level 10, x name, m at level 100, k at level 200).
Notation "m >> k" := (bind m (λ _, k)) (at level 80, right associativity).

Definition try_catch {A} (body : M A) (handler : string → M A) : M A :=
  λ gs, match body gs with
        | (Ok a, gs') => (Ok a, gs')
        | (Throw e, gs') => handler e gs'
        end.

Definition lift {A} (r : Res A) : M A := λ gs, (r, gs).

(** A stage-2 task: a category id with one of its signals. *)
Abbreviation Task := (string * Blueprint.SignalDefinition)%type.

Section Run.
Context (w : World) (sessionId : string).

(** [Date.now()] *)
Definition now : M Z :=
  λ gs, (Ok (clock w (ticks gs)),
         mkGen (manager gs) (tracker gs) (emitted gs) (throttle gs)
               (S (ticks gs)) (calls gs)).

Definition with_manager (m : Store.SessionManager) (gs : GenState) : GenState :=
  mkGen m (tracker gs) (emitted gs) (throttle gs) (ticks gs) (calls gs).

(** [sessionManager.getSession(this.sessionId)] *)
Definition getSession : M (option Store.Session) :=
  let! t := now in
  λ gs, let '(r, m) := Store.getSession t sessionId (manager gs) in
        (Ok r, with_manager m gs).

(** [sessionManager.updateSession(this.sessionId, updates)] *)
Definition updateSession (updates : Store.UpdateSessionParams) : M bool :=
  let! t := now in
  λ gs, let '(r, m) := Store.updateSession t sessionId updates (manager gs) in
        (Ok r, mkGen m (tracker gs) (emitted gs) (throttle gs) (ticks gs)
                     (calls gs ++ [mkWrite updates (Store.sessions m !! sessionId)])).

(** What the progress callback does with its next call. *)
Definition called (u : Tracker.ProgressUpdate) (gs : GenState) : Res unit :=
  match progressCallback w (length (emitted gs)) u with
  | None => Ok tt
  | Some message => Throw message
  end.

(** A tracker method: the tracker is updated and the update is handed
    to the progress callback, whose exception, if any, leaves the
    method. *)
Definition emit (method : Tracker.ProgressTracker →
                          Tracker.ProgressTracker * Tracker.ProgressUpdate) : M unit :=
  λ gs, let '(t, u) := method (tracker gs) in
        (called u gs, mkGen (manager gs) t (emitted gs ++ [u]) (throttle gs)
                            (ticks gs) (calls gs)).

(** [this.progressCallback(update)] *)
Definition callback (u : Tracker.ProgressUpdate) : M unit :=
  λ gs, (called u gs, mkGen (manager gs) (tracker gs) (emitted gs ++ [u]) (throttle gs)
                            (ticks gs) (calls gs)).

(** [await this.throttle.throttle()]: within one generator the calls
    never overlap.  The clock is read on entry and again when the
    call completes (after the timer, when one was armed). *)
Definition throttle_ : M unit :=
  let! _ := now in
  let! t := now in
  λ gs, (Ok tt, mkGen (manager gs) (tracker gs) (emitted gs)
                      (Throttle.mkThrottle t (Throttle.minDelayMs (throttle gs)))
                      (ticks gs) (calls gs)).

(** An update whose [collectedData] literal has the members of [f]
    that hold a value, and no other. *)
Definition collected (f : Store.CollectedData) : Store.UpdateSessionParams :=
  Store.mkUpdate None None (Some (Store.members f)) None None None None.

(** [haystack.includes(needle)] *)
Fixpoint includes (needle haystack : string) : bool :=
  String.prefix needle haystack
  || match haystack with
     | String _ rest => includes needle rest
     | EmptyString => false
     end.

(** One best-effort fragment of stage 1: announce, throttle, fetch, and
    store the payload when the fetch succeeded. *)
Definition fragment (message : string) (result : ProxyResult string)
    (store : string → Store.CollectedData) : M unit :=
  emit (Tracker.emitDataCollection message) >>
  throttle_ >>
  match success result, data result with
  | true, Some d => updateSession (collected (store d)) >> ret tt
  | _, _ => ret tt
  end.

(** Stage 1: collect all required data. *)
Definition collectData (session : Store.Session) : M unit :=
  emit (Tracker.emitDataCollection "Fetching fixture details...") >>
  throttle_ >>
  let fixtureResult := getFixtures w (Store.fixtureId session) in
  let! fixture :=
    match success fixtureResult, data fixtureResult with
    | true, Some (first :: _) =>
        updateSession (collected
          (Store.mkCollected (Some first) None None None None None)) >>
        ret first
    | _, _ => throw "Failed to fetch fixture details"
    end in
  let homeTeamId := Store.team_id (Store.home fixture) in
  let awayTeamId := Store.team_id (Store.away fixture) in
  fragment "Fetching match statistics..." (getStatistics w (Store.fixtureId session))
    (λ d, Store.mkCollected None (Some d) None None None None) >>
  fragment "Fetching injury reports..." (getInjuries w (Store.fixtureId session))
    (λ d, Store.mkCollected None None (Some d) None None None) >>
  fragment "Fetching team lineups..." (getLineups w (Store.fixtureId session))
    (λ d, Store.mkCollected None None None (Some d) None None) >>
  fragment "Fetching head-to-head history..."
    (getH2H w (pretty homeTeamId +:+ "-" +:+ pretty awayTeamId))
    (λ d, Store.mkCollected None None None None (Some d) None) >>
  emit (Tracker.emitDataCollection "Fetching league standings...") >>
  throttle_ >>
  let standingsResult :=
    getStandings w (Store.league_id fixture) (Store.league_season fixture) in
  match success standingsResult, data standingsResult with
  | true, Some d =>
      updateSession (collected
        (Store.mkCollected None None None None None (Some d))) >> ret tt
  | _, _ =>
      if negb (success standingsResult)
         && match error standingsResult with
            | Some e => includes "Free plans" e
            | None => false
            end
      then
        let fallbackResult := getStandings w (Store.league_id fixture) 2023 in
        match success fallbackResult, data fallbackResult with
        | true, Some d =>
            updateSession (collected
              (Store.mkCollected None None None None None (Some d))) >> ret tt
        | _, _ => ret tt
        end
      else ret tt
  end >>
  emit (Tracker.emitDataCollection "Data collection completed").

(** *** Stage 2: the signal tasks and the worker pool *)

Definition signal_input (fixture : Store.FixtureData) (signal : Blueprint.SignalDefinition)
    (collectedDataStr : string) : SignalChainInput :=
  {| si_homeTeam := Store.team_name (Store.home fixture);
     si_awayTeam := Store.team_name (Store.away fixture);
     si_league := Store.league_name fixture;
     si_date := toLocaleDateString w (Store.date fixture);
     signalName := Blueprint.sig_name signal;
     signalDescription := Blueprint.sig_description signal;
     si_collectedData := collectedDataStr |}.

Definition partial_report (task : Task) (result : SignalReportOutput) : Store.PartialReport :=
  {| Store.p_categoryId := task.1;
     Store.p_signalId := Blueprint.sig_id task.2;
     Store.p_title := Blueprint.sig_name task.2;
     Store.p_insights := insights result;
     Store.p_narrative := narrative result;
     Store.p_emoji := emoji result;
     Store.p_confidence := confidence result |}.

(** The [try] block of a task up to its suspension in [chain.invoke]:
    the latest session snapshot, the formatted data, and the creation
    of the chain (the first thing [analyzeSignal] does).  A [Throw]
    ends up in the [catch] of the task. *)
Definition task_prepare (task : Task) : M SignalChainInput :=
  let! latestSession := getSession in
  match latestSession with
  | None => throw "Session lost"
  | Some latestSession =>
      match Store.fixture (Store.collectedData latestSession) with
      | None => throw "Fixture data not available"
      | Some latestFixture =>
          let! collectedDataStr :=
            lift (formatCollectedDataForSignal w
                    (Store.collectedData latestSession)
                    (Blueprint.dataRequirements task.2)) in
          lift (getChatModel (model w)) >>
          ret (signal_input latestFixture task.2 collectedDataStr)
      end
  end.

(** The start event of a task.  It precedes the [try]: an exception of
    the progress callback here leaves the task, and with it the worker,
    which has no [catch]. *)
Definition task_start (task : Task) : M unit :=
  emit (Tracker.emitSignalStart task.1 (Blueprint.sig_id task.2)
                                (Blueprint.sig_name task.2)).

(** The task once [chain.invoke] has settled: the result (or its
    fallback) becomes the partial report written under the task's
    composite key, then the completion event.  Both are inside the
    [try]: an exception of the progress callback at the completion
    event is caught by the task, after the report has been written. *)
Definition task_resume (task : Task) (input : SignalChainInput) : M unit :=
  let result := settle_signal input (signalChain (model w) input) in
  updateSession
    (Store.mkUpdate None None None
       (Some (Blueprint.task_key task, partial_report task result))
       None None None) >>
  emit (Tracker.emitSignalComplete task.1 (Blueprint.sig_id task.2)).

Inductive Worker :=
| Idle                                              (* at the loop test *)
| Awaiting (current : nat) (input : SignalChainInput)  (* suspended in its task *)
| Finished                                          (* left the loop *)
| Rejected (message : string).                      (* left by an exception *)

Record Pool := mkPool {
  gen : GenState;
  nextIndex : nat;
  workers : list Worker;
}.

(** One resumption of worker [i].  At the loop test it claims the next
    index and runs the task to its suspension (an exception of the
    start event rejects the worker; one inside the [try] is caught
    there and the worker is back at the loop test), or leaves the loop
    when no index remains.  Suspended, it runs the rest of its task. *)
Definition worker_step (tasks : list Task) (i : nat) (p : Pool) : Pool :=
  match workers p !! i with
  | Some Idle =>
      if decide (nextIndex p < length tasks)%nat then
        let current := nextIndex p in
        match tasks !! current with
        | Some task =>
            match task_start task (gen p) with
            | (Throw e, gs) => mkPool gs (S current) (<[i := Rejected e]> (workers p))
            | (Ok _, gs) =>
                match task_prepare task gs with
                | (Ok input, gs') =>
                    mkPool gs' (S current) (<[i := Awaiting current input]> (workers p))
                | (Throw _, gs') => mkPool gs' (S current) (workers p)
                end
            end
        | None => p
        end
      else mkPool (gen p) (nextIndex p) (<[i := Finished]> (workers p))
  | Some (Awaiting current input) =>
      match tasks !! current with
      | Some task =>
          mkPool (task_resume task input (gen p)).2 (nextIndex p)
                 (<[i := Idle]> (workers p))
      | None => p
      end
  | _ => p
  end.

Definition has_left (wk : option Worker) : bool :=
  match wk with Some Finished | Some (Rejected _) => true | _ => false end.

Definition runnable (ws : list Worker) : list nat :=
  filter (λ i, has_left (ws !! i) = false) (seq 0 (length ws)).

(** The exception [Promise.all] is rejected with, if any: that of a
    rejected worker ([pool_run] stops at the first one, so there is at
    most one when it is read). *)
Definition rejection (ws : list Worker) : option string :=
  head (omap (λ wk, match wk with Rejected e => Some e | _ => None end) ws).

(** The pool runs until a worker is rejected or every worker has left
    its loop: that is when [Promise.all] settles.  [k] counts the
    scheduling points. *)
Fixpoint pool_run (tasks : list Task) (fuel : nat) (k : nat) (p : Pool) : Pool :=
  match fuel with
  | O => p
  | S fuel' =>
      match rejection (workers p), runnable (workers p) with
      | Some _, _ | None, [] => p
      | None, first :: others =>
          let i := default first
                     ((first :: others) !! (schedule w k `mod` length (first :: others))%nat) in
          pool_run tasks fuel' (S k) (worker_step tasks i p)
      end
  end.

(** Up to [n] further resumptions of the workers that have not left,
    while the rejection is on its way to the [catch]. *)
Fixpoint linger (tasks : list Task) (n : nat) (k : nat) (p : Pool) : Pool :=
  match n with
  | O => p
  | S n' =>
      match runnable (workers p) with
      | [] => p
      | first :: others =>
          let i := default first
                     ((first :: others) !! (schedule w k `mod` length (first :: others))%nat) in
          linger tasks n' (S k) (worker_step tasks i p)
      end
  end.

Definition signalConcurrency : nat := 2.

(** Enough resumptions for every task to start and to finish and for
    every worker to leave (see [pool_run_finishes]). *)
Definition pool_fuel (tasks : list Task) : nat :=
  (2 * length tasks + signalConcurrency)%nat.

Definition generateSignals_on (tasks : list Task) : M unit :=
  let! updatedSession := getSession in
  match updatedSession with
  | None => throw "Session lost"
  | Some updatedSession =>
      match Store.fixture (Store.collectedData updatedSession) with
      | None => throw "Fixture data not available"
      | Some _ =>
          λ gs, let pool := mkPool gs 0 (replicate (min signalConcurrency (length tasks)) Idle) in
                let settled := pool_run tasks (pool_fuel tasks) 0 pool in
                match rejection (workers settled) with
                | None => (Ok tt, gen settled)
                | Some e =>
                    (Throw e,
                     gen (linger tasks (lingering w) (pool_fuel tasks) settled))
                end
      end
  end.

Definition generateSignals : M unit := generateSignals_on Blueprint.getAllSignals.

#[global] Arguments pool_run : simpl never.
#[global] Arguments linger : simpl never.

(** *** Stage 3: merge signals into category reports *)

(** [category.signals.map(...).filter((report) => report !== undefined)] *)
Definition category_partials (session : Store.Session)
    (category : Blueprint.CategoryDefinition) : list Store.PartialReport :=
  omap (λ signal, Store.partialReports session
                    !! Blueprint.composite_key (Blueprint.cat_id category) signal)
       (Blueprint.signals category).

(** [formatPartialReportsForCategory] reads [report.insights.slice] and
    the length of [report.narrative]: a report lacking either makes it
    throw a [TypeError]. *)
Definition formatPartialReportsForCategory (reports : list Store.PartialReport)
  : Res string :=
  if forallb (λ r, bool_decide (is_Some (Store.p_insights r))
                   && bool_decide (is_Some (Store.p_narrative r))) reports
  then Ok (renderPartialReports w reports)
  else Throw "Cannot read properties of undefined".

(** The body of the loop of [mergeCategories].  [updatedSession] is the
    object read at the start of the stage; nothing writes its
    [partialReports] during this stage. *)
Definition merge_one (updatedSession : Store.Session) (fixture : Store.FixtureData)
    (category : Blueprint.CategoryDefinition) : M unit :=
  emit (Tracker.emitCategoryStart (Blueprint.cat_id category)
                                  (Blueprint.cat_name category)) >>
  try_catch
    (let partialReports := category_partials updatedSession category in
     if decide (length partialReports = 0%nat) then ret tt
     else
       let! formattedReports := lift (formatPartialReportsForCategory partialReports) in
       let! result :=
         lift (mergeCategory (model w)
                 {| ci_homeTeam := Store.team_name (Store.home fixture);
                    ci_awayTeam := Store.team_name (Store.away fixture);
                    categoryName := Blueprint.cat_name category;
                    categoryEmoji := Blueprint.cat_emoji category;
                    signalReports := formattedReports |}) in
       updateSession
         (Store.mkUpdate None None None None
            (Some (Blueprint.cat_id category,
                   Store.mkCategoryReport (Blueprint.cat_id category)
                     (co_title result) (co_sections result) (co_talkingPoints result)))
            None None) >>
       emit (Tracker.emitCategoryComplete (Blueprint.cat_id category)))
    (λ _, ret tt).

Fixpoint for_each {A} (l : list A) (body : A → M unit) : M unit :=
  match l with
  | [] => ret tt
  | x :: rest => body x >> for_each rest body
  end.

Definition mergeCategories : M unit :=
  let! updatedSession := getSession in
  match updatedSession with
  | None => throw "Session lost"
  | Some updatedSession =>
      match Store.fixture (Store.collectedData updatedSession) with
      | None => throw "Fixture data not available"
      | Some fixture =>
          for_each Blueprint.REPORT_BLUEPRINT (merge_one updatedSession fixture)
      end
  end.

(** *** Stage 4: final synthesis *)

(** [formatFinalReportAsMarkdown]: a fixed template around the
    rendered members; it begins with a line break and the title
    heading, so it is never empty. *)
Definition formatFinalReportAsMarkdown (report : FinalReportOutput) : string :=
  String "010"%char ("# " +:+ fo_title report +:+ renderFinalReport w report).

Definition synthesizeFinal : M unit :=
  emit (Tracker.emitFinalSynthesis "Synthesizing final report..." 5) >>
  let! updatedSession := getSession in
  match updatedSession with
  | None => throw "Session lost"
  | Some updatedSession =>
      match Store.fixture (Store.collectedData updatedSession) with
      | None => throw "Fixture data not available"
      | Some fixture =>
          try_catch
            (let formattedCategories :=
               formatCategoryReportsForFinal w (Store.categoryReports updatedSession) in
             emit (Tracker.emitFinalSynthesis "Generating comprehensive analysis..." 7) >>
             let! result :=
               lift (synthesizeFinalReport (model w)
                       {| fi_homeTeam := Store.team_name (Store.home fixture);
                          fi_awayTeam := Store.team_name (Store.away fixture);
                          fi_league := Store.league_name fixture;
                          fi_date := toLocaleDateString w (Store.date fixture);
                          fi_categoryReports := formattedCategories |}) in
             emit (Tracker.emitFinalSynthesis "Formatting final report..." 9) >>
             let finalReport := formatFinalReportAsMarkdown result in
             updateSession
               (Store.mkUpdate None None None None None (Some finalReport) None) >>
             ret tt)
            (λ e, throw e)
      end
  end.

(** *** The main orchestration method *)

Definition status_update (s : Store.SessionStatus) (e : option string)
  : Store.UpdateSessionParams :=
  Store.mkUpdate (Some s) e None None None None None.

Definition new_tracker : M unit :=
  λ gs, (Ok tt,
         mkGen (manager gs)
               (Tracker.new (Z.of_nat (length Blueprint.getAllSignals))
                            (Z.of_nat (length Blueprint.REPORT_BLUEPRINT)))
               (emitted gs) (throttle gs) (ticks gs) (calls gs)).

Definition completion_update : Tracker.ProgressUpdate :=
  Tracker.mkProgress Tracker.final_synthesis 100 "Report generation completed!"
                     None None.

(** The four stages in order; an exception of any of them ends the
    sequence. *)
Definition stages (session : Store.Session) : M unit :=
  collectData session >>
  generateSignals >>
  mergeCategories >>
  synthesizeFinal.

Definition generate : M unit :=
  let! session := getSession in
  match session with
  | None => throw ("Session not found: " +:+ sessionId)
  | Some session =>
      new_tracker >>
      try_catch
        (updateSession (status_update Store.generating None) >>
         stages session >>
         updateSession (status_update Store.completed None) >>
         callback completion_update)
        (λ e, updateSession (status_update Store.error (Some e)) >> throw e)
  end.

(** [new ReportGenerator(sessionId, progressCallback)]: the state a run
    starts from, over the manager as it is. *)
Definition initial (m : Store.SessionManager) : GenState :=
  mkGen m (Tracker.new 0 0) []
        (Throttle.new (Throttle.configured_rate (requestsPerMinute w))) 0 [].

(** [generateReport(sessionId, progressCallback)] *)
Definition generateReport (m : Store.SessionManager) : Res unit * GenState :=
  generate (initial m).

End Run.

End Generator.

(* ===================================================================== *)
(** ** A concrete world *)
(* ===================================================================== *)

(** One fixture, a data source whose injuries and standings calls fail, a
    model that answers every signal but one, and a session created for
    fixture 12345.  The examples below run the pipeline on it. *)
Module Demo.
Import Chains Generator.

Definition fixture : Store.FixtureData :=
  Store.mkFixture (Store.mkTeam 1 "Home FC") (Store.mkTeam 2 "Away FC")
                  39 "League" 2024 "2024-05-01".

Definition succeeded {T} (d : T) : ProxyResult T := mkProxy true (Some d) None None.

Definition failed {T} (e : string) : ProxyResult T := mkProxy false None (Some e) None.

Definition good_signal : SignalReportOutput :=
  mkSignalOutput (Some ["a first insight"]) (Some "a narrative") (Some "e")
                 (Some (9 # 10)%Q).

(** The model rejects the call for the signal named "Match Conditions". *)
Definition model (apiKey : option string) : Model :=
  mkModel apiKey
    (λ input, if String.eqb (signalName input) "Match Conditions"
              then Rejects "Error: boom" else Resolves good_signal)
    (λ _, Resolves (mkCategoryOutput "a title" [] ["a talking point"]))
    (λ _, Resolves (mkFinalOutput "Title" "Subtitle" [] [])).

(** The collected data do not format for the signals that need the
    injuries fragment. *)
Definition format (cd : Store.CollectedData) (requirements : list string) : Res string :=
  if bool_decide ("injuries" ∈ requirements)
  then Throw "Cannot read properties of undefined"
  else Ok "{}".

Definition world (fixtures : ProxyResult (list Store.FixtureData)) (m : Model)
    (sch : nat → nat) : World :=
  mkWorld (λ _, 1000) None m
    (λ _, fixtures) (λ _, succeeded "statistics") (λ _, failed "no injuries")
    (λ _, succeeded "lineups") (λ _, succeeded "h2h")
    (λ _ _, failed "Free plans do not have access to this season")
    format (λ d, d) (λ _, "partials") (λ _, "categories") (λ _, " ...") sch
    (λ _ _, None) 0.

(** A progress callback that throws when it is called for the [k]-th
    time, as [controller.enqueue] does on a stream that has been
    closed. *)
Definition fails_at (k : nat) : nat → Tracker.ProgressUpdate → option string :=
  λ n _, if (n =? k)%nat then Some "Invalid state: Controller is already closed"
         else None.

(** A progress callback that throws at every completion event (the
    updates that name no current task) and returns at the others. *)
Definition fails_at_completions : nat → Tracker.ProgressUpdate → option string :=
  λ _ u, match Tracker.currentTask u with
         | None => Some "Invalid state: Controller is already closed"
         | Some _ => None
         end.

(** Everything works but the injuries fragment and one model call. *)
Definition usual (sch : nat → nat) : World :=
  world (succeeded [fixture]) (model (Some "sk-demo")) sch.

(** A manager with one fresh session, created at time 1000. *)
Definition manager0 : Store.SessionManager :=
  (Store.createSession 1000 "sid" 12345 (Store.new None)).2.

(** The same session once stage 1 has stored the fixture. *)
Definition manager1 : Store.SessionManager :=
  (Store.updateSession 1000 "sid"
     (collected (Store.mkCollected (Some fixture) None None None None None))
     manager0).2.

Definition session1 : Store.Session :=
  Store.mkSession "sid" 12345 1000 Store.pending None
    (Store.mkCollected (Some fixture) None None None None None) ∅ ∅ None [].

End Demo.

(* ===================================================================== *)
(** ** Reasoning about runs *)
(* ===================================================================== *)

Module RunLogic.
Import Chains Generator.

(** A triple with a normal and an exceptional postcondition. *)
Definition hoare {A} (P : GenState → Prop) (m : M A)
    (Q : A → GenState → Prop) (E : string → GenState → Prop) : Prop :=
  ∀ gs, P gs → match m gs with
               | (Ok a, gs') => Q a gs'
               | (Throw e, gs') => E e gs'
               end.

(** [m] leaves the component [proj] of the state alone. *)
Definition frame {A X} (proj : GenState → X) (m : M A) : Prop :=
  ∀ gs, proj (m gs).2 = proj gs.

Section Rules.
Context {A B : Type}.
Implicit Types (P : GenState → Prop) (E : string → GenState → Prop).

Lemma hoare_ret P (a : A) (Q : A → GenState → Prop) E :
  (∀ gs, P gs → Q a gs) → hoare P (ret a) Q E.
Proof. intros H gs HP. by apply H. Qed.

Lemma hoare_throw P e (Q : A → GenState → Prop) E :
  (∀ gs, P gs → E e gs) → hoare P (throw e) Q E.
Proof. intros H gs HP. by apply H. Qed.

Lemma hoare_lift P (r : Res A) (Q : A → GenState → Prop) E :
  (∀ gs, P gs → match r with Ok a => Q a gs | Throw e => E e gs end) →
  hoare P (lift r) Q E.
Proof. intros H gs HP. specialize (H gs HP). unfold lift. by destruct r. Qed.

Lemma hoare_bind P (m : M A) (f : A → M B) R (Q : B → GenState → Prop) E :
  hoare P m R E → (∀ a, hoare (R a) (f a) Q E) → hoare P (bind m f) Q E.
Proof.
  intros Hm Hf gs HP. specialize (Hm gs HP). unfold bind.
  destruct (m gs) as [[a|e] gs']; [by apply Hf|done].
Qed.

Lemma hoare_try_catch P (body : M A) handler (Q : A → GenState → Prop) E' E :
  hoare P body Q E' → (∀ e, hoare (E' e) (handler e) Q E) →
  hoare P (try_catch body handler) Q E.
Proof.
  intros Hb Hh gs HP. specialize (Hb gs HP). unfold try_catch.
  destruct (body gs) as [[a|e] gs']; [done|by apply Hh].
Qed.

Lemma hoare_conseq P P' (m : M A) (Q Q' : A → GenState → Prop) E E' :
  hoare P' m Q' E' →
  (∀ gs, P gs → P' gs) → (∀ a gs, Q' a gs → Q a gs) → (∀ e gs, E' e gs → E e gs) →
  hoare P m Q E.
Proof.
  intros Hm HP HQ HE gs Hgs. specialize (Hm gs (HP gs Hgs)).
  destruct (m gs) as [[a|e] gs']; auto.
Qed.

(** A framed command keeps any property of the framed component. *)
Lemma hoare_frame {X} (proj : GenState → X) (V : X → Prop) (m : M A) :
  frame proj m →
  hoare (λ gs, V (proj gs)) m (λ _ gs, V (proj gs)) (λ _ gs, V (proj gs)).
Proof.
  intros Hf gs HP. specialize (Hf gs).
  destruct (m gs) as [[a|e] gs']; simpl in Hf; by rewrite Hf.
Qed.

Lemma hoare_framed {X} (proj : GenState → X) (V : X → Prop) (m : M A)
    (Q : A → GenState → Prop) E :
  frame proj m →
  (∀ a gs, V (proj gs) → Q a gs) → (∀ e gs, V (proj gs) → E e gs) →
  hoare (λ gs, V (proj gs)) m Q E.
Proof.
  intros Hf HQ HE. eapply hoare_conseq; [by apply (hoare_frame proj V)|done|..]; done.
Qed.

Lemma frame_bind {X} (proj : GenState → X) (m : M A) (f : A → M B) :
  frame proj m → (∀ a, frame proj (f a)) → frame proj (bind m f).
Proof.
  intros Hm Hf gs. specialize (Hm gs). unfold bind.
  destruct (m gs) as [[a|e] gs']; simpl in *; [|done].
  by rewrite Hf.
Qed.

Lemma frame_try_catch {X} (proj : GenState → X) (body : M A) handler :
  frame proj body → (∀ e, frame proj (handler e)) → frame proj (try_catch body handler).
Proof.
  intros Hm Hf gs. specialize (Hm gs). unfold try_catch.
  destruct (body gs) as [[a|e] gs']; simpl in *; [done|].
  by rewrite Hf.
Qed.

Lemma frame_ret {X} (proj : GenState → X) (a : A) : frame proj (ret a).
Proof. done. Qed.

Lemma frame_throw {X} (proj : GenState → X) e : frame proj (throw (A := A) e).
Proof. done. Qed.

Lemma frame_lift {X} (proj : GenState → X) (r : Res A) : frame proj (lift r).
Proof. done. Qed.

End Rules.

(** The two components the claims look at: what the progress callback has
    seen (with the tracker that produces it), and the session manager. *)
Definition view (gs : GenState) : Tracker.ProgressTracker * list Tracker.ProgressUpdate :=
  (tracker gs, emitted gs).

Section Primitives.
Context (w : World) (sid : string).

Lemma frame_view_now : frame view (now w).
Proof. done. Qed.

Lemma frame_view_getSession : frame view (getSession w sid).
Proof.
  intros gs. unfold getSession, bind, now. simpl.
  by destruct (Store.getSession _ _ _).
Qed.

Lemma frame_view_updateSession u : frame view (updateSession w sid u).
Proof.
  intros gs. unfold updateSession, bind, now. simpl.
  by destruct (Store.updateSession _ _ _ _).
Qed.

Lemma frame_view_throttle : frame view (throttle_ w).
Proof. done. Qed.

Lemma frame_manager_emit f : frame manager (emit w f).
Proof. intros gs. unfold emit. by destruct (f (tracker gs)). Qed.

Lemma frame_manager_callback u : frame manager (callback w u).
Proof. done. Qed.

Lemma frame_manager_throttle : frame manager (throttle_ w).
Proof. done. Qed.

Lemma frame_manager_now : frame manager (now w).
Proof. done. Qed.

Lemma frame_calls_emit f : frame calls (emit w f).
Proof. intros gs. unfold emit. by destruct (f (tracker gs)). Qed.

Lemma frame_calls_getSession : frame calls (getSession w sid).
Proof.
  intros gs. unfold getSession, bind, now. simpl.
  by destruct (Store.getSession _ _ _).
Qed.

Lemma frame_calls_throttle : frame calls (throttle_ w).
Proof. done. Qed.

(** The state an emission leaves, whatever the callback does. *)
Definition emitted_with (f : Tracker.ProgressTracker →
                             Tracker.ProgressTracker * Tracker.ProgressUpdate)
    (gs : GenState) : GenState :=
  mkGen (manager gs) (f (tracker gs)).1 (emitted gs ++ [(f (tracker gs)).2])
        (throttle gs) (ticks gs) (calls gs).

Lemma emit_state f gs : (emit w f gs).2 = emitted_with f gs.
Proof. unfold emit, emitted_with. by destruct (f (tracker gs)). Qed.

Lemma emit_outcome f gs : (emit w f gs).1 = called w (f (tracker gs)).2 gs.
Proof. unfold emit. by destruct (f (tracker gs)). Qed.

(** An emission, as a triple: the same state in both outcomes. *)
Lemma hoare_emit (P : GenState → Prop) f (Q : unit → GenState → Prop)
    (E : string → GenState → Prop) :
  (∀ gs, P gs → Q tt (emitted_with f gs) ∧ ∀ e, E e (emitted_with f gs)) →
  hoare P (emit w f) Q E.
Proof.
  intros H gs HP. destruct (H gs HP) as [HQ HE].
  pose proof (emit_state f gs) as Hs. pose proof (emit_outcome f gs) as Ho.
  destruct (emit w f gs) as [[[]|e] gs']; simpl in *; subst gs'; [done|apply HE].
Qed.

(** With a callback that returns, an emission returns. *)
Lemma emit_returns f gs :
  callback_returns w → emit w f gs = (Ok tt, emitted_with f gs).
Proof.
  intros Hq. unfold emit, emitted_with, called.
  destruct (f (tracker gs)) as [t u]. by rewrite Hq.
Qed.

Lemma callback_returns_exec u gs :
  callback_returns w →
  callback w u gs
  = (Ok tt, mkGen (manager gs) (tracker gs) (emitted gs ++ [u]) (throttle gs)
                  (ticks gs) (calls gs)).
Proof. intros Hq. unfold callback, called. by rewrite Hq. Qed.

Lemma hoare_emit_returns (P : GenState → Prop) f (Q : unit → GenState → Prop) E :
  callback_returns w →
  (∀ gs, P gs → Q tt (emitted_with f gs)) →
  hoare P (emit w f) Q E.
Proof. intros Hq H gs HP. rewrite (emit_returns f gs Hq). by apply H. Qed.

End Primitives.

Create HintDb frames.

#[export] Hint Resolve frame_bind frame_try_catch frame_ret frame_throw frame_lift frame_view_now
  frame_view_getSession frame_view_updateSession frame_view_throttle
  frame_manager_emit frame_manager_callback frame_manager_throttle frame_manager_now
  frame_calls_emit frame_calls_getSession frame_calls_throttle : frames.

End RunLogic.

(* ===================================================================== *)
(** ** Progress is monotone *)
(* ===================================================================== *)

Module ProgressFacts.
Import Chains Generator RunLogic.

(** The percentages delivered to the callback so far. *)
Definition percents (gs : GenState) : list Z := map Tracker.progress (emitted gs).

(** A non-decreasing list whose members are at most [b]. *)
Definition below (b : Z) (l : list Z) : Prop :=
  StronglySorted Z.le l ∧ Forall (λ p, p ≤ b) l.

Lemma below_nil b : below b [].
Proof. split; constructor. Qed.

Lemma below_snoc b l p : below b l → b ≤ p → below p (l ++ [p]).
Proof.
  intros [Hs Hb] Hp. split.
  - apply StronglySorted_app_2; [|done|repeat constructor].
    intros x1 x2 H1 H2. apply list_elem_of_singleton in H2 as ->.
    rewrite Forall_forall in Hb. specialize (Hb x1 H1). simpl in Hb. lia.
  - apply Forall_app. split.
    + eapply Forall_impl; [exact Hb|]. simpl. intros. lia.
    + repeat constructor. lia.
Qed.

Lemma below_weaken b b' l : below b l → b ≤ b' → below b' l.
Proof.
  intros [Hs Hb] Hle. split; [done|].
  eapply Forall_impl; [exact Hb|]. simpl. intros. lia.
Qed.

Lemma below_sorted b l : below b l → Sorted Z.le l.
Proof. intros [Hs _]. by apply StronglySorted_Sorted. Qed.

Definition nSignals : Z := Z.of_nat (length Blueprint.getAllSignals).
Definition nCategories : Z := Z.of_nat (length Blueprint.REPORT_BLUEPRINT).

(** For the totals of the blueprint (11 signals, 5 categories) and every
    value the counters can take, the floating-point percentage of the
    source is the integer percentage of the model. *)
Lemma float_agrees :
  forallb (λ c, Tracker.float_agrees_at c 11 50) (map Z.of_nat (seq 0 12)) = true
  ∧ forallb (λ c, Tracker.float_agrees_at c 5 20) (map Z.of_nat (seq 0 6)) = true.
Proof. split; vm_compute; reflexivity. Qed.

Lemma nSignals_eq : nSignals = 11.
Proof. reflexivity. Qed.

Lemma nCategories_eq : nCategories = 5.
Proof. reflexivity. Qed.

(** The tracker has the totals of the blueprint and counters in range. *)
Record tracker_ok (cs_max cc_max : Z) (t : Tracker.ProgressTracker) : Prop := {
  ok_totalSignals : Tracker.totalSignals t = nSignals;
  ok_totalCategories : Tracker.totalCategories t = nCategories;
  ok_signals : 0 ≤ Tracker.completedSignals t ≤ cs_max;
  ok_categories : 0 ≤ Tracker.completedCategories t ≤ cc_max;
}.

Lemma signal_percent_mono t t' :
  Tracker.totalSignals t = nSignals → Tracker.totalSignals t' = nSignals →
  Tracker.completedSignals t ≤ Tracker.completedSignals t' →
  Tracker.signal_percent t ≤ Tracker.signal_percent t'.
Proof.
  intros H1 H2 Hle. unfold Tracker.signal_percent. rewrite H1, H2, nSignals_eq.
  apply Z.add_le_mono_l. apply Z.div_le_mono; lia.
Qed.

Lemma signal_percent_range t :
  Tracker.totalSignals t = nSignals →
  0 ≤ Tracker.completedSignals t ≤ nSignals →
  20 ≤ Tracker.signal_percent t ≤ 70.
Proof.
  intros H1 Hr. unfold Tracker.signal_percent. rewrite H1. rewrite nSignals_eq in *.
  assert (0 ≤ Tracker.completedSignals t * 50 / 11) by (apply Z.div_pos; lia).
  assert (Tracker.completedSignals t * 50 / 11 ≤ 50).
  { apply Z.div_le_upper_bound; lia. }
  lia.
Qed.

Lemma category_percent_mono t t' :
  Tracker.totalCategories t = nCategories → Tracker.totalCategories t' = nCategories →
  Tracker.completedCategories t ≤ Tracker.completedCategories t' →
  Tracker.category_percent t ≤ Tracker.category_percent t'.
Proof.
  intros H1 H2 Hle. unfold Tracker.category_percent. rewrite H1, H2, nCategories_eq.
  apply Z.add_le_mono_l. apply Z.div_le_mono; lia.
Qed.

Lemma category_percent_range t :
  Tracker.totalCategories t = nCategories →
  0 ≤ Tracker.completedCategories t ≤ nCategories →
  70 ≤ Tracker.category_percent t ≤ 90.
Proof.
  intros H1 Hr. unfold Tracker.category_percent. rewrite H1. rewrite nCategories_eq in *.
  assert (0 ≤ Tracker.completedCategories t * 20 / 5) by (apply Z.div_pos; lia).
  assert (Tracker.completedCategories t * 20 / 5 ≤ 20).
  { apply Z.div_le_upper_bound; lia. }
  lia.
Qed.

Section Stages.
Context (w : World) (sid : string).

(** An invariant of the view is kept by anything that leaves the view
    alone, and by the emissions that keep it. *)
Definition keeps (V : Tracker.ProgressTracker * list Tracker.ProgressUpdate → Prop)
    {A} (m : M A) : Prop :=
  hoare (λ gs, V (view gs)) m (λ _ gs, V (view gs)) (λ _ gs, V (view gs)).

Lemma keeps_frame V {A} (m : M A) : frame view m → keeps V m.
Proof. intros H. by apply (hoare_frame view V). Qed.

Lemma keeps_bind V {A B} (m : M A) (f : A → M B) :
  keeps V m → (∀ a, keeps V (f a)) → keeps V (bind m f).
Proof. intros Hm Hf. eapply hoare_bind; [exact Hm|]. intros a. apply Hf. Qed.

Lemma keeps_try_catch V {A} (body : M A) handler :
  keeps V body → (∀ e, keeps V (handler e)) → keeps V (try_catch body handler).
Proof. intros Hm Hf. eapply hoare_try_catch; [exact Hm|]. intros e. apply Hf. Qed.

Lemma keeps_emit V f :
  (∀ t l, V (t, l) → V ((f t).1, l ++ [(f t).2])) → keeps V (emit w f).
Proof.
  intros H. apply hoare_emit. intros gs HV. split; [|intros e]; by apply H.
Qed.

(** Stage 1 only ever reports 10 and leaves the counters alone. *)
Definition stage1_inv (v : Tracker.ProgressTracker * list Tracker.ProgressUpdate) : Prop :=
  tracker_ok 0 0 v.1 ∧ below 10 (map Tracker.progress v.2).

Lemma keeps_emitDataCollection msg :
  keeps stage1_inv (emit w (Tracker.emitDataCollection msg)).
Proof.
  apply keeps_emit. intros t l [Ht Hb]. split; [done|]. simpl.
  rewrite map_app. simpl. by apply (below_snoc 10).
Qed.

Lemma keeps_fragment msg result store :
  keeps stage1_inv (fragment w sid msg result store).
Proof.
  unfold fragment.
  apply keeps_bind; [apply keeps_emitDataCollection|intros _].
  apply keeps_bind; [apply keeps_frame; auto with frames|intros _].
  repeat case_match; apply keeps_frame; auto with frames.
Qed.

Lemma keeps_collectData session : keeps stage1_inv (collectData w sid session).
Proof.
  unfold collectData.
  apply keeps_bind; [apply keeps_emitDataCollection|intros _].
  apply keeps_bind; [apply keeps_frame; auto with frames|intros _].
  apply keeps_bind.
  { repeat case_match; apply keeps_frame; auto with frames. }
  intros fixture.
  do 4 (apply keeps_bind; [apply keeps_fragment|intros _]).
  apply keeps_bind; [apply keeps_emitDataCollection|intros _].
  apply keeps_bind; [apply keeps_frame; auto with frames|intros _].
  apply keeps_bind; [|intros _; apply keeps_emitDataCollection].
  repeat case_match; apply keeps_frame; auto with frames.
Qed.

(** *** Stage 2 *)

Definition weight (wk : Worker) : Z :=
  match wk with Awaiting _ _ => 1 | _ => 0 end.

(** The number of suspended tasks. *)
Fixpoint awaiting (ws : list Worker) : Z :=
  match ws with
  | [] => 0
  | wk :: rest => weight wk + awaiting rest
  end.

Lemma awaiting_insert ws : ∀ i wk wk',
  ws !! i = Some wk →
  awaiting (<[i := wk']> ws) = awaiting ws - weight wk + weight wk'.
Proof.
  induction ws as [|x ws IH]; intros [|i] wk wk' H; simpl in *; try done.
  - inversion H; subst. lia.
  - rewrite (IH _ _ wk' H). lia.
Qed.

Lemma awaiting_nonneg ws : 0 ≤ awaiting ws.
Proof. induction ws as [|[]]; simpl; lia. Qed.

Lemma awaiting_replicate n : awaiting (replicate n Idle) = 0.
Proof. induction n as [|n IH]; simpl; [done|]. by rewrite IH. Qed.

Lemma frame_view_task_prepare (task : Task) : frame view (task_prepare w sid task).
Proof.
  apply frame_bind; [auto with frames|]. intros [s|]; [|auto with frames].
  destruct (Store.fixture _); auto with frames.
Qed.

Lemma task_start_view (task : Task) gs :
  view (task_start w task gs).2
  = (tracker gs,
     emitted gs ++ [(Tracker.emitSignalStart task.1 (Blueprint.sig_id task.2)
                       (Blueprint.sig_name task.2) (tracker gs)).2]).
Proof. done. Qed.

Lemma task_resume_view (task : Task) input gs :
  view (task_resume w sid task input gs).2
  = ((Tracker.emitSignalComplete task.1 (Blueprint.sig_id task.2) (tracker gs)).1,
     emitted gs ++ [(Tracker.emitSignalComplete task.1 (Blueprint.sig_id task.2)
                       (tracker gs)).2]).
Proof.
  unfold task_resume. unfold bind at 1.
  match goal with |- context [updateSession w sid ?u gs] =>
    pose proof (frame_view_updateSession w sid u gs) as Hf;
    destruct (updateSession w sid u gs) as [[a|e] gs'] eqn:Hm end.
  - rewrite (emit_state w). unfold emitted_with, view in *. simpl in Hf.
    inversion Hf as [[Ht He]]. simpl. by rewrite Ht, He.
  - exfalso. unfold updateSession, bind, now in Hm. simpl in Hm.
    destruct (Store.updateSession _ _ _ _). done.
Qed.

(** The state a worker is left in by the beginning of a task: after
    the start event when that threw, after the [try] block up to its
    suspension or its [catch] otherwise. *)
Definition begun (task : Task) (gs : GenState) : GenState :=
  match task_start w task gs with
  | (Throw _, gs') => gs'
  | (Ok _, gs') => (task_prepare w sid task gs').2
  end.

Lemma begun_view (task : Task) gs :
  view (begun task gs)
  = (tracker gs,
     emitted gs ++ [(Tracker.emitSignalStart task.1 (Blueprint.sig_id task.2)
                       (Blueprint.sig_name task.2) (tracker gs)).2]).
Proof.
  unfold begun. pose proof (task_start_view task gs) as Hv.
  destruct (task_start w task gs) as [[[]|e] gs1]; [|done].
  simpl in Hv. by rewrite frame_view_task_prepare.
Qed.

Lemma begun_tracker (task : Task) gs : tracker (begun task gs) = tracker gs.
Proof. pose proof (begun_view task gs) as H. by injection H. Qed.

Lemma begun_percents (task : Task) gs :
  percents (begun task gs) = percents gs ++ [Tracker.signal_percent (tracker gs)].
Proof.
  pose proof (begun_view task gs) as H. injection H as _ He.
  unfold percents. rewrite He, map_app. done.
Qed.

(** What a resumption at the loop test does to the pool, when a task
    remains. *)
Lemma worker_step_begins tasks i p (task : Task) :
  workers p !! i = Some Idle → (nextIndex p < length tasks)%nat →
  tasks !! nextIndex p = Some task →
  gen (worker_step w sid tasks i p) = begun task (gen p)
  ∧ nextIndex (worker_step w sid tasks i p) = S (nextIndex p)
  ∧ (workers (worker_step w sid tasks i p) = workers p
     ∨ (∃ input, workers (worker_step w sid tasks i p)
                 = <[i := Awaiting (nextIndex p) input]> (workers p))
     ∨ (∃ e, workers (worker_step w sid tasks i p) = <[i := Rejected e]> (workers p))).
Proof.
  intros Hw Hlt Ht. unfold worker_step, begun. rewrite Hw, decide_True, Ht by done.
  destruct (task_start w task (gen p)) as [[[]|e] gs1]; simpl.
  - destruct (task_prepare w sid task gs1) as [[input|e] gs2]; simpl;
      (split; [done|split; [done|]]); [right; left; by eexists|by left].
  - split; [done|]. split; [done|]. right. right. by eexists.
Qed.

Lemma task_resume_tracker (task : Task) input gs :
  tracker (task_resume w sid task input gs).2
  = Tracker.mkTracker (Tracker.totalSignals (tracker gs))
      (Tracker.totalCategories (tracker gs))
      (Tracker.completedSignals (tracker gs) + 1)
      (Tracker.completedCategories (tracker gs)).
Proof. pose proof (task_resume_view task input gs) as H. by injection H. Qed.

Lemma task_resume_percents (task : Task) input gs :
  percents (task_resume w sid task input gs).2
  = percents gs ++ [Tracker.signal_percent (tracker (task_resume w sid task input gs).2)].
Proof.
  pose proof (task_resume_view task input gs) as H. injection H as Ht He.
  unfold percents. rewrite He, map_app, Ht. done.
Qed.

Section Pool.
Context (tasks : list Task).
Hypothesis tasks_bound : Z.of_nat (length tasks) ≤ nSignals.

Record stage2_inv (p : Pool) : Prop := {
  s2_totalSignals : Tracker.totalSignals (tracker (gen p)) = nSignals;
  s2_totalCategories : Tracker.totalCategories (tracker (gen p)) = nCategories;
  s2_categories : Tracker.completedCategories (tracker (gen p)) = 0;
  s2_signals : 0 ≤ Tracker.completedSignals (tracker (gen p));
  s2_count : Tracker.completedSignals (tracker (gen p)) + awaiting (workers p)
             ≤ Z.of_nat (nextIndex p);
  s2_next : Z.of_nat (nextIndex p) ≤ Z.of_nat (length tasks);
  s2_below : below (Tracker.signal_percent (tracker (gen p))) (percents (gen p));
}.

Lemma stage2_step i p : stage2_inv p → stage2_inv (worker_step w sid tasks i p).
Proof.
  intros [Hts Htc Hcc Hcs Hcount Hnext Hbelow]. unfold worker_step.
  destruct (workers p !! i) as [[|current input| |e]|] eqn:Hw; [| |by constructor..].
  - (* at the loop test *)
    case_decide as Hlt.
    + destruct (tasks !! nextIndex p) as [task|] eqn:Ht; [|by constructor].
      pose proof (begun_tracker task (gen p)) as Htr.
      pose proof (begun_percents task (gen p)) as Hpc.
      assert (Hb' : below (Tracker.signal_percent (tracker (gen p)))
                          (percents (begun task (gen p)))).
      { rewrite Hpc. by apply (below_snoc (Tracker.signal_percent (tracker (gen p)))). }
      fold (worker_step w sid tasks i p).
      destruct (worker_step_begins tasks i p task Hw Hlt Ht) as (Hg & Hn & Hws).
      assert (Haw : awaiting (workers (worker_step w sid tasks i p))
                    ≤ awaiting (workers p) + 1).
      { destruct Hws as [->|[[input ->]|[e ->]]];
          rewrite ?(awaiting_insert _ _ _ _ Hw); simpl; lia. }
      revert Hg Hn Haw. unfold worker_step. rewrite Hw, decide_True, Ht by done.
      intros Hg Hn Haw.
      constructor; rewrite ?Hg, ?Hn, ?Htr; try done; lia.
    + constructor; simpl; try done.
      rewrite (awaiting_insert _ _ _ _ Hw). simpl. lia.
  - (* suspended in a task *)
    destruct (tasks !! current) as [task|] eqn:Ht; [|by constructor].
    pose proof (task_resume_tracker task input (gen p)) as Htr.
    pose proof (task_resume_percents task input (gen p)) as Hpc.
    pose proof (awaiting_insert _ _ _ Idle Hw) as Hins. simpl in Hins.
    pose proof (awaiting_nonneg (<[i:=Idle]> (workers p))).
    constructor; simpl; rewrite ?Htr; simpl; try done; try lia.
    rewrite Hpc, Htr.
    apply (below_snoc (Tracker.signal_percent (tracker (gen p)))); [done|].
    apply signal_percent_mono; simpl; try done. lia.
Qed.

Lemma pool_run_S fuel k p :
  pool_run w sid tasks (S fuel) k p
  = match rejection (workers p), runnable (workers p) with
    | Some _, _ | None, [] => p
    | None, first :: others =>
        pool_run w sid tasks fuel (S k)
          (worker_step w sid tasks
             (default first
                ((first :: others)
                   !! (schedule w k `mod` length (first :: others))%nat)) p)
    end.
Proof. reflexivity. Qed.

Lemma linger_S n k p :
  linger w sid tasks (S n) k p
  = match runnable (workers p) with
    | [] => p
    | first :: others =>
        linger w sid tasks n (S k)
          (worker_step w sid tasks
             (default first
                ((first :: others)
                   !! (schedule w k `mod` length (first :: others))%nat)) p)
    end.
Proof. reflexivity. Qed.

Lemma pool_run_inv (I : Pool → Prop) :
  (∀ i p, I p → I (worker_step w sid tasks i p)) →
  ∀ fuel k p, I p → I (pool_run w sid tasks fuel k p).
Proof.
  intros Hstep. induction fuel as [|fuel IH]; intros k p Hp; [done|].
  rewrite pool_run_S.
  destruct (rejection (workers p)); [done|].
  destruct (runnable (workers p)); [done|]. apply IH, Hstep, Hp.
Qed.

Lemma linger_inv (I : Pool → Prop) :
  (∀ i p, I p → I (worker_step w sid tasks i p)) →
  ∀ n k p, I p → I (linger w sid tasks n k p).
Proof.
  intros Hstep. induction n as [|n IH]; intros k p Hp; [done|].
  rewrite linger_S.
  destruct (runnable (workers p)); [done|]. apply IH, Hstep, Hp.
Qed.

(** What stage 2 leaves, in both outcomes, satisfies every invariant of
    the worker steps. *)
Lemma settled_inv (I : Pool → Prop) (p0 : Pool) :
  (∀ i p, I p → I (worker_step w sid tasks i p)) → I p0 →
  I (pool_run w sid tasks (pool_fuel tasks) 0 p0)
  ∧ I (linger w sid tasks (lingering w) (pool_fuel tasks)
         (pool_run w sid tasks (pool_fuel tasks) 0 p0)).
Proof.
  intros Hstep H0. pose proof (pool_run_inv I Hstep (pool_fuel tasks) 0%nat p0 H0) as H1.
  split; [done|]. by apply linger_inv.
Qed.

(** Stage 2 starts from reports of at most 20 and ends with reports
    of at most 70, whatever the tasks do and however the workers
    interleave. *)
Lemma generateSignals_on_view :
  hoare (λ gs, tracker_ok 0 0 (tracker gs) ∧ below 20 (percents gs))
        (generateSignals_on w sid tasks)
        (λ _ gs, tracker_ok nSignals 0 (tracker gs) ∧ below 70 (percents gs))
        (λ _ gs, tracker_ok nSignals 0 (tracker gs) ∧ below 70 (percents gs)).
Proof.
  assert (Hweak : ∀ gs, tracker_ok 0 0 (tracker gs) ∧ below 20 (percents gs) →
            tracker_ok nSignals 0 (tracker gs) ∧ below 70 (percents gs)).
  { intros gs [[] Hb]. split; [constructor; try done; rewrite ?nSignals_eq; lia|].
    apply (below_weaken 20); [done|lia]. }
  unfold generateSignals_on.
  apply hoare_bind
    with (R := λ _ gs, tracker_ok 0 0 (tracker gs) ∧ below 20 (percents gs)).
  { apply (hoare_framed view
             (λ v, tracker_ok 0 0 v.1 ∧ below 20 (map Tracker.progress v.2)));
      [auto with frames|done|]. intros e gs H. by apply Hweak. }
  intros [session|]; [|apply hoare_throw; intros gs H; by apply Hweak].
  destruct (Store.fixture _); [|apply hoare_throw; intros gs H; by apply Hweak].
  intros gs [[Hts Htc Hcs Hcc] Hb]. simpl in Hts, Htc, Hcs, Hcc, Hb.
  set (p0 := mkPool gs 0 _).
  assert (Hinv : stage2_inv p0).
  { constructor; simpl; try done; try lia.
    - rewrite awaiting_replicate. lia.
    - apply (below_weaken 20); [done|].
      unfold Tracker.signal_percent.
      replace (Tracker.completedSignals (tracker gs)) with 0 by lia.
      rewrite Z.mul_0_l, Hts. done. }
  assert (Hfin : ∀ p, stage2_inv p →
            tracker_ok nSignals 0 (tracker (gen p)) ∧ below 70 (percents (gen p))).
  { intros p [Its Itc Icc Ics Icount Inext Ibelow].
    pose proof (awaiting_nonneg (workers p)). split.
    - constructor; try done; lia.
    - eapply below_weaken; [exact Ibelow|].
      apply signal_percent_range; [done|lia]. }
  destruct (settled_inv stage2_inv p0 stage2_step Hinv) as [H1 H2].
  cbv beta zeta. fold p0.
  destruct (rejection _); by apply Hfin.
Qed.

End Pool.

(** *** Stage 3 *)

(** After [k] categories: at most [k] are counted complete, and every
    report so far is at most the current category percentage. *)
Definition stage3_inv (k : Z) (gs : GenState) : Prop :=
  tracker_ok nSignals k (tracker gs)
  ∧ below (Tracker.category_percent (tracker gs)) (percents gs).

Lemma stage3_inv_weaken k k' gs : k ≤ k' → stage3_inv k gs → stage3_inv k' gs.
Proof. intros Hk [[] Hb]. split; [constructor; try done; lia|done]. Qed.

Lemma stage3_framed k {A} (m : M A) (Q : A → GenState → Prop) E :
  frame view m →
  (∀ a gs, stage3_inv k gs → Q a gs) → (∀ e gs, stage3_inv k gs → E e gs) →
  hoare (stage3_inv k) m Q E.
Proof.
  intros Hf HQ HE.
  apply (hoare_framed view
           (λ v, tracker_ok nSignals k v.1
                 ∧ below (Tracker.category_percent v.1) (map Tracker.progress v.2)));
    done.
Qed.

Lemma merge_one_view k updatedSession fixture category :
  hoare (stage3_inv k) (merge_one w sid updatedSession fixture category)
        (λ _, stage3_inv (k + 1)) (λ _, stage3_inv (k + 1)).
Proof.
  assert (Hup : ∀ gs, stage3_inv k gs → stage3_inv (k + 1) gs).
  { intros gs. apply stage3_inv_weaken. lia. }
  unfold merge_one.
  apply hoare_bind with (R := λ _, stage3_inv k).
  { apply hoare_emit. intros gs [Ht Hb].
    assert (stage3_inv k (emitted_with
              (Tracker.emitCategoryStart (Blueprint.cat_id category)
                                         (Blueprint.cat_name category)) gs)).
    { split; [done|]. simpl. unfold percents. simpl. rewrite map_app. simpl.
      by apply (below_snoc (Tracker.category_percent (tracker gs))). }
    split; [done|]. intros e. by apply Hup. }
  intros _.
  apply hoare_try_catch with (E' := λ _, stage3_inv (k + 1)).
  2:{ intros e. by apply hoare_ret. }
  case_decide.
  { by apply hoare_ret. }
  apply hoare_bind with (R := λ _, stage3_inv k).
  { apply hoare_lift. intros gs H'.
    destruct (formatPartialReportsForCategory _ _); [done|by apply Hup]. }
  intros formatted.
  apply hoare_bind with (R := λ _, stage3_inv k).
  { apply hoare_lift. intros gs H'. destruct (mergeCategory _ _); [done|by apply Hup]. }
  intros result.
  apply hoare_bind with (R := λ _, stage3_inv k).
  { apply stage3_framed; [auto with frames|done|]. intros e gs. apply Hup. }
  intros _. apply hoare_emit. intros gs [[Hts Htc Hcs Hcc] Hb].
  assert (stage3_inv (k + 1) (emitted_with
            (Tracker.emitCategoryComplete (Blueprint.cat_id category)) gs)).
  { split; [constructor; simpl; try done; lia|]. simpl.
    unfold percents. simpl. rewrite map_app. simpl.
    apply (below_snoc (Tracker.category_percent (tracker gs))); [done|].
    apply category_percent_mono; simpl; try done. lia. }
  by split.
Qed.

Lemma for_each_view {A} (body : A → M unit) :
  (∀ k x, hoare (stage3_inv k) (body x) (λ _, stage3_inv (k + 1))
                (λ _, stage3_inv (k + 1))) →
  ∀ l k, hoare (stage3_inv k) (for_each l body)
               (λ _, stage3_inv (k + Z.of_nat (length l)))
               (λ _, stage3_inv (k + Z.of_nat (length l))).
Proof.
  intros Hbody. induction l as [|x l IH]; intros k; simpl.
  - apply hoare_ret. intros gs. by rewrite Z.add_0_r.
  - apply hoare_bind with (R := λ _, stage3_inv (k + 1)).
    { eapply hoare_conseq; [apply Hbody|done|done|].
      intros e gs. apply stage3_inv_weaken. lia. }
    intros ?.
    eapply hoare_conseq; [apply (IH (k + 1))|done|..];
      intros ? gs; simpl; by replace (k + 1 + Z.of_nat (length l))
                                with (k + Z.of_nat (S (length l))) by lia.
Qed.

Lemma stage3_inv_below gs : stage3_inv nCategories gs → below 90 (percents gs).
Proof.
  intros [[Hts Htc Hcs Hcc] Hb]. eapply below_weaken; [exact Hb|].
  by apply category_percent_range.
Qed.

Lemma mergeCategories_view :
  hoare (λ gs, tracker_ok nSignals 0 (tracker gs) ∧ below 70 (percents gs))
        (mergeCategories w sid)
        (λ _ gs, below 90 (percents gs)) (λ _ gs, below 90 (percents gs)).
Proof.
  assert (Hstart : ∀ gs, tracker_ok nSignals 0 (tracker gs) ∧ below 70 (percents gs) →
            stage3_inv 0 gs).
  { intros gs [Ht Hb]. split; [done|]. destruct Ht as [Hts Htc Hcs Hcc].
    unfold Tracker.category_percent.
    replace (Tracker.completedCategories (tracker gs)) with 0 by lia.
    rewrite Z.mul_0_l, Htc. done. }
  assert (Hend : ∀ gs, stage3_inv 0 gs → below 90 (percents gs)).
  { intros gs H. apply stage3_inv_below. revert H. apply stage3_inv_weaken.
    rewrite nCategories_eq. lia. }
  unfold mergeCategories.
  apply hoare_conseq with (P' := stage3_inv 0)
                          (Q' := λ _ gs, below 90 (percents gs))
                          (E' := λ _ gs, below 90 (percents gs));
    [|exact Hstart|done..].
  apply hoare_bind with (R := λ _, stage3_inv 0).
  { apply stage3_framed; [auto with frames|done|]. intros e gs. apply Hend. }
  intros [session|]; [|apply hoare_throw; intros gs; apply Hend].
  destruct (Store.fixture _) as [fixture|];
    [|apply hoare_throw; intros gs; apply Hend].
  eapply hoare_conseq;
    [apply (for_each_view _ (λ k x, merge_one_view k session fixture x)
              Blueprint.REPORT_BLUEPRINT 0)
    |done|..];
    intros ? gs; apply stage3_inv_below.
Qed.

(** *** Stage 4 *)

Lemma below_framed b {A} (m : M A) :
  frame view m →
  hoare (λ gs, below b (percents gs)) m
        (λ _ gs, below b (percents gs)) (λ _ gs, below b (percents gs)).
Proof.
  intros Hf.
  by apply (hoare_framed view (λ v, below b (map Tracker.progress v.2))).
Qed.

Lemma emitFinalSynthesis_view b msg pct :
  b ≤ 90 + pct →
  hoare (λ gs, below b (percents gs))
        (emit w (Tracker.emitFinalSynthesis msg pct))
        (λ _ gs, below (90 + pct) (percents gs))
        (λ _ gs, below (90 + pct) (percents gs)).
Proof.
  intros Hb. apply hoare_emit. intros gs H.
  assert (below (90 + pct)
            (percents (emitted_with (Tracker.emitFinalSynthesis msg pct) gs))).
  { unfold percents. simpl. rewrite map_app. simpl. by apply (below_snoc b). }
  by split.
Qed.

Lemma synthesizeFinal_view :
  hoare (λ gs, below 90 (percents gs)) (synthesizeFinal w sid)
        (λ _ gs, below 99 (percents gs)) (λ _ gs, below 99 (percents gs)).
Proof.
  assert (W : ∀ b gs, b ≤ 99 → below b (percents gs) → below 99 (percents gs)).
  { intros b gs Hb H. by apply (below_weaken b). }
  unfold synthesizeFinal.
  apply hoare_bind with (R := λ _ gs, below 95 (percents gs)).
  { eapply hoare_conseq; [apply (emitFinalSynthesis_view 90); lia|done|done|].
    intros e gs. apply W. lia. }
  intros ?.
  apply hoare_bind with (R := λ _ gs, below 95 (percents gs)).
  { eapply hoare_conseq; [apply (below_framed 95); auto with frames|done..|].
    intros e gs. apply W. lia. }
  intros [session|]; [|apply hoare_throw; intros gs; apply W; lia].
  destruct (Store.fixture _) as [fixture|];
    [|apply hoare_throw; intros gs; apply W; lia].
  apply hoare_try_catch with (E' := λ _ gs, below 99 (percents gs));
    [|intros e; by apply hoare_throw].
  apply hoare_bind with (R := λ _ gs, below 97 (percents gs)).
  { eapply hoare_conseq; [apply (emitFinalSynthesis_view 95); lia|done|done|].
    intros e gs. apply W. lia. }
  intros ?.
  apply hoare_bind with (R := λ _ gs, below 97 (percents gs)).
  { apply hoare_lift. intros gs H. destruct (synthesizeFinalReport _ _); [done|].
    revert H. apply W. lia. }
  intros result.
  apply hoare_bind with (R := λ _ gs, below 99 (percents gs)).
  { apply (emitFinalSynthesis_view 97). lia. }
  intros ?.
  apply hoare_bind with (R := λ _ gs, below 99 (percents gs)).
  { apply (below_framed 99). auto with frames. }
  intros _. by apply hoare_ret.
Qed.

(** *** The whole run *)

Lemma generate_view :
  hoare (λ gs, percents gs = []) (generate w sid)
        (λ _ gs, Sorted Z.le (percents gs) ∧ last (percents gs) = Some 100)
        (λ _ gs, Sorted Z.le (percents gs)).
Proof.
  unfold generate.
  apply hoare_bind with (R := λ _ gs, percents gs = []).
  { apply (hoare_framed view (λ v, map Tracker.progress v.2 = []));
      [auto with frames|done|].
    intros e gs H. unfold percents. simpl in H. rewrite H. constructor. }
  intros [session|].
  2:{ apply hoare_throw. intros gs H. rewrite H. constructor. }
  apply hoare_bind
    with (R := λ _ gs, tracker_ok 0 0 (tracker gs) ∧ below 10 (percents gs)).
  { intros gs H. simpl. split; [by constructor|].
    unfold percents in *. simpl. rewrite H. apply below_nil. }
  intros _.
  apply hoare_try_catch with (E' := λ _ gs, below 100 (percents gs)).
  2:{ intros e. apply hoare_bind with (R := λ _ gs, below 100 (percents gs)).
      - eapply hoare_conseq; [apply (below_framed 100); auto with frames|done..|].
        intros e' gs. apply below_sorted.
      - intros _. apply hoare_throw. intros gs. apply below_sorted. }
  assert (W : ∀ b gs, b ≤ 99 → below b (percents gs) → below 99 (percents gs)).
  { intros b gs Hb H. by apply (below_weaken b). }
  assert (W' : ∀ gs, below 99 (percents gs) → below 100 (percents gs)).
  { intros gs H. by apply (below_weaken 99). }
  apply hoare_conseq with (P' := λ gs, tracker_ok 0 0 (tracker gs) ∧ below 10 (percents gs))
      (Q' := λ _ gs, Sorted Z.le (percents gs) ∧ last (percents gs) = Some 100)
      (E' := λ e gs, below 99 (percents gs) ∨ below 100 (percents gs));
    [|done|done|intros e gs [H|H]; [by apply W'|done]].
  apply hoare_bind
    with (R := λ _ gs, tracker_ok 0 0 (tracker gs) ∧ below 10 (percents gs)).
  { apply (hoare_framed view (stage1_inv)); [auto with frames|done|].
    intros e gs [_ H]. left. revert H. apply W. lia. }
  intros _.
  apply hoare_bind with (R := λ _ gs, below 99 (percents gs)).
  { apply hoare_conseq
      with (P' := λ gs, tracker_ok 0 0 (tracker gs) ∧ below 10 (percents gs))
           (Q' := λ _ gs, below 99 (percents gs))
           (E' := λ _ gs, below 99 (percents gs));
      [|done|done|intros ? ? ?; by left].
    unfold stages.
    apply hoare_bind
      with (R := λ _ gs, tracker_ok 0 0 (tracker gs) ∧ below 10 (percents gs)).
    { eapply hoare_conseq; [apply keeps_collectData|done|done|].
      intros e gs [_ H]. revert H. apply W. lia. }
    intros _.
    apply hoare_bind
      with (R := λ _ gs, tracker_ok nSignals 0 (tracker gs) ∧ below 70 (percents gs)).
    { eapply hoare_conseq; [apply generateSignals_on_view; done| |done|].
      - intros gs [Ht Hb]. split; [done|]. apply (below_weaken 10); [done|lia].
      - intros e gs [_ H]. revert H. apply W. lia. }
    intros _.
    apply hoare_bind with (R := λ _ gs, below 90 (percents gs)).
    { eapply hoare_conseq; [apply mergeCategories_view|done|done|].
      intros e gs. apply W. lia. }
    intros _. apply synthesizeFinal_view. }
  intros _.
  apply hoare_bind with (R := λ _ gs, below 99 (percents gs)).
  { apply hoare_conseq
      with (P' := λ gs, below 99 (percents gs)) (Q' := λ _ gs, below 99 (percents gs))
           (E' := λ _ gs, below 99 (percents gs));
      [apply (below_framed 99); auto with frames|done|done|intros ? ? ?; by left]. }
  intros _ gs H.
  assert (Hb : below 100 (percents gs ++ [100])) by (apply (below_snoc 99); [done|lia]).
  unfold callback, percents in *. simpl. rewrite map_app. simpl.
  destruct (called w completion_update gs); simpl.
  - split; [by apply (below_sorted 100)|apply last_snoc].
  - by right.
Qed.

End Stages.

(** C3.  Over any run of the pipeline — whatever the data source and the
    model answer, whichever tasks fail and however the two workers
    interleave — the percentages handed to the progress callback are in
    non-decreasing order, and when the run completes successfully the
    last one is exactly 100. *)
Theorem C3_progress_nondecreasing (w : World) (sid : string) (m : Store.SessionManager) :
  Sorted Z.le (percents (generateReport w sid m).2)
  ∧ ((generateReport w sid m).1 = Ok tt →
     last (percents (generateReport w sid m).2) = Some 100).
Proof.
  pose proof (generate_view w sid (initial w m) eq_refl) as H.
  unfold generateReport. destruct (generate w sid (initial w m)) as [[[]|e] gs]; simpl.
  - destruct H as [Hs Hl]. done.
  - split; [done|]. intros Habs. done.
Qed.

End ProgressFacts.

(* ===================================================================== *)
(** ** Properties that the stages keep *)
(* ===================================================================== *)

Module StageFacts.
Import Chains Generator RunLogic.

(** The store is written by [updateSession] only.  So a property of the
    manager and of the writes so far that [getSession] keeps, and that
    [updateSession] keeps for the updates the stages write (those that
    satisfy [Φ]), is kept by every stage, by every task and by every
    step of a worker, in both outcomes and whatever the progress
    callback does. *)
Section Steady.
Context (w : World) (sid : string) (Inv : GenState → Prop)
        (Φ : Store.UpdateSessionParams → Prop).
Hypothesis Inv_frame :
  ∀ gs gs', manager gs' = manager gs → calls gs' = calls gs → Inv gs → Inv gs'.
Hypothesis Inv_getSession : hoare Inv (getSession w sid) (λ _, Inv) (λ _, Inv).
Hypothesis Inv_updateSession :
  ∀ u, Φ u → hoare Inv (updateSession w sid u) (λ _, Inv) (λ _, Inv).
Hypothesis Φ_collected : ∀ f, Φ (collected f).
Hypothesis Φ_partial :
  ∀ kr, Φ (Store.mkUpdate None None None (Some kr) None None None).
Hypothesis Φ_category :
  ∀ kr, Φ (Store.mkUpdate None None None None (Some kr) None None).
Hypothesis Φ_final :
  ∀ report, Φ (Store.mkUpdate None None None None None (Some report) None).

Definition steady {A} (m : M A) : Prop := hoare Inv m (λ _, Inv) (λ _, Inv).

Lemma steady_bind {A B} (m : M A) (f : A → M B) :
  steady m → (∀ a, steady (f a)) → steady (bind m f).
Proof. intros Hm Hf. by apply hoare_bind with (R := λ _, Inv). Qed.

Lemma steady_try_catch {A} (body : M A) handler :
  steady body → (∀ e, steady (handler e)) → steady (try_catch body handler).
Proof. intros Hm Hf. by apply hoare_try_catch with (E' := λ _, Inv). Qed.

Lemma steady_lift {A} (r : Res A) : steady (lift r).
Proof. apply hoare_lift. intros gs H. by destruct r. Qed.

Lemma steady_emit f : steady (emit w f).
Proof.
  apply hoare_emit. intros gs H.
  assert (Inv (emitted_with f gs)) by (by apply (Inv_frame gs)).
  done.
Qed.

Lemma steady_callback u : steady (callback w u).
Proof.
  intros gs H. unfold callback. destruct (called w u gs); by apply (Inv_frame gs).
Qed.

Lemma steady_throttle : steady (throttle_ w).
Proof. intros gs H. by apply (Inv_frame gs). Qed.

Ltac steadily tac :=
  repeat match goal with
    | |- steady (bind _ _) => apply steady_bind; [|intros ?]
    | |- steady (try_catch _ _) => apply steady_try_catch; [|intros ?]
    | |- steady (updateSession _ _ _) =>
        apply Inv_updateSession;
        first [apply Φ_collected | apply Φ_partial | apply Φ_category | apply Φ_final]
    | |- steady (getSession _ _) => apply Inv_getSession
    | |- steady (emit _ _) => apply steady_emit
    | |- steady (callback _ _) => apply steady_callback
    | |- steady (throttle_ _) => apply steady_throttle
    | |- steady (ret _) => by apply hoare_ret
    | |- steady (throw _) => by apply hoare_throw
    | |- steady (lift _) => apply steady_lift
    | |- steady (match ?x with _ => _ end) => destruct x
    | |- steady (if ?x then _ else _) => destruct x
    | |- _ => tac
    end.

Lemma steady_fragment msg result store : steady (fragment w sid msg result store).
Proof. unfold fragment. steadily fail. Qed.

Lemma steady_collectData session : steady (collectData w sid session).
Proof. unfold collectData. steadily ltac:(apply steady_fragment). Qed.

Lemma steady_task_start (task : Task) : steady (task_start w task).
Proof. apply steady_emit. Qed.

Lemma steady_task_prepare (task : Task) : steady (task_prepare w sid task).
Proof. unfold task_prepare. steadily fail. Qed.

Lemma steady_task_resume (task : Task) input : steady (task_resume w sid task input).
Proof. unfold task_resume. steadily fail. Qed.

Lemma steady_worker_step tasks i p :
  Inv (gen p) → Inv (gen (worker_step w sid tasks i p)).
Proof.
  intros H. unfold worker_step.
  destruct (workers p !! i) as [[|current input| |]|]; [| |done..].
  - case_decide; [|done]. destruct (tasks !! nextIndex p) as [task|]; [|done].
    pose proof (steady_task_start task (gen p) H) as H1.
    destruct (task_start w task (gen p)) as [[[]|e] gs1]; [|done].
    pose proof (steady_task_prepare task gs1 H1) as H2.
    by destruct (task_prepare w sid task gs1) as [[input|e] gs2].
  - destruct (tasks !! current) as [task|]; [|done]. simpl.
    pose proof (steady_task_resume task input (gen p) H) as H1.
    by destruct (task_resume w sid task input (gen p)) as [[[]|e] gs1].
Qed.

Lemma steady_generateSignals : steady (generateSignals w sid).
Proof.
  unfold generateSignals, generateSignals_on.
  apply steady_bind; [apply Inv_getSession|].
  intros [session|]; [|by apply hoare_throw].
  destruct (Store.fixture _); [|by apply hoare_throw].
  intros gs H.
  destruct (ProgressFacts.settled_inv w sid Blueprint.getAllSignals
              (λ p, Inv (gen p))
              (mkPool gs 0 (replicate (min signalConcurrency
                                           (length Blueprint.getAllSignals)) Idle))
              (λ i p, steady_worker_step _ i p) H) as [H1 H2].
  cbv zeta. by destruct (rejection _).
Qed.

Lemma steady_merge_one session fixture category :
  steady (merge_one w sid session fixture category).
Proof. unfold merge_one. steadily fail. Qed.

Lemma steady_for_each {A} (body : A → M unit) l :
  (∀ x, steady (body x)) → steady (for_each l body).
Proof.
  intros Hb. induction l as [|x l IH]; simpl; [by apply hoare_ret|].
  apply steady_bind; [apply Hb|intros _; apply IH].
Qed.

Lemma steady_mergeCategories : steady (mergeCategories w sid).
Proof.
  unfold mergeCategories.
  apply steady_bind; [apply Inv_getSession|].
  intros [session|]; [|by apply hoare_throw].
  destruct (Store.fixture _); [|by apply hoare_throw].
  apply steady_for_each. intros x. apply steady_merge_one.
Qed.

Lemma steady_synthesizeFinal : steady (synthesizeFinal w sid).
Proof. unfold synthesizeFinal. steadily fail. Qed.

Lemma steady_stages session : steady (stages w sid session).
Proof.
  unfold stages.
  apply steady_bind; [apply steady_collectData|intros ?].
  apply steady_bind; [apply steady_generateSignals|intros ?].
  apply steady_bind; [apply steady_mergeCategories|intros ?].
  apply steady_synthesizeFinal.
Qed.

End Steady.

End StageFacts.

(* ===================================================================== *)
(** ** The session store and the status of a session *)
(* ===================================================================== *)

Module StoreFacts.
Import Store.

Lemma merge_members (old upd : CollectedData) :
  merge_collected old (members upd) = add_collected old upd.
Proof. by destruct upd as [[] [] [] [] [] []]. Qed.

Lemma getSession_live now sid m s :
  sessions m !! sid = Some s → expired m now s = false →
  getSession now sid m = (Some s, m).
Proof. intros Hs He. unfold getSession. by rewrite Hs, He. Qed.

Lemma updateSession_live now sid u m s :
  sessions m !! sid = Some s → expired m now s = false →
  updateSession now sid u m
  = (true, mkManager (<[sid := apply_update u s]> (sessions m)) (SESSION_TTL m)).
Proof. intros Hs He. unfold updateSession. by rewrite (getSession_live _ _ _ _ Hs He). Qed.

Lemma apply_update_status u s :
  u_status u = None → status (apply_update u s) = status s.
Proof. intros H. unfold apply_update. simpl. by rewrite H. Qed.

(** The order of the state machine: a step forward or no step. *)
Definition forward (a b : SessionStatus) : Prop :=
  match a, b with
  | pending, _ => True
  | generating, (generating | completed | error) => True
  | completed, completed => True
  | error, error => True
  | _, _ => False
  end.

Definition terminal (a : SessionStatus) : Prop := a = completed ∨ a = error.

(** The session but for its chat history. *)
Definition but_chat (s : Session) : Session :=
  mkSession (sessionId s) (fixtureId s) (createdAt s) (status s) (error_ s)
            (collectedData s) (partialReports s) (categoryReports s)
            (finalReport s) [].

(** The session but for its partial reports. *)
Definition but_partials (s : Session) : Session :=
  mkSession (sessionId s) (fixtureId s) (createdAt s) (status s) (error_ s)
            (collectedData s) ∅ (categoryReports s) (finalReport s) (chatHistory s).

Lemma but_partials_update kr s :
  but_partials (apply_update (mkUpdate None None None (Some kr) None None None) s)
  = but_partials s.
Proof. by destruct kr. Qed.

(** The claim read as a property of the store: every [updateSession]
    moves the status forward, and leaves a session in a terminal status
    as it is but for its chat history. *)
Definition store_keeps_state_machine : Prop :=
  ∀ (m : SessionManager) (now : Z) (sid : string) (u : UpdateSessionParams)
    (s s' : Session),
    sessions m !! sid = Some s →
    sessions (updateSession now sid u m).2 !! sid = Some s' →
    forward (status s) (status s')
    ∧ (terminal (status s) → but_chat s' = but_chat s).

Definition completed_session : Session :=
  mkSession "sid" 12345 0 completed None no_data ∅ ∅ (Some "# report") [].

Definition one_session : SessionManager :=
  mkManager {[ "sid" := completed_session ]} (Js.Int 7200000).

(** C9, counterexample.  A second run on a completed session starts with
    [updateSession(id, { status: 'generating' })]: the store applies it,
    and the status goes from [completed] back to [generating]. *)
Lemma C9_status_regresses_counterexample : ¬ store_keeps_state_machine.
Proof.
  intros H.
  destruct (H one_session 1000 "sid"
              (mkUpdate (Some generating) None None None None None None)
              completed_session
              (apply_update (mkUpdate (Some generating) None None None None None None)
                            completed_session)
              eq_refl eq_refl) as [Hf _].
  exact Hf.
Qed.

End StoreFacts.

(* ===================================================================== *)
(** ** Stage 2 on a live session: what ends up in partialReports *)
(* ===================================================================== *)

Module SignalFacts.
Import Chains Generator RunLogic.

(** The same world under another interleaving of the workers. *)
Definition reschedule (sch : nat → nat) (w : World) : World :=
  mkWorld (clock w) (requestsPerMinute w) (model w) (getFixtures w) (getStatistics w)
          (getInjuries w) (getLineups w) (getH2H w) (getStandings w)
          (formatCollectedDataForSignal w) (toLocaleDateString w)
          (renderPartialReports w) (formatCategoryReportsForFinal w)
          (renderFinalReport w) sch (progressCallback w) (lingering w).

(** The session is never found expired: at no clock read of the run has
    more than the TTL passed since its creation. *)
Definition never_expires (w : World) (ttl : Js.Num) (created : Z) : Prop :=
  ∀ n, Js.gt (clock w n - created) ttl = false.

(** The progress callback returns normally whenever it is called with
    the start event of a signal task. *)
Definition starts_return (w : World) : Prop :=
  ∀ n categoryId signalId signalName t,
    progressCallback w n (Tracker.emitSignalStart categoryId signalId signalName t).2
    = None.

Lemma callback_returns_starts w : callback_returns w → starts_return w.
Proof. intros H n c i nm t. apply H. Qed.

(** What a task hands to the model, when it gets that far: the session
    data formats and the chain can be created. *)
Definition task_input (w : World) (cd : Store.CollectedData) (fixture : Store.FixtureData)
    (task : Task) : option SignalChainInput :=
  match formatCollectedDataForSignal w cd (Blueprint.dataRequirements task.2),
        getChatModel (model w) with
  | Ok collectedDataStr, Ok _ => Some (signal_input w fixture task.2 collectedDataStr)
  | _, _ => None
  end.

(** The report a task writes, when it gets to write one. *)
Definition task_report (w : World) (cd : Store.CollectedData) (fixture : Store.FixtureData)
    (task : Task) : option Store.PartialReport :=
  (λ input, partial_report task (settle_signal input (signalChain (model w) input)))
    <$> task_input w cd fixture task.

(** The map stage 2 is expected to leave: each task that gets to write
    has its report under its key, on top of what was there. *)
Definition expected_reports (w : World) (cd : Store.CollectedData)
    (fixture : Store.FixtureData) (tasks : list Task)
    (before : gmap string Store.PartialReport) : gmap string Store.PartialReport :=
  foldl (λ acc task, match task_report w cd fixture task with
                     | Some report => <[Blueprint.task_key task := report]> acc
                     | None => acc
                     end) before tasks.

Lemma expected_reports_reschedule sch w cd fixture tasks before :
  expected_reports (reschedule sch w) cd fixture tasks before
  = expected_reports w cd fixture tasks before.
Proof. reflexivity. Qed.

Lemma keys_distinct : NoDup (map Blueprint.task_key Blueprint.getAllSignals).
Proof. apply (bool_decide_unpack _). by vm_compute. Qed.

Section Expected.
Context (w : World) (cd : Store.CollectedData) (fixture : Store.FixtureData).

Lemma expected_lookup_other tasks : ∀ before k,
  k ∉ map Blueprint.task_key tasks →
  expected_reports w cd fixture tasks before !! k = before !! k.
Proof.
  induction tasks as [|t tasks IH]; intros before k Hk; simpl; [done|].
  simpl in Hk. apply not_elem_of_cons in Hk as [Hne Hk].
  rewrite (IH _ _ Hk). destruct (task_report w cd fixture t); [|done].
  by rewrite lookup_insert_ne.
Qed.

Lemma expected_lookup_task tasks : ∀ before t,
  NoDup (map Blueprint.task_key tasks) → t ∈ tasks →
  expected_reports w cd fixture tasks before !! Blueprint.task_key t
  = match task_report w cd fixture t with
    | Some report => Some report
    | None => before !! Blueprint.task_key t
    end.
Proof.
  induction tasks as [|t' tasks IH]; intros before t Hnd Hin; simpl.
  { by apply elem_of_nil in Hin. }
  simpl in Hnd. apply NoDup_cons in Hnd as [Hfresh Hnd].
  apply elem_of_cons in Hin as [->|Hin].
  - rewrite (expected_lookup_other _ _ _ Hfresh).
    destruct (task_report w cd fixture t'); [apply lookup_insert_eq|done].
  - rewrite (IH _ _ Hnd Hin).
    destruct (task_report w cd fixture t) as [r|] eqn:Hr; [done|].
    destruct (task_report w cd fixture t'); [|done].
    rewrite lookup_insert_ne; [done|]. intros Heq. apply Hfresh. rewrite Heq.
    apply list_elem_of_fmap. by exists t.
Qed.

End Expected.

Section Live.
Context (w : World) (sid : string) (ttl : Js.Num) (created : Z).
Hypothesis live : never_expires w ttl created.

Lemma not_expired m now_tick s :
  Store.SESSION_TTL m = ttl → Store.createdAt s = created →
  Store.expired m (clock w now_tick) s = false.
Proof. intros Ht Hc. unfold Store.expired. rewrite Ht, Hc. apply live. Qed.

Definition tick (gs : GenState) : GenState :=
  mkGen (manager gs) (tracker gs) (emitted gs) (throttle gs) (S (ticks gs)) (calls gs).

Lemma getSession_exec gs s :
  Store.SESSION_TTL (manager gs) = ttl →
  Store.sessions (manager gs) !! sid = Some s → Store.createdAt s = created →
  getSession w sid gs = (Ok (Some s), tick gs).
Proof.
  intros Ht Hs Hc. unfold getSession, bind, now. simpl.
  rewrite (StoreFacts.getSession_live _ _ _ _ Hs (not_expired _ _ _ Ht Hc)).
  by destruct gs.
Qed.

Lemma updateSession_exec gs s u :
  Store.SESSION_TTL (manager gs) = ttl →
  Store.sessions (manager gs) !! sid = Some s → Store.createdAt s = created →
  updateSession w sid u gs
  = (Ok true,
     mkGen (Store.mkManager (<[sid := Store.apply_update u s]>
                               (Store.sessions (manager gs))) ttl)
           (tracker gs) (emitted gs) (throttle gs) (S (ticks gs))
           (calls gs ++ [mkWrite u (Some (Store.apply_update u s))])).
Proof.
  intros Ht Hs Hc. unfold updateSession, bind, now. simpl.
  rewrite (StoreFacts.updateSession_live _ _ _ _ _ Hs (not_expired _ _ _ Ht Hc)).
  simpl. by rewrite Ht, lookup_insert_eq.
Qed.

Section Tasks.
Context (cd : Store.CollectedData) (fixture : Store.FixtureData).
Hypothesis has_fixture : Store.fixture cd = Some fixture.
Hypothesis starts : starts_return w.

Lemma task_start_exec (task : Task) gs :
  task_start w task gs
  = (Ok tt, emitted_with (Tracker.emitSignalStart task.1 (Blueprint.sig_id task.2)
                                                  (Blueprint.sig_name task.2)) gs).
Proof.
  unfold task_start.
  pose proof (emit_state w (Tracker.emitSignalStart task.1 (Blueprint.sig_id task.2)
                                                    (Blueprint.sig_name task.2)) gs) as Hs.
  pose proof (emit_outcome w (Tracker.emitSignalStart task.1 (Blueprint.sig_id task.2)
                                                      (Blueprint.sig_name task.2)) gs) as Ho.
  unfold called in Ho. rewrite starts in Ho.
  destruct (emit w _ gs) as [r gs']. simpl in *. by subst.
Qed.

Lemma task_prepare_exec (task : Task) gs s :
  Store.SESSION_TTL (manager gs) = ttl →
  Store.sessions (manager gs) !! sid = Some s → Store.createdAt s = created →
  Store.collectedData s = cd →
  ∃ res, task_prepare w sid task gs = (res, tick gs)
         ∧ match task_input w cd fixture task with
           | Some input => res = Ok input
           | None => ∃ e, res = Throw e
           end.
Proof.
  intros Ht Hs Hc Hcd. unfold task_prepare. unfold bind at 1.
  rewrite (getSession_exec _ _ Ht Hs Hc). rewrite Hcd, has_fixture.
  unfold task_input, bind, lift, ret.
  destruct (formatCollectedDataForSignal w cd _) as [str|e]; [|by eexists; eauto].
  destruct (getChatModel (model w)) as [[]|e]; eexists; eauto.
Qed.

(** The beginning of a task whose start event returns: the store is
    left alone, and the task is suspended in the model call when it
    gets that far, back at the loop test when its [try] block threw. *)
Lemma task_begin_exec tasks i p (task : Task) s :
  workers p !! i = Some Idle → (nextIndex p < length tasks)%nat →
  tasks !! nextIndex p = Some task →
  Store.SESSION_TTL (manager (gen p)) = ttl →
  Store.sessions (manager (gen p)) !! sid = Some s → Store.createdAt s = created →
  Store.collectedData s = cd →
  ∃ gs', manager gs' = manager (gen p)
         ∧ worker_step w sid tasks i p
           = mkPool gs' (S (nextIndex p))
               match task_input w cd fixture task with
               | Some input => <[i := Awaiting (nextIndex p) input]> (workers p)
               | None => workers p
               end.
Proof.
  intros Hw Hlt Htask Ht Hs Hc Hcd. unfold worker_step.
  rewrite Hw, decide_True, Htask, task_start_exec by done.
  match goal with |- context [task_prepare w sid task ?g] =>
    destruct (task_prepare_exec task g s Ht Hs Hc Hcd) as (res & Hp & Hres);
    rewrite Hp end.
  destruct (task_input w cd fixture task) as [input|];
    [subst res|destruct Hres as [e ->]];
    refine (ex_intro _ _ (conj _ eq_refl)); done.
Qed.

Lemma task_resume_exec (task : Task) input gs s :
  Store.SESSION_TTL (manager gs) = ttl →
  Store.sessions (manager gs) !! sid = Some s → Store.createdAt s = created →
  manager (task_resume w sid task input gs).2
  = Store.mkManager
      (<[sid := Store.apply_update
                  (Store.mkUpdate None None None
                     (Some (Blueprint.task_key task,
                            partial_report task
                              (settle_signal input (signalChain (model w) input))))
                     None None None) s]> (Store.sessions (manager gs))) ttl.
Proof.
  intros Ht Hs Hc. unfold task_resume. unfold bind at 1.
  rewrite (updateSession_exec _ _ _ Ht Hs Hc). by rewrite emit_state.
Qed.

(** *** The invariant of the pool *)

Context (tasks : list Task) (before : gmap string Store.PartialReport)
        (rest : Store.Session).
Hypothesis distinct : NoDup (map Blueprint.task_key tasks).

Lemma key_inj j j' (t t' : Task) :
  tasks !! j = Some t → tasks !! j' = Some t' →
  Blueprint.task_key t = Blueprint.task_key t' → j = j'.
Proof.
  intros Hj Hj' Hk.
  apply (NoDup_lookup _ j j' (Blueprint.task_key t) distinct).
  - by rewrite list_lookup_fmap, Hj.
  - by rewrite list_lookup_fmap, Hj', Hk.
Qed.

(** Task [j] is suspended in some worker. *)
Definition in_flight (ws : list Worker) (j : nat) : Prop :=
  ∃ i input, ws !! i = Some (Awaiting j input).

(** Task [j] has been claimed and has run to its end. *)
Definition finished (p : Pool) (j : nat) : Prop :=
  (j < nextIndex p)%nat ∧ ¬ in_flight (workers p) j.

Record pool_inv (p : Pool) : Prop := {
  pi_ttl : Store.SESSION_TTL (manager (gen p)) = ttl;
  pi_session :
    ∃ s, Store.sessions (manager (gen p)) !! sid = Some s
         ∧ Store.createdAt s = created
         ∧ Store.collectedData s = cd
         ∧ (∀ j t r, tasks !! j = Some t → finished p j →
              task_report w cd fixture t = Some r →
              Store.partialReports s !! Blueprint.task_key t = Some r)
         ∧ (∀ j t, tasks !! j = Some t →
              ¬ finished p j ∨ task_report w cd fixture t = None →
              Store.partialReports s !! Blueprint.task_key t
              = before !! Blueprint.task_key t)
         ∧ (∀ k, k ∉ map Blueprint.task_key tasks →
              Store.partialReports s !! k = before !! k)
         ∧ StoreFacts.but_partials s = rest;
  pi_await : ∀ i j input, workers p !! i = Some (Awaiting j input) →
               (j < nextIndex p)%nat
               ∧ ∃ t, tasks !! j = Some t ∧ task_input w cd fixture t = Some input;
  pi_unique : ∀ i i' j input input',
                workers p !! i = Some (Awaiting j input) →
                workers p !! i' = Some (Awaiting j input') → i = i';
  pi_next : (nextIndex p ≤ length tasks)%nat;
  pi_left : ∀ i, workers p !! i = Some Finished → (length tasks ≤ nextIndex p)%nat;
  pi_none : ∀ i e, workers p !! i ≠ Some (Rejected e);
}.

(** Replacing a worker that is not suspended by one that is not
    suspended leaves the tasks in flight as they are. *)
Lemma in_flight_insert_plain ws i wk wk' j :
  ws !! i = Some wk →
  (∀ k input, wk ≠ Awaiting k input) → (∀ k input, wk' ≠ Awaiting k input) →
  in_flight (<[i := wk']> ws) j ↔ in_flight ws j.
Proof.
  intros Hi Hwk Hwk'. split; intros (i0 & input & H0).
  - destruct (decide (i0 = i)) as [->|Hne].
    + rewrite list_lookup_insert_eq in H0 by (by eapply lookup_lt_Some).
      inversion H0 as [Heq]. by destruct (Hwk' j input).
    + rewrite list_lookup_insert_ne in H0 by done. by exists i0, input.
  - destruct (decide (i0 = i)) as [->|Hne].
    + rewrite Hi in H0. inversion H0 as [Heq]. by destruct (Hwk j input).
    + exists i0, input. by rewrite list_lookup_insert_ne.
Qed.

Ltac no_reject i Hnone :=
  let i0 := fresh "i0" in let e0 := fresh "e0" in let H0 := fresh "H0" in
  intros i0 e0 H0; destruct (decide (i0 = i)) as [->|?];
  [rewrite list_lookup_insert_eq in H0 by (by eapply lookup_lt_Some); done
  |rewrite list_lookup_insert_ne in H0 by done; by eapply Hnone].

Lemma pool_inv_step i p : pool_inv p → pool_inv (worker_step w sid tasks i p).
Proof.
  intros [Httl (s & Hs & Hc & Hcd & Hw1 & Hw2 & Hw3 & Hrest) Haw Huniq Hnext Hleft Hnorej].
  destruct (workers p !! i) as [[|current input| |e]|] eqn:Hwi;
    [| |unfold worker_step; rewrite Hwi; by constructor; eauto 10..].
  - (* at the loop test *)
    destruct (decide (nextIndex p < length tasks)%nat) as [Hlt|Hge].
    + destruct (lookup_lt_is_Some_2 tasks (nextIndex p) Hlt) as [task Ht].
      destruct (task_begin_exec tasks i p task s Hwi Hlt Ht Httl Hs Hc Hcd)
        as (gs' & Hm & ->).
      assert (Hnof : ¬ in_flight (workers p) (nextIndex p)).
      { intros (i0 & input0 & H0). apply Haw in H0 as [H0 _]. lia. }
      destruct (task_input w cd fixture task) as [input|] eqn:Hin.
      * (* the task is now suspended in the model call *)
        assert (Hfl : ∀ j, in_flight (<[i:=Awaiting (nextIndex p) input]> (workers p)) j
                           ↔ in_flight (workers p) j ∨ j = nextIndex p).
        { intros j. split.
          - intros (i0 & input0 & H0). destruct (decide (i0 = i)) as [->|Hne].
            + rewrite list_lookup_insert_eq in H0 by (by eapply lookup_lt_Some).
              inversion H0. by right.
            + rewrite list_lookup_insert_ne in H0 by done. left. by exists i0, input0.
          - intros [(i0 & input0 & H0)| ->].
            + exists i0, input0. rewrite list_lookup_insert_ne; [done|].
              intros ->. rewrite Hwi in H0. done.
            + exists i, input.
              by rewrite list_lookup_insert_eq by (by eapply lookup_lt_Some). }
        constructor; simpl; rewrite ?Hm; try done.
        -- exists s. repeat split; try done.
           ++ intros j t r Hj [Hjlt Hjfl] Hr; simpl in Hjlt, Hjfl. apply (Hw1 j t r Hj); [|done].
              rewrite Hfl in Hjfl. split; [|tauto].
              destruct (decide (j = nextIndex p)); [tauto|lia].
           ++ intros j t Hj Hcase. apply (Hw2 j t Hj).
              destruct Hcase as [Hnf|Hnone]; [|by right]. left.
              intros [Hjlt Hjfl]. apply Hnf. split; simpl; [lia|].
              rewrite Hfl. intros [?| ->]; [done|lia].
        -- intros i0 j input0 H0. destruct (decide (i0 = i)) as [->|Hne].
           ++ rewrite list_lookup_insert_eq in H0 by (by eapply lookup_lt_Some).
              inversion H0; subst. split; [lia|]. by exists task.
           ++ rewrite list_lookup_insert_ne in H0 by done.
              destruct (Haw _ _ _ H0) as [? ?]. split; [lia|done].
        -- intros i1 i2 j in1 in2 H1 H2.
           destruct (decide (i1 = i)) as [->|Hne1]; destruct (decide (i2 = i)) as [->|Hne2];
             try done.
           ++ rewrite list_lookup_insert_eq in H1 by (by eapply lookup_lt_Some).
              rewrite list_lookup_insert_ne in H2 by done.
              inversion H1; subst. apply Haw in H2 as [H2 _]. lia.
           ++ rewrite list_lookup_insert_eq in H2 by (by eapply lookup_lt_Some).
              rewrite list_lookup_insert_ne in H1 by done.
              inversion H2; subst. apply Haw in H1 as [H1 _]. lia.
           ++ rewrite list_lookup_insert_ne in H1, H2 by done. eauto.
        -- intros i0 H0. destruct (decide (i0 = i)) as [->|Hne].
           ++ rewrite list_lookup_insert_eq in H0 by (by eapply lookup_lt_Some). done.
           ++ rewrite list_lookup_insert_ne in H0 by done. apply Hleft in H0. lia.
        -- no_reject i Hnorej.
      * (* the task failed before the model call: caught *)
        assert (Hrep : task_report w cd fixture task = None).
        { unfold task_report. by rewrite Hin. }
        constructor; simpl; rewrite ?Hm; try done.
        -- exists s. repeat split; try done.
           ++ intros j t r Hj [Hjlt Hjfl] Hr; simpl in Hjlt, Hjfl. apply (Hw1 j t r Hj); [|done].
              split; [|done]. destruct (decide (j = nextIndex p)) as [->|]; [|lia].
              rewrite Ht in Hj. inversion Hj; subst. congruence.
           ++ intros j t Hj Hcase. apply (Hw2 j t Hj).
              destruct Hcase as [Hnf|Hnone]; [|by right]. left.
              intros [Hjlt Hjfl]. apply Hnf. split; simpl; [lia|done].
        -- intros i0 j input0 H0. destruct (Haw _ _ _ H0) as [? ?]. split; [lia|done].
        -- intros i0 H0. apply Hleft in H0. lia.
    + (* no index left: the worker leaves *)
      unfold worker_step. rewrite Hwi, decide_False by done.
      assert (Hfl : ∀ j, in_flight (<[i:=Finished]> (workers p)) j
                         ↔ in_flight (workers p) j).
      { intros j. by apply (in_flight_insert_plain _ _ Idle). }
      constructor; simpl; try done.
      * exists s. repeat split; try done.
        -- intros j t r Hj [Hjlt Hjfl] Hr; simpl in Hjlt, Hjfl. apply (Hw1 j t r Hj); [|done].
           split; [done|]. by rewrite <- Hfl.
        -- intros j t Hj Hcase. apply (Hw2 j t Hj).
           destruct Hcase as [Hnf|Hnone]; [|by right]. left.
           intros [Hjlt Hjfl]. apply Hnf. split; simpl; [done|]. by rewrite Hfl.
      * intros i0 j input0 H0. destruct (decide (i0 = i)) as [->|Hne].
        -- rewrite list_lookup_insert_eq in H0 by (by eapply lookup_lt_Some). done.
        -- rewrite list_lookup_insert_ne in H0 by done. eauto.
      * intros i1 i2 j in1 in2 H1 H2.
        destruct (decide (i1 = i)) as [->|Hne1].
        { rewrite list_lookup_insert_eq in H1 by (by eapply lookup_lt_Some). done. }
        destruct (decide (i2 = i)) as [->|Hne2].
        { rewrite list_lookup_insert_eq in H2 by (by eapply lookup_lt_Some). done. }
        rewrite list_lookup_insert_ne in H1, H2 by done. eauto.
      * intros i0 H0. lia.
      * no_reject i Hnorej.
  - (* suspended: the model call has settled *)
    unfold worker_step. rewrite Hwi.
    destruct (Haw _ _ _ Hwi) as [Hcur (task & Ht & Hin)]. rewrite Ht.
    pose proof (task_resume_exec task input (gen p) s Httl Hs Hc) as Hm.
    set (report := partial_report task
                     (settle_signal input (signalChain (model w) input))) in *.
    assert (Hrep : task_report w cd fixture task = Some report).
    { unfold task_report. by rewrite Hin. }
    assert (Hfl : ∀ j, in_flight (<[i:=Idle]> (workers p)) j
                       ↔ in_flight (workers p) j ∧ j ≠ current).
    { intros j. split.
      - intros (i0 & input0 & H0). destruct (decide (i0 = i)) as [->|Hne].
        + rewrite list_lookup_insert_eq in H0 by (by eapply lookup_lt_Some). done.
        + rewrite list_lookup_insert_ne in H0 by done. split; [by exists i0, input0|].
          intros ->. apply Hne. by apply (Huniq _ _ _ _ _ H0 Hwi).
      - intros [(i0 & input0 & H0) Hne]. exists i0, input0.
        rewrite list_lookup_insert_ne; [done|]. intros ->.
        rewrite Hwi in H0. inversion H0. done. }
    constructor; simpl; rewrite ?Hm; simpl; try done.
    + eexists. rewrite lookup_insert_eq. split; [done|]. simpl.
      split; [done|]. split; [done|]. repeat split.
      * intros j t r Hj [Hjlt Hjfl] Hr; simpl in Hjlt, Hjfl.
        destruct (decide (j = current)) as [->|Hne].
        -- rewrite Ht in Hj. inversion Hj; subst t.
           rewrite lookup_insert_eq. congruence.
        -- rewrite lookup_insert_ne.
           ++ apply (Hw1 j t r Hj); [|done]. split; [done|].
              intros Hf. apply Hjfl. by rewrite Hfl.
           ++ intros Hk. apply Hne. symmetry. by apply (key_inj _ _ _ _ Ht Hj).
      * intros j t Hj Hcase.
        destruct (decide (j = current)) as [->|Hne].
        -- rewrite Ht in Hj. inversion Hj; subst t. exfalso.
           destruct Hcase as [Hnf|Hnone]; [|congruence].
           apply Hnf. split; simpl; [done|]. rewrite Hfl. tauto.
        -- rewrite lookup_insert_ne.
           ++ apply (Hw2 j t Hj). destruct Hcase as [Hnf|Hnone]; [|by right].
              left. intros [Hjlt Hjfl]. apply Hnf. split; simpl; [done|].
              rewrite Hfl. tauto.
           ++ intros Hk. apply Hne. symmetry. by apply (key_inj _ _ _ _ Ht Hj).
      * intros k Hk. rewrite lookup_insert_ne; [by apply Hw3|].
        intros <-. apply Hk. apply list_elem_of_fmap. exists task.
        split; [done|]. by eapply list_elem_of_lookup_2.
      * by rewrite StoreFacts.but_partials_update.
    + intros i0 j input0 H0. destruct (decide (i0 = i)) as [->|Hne].
      * rewrite list_lookup_insert_eq in H0 by (by eapply lookup_lt_Some). done.
      * rewrite list_lookup_insert_ne in H0 by done. eauto.
    + intros i1 i2 j in1 in2 H1 H2.
      destruct (decide (i1 = i)) as [->|Hne1].
      { rewrite list_lookup_insert_eq in H1 by (by eapply lookup_lt_Some). done. }
      destruct (decide (i2 = i)) as [->|Hne2].
      { rewrite list_lookup_insert_eq in H2 by (by eapply lookup_lt_Some). done. }
      rewrite list_lookup_insert_ne in H1, H2 by done. eauto.
    + intros i0 H0. destruct (decide (i0 = i)) as [->|Hne].
      * rewrite list_lookup_insert_eq in H0 by (by eapply lookup_lt_Some). done.
      * rewrite list_lookup_insert_ne in H0 by done. eauto.
    + no_reject i Hnorej.
Qed.

(** *** The pool runs every task and ends *)

Definition active_weight (wk : Worker) : Z :=
  match wk with Finished | Rejected _ => 0 | _ => 1 end.

(** The number of workers still in their loop. *)
Fixpoint active (ws : list Worker) : Z :=
  match ws with
  | [] => 0
  | wk :: others => active_weight wk + active others
  end.

Lemma active_insert ws : ∀ i wk wk',
  ws !! i = Some wk →
  active (<[i := wk']> ws) = active ws - active_weight wk + active_weight wk'.
Proof.
  induction ws as [|x ws IH]; intros [|i] wk wk' H; simpl in *; try done.
  - inversion H; subst. lia.
  - rewrite (IH _ _ wk' H). lia.
Qed.

Lemma active_nonneg ws : 0 ≤ active ws.
Proof. induction ws as [|[]]; simpl; lia. Qed.

Lemma active_positive ws i wk :
  ws !! i = Some wk → has_left (Some wk) = false → 1 ≤ active ws.
Proof.
  revert i. induction ws as [|x ws IH]; intros [|i] H Hne; simpl in *; try done.
  - inversion H; subst. pose proof (active_nonneg ws). destruct wk; simpl; try lia; done.
  - pose proof (IH _ H Hne). destruct x; simpl; lia.
Qed.

Lemma runnable_elem ws i :
  i ∈ runnable ws → ∃ wk, ws !! i = Some wk ∧ has_left (Some wk) = false.
Proof.
  unfold runnable. intros H. apply list_elem_of_filter in H as [Hl Hi].
  apply elem_of_seq in Hi as [_ Hi]. simpl in Hi.
  destruct (lookup_lt_is_Some_2 ws i Hi) as [wk Hwk]. exists wk. split; [done|].
  by rewrite Hwk in Hl.
Qed.

Lemma runnable_nil ws i wk :
  runnable ws = [] → ws !! i = Some wk → has_left (Some wk) = true.
Proof.
  intros Hr Hi. destruct (has_left (Some wk)) eqn:Hl; [done|]. exfalso.
  assert (Hin : i ∈ runnable ws).
  { unfold runnable. apply list_elem_of_filter. split.
    - by rewrite Hi.
    - apply elem_of_seq. split; [lia|]. simpl. by eapply lookup_lt_Some. }
  rewrite Hr in Hin. by apply elem_of_nil in Hin.
Qed.

Lemma picked_elem (first : nat) others k :
  default first ((first :: others) !! k) ∈ first :: others.
Proof.
  destruct ((first :: others) !! k) as [x|] eqn:H; simpl.
  - by eapply list_elem_of_lookup_2.
  - apply elem_of_cons. by left.
Qed.

(** What is left to do: two resumptions per unclaimed task, one per
    suspended task, and one per worker to leave. *)
Definition remaining (p : Pool) : Z :=
  2 * (Z.of_nat (length tasks) - Z.of_nat (nextIndex p))
  + ProgressFacts.awaiting (workers p) + active (workers p).

Lemma remaining_step i p wk :
  pool_inv p → workers p !! i = Some wk → has_left (Some wk) = false →
  remaining (worker_step w sid tasks i p) < remaining p.
Proof.
  intros Hinv Hwi Hne. unfold remaining.
  destruct wk as [|current input| |e]; [| |done..].
  - destruct (decide (nextIndex p < length tasks)%nat) as [Hlt|Hge].
    + destruct (lookup_lt_is_Some_2 tasks (nextIndex p) Hlt) as [task Ht].
      destruct (pi_session p Hinv) as (s & Hs & Hc & Hcd & _).
      destruct (task_begin_exec tasks i p task s Hwi Hlt Ht (pi_ttl p Hinv) Hs Hc Hcd)
        as (gs' & _ & ->).
      destruct (task_input w cd fixture task); simpl.
      * rewrite (ProgressFacts.awaiting_insert _ _ _ _ Hwi).
        rewrite (active_insert _ _ _ _ Hwi). simpl. lia.
      * lia.
    + unfold worker_step. rewrite Hwi, decide_False by done. simpl.
      rewrite (ProgressFacts.awaiting_insert _ _ _ _ Hwi).
      rewrite (active_insert _ _ _ _ Hwi). simpl. lia.
  - unfold worker_step. rewrite Hwi.
    destruct (pi_await p Hinv _ _ _ Hwi) as [_ (task & Ht & _)]. rewrite Ht. simpl.
    rewrite (ProgressFacts.awaiting_insert _ _ _ _ Hwi).
    rewrite (active_insert _ _ _ _ Hwi). simpl. lia.
Qed.

Lemma no_rejection p : pool_inv p → rejection (workers p) = None.
Proof.
  intros Hinv. unfold rejection.
  assert (H : omap (λ wk, match wk with Rejected e => Some e | _ => None end) (workers p)
              = []); [|by rewrite H].
  pose proof (pi_none p Hinv) as Hnone.
  induction (workers p) as [|wk ws IH]; [done|]. simpl.
  destruct wk as [| | |e]; try (apply IH; intros i e0; apply (Hnone (S i) e0)).
  by destruct (Hnone 0%nat e).
Qed.

Lemma worker_step_length i p :
  length (workers (worker_step w sid tasks i p)) = length (workers p).
Proof.
  unfold worker_step.
  repeat case_match; simpl; rewrite ?length_insert; done.
Qed.

Lemma pool_run_finishes fuel : ∀ k p,
  pool_inv p → remaining p ≤ Z.of_nat fuel →
  pool_inv (pool_run w sid tasks fuel k p)
  ∧ runnable (workers (pool_run w sid tasks fuel k p)) = []
  ∧ length (workers (pool_run w sid tasks fuel k p)) = length (workers p).
Proof.
  induction fuel as [|fuel IH]; intros k p Hinv Hrem.
  - split; [done|]. split; [|done].
    change (pool_run w sid tasks 0 k p) with p.
    destruct (runnable (workers p)) as [|i others] eqn:Hr; [done|]. exfalso.
    assert (Hi : i ∈ runnable (workers p)) by (rewrite Hr; apply elem_of_cons; by left).
    apply runnable_elem in Hi as (wk & Hwk & Hne).
    pose proof (active_positive _ _ _ Hwk Hne).
    pose proof (ProgressFacts.awaiting_nonneg (workers p)).
    pose proof (pi_next p Hinv). unfold remaining in Hrem. lia.
  - rewrite ProgressFacts.pool_run_S, (no_rejection p Hinv).
    destruct (runnable (workers p)) as [|first others] eqn:Hr; [done|].
    set (i := default first _).
    assert (Hi : i ∈ runnable (workers p)) by (rewrite Hr; apply picked_elem).
    apply runnable_elem in Hi as (wk & Hwk & Hne).
    pose proof (remaining_step i p wk Hinv Hwk Hne) as Hdec.
    destruct (IH (S k) (worker_step w sid tasks i p)
                 (pool_inv_step i p Hinv) ltac:(lia)) as (H1 & H2 & H3).
    split; [done|]. split; [done|]. by rewrite H3, worker_step_length.
Qed.

(** Stage 2 on a live session whose fixture is stored: it returns
    normally, the session is still there, and its partial reports
    are the expected ones, for whatever schedule the world has. *)
Lemma generateSignals_on_exec gs s :
  Store.SESSION_TTL (manager gs) = ttl →
  Store.sessions (manager gs) !! sid = Some s →
  Store.createdAt s = created → Store.collectedData s = cd →
  Store.partialReports s = before → StoreFacts.but_partials s = rest →
  (generateSignals_on w sid tasks gs).1 = Ok tt
  ∧ Store.SESSION_TTL (manager (generateSignals_on w sid tasks gs).2) = ttl
  ∧ ∃ s', Store.sessions (manager (generateSignals_on w sid tasks gs).2) !! sid = Some s'
          ∧ Store.partialReports s' = expected_reports w cd fixture tasks before
          ∧ StoreFacts.but_partials s' = rest.
Proof.
  intros Ht Hs Hc Hcd Hbefore Hrest.
  set (p0 := mkPool (tick gs) 0
               (replicate (min signalConcurrency (length tasks)) Idle)).
  assert (Hinv0 : pool_inv p0).
  { constructor; simpl; try done.
    - exists s. repeat split; try done.
      + intros j t r _ [Hlt _]. simpl in Hlt. lia.
      + intros j t _ _. by rewrite Hbefore.
      + intros k _. by rewrite Hbefore.
    - intros i j input H. apply lookup_replicate in H as [H _]. done.
    - intros i i' j input input' H. apply lookup_replicate in H as [H _]. done.
    - lia.
    - intros i H. apply lookup_replicate in H as [H _]. done.
    - intros i e H. apply lookup_replicate in H as [H _]. done. }
  assert (Hrem0 : remaining p0 ≤ Z.of_nat (pool_fuel tasks)).
  { assert (Ha : ∀ n, active (replicate n Idle) = Z.of_nat n).
    { induction n as [|n IHn]; simpl; [done|]. rewrite IHn. lia. }
    unfold remaining.
    change (workers p0) with (replicate (min signalConcurrency (length tasks)) Idle).
    change (nextIndex p0) with 0%nat.
    rewrite ProgressFacts.awaiting_replicate, Ha.
    unfold pool_fuel, signalConcurrency. lia. }
  destruct (pool_run_finishes (pool_fuel tasks) 0%nat p0 Hinv0 Hrem0)
    as (Hinv' & Hdone & Hlen).
  assert (Hrun : generateSignals_on w sid tasks gs
                 = (Ok tt, gen (pool_run w sid tasks (pool_fuel tasks) 0 p0))).
  { unfold generateSignals_on. unfold bind at 1.
    rewrite (getSession_exec _ _ Ht Hs Hc). rewrite Hcd, has_fixture.
    cbv beta zeta. fold p0. by rewrite (no_rejection _ Hinv'). }
  rewrite Hrun. clear Hrun.
  destruct Hinv' as [Httl (s' & Hs' & Hc' & Hcd' & Hw1 & Hw2 & Hw3 & Hrest')
                     Haw Huniq Hnext Hleft Hnone].
  simpl. split; [done|]. split; [done|]. exists s'. split; [done|]. split; [|done].
  set (p' := pool_run w sid tasks (pool_fuel tasks) 0 p0) in *.
  assert (Hall : ∀ i wk, workers p' !! i = Some wk → wk = Finished).
  { intros i wk Hwk. pose proof (runnable_nil _ _ _ Hdone Hwk) as Hl.
    destruct wk as [| | |e]; try done. by destruct (Hnone i e). }
  assert (Hnext' : nextIndex p' = length tasks).
  { destruct (decide (length tasks = 0%nat)) as [H0|Hpos]; [lia|].
    assert (Hlt : (0 < length (workers p'))%nat).
    { rewrite Hlen.
      change (workers p0) with (replicate (min signalConcurrency (length tasks)) Idle).
      rewrite length_replicate. unfold signalConcurrency. lia. }
    destruct (lookup_lt_is_Some_2 _ _ Hlt) as [wk Hwk].
    pose proof (Hall _ _ Hwk) as ->. apply Hleft in Hwk. lia. }
  assert (Hfin : ∀ j t, tasks !! j = Some t → finished p' j).
  { intros j t Hj. split.
    - rewrite Hnext'. by eapply lookup_lt_Some.
    - intros (i & input & Hi). by apply Hall in Hi. }
  apply map_eq. intros k.
  destruct (decide (k ∈ map Blueprint.task_key tasks)) as [Hk|Hk].
  - apply list_elem_of_fmap in Hk as (t & -> & Hin).
    rewrite (expected_lookup_task w cd fixture tasks before t distinct Hin).
    apply list_elem_of_lookup in Hin as [j Hj].
    destruct (task_report w cd fixture t) as [r|] eqn:Hr.
    + by apply (Hw1 j t r Hj (Hfin _ _ Hj)).
    + apply (Hw2 j t Hj). by right.
  - rewrite (expected_lookup_other w cd fixture tasks before k Hk). by apply Hw3.
Qed.

End Tasks.

End Live.

(** The number of entries stage 2 adds to a map that has none of the
    task keys: one per task that gets to write. *)
Lemma expected_size w cd fixture tasks : ∀ before,
  NoDup (map Blueprint.task_key tasks) →
  (∀ t, t ∈ tasks → before !! Blueprint.task_key t = None) →
  size (expected_reports w cd fixture tasks before)
  = (size before
     + length (filter (λ t, is_Some (task_report w cd fixture t)) tasks))%nat.
Proof.
  induction tasks as [|t tasks IH]; intros before Hnd Hfresh; simpl; [lia|].
  simpl in Hnd. apply NoDup_cons in Hnd as [Hnew Hnd].
  rewrite filter_cons. destruct (task_report w cd fixture t) as [r|] eqn:Hr.
  - rewrite decide_True by done. rewrite IH; [|done|].
    + rewrite map_size_insert_None; [simpl; lia|]. apply Hfresh, elem_of_cons. by left.
    + intros t' Hin. rewrite lookup_insert_ne.
      * apply Hfresh, elem_of_cons. by right.
      * intros Heq. apply Hnew. rewrite Heq. apply list_elem_of_fmap. by exists t'.
  - rewrite decide_False by (by intros [? ?]). apply IH; [done|].
    intros t' Hin. apply Hfresh, elem_of_cons. by right.
Qed.

(** Stage 2 of the blueprint on a stored, live session whose fixture is
    present, when the start events return: the stage returns normally
    and leaves the expected reports, the rest of the session
    untouched. *)
Lemma generateSignals_reports (w : World) (sid : string) (gs : GenState)
    (s : Store.Session) (fixture : Store.FixtureData) :
  Store.sessions (manager gs) !! sid = Some s →
  never_expires w (Store.SESSION_TTL (manager gs)) (Store.createdAt s) →
  Store.fixture (Store.collectedData s) = Some fixture →
  starts_return w →
  (generateSignals w sid gs).1 = Ok tt
  ∧ ∃ s', Store.sessions (manager (generateSignals w sid gs).2) !! sid = Some s'
          ∧ Store.partialReports s'
            = expected_reports w (Store.collectedData s) fixture
                Blueprint.getAllSignals (Store.partialReports s)
          ∧ StoreFacts.but_partials s' = StoreFacts.but_partials s
          ∧ Store.SESSION_TTL (manager (generateSignals w sid gs).2)
            = Store.SESSION_TTL (manager gs).
Proof.
  intros Hs Hlive Hfix Hstarts.
  destruct (generateSignals_on_exec w sid _ _ Hlive
              (Store.collectedData s) fixture Hfix Hstarts Blueprint.getAllSignals
              (Store.partialReports s) (StoreFacts.but_partials s) keys_distinct
              gs s eq_refl Hs eq_refl eq_refl eq_refl eq_refl)
    as (Hok & Httl & s' & Hs' & Hp & Hrest).
  split; [exact Hok|]. exists s'. by repeat split.
Qed.

(** The partial reports that the writes [l] leave when they are applied
    in order, each to the map the one before it has left, starting from
    [before]. *)
Definition applied (l : list Write) (before : gmap string Store.PartialReport)
  : gmap string Store.PartialReport :=
  foldl (λ acc c, match Store.u_partialReport (written c) with
                  | Some (key, report) => <[key := report]> acc
                  | None => acc
                  end) before l.

(** The session is stored, and its partial reports are what the writes
    made since [c0] leave on [before]. *)
Definition all_applied (sid : string) (ttl : Js.Num) (created : Z) (c0 : list Write)
    (before : gmap string Store.PartialReport) (gs : GenState) : Prop :=
  Store.SESSION_TTL (manager gs) = ttl
  ∧ ∃ s l, Store.sessions (manager gs) !! sid = Some s ∧ Store.createdAt s = created
           ∧ calls gs = c0 ++ l ∧ Store.partialReports s = applied l before.

(** No write of stage 2 is lost, however the stage ends and whatever
    the progress callback does. *)
Lemma generateSignals_applies_all (w : World) (sid : string) (gs : GenState)
    (s : Store.Session) :
  Store.sessions (manager gs) !! sid = Some s →
  never_expires w (Store.SESSION_TTL (manager gs)) (Store.createdAt s) →
  all_applied sid (Store.SESSION_TTL (manager gs)) (Store.createdAt s) (calls gs)
              (Store.partialReports s) (generateSignals w sid gs).2.
Proof.
  intros Hs Hlive.
  pose proof (StageFacts.steady_generateSignals w sid
                (all_applied sid (Store.SESSION_TTL (manager gs)) (Store.createdAt s)
                             (calls gs) (Store.partialReports s))
                (λ _, True)) as Hsteady.
  assert (H : all_applied sid (Store.SESSION_TTL (manager gs)) (Store.createdAt s)
                          (calls gs) (Store.partialReports s) gs).
  { split; [done|]. exists s, []. by rewrite app_nil_r. }
  specialize (Hsteady
    ltac:(intros g g' Hm Hc; unfold all_applied; by rewrite Hm, Hc)).
  assert (Hget : hoare (all_applied sid (Store.SESSION_TTL (manager gs))
                                    (Store.createdAt s) (calls gs)
                                    (Store.partialReports s))
                       (getSession w sid)
                       (λ _, all_applied sid (Store.SESSION_TTL (manager gs))
                                         (Store.createdAt s) (calls gs)
                                         (Store.partialReports s))
                       (λ _, all_applied sid (Store.SESSION_TTL (manager gs))
                                         (Store.createdAt s) (calls gs)
                                         (Store.partialReports s))).
  { intros g (Ht & s0 & l & Hs0 & Hc0 & Hcalls & Hp).
    rewrite (getSession_exec w sid _ _ Hlive g s0 Ht Hs0 Hc0).
    split; [done|]. by exists s0, l. }
  specialize (Hsteady Hget).
  assert (Hupd : ∀ u, True →
            hoare (all_applied sid (Store.SESSION_TTL (manager gs))
                               (Store.createdAt s) (calls gs)
                               (Store.partialReports s))
                  (updateSession w sid u)
                  (λ _, all_applied sid (Store.SESSION_TTL (manager gs))
                                    (Store.createdAt s) (calls gs)
                                    (Store.partialReports s))
                  (λ _, all_applied sid (Store.SESSION_TTL (manager gs))
                                    (Store.createdAt s) (calls gs)
                                    (Store.partialReports s))).
  { intros u _ g (Ht & s0 & l & Hs0 & Hc0 & Hcalls & Hp).
    rewrite (updateSession_exec w sid _ _ Hlive g s0 u Ht Hs0 Hc0).
    split; [done|].
    exists (Store.apply_update u s0), (l ++ [mkWrite u (Some (Store.apply_update u s0))]).
    simpl. rewrite lookup_insert_eq, Hcalls, app_assoc.
    split; [done|]. split; [done|]. split; [done|].
    unfold applied. rewrite foldl_app. simpl. fold (applied l (Store.partialReports s)).
    rewrite <- Hp. by destruct (Store.u_partialReport u) as [[key report]|]. }
  specialize (Hsteady Hupd (λ _, I) gs H).
  by destruct (generateSignals w sid gs) as [[[]|e] gs'].
Qed.

(** C1.  Stage 2 on a stored, live session whose fixture is present.
    With a progress callback that returns at the start events (it may
    throw at the completion events), for every interleaving [sch] of
    the workers the final [partialReports] is the same map: on top of
    what was there, one entry under its composite key for each task
    that completes, holding that task's report; every key that was
    present before is present after; from an empty map the number of
    entries is the number of completed tasks.  Whatever the progress
    callback does and however the stage ends, no write is lost: the
    final [partialReports] is what the writes of the stage leave when
    each is applied to the map left by the one before.  At the store,
    an [updateSession] carrying a partial report inserts it by key into
    the map currently stored and keeps every other key. *)
Theorem C1_no_lost_updates (w : World) (sid : string) (gs : GenState)
    (s : Store.Session) (fixture : Store.FixtureData) (sch : nat → nat) :
  Store.sessions (manager gs) !! sid = Some s →
  never_expires w (Store.SESSION_TTL (manager gs)) (Store.createdAt s) →
  Store.fixture (Store.collectedData s) = Some fixture →
  (starts_return w →
   ∃ s', Store.sessions (manager (generateSignals (reschedule sch w) sid gs).2) !! sid
         = Some s'
         ∧ Store.partialReports s'
           = expected_reports w (Store.collectedData s) fixture
               Blueprint.getAllSignals (Store.partialReports s)
         ∧ (∀ task report,
              task ∈ Blueprint.getAllSignals →
              task_report w (Store.collectedData s) fixture task = Some report →
              Store.partialReports s' !! Blueprint.task_key task = Some report)
         ∧ (∀ k, is_Some (Store.partialReports s !! k) →
                 is_Some (Store.partialReports s' !! k))
         ∧ (Store.partialReports s = ∅ →
            size (Store.partialReports s')
            = length (filter (λ t, is_Some (task_report w (Store.collectedData s)
                                              fixture t))
                             Blueprint.getAllSignals)))
  ∧ (∃ s' writes,
       Store.sessions (manager (generateSignals (reschedule sch w) sid gs).2) !! sid
       = Some s'
       ∧ calls (generateSignals (reschedule sch w) sid gs).2 = calls gs ++ writes
       ∧ Store.partialReports s' = applied writes (Store.partialReports s))
  ∧ (∀ now key report,
       Store.updateSession now sid
         (Store.mkUpdate None None None (Some (key, report)) None None None)
         (manager gs)
       = (true,
          Store.mkManager
            (<[sid := Store.apply_update
                        (Store.mkUpdate None None None (Some (key, report))
                                        None None None) s]>
               (Store.sessions (manager gs)))
            (Store.SESSION_TTL (manager gs)))
       ∨ Store.expired (manager gs) now s = true)
  ∧ (∀ key report,
       Store.partialReports
         (Store.apply_update
            (Store.mkUpdate None None None (Some (key, report)) None None None) s)
       = <[key := report]> (Store.partialReports s)).
Proof.
  intros Hs Hlive Hfix. split; [|split; [|split]].
  - intros Hstarts.
    destruct (generateSignals_on_exec (reschedule sch w) sid _ _ Hlive
                (Store.collectedData s) fixture Hfix Hstarts Blueprint.getAllSignals
                (Store.partialReports s) (StoreFacts.but_partials s) keys_distinct
                gs s eq_refl Hs eq_refl eq_refl eq_refl eq_refl)
      as (_ & _ & s' & Hs' & Hp & _).
    rewrite expected_reports_reschedule in Hp.
    exists s'. split; [exact Hs'|]. split; [exact Hp|]. split; [|split].
    + intros task report Hin Hr. rewrite Hp.
      rewrite (expected_lookup_task _ _ _ _ _ _ keys_distinct Hin). by rewrite Hr.
    + intros k [r Hk]. rewrite Hp.
      destruct (decide (k ∈ map Blueprint.task_key Blueprint.getAllSignals)) as [Hin|Hin].
      * apply list_elem_of_fmap in Hin as (t & -> & Hin).
        rewrite (expected_lookup_task _ _ _ _ _ _ keys_distinct Hin).
        destruct (task_report _ _ _ t); [done|]. by rewrite Hk.
      * rewrite (expected_lookup_other _ _ _ _ _ _ Hin). by rewrite Hk.
    + intros Hempty. rewrite Hp, Hempty.
      rewrite (expected_size _ _ _ _ ∅ keys_distinct); [by rewrite map_size_empty|].
      intros t _. apply lookup_empty.
  - destruct (generateSignals_applies_all (reschedule sch w) sid gs s Hs Hlive)
      as (_ & s' & writes & Hs' & _ & Hcalls & Hp).
    by exists s', writes.
  - intros now key report.
    destruct (Store.expired (manager gs) now s) eqn:He; [by right|left].
    by apply StoreFacts.updateSession_live.
  - done.
Qed.

(** A task fails before its store write when its [try] block throws
    ahead of the model call: on a live session with its fixture that is
    when the collected data do not format or the chain cannot be
    created ([task_prepare_exec]). *)
Definition task_fails (w : World) (cd : Store.CollectedData) (fixture : Store.FixtureData)
    (task : Task) : Prop :=
  task_input w cd fixture task = None.

(** The claim as it is stated: whatever fails in a task, stage 2 is not
    aborted. *)
Definition task_failures_never_abort : Prop :=
  ∀ (w : World) (sid : string) (gs : GenState) (s : Store.Session)
    (fixture : Store.FixtureData),
    Store.sessions (manager gs) !! sid = Some s →
    never_expires w (Store.SESSION_TTL (manager gs)) (Store.createdAt s) →
    Store.fixture (Store.collectedData s) = Some fixture →
    (generateSignals w sid gs).1 = Ok tt.

(** The usual world, with a progress callback that throws at its first
    call; the second worker, which [Array.from] starts next, still
    begins its first task before the rejection is handled. *)
Definition hangs_up : World :=
  with_lingering 1 (with_callback (Demo.fails_at 0) (Demo.usual (λ k, k))).

(** C6, counterexample.  The start event of a task precedes its [try]:
    when the progress callback throws there, the task is left by the
    exception, the worker is rejected, and stage 2 throws. *)
Lemma C6_start_event_counterexample : ¬ task_failures_never_abort.
Proof.
  intros H.
  specialize (H hangs_up "sid" (initial hangs_up Demo.manager1) Demo.session1
                Demo.fixture eq_refl (λ _, eq_refl) eq_refl).
  vm_compute in H. discriminate H.
Qed.

(** There stage 2 throws what the callback has thrown; the callback has
    been called twice, for the start events of the first two tasks, and
    no partial report has been written. *)
Example start_event_aborts_stage :
  (generateSignals hangs_up "sid" (initial hangs_up Demo.manager1)).1
  = Throw "Invalid state: Controller is already closed"
  ∧ length (emitted (generateSignals hangs_up "sid" (initial hangs_up Demo.manager1)).2)
    = 2%nat
  ∧ (λ s', size (Store.partialReports s'))
      <$> Store.sessions
            (manager (generateSignals hangs_up "sid" (initial hangs_up Demo.manager1)).2)
            !! "sid"
    = Some 0%nat.
Proof. vm_compute. repeat split; reflexivity. Qed.

(** C6 (amended).  On a stored, live session whose fixture is present,
    with a progress callback that returns at the start events: a task
    failure is caught at the task boundary.  The stage returns normally
    (nothing is aborted); the key of a task that fails before its store
    write is absent from [partialReports] (when it was absent before);
    and every task that gets to the model call has run and written its
    report under its key, also when the progress callback throws at its
    completion event (that exception is caught with the report already
    stored), for whatever interleaving the world has. *)
Theorem C6_task_failure_is_contained (w : World) (sid : string) (gs : GenState)
    (s : Store.Session) (fixture : Store.FixtureData) (task : Task) :
  Store.sessions (manager gs) !! sid = Some s →
  never_expires w (Store.SESSION_TTL (manager gs)) (Store.createdAt s) →
  Store.fixture (Store.collectedData s) = Some fixture →
  starts_return w →
  task ∈ Blueprint.getAllSignals →
  task_fails w (Store.collectedData s) fixture task →
  Store.partialReports s !! Blueprint.task_key task = None →
  (generateSignals w sid gs).1 = Ok tt
  ∧ ∃ s', Store.sessions (manager (generateSignals w sid gs).2) !! sid = Some s'
          ∧ Store.partialReports s' !! Blueprint.task_key task = None
          ∧ (∀ other report,
               other ∈ Blueprint.getAllSignals →
               task_report w (Store.collectedData s) fixture other = Some report →
               Store.partialReports s' !! Blueprint.task_key other = Some report).
Proof.
  intros Hs Hlive Hfix Hstarts Hin Hfail Hfresh.
  destruct (generateSignals_on_exec w sid _ _ Hlive
              (Store.collectedData s) fixture Hfix Hstarts Blueprint.getAllSignals
              (Store.partialReports s) (StoreFacts.but_partials s) keys_distinct
              gs s eq_refl Hs eq_refl eq_refl eq_refl eq_refl)
    as (Hok & _ & s' & Hs' & Hp & _).
  split; [exact Hok|]. exists s'. split; [exact Hs'|]. split.
  - rewrite Hp, (expected_lookup_task _ _ _ _ _ _ keys_distinct Hin).
    unfold task_report. unfold task_fails in Hfail. by rewrite Hfail.
  - intros other report Hother Hr.
    rewrite Hp, (expected_lookup_task _ _ _ _ _ _ keys_distinct Hother). by rewrite Hr.
Qed.

Lemma demo_never_expires sch :
  never_expires (Demo.usual sch) (Js.Int 7200000) 1000.
Proof. intros n. reflexivity. Qed.

Lemma demo_callback_returns sch : callback_returns (Demo.usual sch).
Proof. intros n u. reflexivity. Qed.

Lemma C1_no_lost_updates_witness :
  ∃ s', Store.sessions
          (manager (generateSignals (reschedule (λ k, k) (Demo.usual (λ _, 0%nat))) "sid"
                      (initial (Demo.usual (λ _, 0%nat)) Demo.manager1)).2) !! "sid"
        = Some s'
        ∧ size (Store.partialReports s') = 10%nat.
Proof.
  destruct (C1_no_lost_updates (Demo.usual (λ _, 0%nat)) "sid"
              (initial (Demo.usual (λ _, 0%nat)) Demo.manager1)
              Demo.session1 Demo.fixture (λ k, k)
              eq_refl (demo_never_expires _) eq_refl)
    as [Hstage _].
  destruct (Hstage (λ _ _ _ _ _, eq_refl)) as (s' & Hs' & _ & _ & _ & Hsize).
  exists s'. split; [exact Hs'|]. rewrite (Hsize eq_refl). reflexivity.
Defined.

(** The usual world, with a progress callback that throws at every
    completion event. *)
Definition deaf : World := with_callback Demo.fails_at_completions (Demo.usual (λ k, k)).

Lemma C6_task_failure_is_contained_witness :
  (generateSignals deaf "sid" (initial deaf Demo.manager1)).1 = Ok tt
  ∧ ∃ s', Store.sessions
            (manager (generateSignals deaf "sid" (initial deaf Demo.manager1)).2) !! "sid"
          = Some s'
          ∧ Store.partialReports s' !! "key_players.injury_report" = None.
Proof.
  destruct (C6_task_failure_is_contained deaf "sid" (initial deaf Demo.manager1)
              Demo.session1 Demo.fixture
              ("key_players",
               Blueprint.mkSignal "injury_report" "Injuries & Suspensions"
                 "Unavailable players, impact on team strength" ["injuries"])
              eq_refl (λ _, eq_refl) eq_refl (λ _ _ _ _ _, eq_refl)
              (list_elem_of_lookup_2 Blueprint.getAllSignals 6%nat _ eq_refl)
              eq_refl eq_refl)
    as (Hok & s' & Hs' & Hnone & _).
  split; [exact Hok|]. exists s'. split; [exact Hs'|exact Hnone].
Defined.

End SignalFacts.

(* ===================================================================== *)
(** ** analyzeSignal and its fallbacks *)
(* ===================================================================== *)

Module FallbackFacts.
Import Chains Generator SignalFacts.

(** The claim as stated: [analyzeSignal] returns a result whatever the
    model and its configuration. *)
Definition analyzeSignal_never_throws : Prop :=
  ∀ (m : Model) (input : SignalChainInput), ∃ r, analyzeSignal m input = Ok r.

(** C10, counterexample.  [createSignalChain()] runs before the [try]:
    with [OPENAI_API_KEY] unset, [getChatModel] throws and [analyzeSignal]
    propagates that error. *)
Lemma C10_unset_key_counterexample : ¬ analyzeSignal_never_throws.
Proof.
  intros H.
  destruct (H (Demo.model None)
              (mkSignalInput "Home FC" "Away FC" "League" "2024-05-01"
                             "Match Conditions" "Kickoff time" "{}")) as [r Hr].
  discriminate Hr.
Qed.

Lemma analyzeSignal_settles m input :
  getChatModel m = Ok tt →
  analyzeSignal m input = Ok (settle_signal input (signalChain m input)).
Proof. intros H. unfold analyzeSignal. by rewrite H. Qed.

(** C10 (amended).  Once the chain has been created (the API key is set),
    [analyzeSignal] never propagates an error: a rejected model call gives
    the fixed fallback (confidence 0.3), a result the checks find
    incomplete is returned with defaults filled in (confidence 0.5 when it
    is not a number, every member present), any other result is returned
    as it is.  Consequently a stage-2 task whose model call is rejected
    still writes a partial report, the fallback, under its key: the
    stage ends with it stored when the progress callback returns at the
    start events (so that the stage is not left before the task has
    run), and, whatever the progress callback does, a task that has
    reached its model call writes the fallback when that call is
    rejected. *)
Theorem C10_analyzeSignal_falls_back :
  (∀ (m : Model) (input : SignalChainInput),
     getChatModel m = Ok tt →
     (∃ r, analyzeSignal m input = Ok r)
     ∧ (∀ e, signalChain m input = Rejects e →
             analyzeSignal m input = Ok (fallback input))
     ∧ (∀ result, signalChain m input = Resolves result → incomplete result = true →
                  analyzeSignal m input = Ok (fill_defaults result))
     ∧ (∀ result, signalChain m input = Resolves result → incomplete result = false →
                  analyzeSignal m input = Ok result))
  ∧ (∀ input, confidence (fallback input) = Some (3 # 10)%Q)
  ∧ (∀ result,
       confidence (fill_defaults result)
       = Some (match confidence result with Some c => c | None => (1 # 2)%Q end)
       ∧ is_Some (insights (fill_defaults result))
       ∧ is_Some (narrative (fill_defaults result))
       ∧ is_Some (emoji (fill_defaults result)))
  ∧ (∀ (w : World) (sid : string) (gs : GenState) (s : Store.Session)
       (fixture : Store.FixtureData) (task : Task) (input : SignalChainInput) (e : string),
       Store.sessions (manager gs) !! sid = Some s →
       never_expires w (Store.SESSION_TTL (manager gs)) (Store.createdAt s) →
       Store.fixture (Store.collectedData s) = Some fixture →
       starts_return w →
       task ∈ Blueprint.getAllSignals →
       task_input w (Store.collectedData s) fixture task = Some input →
       signalChain (model w) input = Rejects e →
       analyzeSignal (model w) input = Ok (fallback input)
       ∧ ∃ s', Store.sessions (manager (generateSignals w sid gs).2) !! sid = Some s'
               ∧ Store.partialReports s' !! Blueprint.task_key task
                 = Some (partial_report task (fallback input)))
  ∧ (∀ (w : World) (sid : string) (gs : GenState) (s : Store.Session)
       (task : Task) (input : SignalChainInput) (e : string),
       Store.sessions (manager gs) !! sid = Some s →
       never_expires w (Store.SESSION_TTL (manager gs)) (Store.createdAt s) →
       signalChain (model w) input = Rejects e →
       ∃ s', Store.sessions (manager (task_resume w sid task input gs).2) !! sid
             = Some s'
             ∧ Store.partialReports s' !! Blueprint.task_key task
               = Some (partial_report task (fallback input))).
Proof.
  split; [|split; [|split; [|split]]].
  - intros m input Hkey. rewrite (analyzeSignal_settles _ _ Hkey).
    split; [by eexists|]. split; [|split].
    + intros e He. by rewrite He.
    + intros result Hr Hinc. rewrite Hr. simpl. by rewrite Hinc.
    + intros result Hr Hinc. rewrite Hr. simpl. by rewrite Hinc.
  - done.
  - intros result. simpl. split; [by destruct (confidence result)|]. by repeat split.
  - intros w sid gs s fixture task input e Hs Hlive Hfix Hstarts Hin Hinput Hrej.
    assert (Hkey : getChatModel (model w) = Ok tt).
    { unfold task_input in Hinput.
      destruct (formatCollectedDataForSignal w _ _); [|done].
      by destruct (getChatModel (model w)) as [[]|]. }
    split.
    { rewrite (analyzeSignal_settles _ _ Hkey). by rewrite Hrej. }
    destruct (generateSignals_reports w sid gs s fixture Hs Hlive Hfix Hstarts)
      as (_ & s' & Hs' & Hp & _).
    exists s'. split; [exact Hs'|].
    rewrite Hp, (expected_lookup_task _ _ _ _ _ _ keys_distinct Hin).
    unfold task_report. rewrite Hinput. simpl. by rewrite Hrej.
  - intros w sid gs s task input e Hs Hlive Hrej.
    rewrite (task_resume_exec w sid _ _ Hlive task input gs s eq_refl Hs eq_refl).
    rewrite Hrej. simpl. rewrite lookup_insert_eq. eexists. split; [done|].
    simpl. by rewrite lookup_insert_eq.
Qed.

Definition conditions_task : Task :=
  ("game_context",
   Blueprint.mkSignal "kickoff_weather_pitch" "Match Conditions"
     "Kickoff time, weather conditions, pitch status" ["fixture"]).

Definition conditions_input : SignalChainInput :=
  mkSignalInput "Home FC" "Away FC" "League" "2024-05-01" "Match Conditions"
                "Kickoff time, weather conditions, pitch status" "{}".

Lemma C10_analyzeSignal_falls_back_witness :
  analyzeSignal (Demo.model (Some "sk-demo")) conditions_input
  = Ok (fallback conditions_input)
  ∧ confidence (fallback conditions_input) = Some (3 # 10)%Q
  ∧ ∃ s', Store.sessions
            (manager (generateSignals (Demo.usual (λ k, k)) "sid"
                        (initial (Demo.usual (λ k, k)) Demo.manager1)).2) !! "sid"
          = Some s'
          ∧ Store.partialReports s' !! "game_context.kickoff_weather_pitch"
            = Some (partial_report conditions_task (fallback conditions_input)).
Proof.
  destruct C10_analyzeSignal_falls_back as (_ & Hconf & _ & Hrun & _).
  destruct (Hrun (Demo.usual (λ k, k)) "sid"
              (initial (Demo.usual (λ k, k)) Demo.manager1)
              Demo.session1 Demo.fixture conditions_task conditions_input "Error: boom"
              eq_refl (demo_never_expires _) eq_refl (λ _ _ _ _ _, eq_refl)
              (list_elem_of_lookup_2 Blueprint.getAllSignals 2%nat _ eq_refl)
              eq_refl eq_refl) as [Han Hs'].
  split; [exact Han|]. split; [apply Hconf|exact Hs'].
Defined.

End FallbackFacts.

(* ===================================================================== *)
(** ** Fatal failures of a run *)
(* ===================================================================== *)

Module FatalFacts.
Import Chains Generator RunLogic SignalFacts.

(** The primary fetch fails: the proxy reports no success, or no data, or
    an empty list. *)
Definition fixture_fetch_fails (r : ProxyResult (list Store.FixtureData)) : Prop :=
  success r = false ∨ data r = None ∨ data r = Some [].

Lemma fixture_fetch_fails_branch {A} (r : ProxyResult (list Store.FixtureData))
    (yes : Store.FixtureData → A) (no : A) :
  fixture_fetch_fails r →
  match success r, data r with
  | true, Some (first :: _) => yes first
  | _, _ => no
  end = no.
Proof. intros [H|[H|H]]; rewrite H; [done|by destruct (success r)..]. Qed.

Definition first_update : Tracker.ProgressUpdate :=
  Tracker.mkProgress Tracker.data_collection 10 "Fetching fixture details..."
                     (Some "Fetching fixture details...") None.

Section Live.
Context (w : World) (sid : string) (ttl : Js.Num) (created : Z).
Hypothesis live : never_expires w ttl created.
Hypothesis returns : callback_returns w.

(** The session is stored, with the creation time and TTL the liveness
    assumption is about, and satisfies [R]. *)
Definition sess (R : Store.Session → Prop) (gs : GenState) : Prop :=
  Store.SESSION_TTL (manager gs) = ttl
  ∧ ∃ s, Store.sessions (manager gs) !! sid = Some s
         ∧ Store.createdAt s = created ∧ R s.

Lemma sess_frame R {A} (m : M A) (E : string → GenState → Prop) :
  frame manager m →
  (∀ e gs, sess R gs → E e gs) →
  hoare (sess R) m (λ _, sess R) E.
Proof.
  intros Hf HE.
  apply (hoare_framed manager
           (λ m0, Store.SESSION_TTL m0 = ttl
                  ∧ ∃ s, Store.sessions m0 !! sid = Some s
                         ∧ Store.createdAt s = created ∧ R s)); done.
Qed.

Lemma sess_getSession R E :
  hoare (sess R) (getSession w sid)
        (λ r gs, sess R gs ∧ ∃ s, r = Some s ∧ R s ∧ Store.createdAt s = created) E.
Proof.
  intros gs (Ht & s & Hs & Hc & HR).
  rewrite (getSession_exec w sid ttl created live gs s Ht Hs Hc).
  split; [|by exists s]. split; [done|]. by exists s.
Qed.

Lemma sess_updateSession (R R' : Store.Session → Prop) u E :
  (∀ s, R s → R' (Store.apply_update u s)) →
  hoare (sess R) (updateSession w sid u) (λ _, sess R') E.
Proof.
  intros HR gs (Ht & s & Hs & Hc & Hs').
  rewrite (updateSession_exec w sid ttl created live gs s u Ht Hs Hc).
  split; [done|]. exists (Store.apply_update u s). simpl.
  rewrite lookup_insert_eq. split; [done|]. split; [done|]. by apply HR.
Qed.

(** *** When the primary fetch fails *)

(** What stage 1 throws when the fixture fetch fails: the generator's
    message, unless the progress callback has thrown at the
    announcement before the fetch. *)
Definition abort_message (gs : GenState) : string :=
  default "Failed to fetch fixture details"
          (progressCallback w (length (emitted gs)) first_update).

Lemma collectData_fails session gs :
  fixture_fetch_fails (getFixtures w (Store.fixtureId session)) →
  ∃ gs', collectData w sid session gs = (Throw (abort_message gs), gs')
         ∧ manager gs' = manager gs
         ∧ emitted gs' = emitted gs ++ [first_update]
         ∧ calls gs' = calls gs.
Proof.
  intros Hfail. unfold abort_message, collectData, bind, emit, called, throttle_, now, bind.
  simpl. fold first_update.
  destruct (progressCallback w (length (emitted gs)) first_update) as [e|].
  - by eexists.
  - rewrite (fixture_fetch_fails_branch _ _ _ Hfail). by eexists.
Qed.

Lemma stages_fails session gs :
  fixture_fetch_fails (getFixtures w (Store.fixtureId session)) →
  ∃ gs', stages w sid session gs = (Throw (abort_message gs), gs')
         ∧ manager gs' = manager gs
         ∧ emitted gs' = emitted gs ++ [first_update]
         ∧ calls gs' = calls gs.
Proof.
  intros Hfail. destruct (collectData_fails session gs Hfail) as (gs' & Hrun & H).
  exists gs'. unfold stages. unfold bind at 1. by rewrite Hrun.
Qed.

(** *** A run whose stages throw *)

(** When the stages throw from wherever the run has brought the state,
    the run throws what they throw, and leaves the session they have
    left with status [error] and the message of that exception written
    over it. *)
Lemma generate_throws (R : Store.Session → Prop)
    (V : string → list Tracker.ProgressUpdate → Prop) gs s :
  Store.SESSION_TTL (manager gs) = ttl →
  Store.sessions (manager gs) !! sid = Some s → Store.createdAt s = created →
  R (Store.apply_update (status_update Store.generating None) s) →
  hoare (λ gs1, sess R gs1 ∧ emitted gs1 = emitted gs)
        (stages w sid s) (λ _ _, False)
        (λ e gs3, sess R gs3 ∧ V e (emitted gs3)) →
  ∃ e s3, (generate w sid gs).1 = Throw e
          ∧ V e (emitted (generate w sid gs).2)
          ∧ R s3
          ∧ Store.sessions (manager (generate w sid gs).2) !! sid
            = Some (Store.apply_update (status_update Store.error (Some e)) s3).
Proof.
  intros Ht Hs Hc HR Hstages.
  assert (Hrun : ∃ e gs3 s3,
            sess (λ s', s' = s3) gs3 ∧ R s3 ∧ V e (emitted gs3)
            ∧ generate w sid gs
              = (updateSession w sid (status_update Store.error (Some e)) >> throw e) gs3).
  { unfold generate. unfold bind at 1.
    rewrite (getSession_exec w sid ttl created live gs s Ht Hs Hc).
    unfold bind at 1, new_tracker at 1, try_catch. unfold bind at 1.
    match goal with |- context [updateSession w sid ?u ?g] =>
      rewrite (updateSession_exec w sid ttl created live g s u Ht Hs Hc) end.
    match goal with |- context [mkGen ?a ?b ?c ?d ?e ?f] =>
      set (gs2 := mkGen a b c d e f) end.
    assert (Hpre : sess R gs2 ∧ emitted gs2 = emitted gs).
    { split; [|done]. split; [done|]. eexists. simpl. rewrite lookup_insert_eq.
      split; [done|]. split; [done|]. exact HR. }
    specialize (Hstages gs2 Hpre). unfold bind at 1.
    destruct (stages w sid s gs2) as [[[]|e] gs3]; [done|].
    destruct Hstages as ((Ht3 & s3 & Hs3 & Hc3 & HR3) & HV).
    exists e, gs3, s3. split; [|done]. split; [done|]. by exists s3. }
  destruct Hrun as (e & gs3 & s3 & (Ht3 & ? & Hs3 & Hc3 & ->) & HR3 & HV & ->).
  unfold bind. rewrite (updateSession_exec w sid ttl created live gs3 s3 _ Ht3 Hs3 Hc3).
  unfold throw. simpl. exists e, s3. split; [done|]. split; [done|]. split; [done|].
  by rewrite lookup_insert_eq.
Qed.

(** When the stages throw [msg], the run throws [msg] and leaves the
    session in status [error] with [msg] stored, whatever else [R] the
    stages kept of it. *)
Lemma generate_fatal (R : Store.Session → Prop)
    (V : list Tracker.ProgressUpdate → Prop) (msg : string) gs s :
  Store.SESSION_TTL (manager gs) = ttl →
  Store.sessions (manager gs) !! sid = Some s → Store.createdAt s = created →
  R s → (∀ s0 st e, R s0 → R (Store.apply_update (status_update st e) s0)) →
  Js.truthy_str msg = true →
  hoare (λ gs1, sess R gs1 ∧ emitted gs1 = emitted gs)
        (stages w sid s) (λ _ _, False)
        (λ e gs3, e = msg ∧ sess R gs3 ∧ V (emitted gs3)) →
  (generate w sid gs).1 = Throw msg
  ∧ V (emitted (generate w sid gs).2)
  ∧ ∃ s', Store.sessions (manager (generate w sid gs).2) !! sid = Some s'
          ∧ R s' ∧ Store.status s' = Store.error ∧ Store.error_ s' = Some msg.
Proof.
  intros Ht Hs Hc HR Hstable Hmsg Hstages.
  destruct (generate_throws R (λ e l, e = msg ∧ V l) gs s Ht Hs Hc
              (Hstable _ _ _ HR))
    as (e & s3 & Hres & [-> HV] & HR3 & Hs').
  { eapply hoare_conseq; [exact Hstages|done|done|]. by intros e gs3 (-> & H1 & H2). }
  split; [done|]. split; [done|]. eexists. split; [exact Hs'|].
  split; [by apply Hstable|]. simpl. by rewrite Hmsg.
Qed.

(** *** When the final synthesis call throws *)

Lemma sess_emit R f E : hoare (sess R) (emit w f) (λ _, sess R) E.
Proof. apply hoare_emit_returns; [exact returns|]. by intros gs H. Qed.

Lemma sess_throttle R E : hoare (sess R) (throttle_ w) (λ _, sess R) E.
Proof. by intros gs H. Qed.

Lemma hoare_pure {A} (φ : Prop) (P : GenState → Prop) (m : M A) Q E :
  (φ → hoare P m Q E) → hoare (λ gs, P gs ∧ φ) m Q E.
Proof. intros H gs [HP Hφ]. by apply H. Qed.

(** No final report yet. *)
Definition no_report (s : Store.Session) : Prop := Store.finalReport s = None.

(** No final report yet, and the fixture is stored. *)
Definition ready (s : Store.Session) : Prop :=
  Store.finalReport s = None ∧ is_Some (Store.fixture (Store.collectedData s)).

Lemma ready_collected cd0 s : ready s → ready (Store.apply_update (collected cd0) s).
Proof.
  intros [Hf [f Hfix]]. split; [done|]. simpl. rewrite Hfix.
  by destruct (Store.fixture cd0).
Qed.

Lemma ready_first first s :
  no_report s →
  ready (Store.apply_update
           (collected (Store.mkCollected (Some first) None None None None None)) s).
Proof. intros Hf. split; [done|]. by eexists. Qed.

Lemma ready_category kr s :
  ready s →
  ready (Store.apply_update (Store.mkUpdate None None None None (Some kr) None None) s).
Proof. intros [Hf Hfix]. by destruct kr. Qed.

Ltac keep I :=
  repeat match goal with
    | |- hoare _ (bind _ _) _ _ => apply hoare_bind with (R := λ _, I); [|intros ?]
    | |- hoare _ (try_catch _ _) _ _ =>
        apply hoare_try_catch with (E' := λ _, I); [|intros ?]
    | |- hoare _ (emit _ _) _ _ => apply sess_emit
    | |- hoare _ (throttle_ _) _ _ => apply sess_throttle
    | |- hoare _ (updateSession _ _ (collected _)) _ _ =>
        apply sess_updateSession; intros ?; apply ready_collected
    | |- hoare _ (updateSession _ _ _) _ _ =>
        apply sess_updateSession; intros ?; apply ready_category
    | |- hoare _ (ret _) _ _ => by apply hoare_ret
    | |- hoare _ (lift ?r) _ _ => apply hoare_lift; intros ? ?; by destruct r
    | |- hoare _ (match ?x with _ => _ end) _ _ => destruct x
    | |- hoare _ (if ?x then _ else _) _ _ => destruct x
    end.

Lemma fragment_ready msg result store E :
  hoare (sess ready) (fragment w sid msg result store) (λ _, sess ready) E.
Proof. unfold fragment. keep (sess ready). Qed.

Lemma collectData_ready session first others E :
  success (getFixtures w (Store.fixtureId session)) = true →
  data (getFixtures w (Store.fixtureId session)) = Some (first :: others) →
  hoare (sess no_report) (collectData w sid session) (λ _, sess ready) E.
Proof.
  intros Hsuccess Hdata. unfold collectData. rewrite Hsuccess, Hdata.
  apply hoare_bind with (R := λ _, sess no_report); [apply sess_emit|intros _].
  apply hoare_bind with (R := λ _, sess no_report); [apply sess_throttle|intros _].
  apply hoare_bind with (R := λ _, sess ready).
  { apply hoare_bind with (R := λ _, sess ready); [|intros _; by apply hoare_ret].
    apply sess_updateSession. intros s0. apply ready_first. }
  intros fixture.
  do 4 (apply hoare_bind with (R := λ _, sess ready); [apply fragment_ready|intros _]).
  keep (sess ready).
Qed.

Lemma generateSignals_ready E :
  hoare (sess ready) (generateSignals w sid) (λ _, sess ready) E.
Proof.
  intros gs (Ht & s & Hs & Hc & Hf & [fixture Hfix]).
  assert (Hlive : never_expires w (Store.SESSION_TTL (manager gs)) (Store.createdAt s))
    by (by rewrite Ht, Hc).
  destruct (generateSignals_reports w sid gs s fixture Hs Hlive Hfix
              (callback_returns_starts w returns))
    as (Hok & s' & Hs' & _ & Hrest & Httl).
  destruct (generateSignals w sid gs) as [[[]|e] gs']; simpl in *; [|done].
  split; [by rewrite Httl|]. exists s'. split; [done|].
  assert (Hc' : Store.createdAt s' = Store.createdAt s)
    by exact (f_equal Store.createdAt Hrest).
  assert (Hf' : Store.finalReport s' = Store.finalReport s)
    by exact (f_equal Store.finalReport Hrest).
  assert (Hcd' : Store.collectedData s' = Store.collectedData s)
    by exact (f_equal Store.collectedData Hrest).
  split; [by rewrite Hc'|]. split; [by rewrite Hf'|]. rewrite Hcd'. by exists fixture.
Qed.

Lemma merge_one_ready session fixture category E :
  hoare (sess ready) (merge_one w sid session fixture category) (λ _, sess ready) E.
Proof. unfold merge_one. keep (sess ready). Qed.

Lemma for_each_ready {A} (body : A → M unit) l E :
  (∀ x, hoare (sess ready) (body x) (λ _, sess ready) E) →
  hoare (sess ready) (for_each l body) (λ _, sess ready) E.
Proof.
  intros Hb. induction l as [|x l IH]; simpl; [by apply hoare_ret|].
  apply hoare_bind with (R := λ _, sess ready); [apply Hb|intros _; apply IH].
Qed.

Lemma mergeCategories_ready E :
  hoare (sess ready) (mergeCategories w sid) (λ _, sess ready) E.
Proof.
  unfold mergeCategories. eapply hoare_bind; [apply sess_getSession|].
  intros [session|]; [|by intros gs [_ (s & Hs & _)]].
  apply hoare_pure. intros (s & Heq & [_ [fixture Hfix]] & _).
  inversion Heq; subst s. rewrite Hfix.
  apply for_each_ready. intros category. apply merge_one_ready.
Qed.

Lemma synthesizeFinal_throws msg :
  (∀ input, synthesizeFinalReport (model w) input = Throw msg) →
  hoare (sess ready) (synthesizeFinal w sid) (λ _ _, False)
        (λ e gs, e = msg ∧ sess ready gs).
Proof.
  intros Hfinal. unfold synthesizeFinal.
  apply hoare_bind with (R := λ _, sess ready); [apply sess_emit|intros _].
  eapply hoare_bind; [apply sess_getSession|].
  intros [session|]; [|by intros gs [_ (s & Hs & _)]].
  apply hoare_pure. intros (s & Heq & [_ [fixture Hfix]] & _).
  inversion Heq; subst s. rewrite Hfix.
  apply hoare_try_catch with (E' := λ e gs, e = msg ∧ sess ready gs);
    [|intros e; by apply hoare_throw].
  apply hoare_bind with (R := λ _, sess ready); [apply sess_emit|intros _].
  rewrite Hfinal. by intros gs H.
Qed.

Lemma stages_throw session first others msg :
  success (getFixtures w (Store.fixtureId session)) = true →
  data (getFixtures w (Store.fixtureId session)) = Some (first :: others) →
  (∀ input, synthesizeFinalReport (model w) input = Throw msg) →
  hoare (sess no_report) (stages w sid session) (λ _ _, False)
        (λ e gs, e = msg ∧ sess no_report gs).
Proof.
  intros Hsuccess Hdata Hfinal. unfold stages.
  apply hoare_bind with (R := λ _, sess ready);
    [by apply (collectData_ready session first others)|intros _].
  apply hoare_bind with (R := λ _, sess ready); [apply generateSignals_ready|intros _].
  apply hoare_bind with (R := λ _, sess ready); [apply mergeCategories_ready|intros _].
  eapply hoare_conseq; [by apply synthesizeFinal_throws|done|done|].
  intros e gs (-> & Ht & s & Hs & Hc & Hf & _). split; [done|]. split; [done|].
  by exists s.
Qed.

(** *** The same, whatever the progress callback does *)

(** The update writes no final report. *)
Definition no_final (u : Store.UpdateSessionParams) : Prop := Store.u_finalReport u = None.

Lemma no_report_frame gs gs' :
  manager gs' = manager gs → calls gs' = calls gs → sess no_report gs → sess no_report gs'.
Proof. intros Hm _. unfold sess. by rewrite Hm. Qed.

Lemma no_report_getSession :
  hoare (sess no_report) (getSession w sid) (λ _, sess no_report) (λ _, sess no_report).
Proof.
  eapply hoare_conseq; [apply (sess_getSession no_report (λ _, sess no_report))|done| |done].
  by intros r gs [H _].
Qed.

Lemma no_report_updateSession u :
  no_final u →
  hoare (sess no_report) (updateSession w sid u)
        (λ _, sess no_report) (λ _, sess no_report).
Proof.
  intros Hu. apply sess_updateSession. intros s0 Hs0.
  unfold no_report, no_final in *. simpl. by rewrite Hu, Hs0.
Qed.

(** When the final synthesis call throws, stage 4 does not return, and
    it stores no final report. *)
Lemma synthesizeFinal_never_returns msg :
  (∀ input, synthesizeFinalReport (model w) input = Throw msg) →
  hoare (sess no_report) (synthesizeFinal w sid) (λ _ _, False) (λ _, sess no_report).
Proof.
  intros Hfinal. unfold synthesizeFinal.
  apply hoare_bind with (R := λ _, sess no_report);
    [apply hoare_emit; by intros gs H|intros _].
  eapply hoare_bind; [apply sess_getSession|].
  intros [session|]; [|by intros gs [_ (s0 & Hs0 & _)]].
  apply hoare_pure. intros _.
  destruct (Store.fixture _) as [fixture|]; [|by apply hoare_throw].
  apply hoare_try_catch with (E' := λ _, sess no_report);
    [|intros e; by apply hoare_throw].
  apply hoare_bind with (R := λ _, sess no_report);
    [apply hoare_emit; by intros gs H|intros _].
  rewrite Hfinal. by intros gs H.
Qed.

Lemma stages_never_return session msg :
  (∀ input, synthesizeFinalReport (model w) input = Throw msg) →
  hoare (sess no_report) (stages w sid session) (λ _ _, False) (λ _, sess no_report).
Proof.
  intros Hfinal. unfold stages.
  apply hoare_bind with (R := λ _, sess no_report).
  { apply (StageFacts.steady_collectData w sid (sess no_report) no_final);
      first [exact no_report_frame | exact no_report_getSession
            | exact no_report_updateSession | by intros ?]. }
  intros _. apply hoare_bind with (R := λ _, sess no_report).
  { apply (StageFacts.steady_generateSignals w sid (sess no_report) no_final);
      first [exact no_report_frame | exact no_report_getSession
            | exact no_report_updateSession | by intros ?]. }
  intros _. apply hoare_bind with (R := λ _, sess no_report).
  { apply (StageFacts.steady_mergeCategories w sid (sess no_report) no_final);
      first [exact no_report_frame | exact no_report_getSession
            | exact no_report_updateSession | by intros ?]. }
  intros _. by apply (synthesizeFinal_never_returns msg).
Qed.

End Live.

Lemma synthesizeFinalReport_message m input msg :
  synthesizeFinalReport m input = Throw msg → Js.truthy_str msg = true.
Proof.
  unfold synthesizeFinalReport, getChatModel.
  destruct (Store.truthy_opt _); [|by intros [= <-]].
  destruct (finalChain m input); [|done]. by intros [= <-].
Qed.

(** C5.  On a stored, live session without a final report, when stage 1
    obtains the fixture and the final synthesis call of stage 4 throws:
    whatever the progress callback does, the run throws, the session
    ends with status [error], its error member is the message of what
    the run has thrown (when that is not empty), and no final report is
    stored.  With a progress callback that returns the run gets as far
    as the final synthesis: it throws the error of that call, and the
    error member is its message. *)
Theorem C5_final_synthesis_failure (w : World) (sid : string)
    (m : Store.SessionManager) (s : Store.Session)
    (first : Store.FixtureData) (others : list Store.FixtureData) (msg : string) :
  Store.sessions m !! sid = Some s →
  never_expires w (Store.SESSION_TTL m) (Store.createdAt s) →
  Store.finalReport s = None →
  success (getFixtures w (Store.fixtureId s)) = true →
  data (getFixtures w (Store.fixtureId s)) = Some (first :: others) →
  (∀ input, synthesizeFinalReport (model w) input = Throw msg) →
  (∃ e s', (generateReport w sid m).1 = Throw e
           ∧ Store.sessions (manager (generateReport w sid m).2) !! sid = Some s'
           ∧ Store.status s' = Store.error
           ∧ (Js.truthy_str e = true → Store.error_ s' = Some e)
           ∧ Store.finalReport s' = None)
  ∧ (callback_returns w →
     (generateReport w sid m).1 = Throw msg
     ∧ ∃ s', Store.sessions (manager (generateReport w sid m).2) !! sid = Some s'
             ∧ Store.status s' = Store.error
             ∧ Store.error_ s' = Some msg
             ∧ Store.finalReport s' = None).
Proof.
  intros Hs Hlive Hnone Hsuccess Hdata Hfinal. split.
  - destruct (generate_throws w sid _ _ Hlive no_report (λ _ _, True)
                (initial w m) s eq_refl Hs eq_refl Hnone)
      as (e & s3 & Hres & _ & Hno & Hs').
    { eapply hoare_conseq;
        [apply (stages_never_return w sid _ _ Hlive s msg Hfinal)| | |].
      - by intros gs [H _].
      - done.
      - by intros e gs H. }
    exists e. eexists. unfold generateReport. split; [exact Hres|].
    split; [exact Hs'|]. split; [done|]. split.
    + intros Htruthy. simpl. by rewrite Htruthy.
    + unfold no_report in Hno. simpl. by rewrite Hno.
  - intros Hret.
    pose proof (synthesizeFinalReport_message _ _ _
                  (Hfinal (mkFinalInput EmptyString EmptyString EmptyString
                                        EmptyString EmptyString))) as Hmsg.
    destruct (generate_fatal w sid _ _ Hlive no_report (λ _, True) msg
                (initial w m) s eq_refl Hs eq_refl Hnone)
      as (Hres & _ & s' & Hs' & Hno & Hst & Herr).
    + done.
    + exact Hmsg.
    + eapply hoare_conseq;
        [by apply (stages_throw w sid _ _ Hlive Hret s first others msg)| | |].
      * by intros gs [H _].
      * done.
      * by intros e gs [-> H].
    + unfold generateReport. split; [exact Hres|]. by exists s'.
Qed.

Lemma C5_final_synthesis_failure_witness :
  let w := Demo.world (Demo.succeeded [Demo.fixture])
             (mkModel (Some "sk-demo") (λ _, Resolves Demo.good_signal)
                      (λ _, Resolves (mkCategoryOutput "a title" [] []))
                      (λ _, Rejects "Error: boom"))
             (λ k, k) in
  (generateReport w "sid" Demo.manager0).1
  = Throw "Failed to synthesize final report: Error: boom"
  ∧ ∃ s', Store.sessions (manager (generateReport w "sid" Demo.manager0).2) !! "sid"
          = Some s'
          ∧ Store.status s' = Store.error
          ∧ Store.error_ s' = Some "Failed to synthesize final report: Error: boom"
          ∧ Store.finalReport s' = None.
Proof.
  intros w.
  exact (proj2 (C5_final_synthesis_failure w "sid" Demo.manager0
                  (Store.mkSession "sid" 12345 1000 Store.pending None Store.no_data
                                   ∅ ∅ None [])
                  Demo.fixture [] "Failed to synthesize final report: Error: boom"
                  eq_refl ltac:(intros n; reflexivity)
                  eq_refl eq_refl eq_refl ltac:(intros input; reflexivity))
               ltac:(intros n u; reflexivity)).
Defined.

(** C4.  When the first fixture fetch of stage 1 fails on a stored, live
    session, the run is aborted, whatever the progress callback does:
    the run throws, the session ends with status [error] and the
    message of what was thrown stored (when it is not empty); the only
    update the progress callback has received is the announcement of
    that fetch, so no stage-2 task has started (a task's first action is
    its start event), and [partialReports] is as it was.  What is
    thrown is the generator's error for the failed fetch, unless the
    progress callback has thrown at the announcement, in which case it
    is that exception.  So when the callback returns from that call,
    the run throws "Failed to fetch fixture details" and this is the
    message stored. *)
Theorem C4_primary_fetch_failure_aborts (w : World) (sid : string)
    (m : Store.SessionManager) (s : Store.Session) :
  Store.sessions m !! sid = Some s →
  never_expires w (Store.SESSION_TTL m) (Store.createdAt s) →
  fixture_fetch_fails (getFixtures w (Store.fixtureId s)) →
  (∃ e, (generateReport w sid m).1 = Throw e
        ∧ e = default "Failed to fetch fixture details"
                      (progressCallback w 0 first_update)
        ∧ emitted (generateReport w sid m).2 = [first_update]
        ∧ Forall (λ u, Tracker.stage u ≠ Tracker.signal_generation)
                 (emitted (generateReport w sid m).2)
        ∧ ∃ s', Store.sessions (manager (generateReport w sid m).2) !! sid = Some s'
                ∧ Store.status s' = Store.error
                ∧ (Js.truthy_str e = true → Store.error_ s' = Some e)
                ∧ Store.partialReports s' = Store.partialReports s)
  ∧ (progressCallback w 0 first_update = None →
     (generateReport w sid m).1 = Throw "Failed to fetch fixture details"
     ∧ emitted (generateReport w sid m).2 = [first_update]
     ∧ Forall (λ u, Tracker.stage u ≠ Tracker.signal_generation)
              (emitted (generateReport w sid m).2)
     ∧ ∃ s', Store.sessions (manager (generateReport w sid m).2) !! sid = Some s'
             ∧ Store.status s' = Store.error
             ∧ Store.error_ s' = Some "Failed to fetch fixture details"
             ∧ Store.partialReports s' = Store.partialReports s).
Proof.
  intros Hs Hlive Hfail.
  assert (Hgen : ∃ e, (generateReport w sid m).1 = Throw e
        ∧ e = default "Failed to fetch fixture details"
                      (progressCallback w 0 first_update)
        ∧ emitted (generateReport w sid m).2 = [first_update]
        ∧ Forall (λ u, Tracker.stage u ≠ Tracker.signal_generation)
                 (emitted (generateReport w sid m).2)
        ∧ ∃ s', Store.sessions (manager (generateReport w sid m).2) !! sid = Some s'
                ∧ Store.status s' = Store.error
                ∧ (Js.truthy_str e = true → Store.error_ s' = Some e)
                ∧ Store.partialReports s' = Store.partialReports s).
  { destruct (generate_throws w sid _ _ Hlive
                (λ s', Store.partialReports s' = Store.partialReports s)
                (λ e l, e = abort_message w (initial w m) ∧ l = [first_update])
                (initial w m) s eq_refl Hs eq_refl eq_refl)
      as (e & s3 & Hres & [He Hem] & Hp & Hs').
    { intros gs1 [Hsess Hemitted].
      destruct (stages_fails w sid s gs1 Hfail) as (gs' & Hrun & Hm & Hemit & _).
      rewrite Hrun. split.
      - unfold sess. rewrite Hm. exact Hsess.
      - unfold abort_message. rewrite Hemit, Hemitted. done. }
    exists e. unfold generateReport. split; [exact Hres|]. split; [exact He|].
    split; [exact Hem|]. split; [rewrite Hem; by repeat constructor|].
    eexists. split; [exact Hs'|]. split; [done|]. split; [|exact Hp].
    intros Htruthy. simpl. by rewrite Htruthy. }
  split; [exact Hgen|].
  intros Hfirst. destruct Hgen as (e & Hres & He & Hem & Hno & s' & Hs' & Hst & Herr & Hp).
  rewrite Hfirst in He. simpl in He. subst e.
  split; [exact Hres|]. split; [exact Hem|]. split; [exact Hno|].
  exists s'. split; [exact Hs'|]. split; [exact Hst|]. split; [by apply Herr|exact Hp].
Qed.

Lemma C4_primary_fetch_failure_aborts_witness :
  let w := Demo.world (Demo.failed "API rate limit exceeded. Please try again in a moment.")
                      (Demo.model (Some "sk-demo")) (λ k, k) in
  (generateReport w "sid" Demo.manager0).1 = Throw "Failed to fetch fixture details"
  ∧ emitted (generateReport w "sid" Demo.manager0).2 = [first_update].
Proof.
  intros w.
  destruct (C4_primary_fetch_failure_aborts w "sid" Demo.manager0
              (Store.mkSession "sid" 12345 1000 Store.pending None Store.no_data
                               ∅ ∅ None [])
              eq_refl ltac:(intros n; reflexivity) (or_introl eq_refl))
    as [_ Hquiet].
  destruct (Hquiet eq_refl) as (H1 & H2 & _).
  split; [exact H1|exact H2].
Defined.

End FatalFacts.

(* ===================================================================== *)
(** ** The status of a session during a run *)
(* ===================================================================== *)

Module StatusFacts.
Import Chains Generator RunLogic StageFacts SignalFacts.

(** What one store write of a run shows of the status: the status member
    of the update written, and the status of the session stored under
    the run's id once the write has returned. *)
Definition observed (c : Write) : option Store.SessionStatus * option Store.SessionStatus :=
  (Store.u_status (written c), Store.status <$> stored c).

(** A write that sets the status to [st], and finds it stored. *)
Definition sets (st : Store.SessionStatus)
  : option Store.SessionStatus * option Store.SessionStatus :=
  (Some st, Some st).

(** A write without a status member, after which the session is still
    [generating]. *)
Definition quiet : option Store.SessionStatus * option Store.SessionStatus :=
  (None, Some Store.generating).

(** The update has no status member. *)
Definition no_status (u : Store.UpdateSessionParams) : Prop := Store.u_status u = None.

(** *** The stored status, whatever it is *)

(** The session stored under [sid], if there is one, has status [st]. *)
Definition status_is (sid : string) (st : Store.SessionStatus) (gs : GenState) : Prop :=
  ∀ s, Store.sessions (manager gs) !! sid = Some s → Store.status s = st.

Lemma status_is_getSession w sid st :
  hoare (status_is sid st) (getSession w sid)
        (λ _, status_is sid st) (λ _, status_is sid st).
Proof.
  intros gs H. unfold getSession, bind, now, Store.getSession. simpl.
  destruct (Store.sessions (manager gs) !! sid) as [s0|] eqn:Hs0; [|done].
  destruct (Store.expired _ _ _); [|done].
  intros s. simpl. by rewrite lookup_delete_eq.
Qed.

Lemma status_is_updateSession w sid st u :
  Store.u_status u = None →
  hoare (status_is sid st) (updateSession w sid u)
        (λ _, status_is sid st) (λ _, status_is sid st).
Proof.
  intros Hu gs H. unfold updateSession, bind, now, Store.updateSession, Store.getSession.
  simpl.
  destruct (Store.sessions (manager gs) !! sid) as [s0|] eqn:Hs0; [|done].
  destruct (Store.expired _ _ _); simpl.
  - intros s. simpl. by rewrite lookup_delete_eq.
  - intros s. simpl. rewrite lookup_insert_eq. intros [= <-].
    rewrite (StoreFacts.apply_update_status u s0 Hu). by apply H.
Qed.

(** *** A run under way *)

Section Live.
Context (w : World) (sid : string) (ttl : Js.Num) (created : Z).
Hypothesis live : never_expires w ttl created.

(** The run has written [generating], and since then only updates
    without a status; the session is stored, with status
    [generating]. *)
Definition under_way (gs : GenState) : Prop :=
  (Store.SESSION_TTL (manager gs) = ttl
   ∧ ∃ s, Store.sessions (manager gs) !! sid = Some s
          ∧ Store.createdAt s = created ∧ Store.status s = Store.generating)
  ∧ ∃ n, map observed (calls gs) = sets Store.generating :: replicate n quiet.

Lemma under_way_getSession :
  hoare under_way (getSession w sid) (λ _, under_way) (λ _, under_way).
Proof.
  intros gs [(Ht & s & Hs & Hc & Hst) Hcalls].
  rewrite (getSession_exec w sid ttl created live gs s Ht Hs Hc).
  split; [|done]. split; [done|]. by exists s.
Qed.

Lemma under_way_updateSession u :
  Store.u_status u = None →
  hoare under_way (updateSession w sid u) (λ _, under_way) (λ _, under_way).
Proof.
  intros Hu gs [(Ht & s & Hs & Hc & Hst) [n Hcalls]].
  rewrite (updateSession_exec w sid ttl created live gs s u Ht Hs Hc).
  assert (Hst' : Store.status (Store.apply_update u s) = Store.generating)
    by (by rewrite (StoreFacts.apply_update_status u s Hu)).
  split.
  - split; [done|]. exists (Store.apply_update u s). simpl.
    by rewrite lookup_insert_eq.
  - exists (S n). simpl calls. rewrite map_app, Hcalls. simpl.
    unfold observed at 1. simpl written. simpl stored. rewrite Hu.
    change (Store.status <$> Some (Store.apply_update u s))
      with (Some (Store.status (Store.apply_update u s))).
    rewrite Hst'. fold quiet. by rewrite <- replicate_cons_app.
Qed.

Lemma under_way_stages session :
  hoare under_way (stages w sid session) (λ _, under_way) (λ _, under_way).
Proof.
  apply (steady_stages w sid under_way no_status).
  - intros gs gs' Hm Hc. unfold under_way. by rewrite Hm, Hc.
  - apply under_way_getSession.
  - apply under_way_updateSession.
  - done.
  - done.
  - done.
  - done.
Qed.

End Live.

(** C9 (amended).  During one run on a stored session that does not
    expire, the stored status only moves forward.  The first store write
    of the run carries [generating]; the writes that follow carry no
    status and find the session [generating]; the run ends with the
    write of a terminal status, which is then the stored one:
    [completed] when the run returns, [error] when it throws.  Only when
    the progress callback throws at the completion event, after
    [completed] has been written, does [error] follow [completed].
    A step of a stage-2 worker, from whatever state (so also one taken
    once the run has settled), leaves the stored status as it is, and an
    update without a status member leaves the status of the session it
    is applied to unchanged. *)
Theorem C9_run_status_forward (w : World) (sid : string) (m : Store.SessionManager)
    (s : Store.Session) :
  Store.sessions m !! sid = Some s →
  never_expires w (Store.SESSION_TTL m) (Store.createdAt s) →
  (∃ n tail,
     map observed (calls (generateReport w sid m).2)
     = sets Store.generating :: replicate n quiet ++ map sets tail
     ∧ Store.status <$> Store.sessions (manager (generateReport w sid m).2) !! sid
       = last tail
     ∧ match (generateReport w sid m).1 with
       | Ok _ => tail = [Store.completed]
       | Throw _ =>
           tail = [Store.error]
           ∨ (tail = [Store.completed; Store.error] ∧ ¬ callback_returns w)
       end)
  ∧ (∀ tasks i p st,
       status_is sid st (gen p) → status_is sid st (gen (worker_step w sid tasks i p)))
  ∧ (∀ u s0, Store.u_status u = None →
             Store.status (Store.apply_update u s0) = Store.status s0).
Proof.
  intros Hs Hlive. split; [|split].
  - remember (generateReport w sid m) as run eqn:Hrun.
    unfold generateReport, generate in Hrun. unfold bind at 1 in Hrun.
    rewrite (getSession_exec w sid _ _ Hlive (initial w m) s eq_refl Hs eq_refl) in Hrun.
    unfold bind at 1, new_tracker at 1, try_catch in Hrun. unfold bind at 1 in Hrun.
    match type of Hrun with context [updateSession w sid ?u ?g] =>
      rewrite (updateSession_exec w sid _ _ Hlive g s u eq_refl Hs eq_refl) in Hrun end.
    match type of Hrun with context [mkGen ?a ?b ?c ?d ?e ?f] =>
      set (gs2 := mkGen a b c d e f) in Hrun end.
    assert (H2 : under_way sid (Store.SESSION_TTL m) (Store.createdAt s) gs2).
    { split; [|by exists 0%nat]. split; [done|]. eexists. simpl.
      rewrite lookup_insert_eq. by split. }
    pose proof (under_way_stages w sid _ _ Hlive s gs2 H2) as H3.
    unfold bind at 1 in Hrun.
    destruct (stages w sid s gs2) as [[[]|e] gs3];
      destruct H3 as [(Ht & s3 & Hs3 & Hc3 & Hst3) [n Hcalls]].
    + unfold bind at 1 in Hrun.
      rewrite (updateSession_exec w sid _ _ Hlive gs3 s3 _ Ht Hs3 Hc3) in Hrun.
      unfold callback in Hrun.
      match type of Hrun with context [called w ?u ?g] =>
        destruct (called w u g) as [[]|e] eqn:Hcalled end.
      * subst run. exists n, [Store.completed]. simpl. rewrite map_app, Hcalls.
        by rewrite lookup_insert_eq.
      * unfold bind in Hrun.
        match type of Hrun with context [updateSession w sid ?u ?g] =>
          rewrite (updateSession_exec w sid _ _ Hlive g
                     (Store.apply_update (status_update Store.completed None) s3) u
                     eq_refl ltac:(simpl; by rewrite lookup_insert_eq) Hc3) in Hrun end.
        subst run. exists n, [Store.completed; Store.error]. simpl.
        rewrite !map_app, Hcalls. rewrite lookup_insert_eq. simpl.
        split; [by rewrite <- app_assoc|]. split; [done|]. right. split; [done|].
        intros Hret. unfold called in Hcalled. by rewrite Hret in Hcalled.
    + unfold bind in Hrun.
      rewrite (updateSession_exec w sid _ _ Hlive gs3 s3 _ Ht Hs3 Hc3) in Hrun.
      subst run. exists n, [Store.error]. simpl. rewrite map_app, Hcalls.
      rewrite lookup_insert_eq. split; [done|]. split; [done|]. by left.
  - intros tasks i p st. apply (steady_worker_step w sid (status_is sid st) no_status).
    + intros gs gs' Hm _. unfold status_is. by rewrite Hm.
    + apply status_is_getSession.
    + intros u. apply status_is_updateSession.
    + done.
  - intros u s0. apply StoreFacts.apply_update_status.
Qed.

Lemma C9_run_status_forward_witness :
  ∃ n tail,
    map observed (calls (generateReport (Demo.usual (λ k, k)) "sid" Demo.manager0).2)
    = sets Store.generating :: replicate n quiet ++ map sets tail
    ∧ Store.status
        <$> Store.sessions
              (manager (generateReport (Demo.usual (λ k, k)) "sid" Demo.manager0).2)
              !! "sid"
      = last tail.
Proof.
  destruct (C9_run_status_forward (Demo.usual (λ k, k)) "sid" Demo.manager0
              (Store.mkSession "sid" 12345 1000 Store.pending None Store.no_data
                               ∅ ∅ None [])
              eq_refl (demo_never_expires _))
    as [(n & tail & Htrace & Hlast & _) _].
  exists n, tail. split; [exact Htrace|exact Hlast].
Defined.

(** The usual world, with a progress callback that throws when it is
    handed the completion update, its 42nd call. *)
Definition closed_at_the_end : World :=
  with_callback (Demo.fails_at 41) (Demo.usual (λ k, k)).

(** There the run writes [completed], then [error], and throws what the
    callback has thrown. *)
Example completed_then_error :
  (generateReport closed_at_the_end "sid" Demo.manager0).1
  = Throw "Invalid state: Controller is already closed"
  ∧ filter (λ o, o.1 ≠ None)
           (map observed (calls (generateReport closed_at_the_end "sid" Demo.manager0).2))
    = [sets Store.generating; sets Store.completed; sets Store.error].
Proof. vm_compute. split; reflexivity. Qed.

End StatusFacts.

(* ===================================================================== *)
(** ** Concrete runs *)
(* ===================================================================== *)

Module Examples.
Import Chains Generator.

Example parseInt_prefix : Js.parseInt " 12abc" = Js.Int 12.
Proof. reflexivity. Qed.

Example parseInt_no_digit : Js.parseInt "soon" = Js.NaN.
Proof. reflexivity. Qed.

Example parseInt_hex :
  Js.parseInt "0x10" = Js.Int 16 ∧ Js.parseInt10 "0x10" = Js.Int 0.
Proof. split; reflexivity. Qed.

Example minDelay_rounds_up :
  Throttle.minDelayMs (Throttle.new 8) = 7500
  ∧ Throttle.minDelayMs (Throttle.new 7) = 8572.
Proof. split; reflexivity. Qed.

Example configured_rate_defaults :
  Throttle.configured_rate None = 8
  ∧ Throttle.configured_rate (Some "abc") = 8
  ∧ Throttle.configured_rate (Some "0") = 8
  ∧ Throttle.configured_rate (Some "12") = 12.
Proof. repeat split; reflexivity. Qed.

Example generateKey_sorts :
  Cache.generateKey "/fixtures" {[ "season" := "2024"; "league" := "39" ]}
  = "/fixtures?league=39&season=2024".
Proof. vm_compute. reflexivity. Qed.

(** A whole run in the usual world: the injuries fragment is missing, so
    the task that needs it fails, and one model call is rejected. *)
Definition usual_run : Res unit * GenState :=
  generateReport (Demo.usual (λ k, k)) "sid" Demo.manager0.

Example usual_run_completes :
  usual_run.1 = Ok tt
  ∧ ((λ s, (Store.status s, size (Store.partialReports s),
            size (Store.categoryReports s), bool_decide (is_Some (Store.finalReport s))))
       <$> Store.sessions (manager usual_run.2) !! "sid")
    = Some (Store.completed, 10%nat, 5%nat, true).
Proof. split; vm_compute; reflexivity. Qed.

Example usual_run_percents :
  ProgressFacts.percents usual_run.2
  = [10; 10; 10; 10; 10; 10; 10; 20; 20; 24; 29; 29; 29; 33; 38; 38; 38;
     42; 47; 47; 47; 47; 51; 56; 56; 56; 60; 65; 70; 74; 74; 78; 78; 82;
     82; 86; 86; 90; 95; 97; 99; 100].
Proof. vm_compute. reflexivity. Qed.

Example usual_run_status_writes :
  filter (λ o, o ≠ None) (map (λ c, Store.u_status (written c)) (calls usual_run.2))
  = [Some Store.generating; Some Store.completed].
Proof. vm_compute. reflexivity. Qed.

(** A second run on the completed session, with the data source down:
    the status goes on to [error] and the final report stays. *)
Example second_run_on_completed :
  let w := Demo.world (Demo.failed "down") (Demo.model (Some "sk-demo")) (λ k, k) in
  ((λ s, (Store.status s, Store.error_ s, bool_decide (is_Some (Store.finalReport s))))
     <$> Store.sessions (manager (generateReport w "sid" (manager usual_run.2)).2) !! "sid")
  = Some (Store.error, Some "Failed to fetch fixture details", true).
Proof. vm_compute. reflexivity. Qed.

End Examples.

(* ===================================================================== *)
(** ** More on the cache: sweeps, evictions, explicit TTLs, overwrites *)
(* ===================================================================== *)

Module CacheLaws.
Import Cache.

Section Laws.
Context {T : Type}.
Implicit Types c : gmap string (CacheEntry T).

Lemma cleanup_lookup c now k entry :
  cleanup now c !! k = Some entry ↔ c !! k = Some entry ∧ now ≤ expiresAt entry.
Proof.
  unfold cleanup. rewrite map_lookup_filter_Some. simpl. split.
  - intros [H1 H2]. split; [done|lia].
  - intros [H1 H2]. split; [done|lia].
Qed.

(** The periodic sweep keeps exactly the entries that have not expired,
    and it is invisible to readers: a later [get] answers as it would
    have without the sweep. *)
Theorem cleanup_is_transparent c (now t : Z) (endpoint : string) (params : Params) :
  now ≤ t →
  (get t endpoint params (cleanup now c)).1 = (get t endpoint params c).1
  ∧ (∀ k entry, cleanup now c !! k = Some entry
                ↔ c !! k = Some entry ∧ now ≤ expiresAt entry).
Proof.
  intros Ht. split; [|intros k entry; apply cleanup_lookup].
  unfold get. set (key := generateKey endpoint params).
  destruct (c !! key) as [entry|] eqn:Hc.
  - destruct (decide (now ≤ expiresAt entry)) as [Hle|Hgt].
    + rewrite (proj2 (cleanup_lookup c now key entry) (conj Hc Hle)).
      by destruct (expiresAt entry <? t).
    + assert (Hnone : cleanup now c !! key = None).
      { destruct (cleanup now c !! key) as [e'|] eqn:Hk; [|done].
        apply cleanup_lookup in Hk as [Hk1 Hk2]. rewrite Hc in Hk1.
        injection Hk1 as <-. lia. }
      rewrite Hnone. destruct (expiresAt entry <? t) eqn:E; [done|lia].
  - assert (Hnone : cleanup now c !! key = None).
    { destruct (cleanup now c !! key) as [e'|] eqn:Hk; [|done].
      apply cleanup_lookup in Hk as [Hk1 _]. by rewrite Hc in Hk1. }
    by rewrite Hnone.
Qed.

(** Lazy eviction is invisible too: whatever an earlier [get] (for any
    request) did to the cache, a later [get] answers as it would have on
    the cache before it. *)
Theorem eviction_is_transparent c (t t' : Z) (e0 e : string) (p0 p : Params) :
  t ≤ t' →
  (get t' e p (get t e0 p0 c).2).1 = (get t' e p c).1.
Proof.
  intros Ht. unfold get at 2.
  destruct (c !! generateKey e0 p0) as [entry0|] eqn:H0; [|done].
  destruct (expiresAt entry0 <? t) eqn:E0; [|done]. simpl.
  unfold get. destruct (decide (generateKey e0 p0 = generateKey e p)) as [Heq|Hne].
  - rewrite <- Heq, lookup_delete_eq, H0.
    destruct (expiresAt entry0 <? t') eqn:E1; [done|lia].
  - rewrite (lookup_delete_ne _ _ _ Hne).
    destruct (c !! generateKey e p) as [entry|]; [|done].
    by destruct (expiresAt entry <? t').
Qed.

(** An explicit TTL other than 0 takes precedence over the endpoint's:
    the entry is served up to [now + ttl] and not after.  In particular
    an entry stored with a negative TTL is never served. *)
Theorem explicit_ttl_wins c (now ttl t : Z) (endpoint : string) (params : Params) (d : T) :
  ttl ≠ 0 →
  (get t endpoint params (set now endpoint params d (Some ttl) c)).1
  = if decide (t ≤ now + ttl) then Some d else None.
Proof.
  intros Hz. unfold get, set, effectiveTTL. rewrite lookup_insert_eq. simpl.
  destruct (ttl =? 0) eqn:E; [lia|]. simpl.
  destruct (now + ttl <? t) eqn:E1; case_decide; try done; lia.
Qed.

(** An explicit TTL of 0 is no TTL, and without one every endpoint gets a
    positive lifetime: the table's for a listed endpoint, an hour for any
    other.  So an entry stored without TTL is always served at the
    instant it is stored. *)
Theorem zero_ttl_is_no_ttl c (now : Z) (endpoint : string) (params : Params) (d : T) :
  set now endpoint params d (Some 0) c = set now endpoint params d None c
  ∧ 0 < effectiveTTL None endpoint
  ∧ (ENDPOINT_TTL_CONFIG !! endpoint = None → effectiveTTL None endpoint = 3600000)
  ∧ (get now endpoint params (set now endpoint params d None c)).1 = Some d.
Proof.
  assert (Hpos : 0 < effectiveTTL None endpoint).
  { unfold effectiveTTL. destruct (ENDPOINT_TTL_CONFIG !! endpoint) as [e|] eqn:He.
    - pose proof (CacheFacts.table_positive _ _ He). destruct (e =? 0) eqn:E; [lia|done].
    - done. }
  split; [done|]. split; [done|]. split.
  - intros He. unfold effectiveTTL. by rewrite He.
  - unfold get, set. rewrite lookup_insert_eq.
    generalize dependent (effectiveTTL None endpoint). intros ttl Hpos. simpl.
    destruct (now + ttl <? now) eqn:E; [lia|done].
Qed.

(** The last write wins: a second [set] for the same request replaces the
    first entirely, value and expiry. *)
Theorem set_overwrites c (now1 now2 : Z) (endpoint : string) (params : Params)
    (d1 d2 : T) (ttl1 ttl2 : option Z) :
  set now2 endpoint params d2 ttl2 (set now1 endpoint params d1 ttl1 c)
  = set now2 endpoint params d2 ttl2 c.
Proof. unfold set. apply insert_insert_eq. Qed.

(** [set], [delete] and [clear] as seen through [get]: a deleted request
    and every request after a [clear] are absent, and [set] and [delete]
    leave the answer for every request with another key as it was. *)
Theorem writes_are_local c (now t : Z) (e e' : string) (p p' : Params) (d : T)
    (ttl : option Z) :
  (get t e p (delete_entry e p c)).1 = None
  ∧ (get t e p (clear c)).1 = None
  ∧ (generateKey e' p' ≠ generateKey e p →
     (get t e' p' (set now e p d ttl c)).1 = (get t e' p' c).1
     ∧ (get t e' p' (delete_entry e p c)).1 = (get t e' p' c).1).
Proof.
  split; [|split].
  - unfold get, delete_entry. by rewrite lookup_delete_eq.
  - unfold get, clear. by rewrite lookup_empty.
  - intros Hne. split.
    + unfold get, set. rewrite lookup_insert_ne; [|done].
      destruct (c !! generateKey e' p') as [entry|]; [|done].
      by destruct (expiresAt entry <? t).
    + unfold get, delete_entry. rewrite lookup_delete_ne; [|done].
      destruct (c !! generateKey e' p') as [entry|]; [|done].
      by destruct (expiresAt entry <? t).
Qed.

End Laws.

Lemma cleanup_is_transparent_witness :
  let c := set 1000 "/fixtures" {[ "id" := "1" ]} "a"%string None
             (set 0 "/teams" {[ "id" := "2" ]} "b"%string (Some 500) ∅) in
  (get 2000 "/teams" {[ "id" := "2" ]} (cleanup 1500 c)).1
  = (get 2000 "/teams" {[ "id" := "2" ]} c).1.
Proof.
  intros c.
  exact (proj1 (cleanup_is_transparent c 1500 2000 "/teams" {[ "id" := "2" ]}
                  ltac:(lia))).
Defined.

Lemma eviction_is_transparent_witness :
  let c := set 0 "/teams" {[ "id" := "2" ]} "b"%string (Some 500) ∅ in
  (get 2000 "/teams" {[ "id" := "2" ]} (get 1000 "/teams" {[ "id" := "2" ]} c).2).1
  = (get 2000 "/teams" {[ "id" := "2" ]} c).1.
Proof.
  intros c.
  exact (eviction_is_transparent c 1000 2000 "/teams" "/teams"
           {[ "id" := "2" ]} {[ "id" := "2" ]} ltac:(lia)).
Defined.

Lemma explicit_ttl_wins_witness :
  (get 1000 "/fixtures" {[ "id" := "1" ]}
     (set 1000 "/fixtures" {[ "id" := "1" ]} "a"%string (Some (-1)) ∅)).1 = None.
Proof.
  exact (explicit_ttl_wins ∅ 1000 (-1) 1000 "/fixtures" {[ "id" := "1" ]} "a"%string
           ltac:(lia)).
Defined.

End CacheLaws.

(* ===================================================================== *)
(** ** More on the client: bounds, failures that are not retried,
       transient failures, and the cache round trip *)
(* ===================================================================== *)

Module ClientLaws.
Import Client.

Section Laws.
Context {T : Type} (w : World T) (endpoint : string) (params : Cache.Params).

Abbreviation miss st := (cache st !! Cache.generateKey endpoint params = None).

Lemma request_miss fuel attempt (st : State T) :
  miss st →
  request w endpoint params (S fuel) attempt st
  = match fetch w attempt with
    | NetworkError rendered =>
        on_other_error endpoint (request w endpoint params fuel) rendered attempt
          (mkState (cache st) (slept st) (S (fetched st)))
    | Responded r =>
        on_response w endpoint params (request w endpoint params fuel) r attempt
          (mkState (cache st) (slept st) (S (fetched st)))
    end.
Proof.
  intros Hmiss. cbn [request]. by rewrite (ClientFacts.miss_stays_miss _ _ _ _ Hmiss).
Qed.

Lemma request_bounds fuel : ∀ attempt (st : State T),
  (fetched (request w endpoint params fuel attempt st).2
   ≤ fetched st + Z.to_nat (Z.max 1 (maxRetries + 1 - attempt)))%nat
  ∧ (length (slept (request w endpoint params fuel attempt st).2)
     ≤ length (slept st) + Z.to_nat (Z.max 0 (maxRetries - attempt)))%nat
  ∧ slept st `prefix_of` slept (request w endpoint params fuel attempt st).2.
Proof.
  induction fuel as [|fuel IH]; intros attempt st.
  { simpl. split; [lia|]. split; [lia|done]. }
  assert (Hrec : ∀ c d, (attempt <? maxRetries) = true →
    let st' := sleep d (mkState c (slept st) (S (fetched st))) in
    (fetched (request w endpoint params fuel (attempt + 1) st').2
     ≤ fetched st + Z.to_nat (Z.max 1 (maxRetries + 1 - attempt)))%nat
    ∧ (length (slept (request w endpoint params fuel (attempt + 1) st').2)
       ≤ length (slept st) + Z.to_nat (Z.max 0 (maxRetries - attempt)))%nat
    ∧ slept st `prefix_of` slept (request w endpoint params fuel (attempt + 1) st').2).
  { intros c d Hlt st'. destruct (IH (attempt + 1) st') as (H1 & H2 & H3).
    unfold st', sleep in *. simpl in *. rewrite length_app in H2. simpl in H2.
    unfold maxRetries in *. split; [lia|]. split; [lia|].
    etrans; [|exact H3]. by apply prefix_app_r. }
  assert (Hstop :
    (S (fetched st) ≤ fetched st + Z.to_nat (Z.max 1 (maxRetries + 1 - attempt)))%nat
    ∧ (length (slept st)
       ≤ length (slept st) + Z.to_nat (Z.max 0 (maxRetries - attempt)))%nat
    ∧ slept st `prefix_of` slept st).
  { split; [lia|]. split; [lia|done]. }
  cbn [request]. destruct (Cache.get _ _ _ _) as [[d|] c1].
  { simpl. split; [lia|]. split; [lia|done]. }
  destruct (fetch w attempt) as [e|r].
  - unfold on_other_error. destruct (attempt <? maxRetries) eqn:E.
    + by apply Hrec.
    + simpl. apply Hstop.
  - unfold on_response, on_other_error.
    repeat (match goal with
            | |- context [if ?b then _ else _] => destruct b eqn:?
            | |- context [match body r with _ => _ end] => destruct (body r)
            end; simpl; try apply Hstop; try (apply Hrec; done));
      try (apply Hrec; apply andb_prop in Heqb1; tauto);
      try (apply Hrec; apply andb_prop in Heqb2; tauto).
Qed.

(** Whatever the server and the network do, one [request] ends, issues
    at most three [fetch] calls and waits at most twice; the waits it was
    handed are only added to. *)
Theorem request_is_bounded (st : State T) :
  (request_first w endpoint params st).1 ≠ OutOfFuel
  ∧ (fetched (request_first w endpoint params st).2 ≤ fetched st + 3)%nat
  ∧ (length (slept (request_first w endpoint params st).2) ≤ length (slept st) + 2)%nat
  ∧ slept st `prefix_of` slept (request_first w endpoint params st).2.
Proof.
  split.
  - apply ClientFacts.request_total; unfold maxRetries; simpl; lia.
  - exact (request_bounds (Z.to_nat maxRetries) 1 st).
Qed.

(** A client error other than 429 is never retried: after one [fetch]
    and no wait the request fails with the response's status code; for
    401 the message names the API key. *)
Theorem client_errors_fail_fast (st : State T) (r : Response T) :
  miss st →
  fetch w 1 = Responded r →
  300 ≤ status r < 500 → status r ≠ 429 →
  request_first w endpoint params st
  = (Failed (mkError
               (if status r =? 401
                then "Invalid API key. Please check APIFOOTBALL_API_KEY environment variable."
                else "API-Football request failed: " +:+ pretty (status r)
                       +:+ " " +:+ statusText r)
               (Some (status r)) endpoint),
     mkState (cache st) (slept st) (S (fetched st))).
Proof.
  intros Hmiss Hf Hs Hne. unfold request_first. change (Z.to_nat maxRetries) with 3%nat.
  rewrite (request_miss _ _ _ Hmiss), Hf. unfold on_response.
  assert (Hok : ok r = false).
  { unfold ok. destruct (200 <=? status r) eqn:E1, (status r <=? 299) eqn:E2; try done. lia. }
  rewrite Hok. simpl.
  destruct (status r =? 429) eqn:E429; [lia|].
  destruct (status r =? 401) eqn:E401.
  - assert (status r = 401) as -> by lia. done.
  - destruct (500 <=? status r) eqn:E5; [lia|]. done.
Qed.

Lemma request_5xx_retry fuel attempt (st : State T) (r : Response T) :
  miss st → fetch w attempt = Responded r → 500 ≤ status r →
  (attempt <? maxRetries) = true →
  request w endpoint params (S fuel) attempt st
  = request w endpoint params fuel (attempt + 1)
      (mkState (cache st) (slept st ++ [Js.Int (retryDelay * attempt)]) (S (fetched st))).
Proof.
  intros Hmiss Hf Hs Hlt. rewrite (request_miss _ _ _ Hmiss), Hf. unfold on_response.
  assert (Hok : ok r = false).
  { unfold ok. destruct (200 <=? status r) eqn:E1, (status r <=? 299) eqn:E2; try done. lia. }
  rewrite Hok. simpl.
  destruct (status r =? 429) eqn:E429; [lia|].
  destruct (status r =? 401) eqn:E401; [lia|].
  destruct (500 <=? status r) eqn:E5; [|lia]. by rewrite Hlt.
Qed.

(** A server that answers 5xx to every attempt: three [fetch] calls with
    waits of 1000 and 2000 ms (linear, not exponential), then the
    failure carries the last response's status. *)
Theorem server_errors_are_retried (st : State T) (r1 r2 r3 : Response T) :
  miss st →
  fetch w 1 = Responded r1 → fetch w 2 = Responded r2 → fetch w 3 = Responded r3 →
  500 ≤ status r1 → 500 ≤ status r2 → 500 ≤ status r3 →
  request_first w endpoint params st
  = (Failed (mkError ("API-Football request failed: " +:+ pretty (status r3)
                        +:+ " " +:+ statusText r3)
                     (Some (status r3)) endpoint),
     mkState (cache st) (slept st ++ [Js.Int 1000; Js.Int 2000]) (3 + fetched st)%nat).
Proof.
  intros Hmiss F1 F2 F3 S1 S2 S3. unfold request_first.
  change (Z.to_nat maxRetries) with 3%nat.
  rewrite (request_5xx_retry 2 1 st r1 Hmiss F1 S1 eq_refl).
  change (1 + 1) with 2.
  set (st1 := mkState (cache st) _ (S (fetched st))).
  rewrite (request_5xx_retry 1 2 st1 r2 Hmiss F2 S2 eq_refl).
  change (2 + 1) with 3.
  set (st2 := mkState (cache st1) _ (S (fetched st1))).
  rewrite (request_miss 0 3 st2 Hmiss), F3. unfold on_response.
  assert (Hok : ok r3 = false).
  { unfold ok. destruct (200 <=? status r3) eqn:E1, (status r3 <=? 299) eqn:E2; try done. lia. }
  rewrite Hok. simpl.
  destruct (status r3 =? 429) eqn:E429; [lia|].
  destruct (status r3 =? 401) eqn:E401; [lia|].
  rewrite andb_false_r. cbn. rewrite <- app_assoc. done.
Qed.

Lemma request_network_retry fuel attempt (st : State T) (rendered : string) :
  miss st → fetch w attempt = NetworkError rendered →
  (attempt <? maxRetries) = true →
  request w endpoint params (S fuel) attempt st
  = request w endpoint params fuel (attempt + 1)
      (mkState (cache st) (slept st ++ [Js.Int (retryDelay * attempt)]) (S (fetched st))).
Proof.
  intros Hmiss Hf Hlt. rewrite (request_miss _ _ _ Hmiss), Hf.
  unfold on_other_error. by rewrite Hlt.
Qed.

(** A network that fails every [fetch]: three attempts with waits of
    1000 and 2000 ms, then an error without status code whose message
    quotes the last failure. *)
Theorem network_errors_are_retried (st : State T) (e1 e2 e3 : string) :
  miss st →
  fetch w 1 = NetworkError e1 → fetch w 2 = NetworkError e2 → fetch w 3 = NetworkError e3 →
  request_first w endpoint params st
  = (Failed (mkError ("API-Football request failed after 3 attempts: " +:+ e3)
                     None endpoint),
     mkState (cache st) (slept st ++ [Js.Int 1000; Js.Int 2000]) (3 + fetched st)%nat).
Proof.
  intros Hmiss F1 F2 F3. unfold request_first. change (Z.to_nat maxRetries) with 3%nat.
  rewrite (request_network_retry 2 1 st e1 Hmiss F1 eq_refl).
  change (1 + 1) with 2.
  set (st1 := mkState (cache st) _ (S (fetched st))).
  rewrite (request_network_retry 1 2 st1 e2 Hmiss F2 eq_refl).
  change (2 + 1) with 3.
  set (st2 := mkState (cache st1) _ (S (fetched st1))).
  rewrite (request_miss 0 3 st2 Hmiss), F3. unfold on_other_error.
  cbn. rewrite <- app_assoc. done.
Qed.

(** A body is a success when the response is ok and its [errors] member
    is empty. *)
Definition succeeds (r : Response T) (d : Body T) : Prop :=
  ok r = true ∧ body r = Parsed d ∧ errors d = [].

(** The round trip through the cache: a successful response is stored,
    and a second [request] for the same endpoint and parameters, in any
    world, while the entry has not expired, returns the same body without
    any [fetch] or wait. *)
Theorem success_is_cached (w' : World T) (st : State T) (r : Response T) (d : Body T) :
  miss st →
  fetch w 1 = Responded r → succeeds r d →
  lookup_time w' 1 ≤ store_time w 1 + Cache.effectiveTTL None endpoint →
  let first := request_first w endpoint params st in
  first.1 = Returned d
  ∧ fetched first.2 = S (fetched st)
  ∧ slept first.2 = slept st
  ∧ request_first w' endpoint params first.2 = (Returned d, first.2).
Proof.
  intros Hmiss Hf (Hok & Hb & He) Hfresh first.
  assert (Hfirst : first
    = (Returned d,
       mkState (Cache.set (store_time w 1) endpoint params d None (cache st))
               (slept st) (S (fetched st)))).
  { unfold first, request_first. change (Z.to_nat maxRetries) with 3%nat.
    rewrite (request_miss _ _ _ Hmiss), Hf. unfold on_response.
    rewrite Hok, Hb. simpl. rewrite He. done. }
  rewrite Hfirst. cbn [fst snd fetched slept]. repeat split.
  unfold request_first. change (Z.to_nat maxRetries) with 3%nat. cbn [request cache].
  unfold Cache.get, Cache.set. rewrite lookup_insert_eq.
  cbn [Cache.expiresAt Cache.data].
  destruct (store_time w 1 + Cache.effectiveTTL None endpoint <? lookup_time w' 1) eqn:E;
    [lia|done].
Qed.

Lemma request_flag_retry fuel attempt (st : State T) (r : Response T) (d : Body T) :
  miss st → fetch w attempt = Responded r →
  ok r = true → body r = Parsed d → has_rateLimit (errors d) = true →
  (attempt <? maxRetries) = true →
  request w endpoint params (S fuel) attempt st
  = request w endpoint params fuel (attempt + 1)
      (mkState (cache st) (slept st ++ [Js.Int 12000]) (S (fetched st))).
Proof.
  intros Hmiss Hf Hok Hb Hrl Hlt. rewrite (request_miss _ _ _ Hmiss), Hf.
  unfold on_response. rewrite Hok, Hb. simpl.
  destruct (errors d) as [|x l] eqn:He; [done|].
  rewrite bool_decide_eq_false_2; [|done]. simpl. by rewrite Hrl, Hlt.
Qed.

(** A rate limit reported in the body of ok responses ([errors.rateLimit])
    is retried after 12 s each time; when the third attempt reports it
    too, the failure is the generic one for body errors: it carries no
    status code and is not the distinguished rate-limit error of a 429. *)
Theorem body_rate_limit_is_retried (st : State T) (r1 r2 r3 : Response T)
    (d1 d2 d3 : Body T) :
  miss st →
  fetch w 1 = Responded r1 → fetch w 2 = Responded r2 → fetch w 3 = Responded r3 →
  ok r1 = true → ok r2 = true → ok r3 = true →
  body r1 = Parsed d1 → body r2 = Parsed d2 → body r3 = Parsed d3 →
  has_rateLimit (errors d1) = true → has_rateLimit (errors d2) = true →
  has_rateLimit (errors d3) = true →
  request_first w endpoint params st
  = (Failed (mkError ("API-Football returned errors: " +:+ errors_json d3) None endpoint),
     mkState (cache st) (slept st ++ [Js.Int 12000; Js.Int 12000]) (3 + fetched st)%nat).
Proof.
  intros Hmiss F1 F2 F3 O1 O2 O3 B1 B2 B3 L1 L2 L3. unfold request_first.
  change (Z.to_nat maxRetries) with 3%nat.
  rewrite (request_flag_retry 2 1 st r1 d1 Hmiss F1 O1 B1 L1 eq_refl).
  change (1 + 1) with 2.
  set (st1 := mkState (cache st) _ (S (fetched st))).
  rewrite (request_flag_retry 1 2 st1 r2 d2 Hmiss F2 O2 B2 L2 eq_refl).
  change (2 + 1) with 3.
  set (st2 := mkState (cache st1) _ (S (fetched st1))).
  rewrite (request_miss 0 3 st2 Hmiss), F3. unfold on_response.
  rewrite O3, B3. simpl.
  destruct (errors d3) as [|x l] eqn:He; [done|].
  rewrite bool_decide_eq_false_2; [|done]. simpl. rewrite L3. simpl.
  cbn. rewrite <- app_assoc. done.
Qed.

End Laws.

Definition answers (status : Z) (text : string) (b : Json unit) : World unit :=
  mkWorld (λ _, Responded (mkResponse status text None None None b)) (λ _, 0) (λ _, 0).

Lemma client_errors_fail_fast_witness :
  request_first (answers 404 "Not Found" (Unparsable "SyntaxError")) "/fixtures"
                {[ "id" := "1" ]} (mkState ∅ [] 0)
  = (Failed (mkError "API-Football request failed: 404 Not Found" (Some 404) "/fixtures"),
     mkState ∅ [] 1).
Proof.
  exact (client_errors_fail_fast (answers 404 "Not Found" (Unparsable "SyntaxError"))
           "/fixtures" {[ "id" := "1" ]} (mkState ∅ [] 0) _
           eq_refl eq_refl ltac:(simpl; lia) ltac:(simpl; lia)).
Defined.

Lemma server_errors_are_retried_witness :
  request_first (answers 503 "Service Unavailable" (Unparsable "SyntaxError")) "/fixtures"
                {[ "id" := "1" ]} (mkState ∅ [] 0)
  = (Failed (mkError "API-Football request failed: 503 Service Unavailable"
                     (Some 503) "/fixtures"),
     mkState ∅ [Js.Int 1000; Js.Int 2000] 3).
Proof.
  exact (server_errors_are_retried
           (answers 503 "Service Unavailable" (Unparsable "SyntaxError"))
           "/fixtures" {[ "id" := "1" ]} (mkState ∅ [] 0) _ _ _
           eq_refl eq_refl eq_refl eq_refl
           ltac:(simpl; lia) ltac:(simpl; lia) ltac:(simpl; lia)).
Defined.

Lemma network_errors_are_retried_witness :
  request_first (mkWorld (T := unit) (λ _, NetworkError "TypeError: fetch failed")
                         (λ _, 0) (λ _, 0))
                "/fixtures" {[ "id" := "1" ]} (mkState ∅ [] 0)
  = (Failed (mkError
               "API-Football request failed after 3 attempts: TypeError: fetch failed"
               None "/fixtures"),
     mkState ∅ [Js.Int 1000; Js.Int 2000] 3).
Proof.
  exact (network_errors_are_retried
           (mkWorld (T := unit) (λ _, NetworkError "TypeError: fetch failed")
                    (λ _, 0) (λ _, 0))
           "/fixtures" {[ "id" := "1" ]} (mkState ∅ [] 0) _ _ _
           eq_refl eq_refl eq_refl eq_refl).
Defined.

Lemma success_is_cached_witness :
  let w := answers 200 "OK" (Parsed (mkBody [] "[]" tt)) in
  let first := request_first w "/fixtures" {[ "id" := "1" ]} (mkState ∅ [] 0) in
  first.1 = Returned (mkBody [] "[]" tt)
  ∧ request_first (answers 500 "down" (Unparsable "SyntaxError")) "/fixtures"
                  {[ "id" := "1" ]} first.2
    = (Returned (mkBody [] "[]" tt), first.2).
Proof.
  intros w first.
  destruct (success_is_cached w "/fixtures" {[ "id" := "1" ]}
              (answers 500 "down" (Unparsable "SyntaxError"))
              (mkState ∅ [] 0) _ (mkBody [] "[]" tt)
              (lookup_empty _) eq_refl (conj eq_refl (conj eq_refl eq_refl))
              ltac:(vm_compute; discriminate)) as (H1 & _ & _ & H4).
  split; [exact H1|exact H4].
Defined.

Lemma body_rate_limit_is_retried_witness :
  let d := mkBody [("rateLimit", "Too many requests")]
                  "{'rateLimit':'Too many requests'}" tt in
  request_first (answers 200 "OK" (Parsed d)) "/fixtures" {[ "id" := "1" ]}
                (mkState ∅ [] 0)
  = (Failed (mkError "API-Football returned errors: {'rateLimit':'Too many requests'}"
                     None "/fixtures"),
     mkState ∅ [Js.Int 12000; Js.Int 12000] 3).
Proof.
  intros d.
  exact (body_rate_limit_is_retried (answers 200 "OK" (Parsed d))
           "/fixtures" {[ "id" := "1" ]} (mkState ∅ [] 0) _ _ _ d d d
           eq_refl eq_refl eq_refl eq_refl eq_refl eq_refl eq_refl
           eq_refl eq_refl eq_refl eq_refl eq_refl eq_refl).
Defined.

End ClientLaws.

(* ===================================================================== *)
(** ** More on the session store: round trip, expiry, growth, sweeps,
       statistics *)
(* ===================================================================== *)

Module StoreStats.
Import Store.

Record Statuses := mkStatuses {
  n_pending : nat;
  n_generating : nat;
  n_completed : nat;
  n_error : nat;
}.

Record Stats := mkStats { total : nat; statuses : Statuses }.

(** [statuses[session.status]++] *)
Definition bump (s : SessionStatus) (c : Statuses) : Statuses :=
  match s with
  | pending => mkStatuses (S (n_pending c)) (n_generating c) (n_completed c) (n_error c)
  | generating => mkStatuses (n_pending c) (S (n_generating c)) (n_completed c) (n_error c)
  | completed => mkStatuses (n_pending c) (n_generating c) (S (n_completed c)) (n_error c)
  | error => mkStatuses (n_pending c) (n_generating c) (n_completed c) (S (n_error c))
  end.

(** [getStats]: one pass over the sessions, counting by status. *)
Definition getStats (m : SessionManager) : Stats :=
  {| total := size (sessions m);
     statuses := map_fold (λ _ session acc, bump (status session) acc)
                          (mkStatuses 0 0 0 0) (sessions m) |}.

End StoreStats.

Module StoreLaws.
Import Store StoreStats.

(** The round trip: a session just created is found under the id
    returned, as long as no more than the TTL has passed (a TTL of
    [-Infinity], which a setting below [-1.8e308] gives, has passed at
    once); it is pending, holds no data, no reports and no chat, and the
    sessions under other ids are as they were. *)
Theorem created_session_is_found (m : SessionManager) (now t : Z) (uuid : string)
    (fixture : Z) :
  (∀ ttl, SESSION_TTL m = Js.Int ttl → t - now ≤ ttl) →
  SESSION_TTL m ≠ Js.Infinity true →
  let created := createSession now uuid fixture m in
  created.1 = uuid
  ∧ getSession t created.1 created.2
    = (Some (mkSession uuid fixture now pending None no_data ∅ ∅ None []), created.2)
  ∧ (∀ other, other ≠ uuid → sessions created.2 !! other = sessions m !! other).
Proof.
  intros Httl Hinf created. split; [done|]. split.
  - unfold getSession, created, createSession. simpl. rewrite lookup_insert_eq.
    unfold expired. simpl.
    destruct (SESSION_TTL m) as [|ttl|[]] eqn:E; [done| |by destruct Hinf|reflexivity].
    specialize (Httl ttl eq_refl). unfold Js.gt.
    destruct (ttl <? t - now) eqn:E1; [lia|done].
  - intros other Hne. unfold created, createSession. simpl.
    by rewrite lookup_insert_ne.
Qed.

(** Expiry is final.  A session read more than the TTL after its
    creation is reported absent and removed, so that no later read finds
    it, whatever the clock then says, and no later update is applied or
    brings it back. *)
Theorem expired_session_is_gone (m : SessionManager) (sid : string) (s : Session)
    (ttl t : Z) :
  SESSION_TTL m = Js.Int ttl →
  sessions m !! sid = Some s →
  ttl < t - createdAt s →
  let m' := (getSession t sid m).2 in
  (getSession t sid m).1 = None
  ∧ sessions m' !! sid = None
  ∧ size (sessions m) = S (size (sessions m'))
  ∧ (∀ t', getSession t' sid m' = (None, m'))
  ∧ (∀ t' u, updateSession t' sid u m' = (false, m'))
  ∧ (∀ u, updateSession t sid u m = (false, m')).
Proof.
  intros Httl Hs Hexp m'.
  assert (He : expired m t s = true).
  { unfold expired. rewrite Httl. destruct (ttl <? t - createdAt s) eqn:E; [done|lia]. }
  assert (Hg : getSession t sid m
               = (None, mkManager (delete sid (sessions m)) (SESSION_TTL m))).
  { unfold getSession. by rewrite Hs, He. }
  unfold m'. rewrite Hg. simpl.
  assert (Hgone : ∀ t', getSession t' sid (mkManager (delete sid (sessions m)) (SESSION_TTL m))
                        = (None, mkManager (delete sid (sessions m)) (SESSION_TTL m))).
  { intros t'. unfold getSession. simpl. by rewrite lookup_delete_eq. }
  split; [done|]. split; [apply lookup_delete_eq|]. split.
  { assert (Hin : is_Some (sessions m !! sid)) by (by exists s).
    pose proof (map_size_delete_Some sid (sessions m) Hin) as Hd.
    assert (size (sessions m) ≠ 0%nat); [|lia].
    apply map_size_ne_0_lookup. by exists sid. }
  split; [exact Hgone|]. split.
  - intros t' u. unfold updateSession. by rewrite Hgone.
  - intros u. unfold updateSession. by rewrite Hg.
Qed.

(** An unparsable TTL setting ([parseInt] gives [NaN]) switches expiry
    off: every stored session is found at any time and the sweep removes
    nothing. *)
Theorem nan_ttl_never_expires (m : SessionManager) (sid : string) (s : Session) (t : Z) :
  SESSION_TTL m = Js.NaN →
  sessions m !! sid = Some s →
  getSession t sid m = (Some s, m)
  ∧ cleanupExpiredSessions t m = (0%nat, m).
Proof.
  intros Httl Hs.
  assert (He : ∀ s', expired m t s' = false).
  { intros s'. unfold expired. by rewrite Httl. }
  split.
  - unfold getSession. by rewrite Hs, He.
  - unfold cleanupExpiredSessions.
    assert (Hid : filter (λ kv : string * Session, expired m t kv.2 = false) (sessions m)
                  = sessions m).
    { apply map_filter_id. intros i x _. apply He. }
    rewrite Hid. destruct m. simpl. f_equal. lia.
Qed.

(** An update on an id that is not stored is refused and stores
    nothing. *)
Lemma update_absent (m : SessionManager) (sid : string) (t : Z) (u : UpdateSessionParams) :
  sessions m !! sid = None → updateSession t sid u m = (false, m).
Proof. intros H. unfold updateSession, getSession. by rewrite H. Qed.

(** The [collectedData] literal of the update, if it has one, does not
    carry the member [member] as [undefined]. *)
Definition not_undefined {A} (member : CollectedUpdate → option (option A))
    (u : UpdateSessionParams) : Prop :=
  ∀ cd, u_collectedData u = Some cd → member cd ≠ Some None.

(** The literal carries the member as [undefined]. *)
Definition undefined_in {A} (member : CollectedUpdate → option (option A))
    (u : UpdateSessionParams) : Prop :=
  ∃ cd, u_collectedData u = Some cd ∧ member cd = Some None.

Definition grows (u : UpdateSessionParams) (s s' : Session) : Prop :=
  sessionId s' = sessionId s ∧ fixtureId s' = fixtureId s ∧ createdAt s' = createdAt s
  ∧ (∀ k, is_Some (partialReports s !! k) → is_Some (partialReports s' !! k))
  ∧ (∀ k, is_Some (categoryReports s !! k) → is_Some (categoryReports s' !! k))
  ∧ chatHistory s `prefix_of` chatHistory s'
  ∧ (not_undefined cu_fixture u →
     is_Some (fixture (collectedData s)) → is_Some (fixture (collectedData s')))
  ∧ (not_undefined cu_statistics u →
     is_Some (statistics (collectedData s)) → is_Some (statistics (collectedData s')))
  ∧ (not_undefined cu_injuries u →
     is_Some (injuries (collectedData s)) → is_Some (injuries (collectedData s')))
  ∧ (not_undefined cu_lineups u →
     is_Some (lineups (collectedData s)) → is_Some (lineups (collectedData s')))
  ∧ (not_undefined cu_h2h u →
     is_Some (h2h (collectedData s)) → is_Some (h2h (collectedData s')))
  ∧ (not_undefined cu_standings u →
     is_Some (standings (collectedData s)) → is_Some (standings (collectedData s')))
  ∧ (is_Some (finalReport s) → is_Some (finalReport s'))
  ∧ (is_Some (error_ s) → is_Some (error_ s')).

(** The fragments that the update's literal carries as [undefined] are
    absent afterwards. *)
Definition clears (u : UpdateSessionParams) (s' : Session) : Prop :=
  (undefined_in cu_fixture u → fixture (collectedData s') = None)
  ∧ (undefined_in cu_statistics u → statistics (collectedData s') = None)
  ∧ (undefined_in cu_injuries u → injuries (collectedData s') = None)
  ∧ (undefined_in cu_lineups u → lineups (collectedData s') = None)
  ∧ (undefined_in cu_h2h u → h2h (collectedData s') = None)
  ∧ (undefined_in cu_standings u → standings (collectedData s') = None).

Lemma over_keeps {A} (new old : option A) : is_Some old → is_Some (over new old).
Proof. intros H. by destruct new. Qed.

Lemma spread_keeps {A} (new : option (option A)) (old : option A) :
  new ≠ Some None → is_Some old → is_Some (spread new old).
Proof. intros Hn H. by destruct new as [[a|]|]. Qed.

Lemma apply_update_grows u s : grows u s (apply_update u s).
Proof.
  unfold grows, apply_update, not_undefined. simpl. repeat split; try done.
  - intros k Hk. destruct (u_partialReport u) as [[key report]|]; [|done].
    rewrite lookup_insert_is_Some. destruct (decide (key = k)); [by left|by right].
  - intros k Hk. destruct (u_categoryReport u) as [[key report]|]; [|done].
    rewrite lookup_insert_is_Some. destruct (decide (key = k)); [by left|by right].
  - destruct (u_chatMessage u); [by apply prefix_app_r|done].
  - intros H. destruct (u_collectedData u) as [cd|]; [|done]. apply spread_keeps, H; done.
  - intros H. destruct (u_collectedData u) as [cd|]; [|done]. apply spread_keeps, H; done.
  - intros H. destruct (u_collectedData u) as [cd|]; [|done]. apply spread_keeps, H; done.
  - intros H. destruct (u_collectedData u) as [cd|]; [|done]. apply spread_keeps, H; done.
  - intros H. destruct (u_collectedData u) as [cd|]; [|done]. apply spread_keeps, H; done.
  - intros H. destruct (u_collectedData u) as [cd|]; [|done]. apply spread_keeps, H; done.
  - apply over_keeps.
  - apply over_keeps.
Qed.

Lemma apply_update_clears u s : clears u (apply_update u s).
Proof.
  unfold clears, apply_update, undefined_in. simpl.
  repeat split; intros (cd & -> & Hcd); simpl; by rewrite Hcd.
Qed.

(** The literals the generator writes have no [undefined] member
    (stage 1 builds them from payloads it has checked to be there). *)
Lemma members_not_undefined (f : CollectedData) s0 :
  let u := mkUpdate None None (Some (members f)) None None None None in
  grows u s0 (apply_update u s0)
  ∧ not_undefined cu_fixture u ∧ not_undefined cu_statistics u
  ∧ not_undefined cu_injuries u ∧ not_undefined cu_lineups u
  ∧ not_undefined cu_h2h u ∧ not_undefined cu_standings u.
Proof.
  intros u. split; [apply apply_update_grows|].
  unfold not_undefined, u. simpl.
  repeat split; intros cd [= <-]; simpl; by destruct f as [[] [] [] [] [] []].
Qed.

(** An update only adds, but for the members of its [collectedData]
    literal that are [undefined].  When [updateSession] applies an
    update, the session keeps its id, fixture and creation time; no key
    leaves [partialReports] or [categoryReports]; the chat history is
    extended at its end; no final report or error message that was
    present becomes absent; a collected fragment that was present stays
    present unless the literal carries that member as [undefined], and
    then the object spread removes it; and every other session is
    untouched. *)
Theorem update_only_adds (m m' : SessionManager) (sid : string) (t : Z)
    (u : UpdateSessionParams) (s : Session) :
  sessions m !! sid = Some s →
  updateSession t sid u m = (true, m') →
  (∃ s', sessions m' !! sid = Some s' ∧ s' = apply_update u s
         ∧ grows u s s' ∧ clears u s')
  ∧ (∀ other, other ≠ sid → sessions m' !! other = sessions m !! other)
  ∧ SESSION_TTL m' = SESSION_TTL m.
Proof.
  intros Hs Hu. unfold updateSession, getSession in Hu. rewrite Hs in Hu.
  destruct (expired m t s); [done|]. injection Hu as <-. simpl. split; [|split].
  - exists (apply_update u s). rewrite lookup_insert_eq.
    split; [done|]. split; [done|].
    split; [apply apply_update_grows|apply apply_update_clears].
  - intros other Hne. by rewrite lookup_insert_ne.
  - done.
Qed.

Lemma expired_mono (m : SessionManager) (now t : Z) (s : Session) :
  now ≤ t → expired m now s = true → expired m t s = true.
Proof.
  unfold expired, Js.gt. destruct (SESSION_TTL m) as [|ttl|[]]; [done| |done..].
  intros Ht H. destruct (ttl <? now - createdAt s) eqn:E; [|done].
  destruct (ttl <? t - createdAt s) eqn:E'; [done|lia].
Qed.

(** The periodic sweep: the number it returns is the number of sessions
    removed; the sessions left are exactly the ones not expired; and a
    later [getSession] answers as it would have without the sweep. *)
Theorem sweep_is_transparent (m : SessionManager) (now t : Z) (sid : string) :
  now ≤ t →
  let swept := cleanupExpiredSessions now m in
  (swept.1 + size (sessions swept.2) = size (sessions m))%nat
  ∧ (∀ k s, sessions swept.2 !! k = Some s
            ↔ sessions m !! k = Some s ∧ expired m now s = false)
  ∧ (getSession t sid swept.2).1 = (getSession t sid m).1.
Proof.
  intros Ht swept. unfold swept, cleanupExpiredSessions. simpl.
  set (kept := filter (λ kv : string * Session, expired m now kv.2 = false) (sessions m)).
  assert (Hk : ∀ k s, kept !! k = Some s
                      ↔ sessions m !! k = Some s ∧ expired m now s = false).
  { intros k s. unfold kept. by rewrite map_lookup_filter_Some. }
  split; [|split; [exact Hk|]].
  - assert (size kept ≤ size (sessions m))%nat; [|lia].
    apply map_subseteq_size, map_filter_subseteq.
  - unfold getSession. simpl.
    destruct (sessions m !! sid) as [s|] eqn:Hs.
    + destruct (expired m now s) eqn:He.
      * assert (Hnone : kept !! sid = None).
        { destruct (kept !! sid) as [s'|] eqn:Hk'; [|done].
          apply Hk in Hk' as [Hk1 Hk2]. rewrite Hs in Hk1. injection Hk1 as <-.
          by rewrite He in Hk2. }
        rewrite Hnone. by rewrite (expired_mono _ _ _ _ Ht He).
      * rewrite (proj2 (Hk sid s) (conj Hs He)).
        change (expired (mkManager kept (SESSION_TTL m)) t s) with (expired m t s).
        by destruct (expired m t s).
    + assert (Hnone : kept !! sid = None).
      { destruct (kept !! sid) as [s'|] eqn:Hk'; [|done].
        apply Hk in Hk' as [Hk1 _]. by rewrite Hs in Hk1. }
      by rewrite Hnone.
Qed.

#[local] Instance status_eq_dec : EqDecision SessionStatus.
Proof. solve_decision. Defined.

Definition count (st : SessionStatus) (sessions : gmap string Session) : nat :=
  size (filter (λ kv : string * Session, status kv.2 = st) sessions).

(** The statistics are consistent: each counter is the number of stored
    sessions in that status, and the four counters add up to the
    total. *)
Theorem stats_add_up (m : SessionManager) :
  let st := statuses (getStats m) in
  n_pending st = count pending (sessions m)
  ∧ n_generating st = count generating (sessions m)
  ∧ n_completed st = count completed (sessions m)
  ∧ n_error st = count error (sessions m)
  ∧ (n_pending st + n_generating st + n_completed st + n_error st = total (getStats m))%nat.
Proof.
  unfold getStats. simpl.
  apply (map_fold_weak_ind
    (λ (acc : Statuses) (ss : gmap string Session),
       n_pending acc = count pending ss
       ∧ n_generating acc = count generating ss
       ∧ n_completed acc = count completed ss
       ∧ n_error acc = count error ss
       ∧ (n_pending acc + n_generating acc + n_completed acc + n_error acc = size ss)%nat)).
  - unfold count. rewrite !map_filter_empty, !map_size_empty. done.
  - intros i s ss acc Hi (H1 & H2 & H3 & H4 & H5).
    assert (Hcount : ∀ st, count st (<[i := s]> ss)
                           = if decide (status s = st) then S (count st ss) else count st ss).
    { intros st. unfold count. case_decide as Hst.
      - rewrite map_filter_insert_True; [|done].
        rewrite map_size_insert_None; [done|].
        by rewrite map_lookup_filter_None_2; [|left].
      - rewrite map_filter_insert_not'; [done|done|]. intros y Hy. by rewrite Hi in Hy. }
    rewrite !Hcount, (map_size_insert_None _ _ _ Hi).
    destruct (status s); simpl; repeat split; lia.
Qed.

Lemma created_session_is_found_witness :
  getSession 5000 "sid" (createSession 1000 "sid" 12345 (Store.new None)).2
  = (Some (mkSession "sid" 12345 1000 pending None no_data ∅ ∅ None []),
     (createSession 1000 "sid" 12345 (Store.new None)).2).
Proof.
  refine (proj1 (proj2 (created_session_is_found (Store.new None) 1000 5000 "sid" 12345
                          _ _))).
  - intros ttl [= <-]. lia.
  - discriminate.
Defined.

Lemma expired_session_is_gone_witness :
  (getSession 7201001 "sid" Demo.manager0).1 = None
  ∧ ∀ t', getSession t' "sid" (getSession 7201001 "sid" Demo.manager0).2
          = (None, (getSession 7201001 "sid" Demo.manager0).2).
Proof.
  destruct (expired_session_is_gone Demo.manager0 "sid"
              (mkSession "sid" 12345 1000 pending None no_data ∅ ∅ None [])
              7200000 7201001 eq_refl eq_refl ltac:(simpl; lia))
    as (H1 & _ & _ & H4 & _).
  split; [exact H1|exact H4].
Defined.

Lemma nan_ttl_never_expires_witness :
  (getSession 999999999999 "sid"
     (createSession 1000 "sid" 12345 (Store.new (Some "two hours"))).2).1
  = Some (mkSession "sid" 12345 1000 pending None no_data ∅ ∅ None []).
Proof.
  rewrite (proj1 (nan_ttl_never_expires
                    (createSession 1000 "sid" 12345 (Store.new (Some "two hours"))).2
                    "sid" (mkSession "sid" 12345 1000 pending None no_data ∅ ∅ None [])
                    999999999999 eq_refl eq_refl)).
  reflexivity.
Defined.

(** An update whose literal is [{ fixture: undefined }]. *)
Definition forgets_fixture : UpdateSessionParams :=
  mkUpdate None None
           (Some (mkCollectedUpdate (Some None) None None None None None))
           None None None None.

Lemma update_only_adds_witness :
  ∃ s', sessions (updateSession 2000 "sid" forgets_fixture Demo.manager1).2 !! "sid"
        = Some s'
        ∧ grows forgets_fixture Demo.session1 s'
        ∧ fixture (collectedData s') = None.
Proof.
  destruct (update_only_adds Demo.manager1 _ "sid" 2000 forgets_fixture
              Demo.session1 eq_refl eq_refl) as [(s' & Hs' & _ & Hg & Hc & _) _].
  exists s'. split; [exact Hs'|]. split; [exact Hg|].
  apply Hc. by eexists.
Defined.

Lemma sweep_is_transparent_witness :
  (getSession 7300000 "sid" (cleanupExpiredSessions 7250000 Demo.manager0).2).1
  = (getSession 7300000 "sid" Demo.manager0).1.
Proof.
  exact (proj2 (proj2 (sweep_is_transparent Demo.manager0 7250000 7300000 "sid"
                         ltac:(lia)))).
Defined.

End StoreLaws.

(* ===================================================================== *)
(** ** [retryWithBackoff] (errors.ts) *)
(* ===================================================================== *)

Module Errors.
Import Chains.

(** How the promise of [retryWithBackoff] settles.  What is thrown is
    the last error caught; [None] is [undefined], the initial value of
    [lastError]. *)
Inductive Settled (T : Type) := Resolved (value : T) | Rejected (lastError : option string).
Arguments Resolved {T} _.
Arguments Rejected {T} _.

(** The options object; a member left out takes its default. *)
Record Options := mkOptions {
  maxRetries : option Z;
  initialDelay : option Z;
  maxDelay : option Z;
  backoffMultiplier : option Z;
}.

Definition no_options : Options := mkOptions None None None None.

(** A run: how it settled, the delays handed to [setTimeout] in order,
    and the number of times [fn] was invoked. *)
Record Run (T : Type) := mkRun {
  settled : Settled T;
  waits : list Z;
  invoked : nat;
}.
Arguments mkRun {T} _ _ _.
Arguments settled {T} _.
Arguments waits {T} _.
Arguments invoked {T} _.

Section Retry.
Context {T : Type}.
(** [fn attempt] is what the invocation of [fn] made in that attempt
    does. *)
Context (fn : Z → Res T) (options : Options).

Definition maxRetries_ : Z := default 3 (maxRetries options).
Definition initialDelay_ : Z := default 1000 (initialDelay options).
Definition maxDelay_ : Z := default 10000 (maxDelay options).
Definition backoffMultiplier_ : Z := default 2 (backoffMultiplier options).

(** The [for] loop: [iterations] is the number of passes left, that is
    the number of values of [attempt] up to [maxRetries] still to come. *)
Fixpoint loop (iterations : nat) (attempt delay : Z) (lastError : option string)
    (slept : list Z) (calls : nat) : Run T :=
  match iterations with
  | O => mkRun (Rejected lastError) slept calls
  | S rest =>
      match fn attempt with
      | Ok value => mkRun (Resolved value) slept (S calls)
      | Throw e =>
          if attempt <? maxRetries_ then
            loop rest (attempt + 1) (Z.min (delay * backoffMultiplier_) maxDelay_)
                 (Some e) (slept ++ [delay]) (S calls)
          else loop rest (attempt + 1) delay (Some e) slept (S calls)
      end
  end.

Definition retryWithBackoff : Run T :=
  loop (Z.to_nat maxRetries_) 1 initialDelay_ None [] 0.

(** The delays of the first [n] waits, starting from [delay]. *)
Fixpoint schedule (n : nat) (delay : Z) : list Z :=
  match n with
  | O => []
  | S n' => delay :: schedule n' (Z.min (delay * backoffMultiplier_) maxDelay_)
  end.

End Retry.

End Errors.

Module ErrorsFacts.
Import Chains Errors.

Section Facts.
Context {T : Type} (fn : Z → Res T) (options : Options).

Abbreviation fails j := (∃ e, fn j = Throw e).

Lemma loop_first_success iterations : ∀ attempt delay lastError slept calls k value,
  attempt + Z.of_nat iterations = maxRetries_ options + 1 →
  attempt ≤ k ≤ maxRetries_ options →
  fn k = Ok value →
  (∀ j, attempt ≤ j < k → fails j) →
  loop fn options iterations attempt delay lastError slept calls
  = mkRun (Resolved value)
          (slept ++ schedule options (Z.to_nat (k - attempt)) delay)
          (calls + Z.to_nat (k - attempt) + 1)%nat.
Proof.
  induction iterations as [|n IH]; intros attempt delay lastError slept calls k value
    Hn Hk Hok Hfail; [lia|].
  simpl. destruct (decide (attempt = k)) as [->|Hne].
  - rewrite Hok. replace (k - k) with 0 by lia. simpl. rewrite app_nil_r.
    f_equal. lia.
  - destruct (Hfail attempt ltac:(lia)) as [e He]. rewrite He.
    destruct (attempt <? maxRetries_ options) eqn:E; [|lia].
    rewrite (IH (attempt + 1) _ _ _ _ k value); [|lia|lia|done|intros j Hj; apply Hfail; lia].
    replace (Z.to_nat (k - attempt)) with (S (Z.to_nat (k - (attempt + 1)))) by lia.
    simpl. rewrite <- app_assoc. simpl. f_equal. lia.
Qed.

Lemma loop_all_fail iterations : ∀ attempt delay lastError slept calls e,
  (0 < iterations)%nat →
  attempt + Z.of_nat iterations = maxRetries_ options + 1 →
  fn (maxRetries_ options) = Throw e →
  (∀ j, attempt ≤ j ≤ maxRetries_ options → fails j) →
  loop fn options iterations attempt delay lastError slept calls
  = mkRun (Rejected (Some e))
          (slept ++ schedule options (iterations - 1) delay)
          (calls + iterations)%nat.
Proof.
  induction iterations as [|n IH]; intros attempt delay lastError slept calls e
    Hpos Hn Hlast Hfail; [lia|].
  simpl. destruct (Hfail attempt ltac:(lia)) as [e' He']. rewrite He'.
  destruct (attempt <? maxRetries_ options) eqn:E.
  - destruct n as [|n]; [lia|].
    rewrite (IH (attempt + 1) _ _ _ _ e); [|lia|lia|done|intros j Hj; apply Hfail; lia].
    replace (S n - 1)%nat with n by lia. replace (n - 0)%nat with n by lia.
    simpl. rewrite <- app_assoc. simpl. f_equal. lia.
  - destruct n as [|n]; [|lia]. simpl.
    assert (attempt = maxRetries_ options) as Heq by lia.
    rewrite Heq, Hlast in He'. injection He' as <-.
    rewrite app_nil_r. f_equal. lia.
Qed.

(** The first success ends the run: when [fn] fails in the attempts
    before the [k]-th and succeeds in the [k]-th, the value of that
    invocation is returned, [fn] has been invoked exactly [k] times, and
    the run has waited [k - 1] times, by the schedule. *)
Theorem retry_returns_first_success (k : Z) (value : T) :
  1 ≤ k ≤ maxRetries_ options →
  fn k = Ok value →
  (∀ j, 1 ≤ j < k → fails j) →
  retryWithBackoff fn options
  = mkRun (Resolved value)
          (schedule options (Z.to_nat (k - 1)) (initialDelay_ options))
          (Z.to_nat k).
Proof.
  intros Hk Hok Hfail. unfold retryWithBackoff.
  rewrite (loop_first_success _ 1 _ _ _ _ k value); [|lia|lia|done|done].
  simpl. f_equal. lia.
Qed.

(** When every attempt fails, the run gives up after [maxRetries]
    invocations and [maxRetries - 1] waits, and throws the error of the
    last invocation. *)
Theorem retry_gives_up (e : string) :
  1 ≤ maxRetries_ options →
  (∀ j, 1 ≤ j ≤ maxRetries_ options → fails j) →
  fn (maxRetries_ options) = Throw e →
  retryWithBackoff fn options
  = mkRun (Rejected (Some e))
          (schedule options (Z.to_nat (maxRetries_ options) - 1) (initialDelay_ options))
          (Z.to_nat (maxRetries_ options)).
Proof.
  intros Hm Hfail Hlast. unfold retryWithBackoff.
  rewrite (loop_all_fail _ 1 _ _ _ _ e); [done|lia|lia|done|done].
Qed.

(** With [maxRetries] zero or negative [fn] is never invoked, and the
    promise is rejected with [undefined]. *)
Theorem retry_without_attempts :
  maxRetries_ options ≤ 0 →
  retryWithBackoff fn options = mkRun (Rejected None) [] 0.
Proof.
  intros Hm. unfold retryWithBackoff.
  replace (Z.to_nat (maxRetries_ options)) with 0%nat by lia. done.
Qed.

Lemma schedule_capped n : ∀ delay,
  Forall (λ d, d ≤ maxDelay_ options) (tail (schedule options n delay)).
Proof.
  induction n as [|n IH]; intros delay; [done|].
  simpl. destruct n as [|n]; [done|].
  specialize (IH (Z.min (delay * backoffMultiplier_ options) (maxDelay_ options))).
  simpl in *. constructor; [lia|done].
Qed.

Lemma loop_invoked_ge iterations : ∀ attempt delay lastError slept calls,
  (calls ≤ invoked (loop fn options iterations attempt delay lastError slept calls))%nat.
Proof.
  induction iterations as [|m IH]; intros attempt delay lastError slept calls; [done|].
  simpl. destruct (fn attempt) as [value|e]; [simpl; lia|].
  destruct (attempt <? maxRetries_ options).
  - etrans; [|apply IH]. lia.
  - etrans; [|apply IH]. lia.
Qed.

Lemma loop_invoked_pos iterations attempt delay lastError slept calls :
  (0 < iterations)%nat →
  (calls + 1 ≤ invoked (loop fn options iterations attempt delay lastError slept calls))%nat.
Proof.
  destruct iterations as [|m]; [lia|]. intros _.
  simpl. destruct (fn attempt) as [value|e]; [simpl; lia|].
  destruct (attempt <? maxRetries_ options).
  - etrans; [|apply loop_invoked_ge]. lia.
  - etrans; [|apply loop_invoked_ge]. lia.
Qed.

Lemma loop_waits iterations : ∀ attempt delay lastError slept calls,
  maxRetries_ options + 1 ≤ attempt + Z.of_nat iterations →
  ∃ n, waits (loop fn options iterations attempt delay lastError slept calls)
       = slept ++ schedule options n delay
       ∧ (invoked (loop fn options iterations attempt delay lastError slept calls)
          ≤ calls + iterations)%nat
       ∧ (n = 0%nat
          ∨ (calls + n + 1
             ≤ invoked (loop fn options iterations attempt delay lastError slept calls))%nat).
Proof.
  induction iterations as [|m IH]; intros attempt delay lastError slept calls Hn.
  { exists 0%nat. simpl. rewrite app_nil_r. split; [done|]. split; [lia|by left]. }
  simpl. destruct (fn attempt) as [value|e].
  { exists 0%nat. simpl. rewrite app_nil_r. split; [done|]. split; [lia|by left]. }
  destruct (attempt <? maxRetries_ options) eqn:E.
  - destruct (IH (attempt + 1) (Z.min (delay * backoffMultiplier_ options) (maxDelay_ options))
                 (Some e) (slept ++ [delay]) (S calls) ltac:(lia))
      as (n & Hw & Hi & Hle).
    exists (S n). rewrite Hw, <- app_assoc. simpl. split; [done|]. split; [lia|]. right.
    destruct Hle as [->|Hle]; [|lia].
    pose proof (loop_invoked_pos m (attempt + 1)
                  (Z.min (delay * backoffMultiplier_ options) (maxDelay_ options))
                  (Some e) (slept ++ [delay]) (S calls) ltac:(lia)).
    lia.
  - destruct (IH (attempt + 1) delay (Some e) slept (S calls) ltac:(lia))
      as (n & Hw & Hi & Hle).
    exists n. split; [done|]. split; [lia|].
    destruct Hle as [->|Hle]; [by left|right; lia].
Qed.

(** For any [fn]: it is invoked at most [maxRetries] times; the waits
    follow the schedule that starts at [initialDelay] and multiplies;
    a run that waits [n] times invokes [fn] at least [n + 1] times; and
    every wait but the first is at most [maxDelay].  The first wait is
    [initialDelay] as given: the cap applies from the second on. *)
Theorem retry_waits_follow_schedule :
  (invoked (retryWithBackoff fn options) ≤ Z.to_nat (maxRetries_ options))%nat
  ∧ (∃ n, waits (retryWithBackoff fn options)
          = schedule options n (initialDelay_ options)
          ∧ (n = 0%nat ∨ (n + 1 ≤ invoked (retryWithBackoff fn options))%nat))
  ∧ Forall (λ d, d ≤ maxDelay_ options) (tail (waits (retryWithBackoff fn options)))
  ∧ (∀ d, head (waits (retryWithBackoff fn options)) = Some d → d = initialDelay_ options).
Proof.
  unfold retryWithBackoff.
  destruct (loop_waits (Z.to_nat (maxRetries_ options)) 1 (initialDelay_ options) None [] 0
              ltac:(lia)) as (n & Hw & Hi & Hle).
  split; [exact Hi|]. split; [exists n; split; [exact Hw|exact Hle]|].
  rewrite Hw. simpl. split; [apply schedule_capped|].
  intros d. destruct n; simpl; [done|]. by intros [= <-].
Qed.

End Facts.

Definition flaky (good : Z) (attempt : Z) : Res string :=
  if attempt =? good then Ok "payload"%string else Throw "Error: boom".

Lemma retry_returns_first_success_witness :
  retryWithBackoff (flaky 3) no_options = mkRun (Resolved "payload"%string) [1000; 2000] 3.
Proof.
  refine (eq_trans (retry_returns_first_success (flaky 3) no_options 3 "payload"%string
                      _ eq_refl _) eq_refl).
  - vm_compute. split; discriminate.
  - intros j Hj. exists "Error: boom"%string. unfold flaky.
    destruct (j =? 3) eqn:E; [lia|done].
Defined.

Lemma retry_gives_up_witness :
  retryWithBackoff (flaky 0) (mkOptions (Some 5) (Some 4000) None None)
  = mkRun (Rejected (Some "Error: boom"%string)) [4000; 8000; 10000; 10000] 5.
Proof.
  refine (eq_trans (retry_gives_up (flaky 0) (mkOptions (Some 5) (Some 4000) None None)
                      "Error: boom"%string _ _ eq_refl) eq_refl).
  - vm_compute. discriminate.
  - intros j Hj. exists "Error: boom"%string. unfold flaky.
    destruct (j =? 0) eqn:E; [lia|done].
Defined.

Lemma retry_without_attempts_witness :
  retryWithBackoff (flaky 1) (mkOptions (Some 0) None None None)
  = mkRun (Rejected None) [] 0.
Proof.
  exact (retry_without_attempts (flaky 1) (mkOptions (Some 0) None None None)
           ltac:(vm_compute; discriminate)).
Defined.

End ErrorsFacts.

(* ===================================================================== *)
(** ** The rate limiter of the generation route ([rate-limiter.ts]) *)
(* ===================================================================== *)

Module RateLimit.

Record RateLimitConfig := mkConfig {
  perMinute : Z;
  perHour : Z;
  perDay : Z;
}.

Inductive LimitType := minute | hour | day.

(** One number per window: [remaining] and [resetAt] have this shape. *)
Record PerWindow := mkPerWindow {
  of_minute : Z;
  of_hour : Z;
  of_day : Z;
}.

Record RateLimitResult := mkResult {
  allowed : bool;
  remaining : PerWindow;
  resetAt : PerWindow;
  limitType : option LimitType;
}.

(** The limiter: per client the time stamps of the requests recorded,
    oldest first, and the limits. *)
Record RateLimiter := mkLimiter {
  requests : gmap string (list Z);
  config : RateLimitConfig;
}.

Definition new : RateLimiter := mkLimiter ∅ (mkConfig 3 20 50).

Definition MINUTE : Z := 60 * 1000.
Definition HOUR : Z := 60 * 60 * 1000.
Definition DAY : Z := 24 * 60 * 60 * 1000.

(** [this.requests.get(clientId) || []] *)
Definition logs_of (clientId : string) (rl : RateLimiter) : list Z :=
  default [] (requests rl !! clientId).

(** [logs.filter(log => log.timestamp > since)] *)
Definition after (since : Z) (logs : list Z) : list Z :=
  filter (λ timestamp, since < timestamp) logs.

(** [cleanup]: only the requests of the last 24 hours are kept; a client
    left without any is removed from the map. *)
Definition cleanup (clientId : string) (now : Z) (rl : RateLimiter) : RateLimiter :=
  let filtered := after (now - DAY) (logs_of clientId rl) in
  if decide (length filtered = 0%nat)
  then mkLimiter (delete clientId (requests rl)) (config rl)
  else mkLimiter (<[clientId := filtered]> (requests rl)) (config rl).

(** [oldest ? oldest.timestamp + window : now + window], where [oldest]
    is what [logs.find] gives: the first log inside the window. *)
Definition reset_time (now window : Z) (logs : list Z) : Z :=
  match head (after (now - window) logs) with
  | Some timestamp => timestamp + window
  | None => now + window
  end.

(** [checkLimit], for the client id that [getClientId] reads off the
    request. *)
Definition checkLimit (clientId : string) (now : Z) (rl : RateLimiter)
  : RateLimitResult * RateLimiter :=
  let rl := cleanup clientId now rl in
  let logs := logs_of clientId rl in
  let requestsLastMinute := Z.of_nat (length (after (now - MINUTE) logs)) in
  let requestsLastHour := Z.of_nat (length (after (now - HOUR) logs)) in
  let requestsLastDay := Z.of_nat (length (after (now - DAY) logs)) in
  let verdict :=
    if perMinute (config rl) <=? requestsLastMinute then Some minute
    else if perHour (config rl) <=? requestsLastHour then Some hour
    else if perDay (config rl) <=? requestsLastDay then Some day
    else None in
  ({| allowed := match verdict with Some _ => false | None => true end;
      remaining := {| of_minute := Z.max 0 (perMinute (config rl) - requestsLastMinute);
                      of_hour := Z.max 0 (perHour (config rl) - requestsLastHour);
                      of_day := Z.max 0 (perDay (config rl) - requestsLastDay) |};
      resetAt := {| of_minute := reset_time now MINUTE logs;
                    of_hour := reset_time now HOUR logs;
                    of_day := reset_time now DAY logs |};
      limitType := verdict |}, rl).

(** [recordRequest]: the time stamp is pushed at the end of the log. *)
Definition recordRequest (clientId : string) (now : Z) (rl : RateLimiter) : RateLimiter :=
  mkLimiter (<[clientId := logs_of clientId rl ++ [now]]> (requests rl)) (config rl).

Definition getStatus := checkLimit.

Definition resetClient (clientId : string) (rl : RateLimiter) : RateLimiter :=
  mkLimiter (delete clientId (requests rl)) (config rl).

(** What the generation route does with a request that carries no API
    key of its own: it checks the limit at [now] and, when the request
    is allowed, records it (the clock then reads [recorded]). *)
Definition guard (clientId : string) (now recorded : Z) (rl : RateLimiter)
  : RateLimitResult * RateLimiter :=
  let '(limitCheck, rl) := checkLimit clientId now rl in
  if allowed limitCheck then (limitCheck, recordRequest clientId recorded rl)
  else (limitCheck, rl).

(** A request as the limiter sees it: who, and the two clock reads. *)
Record Arrival := mkArrival { client : string; checked : Z; recorded : Z }.

(** A sequence of guarded requests: the limiter at the end and the
    requests let through, in order, with the time recorded for each. *)
Fixpoint serve (arrivals : list Arrival) (rl : RateLimiter) (admitted : list (string * Z))
  : RateLimiter * list (string * Z) :=
  match arrivals with
  | [] => (rl, admitted)
  | a :: rest =>
      let '(limitCheck, rl') := guard (client a) (checked a) (recorded a) rl in
      serve rest rl'
            (if allowed limitCheck then admitted ++ [(client a, recorded a)] else admitted)
  end.

(** The clock does not go back: each request is recorded no earlier than
    it is checked, and checked no earlier than [from]. *)
Fixpoint in_time_order (from : Z) (arrivals : list Arrival) : Prop :=
  match arrivals with
  | [] => True
  | a :: rest => from ≤ checked a ∧ checked a ≤ recorded a ∧ in_time_order (recorded a) rest
  end.

(** The requests of [clientId] let through with a time in
    [(since, since + window]]. *)
Definition admitted_within (clientId : string) (since window : Z)
    (admitted : list (string * Z)) : nat :=
  length (filter (λ p : string * Z, p.1 = clientId ∧ since < p.2 ≤ since + window) admitted).

End RateLimit.

Module RateLimitFacts.
Import RateLimit.

Definition window (k : LimitType) : Z :=
  match k with minute => MINUTE | hour => HOUR | day => DAY end.

Definition limit (cfg : RateLimitConfig) (k : LimitType) : Z :=
  match k with minute => perMinute cfg | hour => perHour cfg | day => perDay cfg end.

(** The times at which requests of [clientId] were let through. *)
Definition hist (clientId : string) (admitted : list (string * Z)) : list Z :=
  (filter (λ p : string * Z, p.1 = clientId) admitted).*2.

Definition cnt_in (since w : Z) (l : list Z) : nat :=
  length (filter (λ timestamp, since < timestamp ≤ since + w) l).

Lemma window_le_day k : 0 < window k ≤ DAY.
Proof. destruct k; unfold window, MINUTE, HOUR, DAY; lia. Qed.

Lemma admitted_within_hist c x w adm :
  admitted_within c x w adm = cnt_in x w (hist c adm).
Proof.
  unfold admitted_within, cnt_in, hist. induction adm as [|[c' t] adm IH]; [done|].
  rewrite !filter_cons. simpl. destruct (decide (c' = c)) as [->|Hne].
  - simpl. rewrite filter_cons. simpl.
    destruct (decide (x < t ≤ x + w)).
    + rewrite decide_True by done. simpl. by rewrite IH.
    + rewrite decide_False by tauto. done.
  - rewrite decide_False by tauto. done.
Qed.

Lemma hist_snoc c c' t adm :
  hist c (adm ++ [(c', t)]) = if decide (c' = c) then hist c adm ++ [t] else hist c adm.
Proof.
  unfold hist. rewrite filter_app, fmap_app, filter_cons, filter_nil. simpl.
  case_decide; simpl; [done|by rewrite app_nil_r].
Qed.

Lemma filter_length_impl {A} (P Q : A → Prop) `{∀ a, Decision (P a)} `{∀ a, Decision (Q a)}
    (l : list A) :
  (∀ a, P a → Q a) → (length (filter P l) ≤ length (filter Q l))%nat.
Proof.
  intros HPQ. induction l as [|a l IH]; [done|].
  rewrite !filter_cons. destruct (decide (P a)) as [HP|HP].
  - rewrite decide_True by auto. simpl. lia.
  - destruct (decide (Q a)); simpl; lia.
Qed.

Lemma after_after a b l : b ≤ a → after a (after b l) = after a l.
Proof.
  intros Hab. unfold after. induction l as [|t l IH]; [done|].
  rewrite !filter_cons. destruct (decide (b < t)).
  - rewrite filter_cons. destruct (decide (a < t)); by rewrite IH.
  - rewrite decide_False by lia. done.
Qed.

Lemma after_length_le a l : (length (after a l) ≤ length l)%nat.
Proof. apply length_filter. Qed.

Lemma logs_of_cleanup c now rl :
  logs_of c (cleanup c now rl) = after (now - DAY) (logs_of c rl).
Proof.
  unfold cleanup. case_decide as Hlen.
  - unfold logs_of at 1. simpl. rewrite lookup_delete_eq. simpl.
    by destruct (after (now - DAY) (logs_of c rl)).
  - unfold logs_of at 1. simpl. by rewrite lookup_insert_eq.
Qed.

Lemma logs_of_cleanup_ne c c' now rl :
  c ≠ c' → logs_of c' (cleanup c now rl) = logs_of c' rl.
Proof.
  intros Hne. unfold cleanup. case_decide.
  - unfold logs_of. simpl. by rewrite lookup_delete_ne.
  - unfold logs_of. simpl. by rewrite lookup_insert_ne.
Qed.

Lemma config_cleanup c now rl : config (cleanup c now rl) = config rl.
Proof. unfold cleanup. by case_decide. Qed.

Lemma checkLimit_state c now rl : (checkLimit c now rl).2 = cleanup c now rl.
Proof. done. Qed.

(** What [checkLimit] decides, in terms of the three counts. *)
Lemma checkLimit_verdict c now rl k :
  limitType (checkLimit c now rl).1 = Some k →
  limit (config rl) k
  ≤ Z.of_nat (length (after (now - window k) (after (now - DAY) (logs_of c rl)))).
Proof.
  unfold checkLimit. simpl. rewrite logs_of_cleanup, config_cleanup.
  destruct (perMinute (config rl) <=? _) eqn:E1.
  { intros [= <-]. simpl. lia. }
  destruct (perHour (config rl) <=? _) eqn:E2.
  { intros [= <-]. simpl. lia. }
  destruct (perDay (config rl) <=? _) eqn:E3; [|done].
  intros [= <-]. simpl. lia.
Qed.

Lemma checkLimit_allowed c now rl :
  allowed (checkLimit c now rl).1 = true →
  ∀ k, Z.of_nat (length (after (now - window k) (after (now - DAY) (logs_of c rl))))
       < limit (config rl) k.
Proof.
  unfold checkLimit. simpl. rewrite logs_of_cleanup, config_cleanup.
  destruct (perMinute (config rl) <=? _) eqn:E1; [done|].
  destruct (perHour (config rl) <=? _) eqn:E2; [done|].
  destruct (perDay (config rl) <=? _) eqn:E3; [done|].
  intros _ k. destruct k; simpl; lia.
Qed.

Lemma checkLimit_allowed_iff c now rl :
  allowed (checkLimit c now rl).1 = true ↔ limitType (checkLimit c now rl).1 = None.
Proof. unfold checkLimit. simpl. by destruct (if _ <=? _ then _ else _). Qed.

Lemma logs_of_guard c now rec rl :
  logs_of c (guard c now rec rl).2
  = if allowed (checkLimit c now rl).1
    then after (now - DAY) (logs_of c rl) ++ [rec]
    else after (now - DAY) (logs_of c rl).
Proof.
  unfold guard. destruct (checkLimit c now rl) as [r rl1] eqn:E.
  assert (rl1 = cleanup c now rl) as -> by (by rewrite <- (checkLimit_state c now rl), E).
  simpl. destruct (allowed r).
  - simpl. unfold logs_of at 1. simpl. rewrite lookup_insert_eq. simpl.
    by rewrite logs_of_cleanup.
  - simpl. apply logs_of_cleanup.
Qed.

Lemma logs_of_guard_ne c c' now rec rl :
  c ≠ c' → logs_of c' (guard c now rec rl).2 = logs_of c' rl.
Proof.
  intros Hne. unfold guard. destruct (checkLimit c now rl) as [r rl1] eqn:E.
  assert (rl1 = cleanup c now rl) as -> by (by rewrite <- (checkLimit_state c now rl), E).
  destruct (allowed r); simpl.
  - unfold logs_of at 1. simpl. rewrite lookup_insert_ne by done.
    by apply logs_of_cleanup_ne.
  - by apply logs_of_cleanup_ne.
Qed.

Lemma config_guard c now rec rl : config (guard c now rec rl).2 = config rl.
Proof.
  unfold guard. destruct (checkLimit c now rl) as [r rl1] eqn:E.
  assert (rl1 = cleanup c now rl) as -> by (by rewrite <- (checkLimit_state c now rl), E).
  destruct (allowed r); simpl; apply config_cleanup.
Qed.

Lemma guard_result c now rec rl : (guard c now rec rl).1 = (checkLimit c now rl).1.
Proof.
  unfold guard. destruct (checkLimit c now rl) as [r rl1]. by destruct (allowed r).
Qed.

(** The time the clock has reached after a sequence of requests. *)
Fixpoint last_time (from : Z) (arrivals : list Arrival) : Z :=
  match arrivals with
  | [] => from
  | a :: rest => last_time (recorded a) rest
  end.

Definition at_window (k : LimitType) (p : PerWindow) : Z :=
  match k with minute => of_minute p | hour => of_hour p | day => of_day p end.

Lemma filter_length_lt {A} (P Q : A → Prop) `{∀ a, Decision (P a)} `{∀ a, Decision (Q a)}
    (l : list A) (x : A) :
  (∀ a, P a → Q a) → x ∈ l → Q x → ¬ P x →
  (length (filter P l) < length (filter Q l))%nat.
Proof.
  intros HPQ Hin HQ HP. induction l as [|a l IH]; [by apply elem_of_nil in Hin|].
  rewrite !filter_cons. apply elem_of_cons in Hin as [<-|Hin].
  - rewrite decide_False by done. rewrite decide_True by done. simpl.
    pose proof (filter_length_impl P Q l HPQ). lia.
  - specialize (IH Hin). destruct (decide (P a)) as [HPa|HPa].
    + rewrite decide_True by auto. simpl. lia.
    + destruct (decide (Q a)); simpl; lia.
Qed.

Section Invariant.
Context (cfg : RateLimitConfig).
Hypothesis limits_nonneg : ∀ k, 0 ≤ limit cfg k.

(** What holds of the limiter and of the requests let through so far,
    once the clock has reached [T]. *)
Record inv (T : Z) (rl : RateLimiter) (admitted : list (string * Z)) : Prop := mkInv {
  inv_config : config rl = cfg;
  inv_logs : ∀ c, ∃ θ, θ ≤ T - DAY ∧ logs_of c rl = after θ (hist c admitted);
  inv_past : ∀ c, Forall (λ timestamp, timestamp ≤ T) (hist c admitted);
  inv_window : ∀ c k x, Z.of_nat (cnt_in x (window k) (hist c admitted)) ≤ limit cfg k;
  inv_length : ∀ c, Z.of_nat (length (logs_of c rl)) ≤ perDay cfg;
}.

Lemma inv_start T : inv T (mkLimiter ∅ cfg) [].
Proof.
  split; try done.
  - intros c. exists (T - DAY). split; [lia|]. unfold logs_of. simpl.
    by rewrite lookup_empty.
  - intros c. unfold logs_of. simpl. rewrite lookup_empty. simpl.
    apply (limits_nonneg day).
Qed.

Lemma cnt_in_snoc x w l t :
  cnt_in x w (l ++ [t])
  = (cnt_in x w l + if decide (x < t ≤ x + w)%Z then 1 else 0)%nat.
Proof.
  unfold cnt_in. rewrite filter_app, length_app, filter_cons, filter_nil.
  by case_decide.
Qed.

Lemma inv_guard T rl admitted a :
  inv T rl admitted →
  T ≤ checked a → checked a ≤ recorded a →
  inv (recorded a) (guard (client a) (checked a) (recorded a) rl).2
      (if allowed (guard (client a) (checked a) (recorded a) rl).1
       then admitted ++ [(client a, recorded a)] else admitted).
Proof.
  intros [Hcfg Hlogs Hpast Hwin Hlen] HT Hrec.
  destruct a as [c now rec]. simpl in *.
  rewrite guard_result.
  destruct (Hlogs c) as (θ & Hθ & Hc).
  assert (Hlogs1 : after (now - DAY) (logs_of c rl) = after (now - DAY) (hist c admitted)).
  { rewrite Hc. apply after_after. lia. }
  assert (Hcount : ∀ k, after (now - window k) (after (now - DAY) (logs_of c rl))
                        = after (now - window k) (hist c admitted)).
  { intros k. rewrite Hlogs1. apply after_after. pose proof (window_le_day k). lia. }
  destruct (allowed (checkLimit c now rl).1) eqn:Hall.
  - pose proof (checkLimit_allowed _ _ _ Hall) as Hlt. rewrite Hcfg in Hlt.
    split.
    + by rewrite config_guard.
    + intros c'. destruct (decide (c = c')) as [<-|Hne].
      * exists (now - DAY). split; [lia|]. rewrite logs_of_guard, Hall, Hlogs1.
        rewrite hist_snoc, decide_True by done.
        unfold after. rewrite filter_app, filter_cons, filter_nil.
        rewrite decide_True; [done|]. unfold DAY. lia.
      * destruct (Hlogs c') as (θ' & Hθ' & Hc'). exists θ'. split; [lia|].
        rewrite logs_of_guard_ne by done. rewrite hist_snoc, decide_False by done. done.
    + intros c'. rewrite hist_snoc. case_decide.
      * subst c'. apply Forall_app. split.
        -- eapply Forall_impl; [apply Hpast|]. simpl. intros. lia.
        -- by repeat constructor.
      * eapply Forall_impl; [apply Hpast|]. simpl. intros. lia.
    + intros c' k x. rewrite hist_snoc. case_decide; [|apply Hwin]. subst c'.
      rewrite cnt_in_snoc. case_decide as Hin; [|specialize (Hwin c k x); lia].
      specialize (Hlt k). rewrite Hcount in Hlt.
      assert (cnt_in x (window k) (hist c admitted)
              ≤ length (after (now - window k) (hist c admitted)))%nat; [|lia].
      apply filter_length_impl. intros t Ht. lia.
    + intros c'. destruct (decide (c = c')) as [<-|Hne].
      * rewrite logs_of_guard, Hall, length_app. simpl.
        specialize (Hlt day). simpl in Hlt.
        rewrite after_after in Hlt by lia. lia.
      * rewrite logs_of_guard_ne by done. apply Hlen.
  - split.
    + by rewrite config_guard.
    + intros c'. destruct (decide (c = c')) as [<-|Hne].
      * exists (now - DAY). split; [lia|]. by rewrite logs_of_guard, Hall, Hlogs1.
      * destruct (Hlogs c') as (θ' & Hθ' & Hc'). exists θ'. split; [lia|].
        by rewrite logs_of_guard_ne.
    + intros c'. eapply Forall_impl; [apply Hpast|]. simpl. intros. lia.
    + done.
    + intros c'. destruct (decide (c = c')) as [<-|Hne].
      * rewrite logs_of_guard, Hall.
        pose proof (after_length_le (now - DAY) (logs_of c rl)).
        specialize (Hlen c). lia.
      * rewrite logs_of_guard_ne by done. apply Hlen.
Qed.

Lemma serve_inv arrivals : ∀ rl admitted T,
  inv T rl admitted → in_time_order T arrivals →
  inv (last_time T arrivals) (serve arrivals rl admitted).1 (serve arrivals rl admitted).2.
Proof.
  induction arrivals as [|a rest IH]; intros rl admitted T Hinv Hord; [done|].
  destruct Hord as (H1 & H2 & H3).
  pose proof (inv_guard T rl admitted a Hinv H1 H2) as Hstep.
  simpl. destruct (guard (client a) (checked a) (recorded a) rl) as [r rl'] eqn:E.
  simpl in Hstep. by apply IH.
Qed.

End Invariant.

(** Whatever the clients and the order of their requests, as long as the
    clock does not go back: of the requests of one client that the route
    lets through, no more than [perMinute] carry a time within any one
    minute, no more than [perHour] within any one hour and no more than
    [perDay] within any 24 hours; and the log the limiter keeps for a
    client never holds more than [perDay] entries. *)
Theorem limits_hold_in_every_window (cfg : RateLimitConfig) (from : Z)
    (arrivals : list Arrival) (clientId : string) (since : Z) :
  0 ≤ perMinute cfg → 0 ≤ perHour cfg → 0 ≤ perDay cfg →
  in_time_order from arrivals →
  let served := serve arrivals (mkLimiter ∅ cfg) [] in
  Z.of_nat (admitted_within clientId since MINUTE served.2) ≤ perMinute cfg
  ∧ Z.of_nat (admitted_within clientId since HOUR served.2) ≤ perHour cfg
  ∧ Z.of_nat (admitted_within clientId since DAY served.2) ≤ perDay cfg
  ∧ Z.of_nat (length (logs_of clientId served.1)) ≤ perDay cfg.
Proof.
  intros Hm Hh Hd Hord served.
  assert (Hnn : ∀ k, 0 ≤ limit cfg k) by (by intros []).
  destruct (serve_inv cfg arrivals (mkLimiter ∅ cfg) [] from (inv_start cfg Hnn from) Hord)
    as [_ _ _ Hwin Hlen].
  rewrite !admitted_within_hist. repeat split.
  - apply (Hwin clientId minute).
  - apply (Hwin clientId hour).
  - apply (Hwin clientId day).
  - apply Hlen.
Qed.

Lemma limits_hold_in_every_window_witness :
  let arrivals := [mkArrival "10.0.0.7" 1000 1000; mkArrival "10.0.0.7" 2000 2001;
                   mkArrival "10.0.0.7" 3000 3000; mkArrival "10.0.0.7" 4000 4000;
                   mkArrival "10.0.0.8" 5000 5000] in
  (serve arrivals new []).2
  = [("10.0.0.7", 1000); ("10.0.0.7", 2001); ("10.0.0.7", 3000); ("10.0.0.8", 5000)]
  ∧ Z.of_nat (admitted_within "10.0.0.7" 0 MINUTE (serve arrivals new []).2) ≤ 3.
Proof.
  intros arrivals. split; [vm_compute; reflexivity|].
  refine (proj1 (limits_hold_in_every_window (config new) 0 arrivals "10.0.0.7" 0
                   _ _ _ _));
    [simpl; lia | simpl; lia | simpl; lia | unfold arrivals; simpl; lia].
Defined.

(** The reset time told to a refused client is right.  On a limiter
    reached by guarded requests, when a check at [now] is refused for the
    limit [k], the reset time reported for [k] lies in the future, at
    most one window ahead, and a check at that time is no longer refused
    for [k] (as long as nothing of this client was let through in
    between). *)
Theorem reset_time_is_right (cfg : RateLimitConfig) (from now : Z)
    (arrivals : list Arrival) (clientId : string) (k : LimitType) :
  0 ≤ perMinute cfg → 0 ≤ perHour cfg → 0 ≤ perDay cfg → 0 < limit cfg k →
  in_time_order from arrivals → last_time from arrivals ≤ now →
  let limitCheck := checkLimit clientId now (serve arrivals (mkLimiter ∅ cfg) []).1 in
  limitType limitCheck.1 = Some k →
  let reset := at_window k (resetAt limitCheck.1) in
  now < reset ≤ now + window k
  ∧ limitType (checkLimit clientId reset limitCheck.2).1 ≠ Some k.
Proof.
  intros Hm Hh Hd Hpos Hord Hlast limitCheck Hk reset.
  assert (Hnn : ∀ k, 0 ≤ limit cfg k) by (by intros []).
  destruct (serve_inv cfg arrivals (mkLimiter ∅ cfg) [] from (inv_start cfg Hnn from) Hord)
    as [Hcfg Hlogs Hpast Hwin _].
  set (rl := (serve arrivals (mkLimiter ∅ cfg) []).1) in *.
  set (h := hist clientId (serve arrivals (mkLimiter ∅ cfg) []).2) in *.
  destruct (Hlogs clientId) as (θ & Hθ & Hc). fold h in Hc.
  specialize (Hpast clientId). fold h in Hpast.
  pose proof (window_le_day k) as Hw.
  assert (Hlogs1 : logs_of clientId limitCheck.2 = after (now - DAY) h).
  { unfold limitCheck. rewrite checkLimit_state, logs_of_cleanup, Hc.
    apply after_after. lia. }
  assert (Hin_k : after (now - window k) (logs_of clientId limitCheck.2)
                  = after (now - window k) h).
  { rewrite Hlogs1. apply after_after. lia. }
  pose proof (checkLimit_verdict _ _ _ _ Hk) as Hge. fold rl in Hge.
  rewrite <- logs_of_cleanup, <- checkLimit_state in Hge. fold limitCheck in Hge.
  rewrite Hin_k, Hcfg in Hge.
  assert (Hreset : reset = reset_time now (window k) (logs_of clientId limitCheck.2)).
  { unfold reset, limitCheck, checkLimit. simpl. by destruct k. }
  unfold reset_time in Hreset. rewrite Hin_k in Hreset.
  destruct (after (now - window k) h) as [|oldest others] eqn:Hafter; [simpl in Hge; lia|].
  simpl in Hreset.
  assert (Hold : oldest ∈ after (now - window k) h) by (rewrite Hafter; left).
  unfold after in Hold. apply list_elem_of_filter in Hold as [Hold1 Hold2].
  assert (Hold3 : oldest ≤ now).
  { rewrite Forall_forall in Hpast. specialize (Hpast _ Hold2). simpl in Hpast. lia. }
  split; [lia|].
  intros Hk'. pose proof (checkLimit_verdict _ _ _ _ Hk') as Hge'.
  assert (Hcfg' : config limitCheck.2 = cfg).
  { unfold limitCheck. by rewrite checkLimit_state, config_cleanup. }
  rewrite Hcfg', Hlogs1 in Hge'.
  rewrite (after_after (reset - DAY) (now - DAY)) in Hge' by lia.
  rewrite (after_after (reset - window k) (reset - DAY)) in Hge' by lia.
  replace (reset - window k) with oldest in Hge' by lia.
  assert (H1 : (length (after oldest h) < length (after (now - window k) h))%nat).
  { apply (filter_length_lt _ _ h oldest); [intros a Ha; lia|done|lia|lia]. }
  assert (H2 : (length (after (now - window k) h) ≤ cnt_in (now - window k) (window k) h)%nat).
  { unfold after, cnt_in. clear -Hpast Hlast.
    induction h as [|t h IH]; [done|].
    apply Forall_cons in Hpast as [Ht Hpast]. specialize (IH Hpast).
    rewrite !filter_cons. destruct (decide (now - window k < t)).
    - rewrite decide_True by lia. simpl. lia.
    - rewrite decide_False by lia. done. }
  specialize (Hwin clientId k (now - window k)). fold h in Hwin. lia.
Qed.

Lemma reset_time_is_right_witness :
  let arrivals := [mkArrival "10.0.0.7" 1000 1000; mkArrival "10.0.0.7" 2000 2001;
                   mkArrival "10.0.0.7" 3000 3000] in
  let limitCheck := checkLimit "10.0.0.7" 4000 (serve arrivals new []).1 in
  limitType limitCheck.1 = Some minute
  ∧ of_minute (resetAt limitCheck.1) = 61000
  ∧ limitType (checkLimit "10.0.0.7" 61000 limitCheck.2).1 ≠ Some minute.
Proof.
  intros arrivals limitCheck.
  split; [vm_compute; reflexivity|]. split; [vm_compute; reflexivity|].
  refine (proj2 (reset_time_is_right (config new) 0 4000 arrivals "10.0.0.7" minute
                   _ _ _ _ _ _ _));
    [simpl; lia | simpl; lia | simpl; lia | simpl; lia
    | unfold arrivals; simpl; lia | unfold arrivals; simpl; lia
    | vm_compute; reflexivity].
Defined.

End RateLimitFacts.

(* ===================================================================== *)
(** ** The proxy in front of the client ([APIFootballProxy], proxy.ts) *)
(* ===================================================================== *)

Module Proxy.
Import Client.

(** The message shown for the common failures. *)
Definition userMessage (e : APIFootballError) : string :=
  match Client.statusCode e with
  | Some 429 => "API rate limit exceeded. Please try again in a moment."
  | Some 401 => "API authentication failed. Please check configuration."
  | _ => Client.message e
  end.

(** The [try]/[catch] around a client method: [after] is what the
    method makes of the body (all of the methods modelled here return
    [response.response]), [friendly] says whether the catch rewrites
    the message of an [APIFootballError] (only [getFixtures] does),
    [otherwise] is the message for any other error. *)
Definition settle {T} (friendly : bool) (otherwise : string) (o : Outcome T)
  : Generator.ProxyResult T :=
  match o with
  | Returned d => Generator.mkProxy true (Some (response d)) None None
  | Failed e =>
      Generator.mkProxy false None
        (Some (if friendly then userMessage e else Client.message e))
        (Client.statusCode e)
  | OutOfFuel => Generator.mkProxy false None (Some otherwise) None
  end.

Section Methods.
Context {T : Type} (w : World T).

Definition call (endpoint : string) (friendly : bool) (otherwise : string)
    (params : Cache.Params) (st : State T) : Generator.ProxyResult T * State T :=
  let '(o, st') := request_first w endpoint params st in
  (settle friendly otherwise o, st').

Definition getFixtures := call "/fixtures" true "Failed to fetch fixtures. Please try again.".
Definition getStatistics := call "/fixtures/statistics" false "Failed to fetch statistics".
Definition getInjuries := call "/injuries" false "Failed to fetch injuries".
Definition getLineups := call "/fixtures/lineups" false "Failed to fetch lineups".
Definition getH2H := call "/fixtures/headtohead" false "Failed to fetch H2H data".

End Methods.

End Proxy.

Module ProxyFacts.
Import Client Proxy.

Section Facts.
Context {T : Type} (w : World T).

(** The contract the callers rely on.  Whatever the server and the
    network do, a proxy method returns: either success with the payload
    and no error, or failure with no payload, the error's status code
    and a message.  The message is the client's, or for [getFixtures]
    the friendly one; the text kept for errors of another kind never
    shows, because the client wraps every failure in its own error. *)
Theorem proxy_always_answers (endpoint : string) (friendly : bool) (otherwise : string)
    (params : Cache.Params) (st : State T) :
  let o := (request_first w endpoint params st).1 in
  let r := (call w endpoint friendly otherwise params st).1 in
  (∃ d, o = Returned d
        ∧ r = Generator.mkProxy true (Some (response d)) None None)
  ∨ (∃ e, o = Failed e
          ∧ r = Generator.mkProxy false None
                  (Some (if friendly then userMessage e else Client.message e))
                  (Client.statusCode e)).
Proof.
  intros o r. unfold r, call, o.
  pose proof (ClientFacts.request_total w endpoint params (Z.to_nat maxRetries) 1 st
                ltac:(unfold maxRetries; simpl; lia)
                ltac:(unfold maxRetries; simpl; lia)) as Htotal.
  unfold request_first in *.
  destruct (request w endpoint params (Z.to_nat maxRetries) 1 st) as [[d|e|] st']; simpl in *.
  - left. by exists d.
  - right. by exists e.
  - done.
Qed.

Lemma rate_limited_request (endpoint : string) (params : Cache.Params) (st : State T)
    (r1 r2 r3 : Response T) :
  cache st !! Cache.generateKey endpoint params = None →
  fetch w 1 = Responded r1 → fetch w 2 = Responded r2 → fetch w 3 = Responded r3 →
  status r1 = 429 → status r2 = 429 → status r3 = 429 →
  request_first w endpoint params st
  = (Failed (mkError (rate_limit_message (rateLimit_of r3)) (Some 429) endpoint),
     mkState (cache st) (slept st ++ [delay_429 r1 1; delay_429 r2 2])
             (3 + fetched st)%nat).
Proof.
  intros Hmiss F1 F2 F3 S1 S2 S3.
  unfold request_first. change (Z.to_nat maxRetries) with 3%nat.
  rewrite (ClientFacts.request_429_retry w endpoint params 2 1 st r1 Hmiss F1 S1 eq_refl).
  change (1 + 1) with 2.
  set (st1 := mkState (cache st) (slept st ++ [delay_429 r1 1]) (S (fetched st))).
  rewrite (ClientFacts.request_429_retry w endpoint params 1 2 st1 r2 Hmiss F2 S2 eq_refl).
  change (2 + 1) with 3.
  set (st2 := mkState (cache st1) (slept st1 ++ [delay_429 r2 2]) (S (fetched st1))).
  rewrite (ClientFacts.request_429_exhausted w endpoint params 0 3 st2 r3 Hmiss F3 S3 eq_refl).
  cbn. rewrite <- app_assoc. done.
Qed.

(** A rate limit that lasts (429 on all three attempts) reaches the
    caller of [getFixtures] as a failure with status code 429 and the
    friendly text, after the client's two waits, while [getStatistics]
    passes the client's own message on. *)
Theorem proxy_reports_rate_limit (params : Cache.Params) (st : State T)
    (r1 r2 r3 : Response T) :
  (∀ endpoint, cache st !! Cache.generateKey endpoint params = None) →
  fetch w 1 = Responded r1 → fetch w 2 = Responded r2 → fetch w 3 = Responded r3 →
  status r1 = 429 → status r2 = 429 → status r3 = 429 →
  getFixtures w params st
  = (Generator.mkProxy false None
       (Some "API rate limit exceeded. Please try again in a moment.") (Some 429),
     mkState (cache st) (slept st ++ [delay_429 r1 1; delay_429 r2 2]) (3 + fetched st)%nat)
  ∧ Generator.error (getStatistics w params st).1
    = Some (rate_limit_message (rateLimit_of r3)).
Proof.
  intros Hmiss F1 F2 F3 S1 S2 S3. split.
  - unfold getFixtures, call.
    by rewrite (rate_limited_request _ _ _ _ _ _ (Hmiss _) F1 F2 F3 S1 S2 S3).
  - unfold getStatistics, call.
    by rewrite (rate_limited_request _ _ _ _ _ _ (Hmiss _) F1 F2 F3 S1 S2 S3).
Qed.

End Facts.

Lemma proxy_reports_rate_limit_witness :
  (getFixtures (ClientFacts.always_429 None) {[ "id" := "12345" ]} (mkState ∅ [] 0)).1
  = Generator.mkProxy false None
      (Some "API rate limit exceeded. Please try again in a moment.") (Some 429).
Proof.
  exact (f_equal fst
           (proj1 (proxy_reports_rate_limit (ClientFacts.always_429 None)
                     {[ "id" := "12345" ]} (mkState ∅ [] 0) _ _ _
                     (λ _, lookup_empty _) eq_refl eq_refl eq_refl
                     eq_refl eq_refl eq_refl))).
Defined.

End ProxyFacts.

(* ===================================================================== *)
(** ** The throttle the generator configures *)
(* ===================================================================== *)

Module ThrottleLaws.
Import Throttle.

(** Whatever [APIFOOTBALL_REQUESTS_PER_MINUTE] holds (unset, empty, not a
    number, zero, negative, or beyond the range of a double), the
    generator's throttle gets a positive rate and a minimum delay between
    1 ms and a minute; unset, empty, or read by [parseInt] as [NaN] or an
    infinity, it gives the default of 8 requests a minute, 7500 ms. *)
Theorem configured_throttle_is_sane (env : option string) :
  0 < configured_rate env
  ∧ 1 ≤ minDelayMs (new (configured_rate env)) ≤ 60000
  ∧ (env = None ∨ env = Some EmptyString → minDelayMs (new (configured_rate env)) = 7500)
  ∧ (∀ s, env = Some s → Js.isFinite (Js.parseInt10 s) = false →
          minDelayMs (new (configured_rate env)) = 7500).
Proof.
  assert (Hpos : 0 < configured_rate env).
  { unfold configured_rate. destruct (Js.parseInt10 _) as [|rpm|negative]; [lia| |lia].
    destruct (0 <? rpm) eqn:E; lia. }
  split; [done|]. split; [|split].
  - simpl. pose proof (ThrottleFacts.ceil_div_spec 60000 _ Hpos) as [H1 H2]. nia.
  - intros [->| ->]; reflexivity.
  - intros s -> Hs. unfold configured_rate.
    destruct (Js.truthy_str s); [|reflexivity].
    by destruct (Js.parseInt10 s).
Qed.

(** A setting of 310 digits: [parseInt] gives [Infinity], the rate is
    the default. *)
Example rate_beyond_doubles :
  Js.parseInt10 (Nat.iter 310 (String "9"%char) EmptyString) = Js.Infinity false
  ∧ minDelayMs (new (configured_rate (Some (Nat.iter 310 (String "9"%char) EmptyString))))
    = 7500.
Proof. vm_compute. split; reflexivity. Qed.

(** A call that finds no other call waiting and a clock that has not
    gone back: it acquires at once when [minDelayMs] has passed since
    the last acquisition, and otherwise waits for the remainder, which
    is more than 0 and at most [minDelayMs]. *)
Theorem sequential_wait_is_bounded (m : machine) (caller : nat) (now : Z) :
  sleeping m = [] →
  lastRequestTime (thr m) ≤ now →
  (minDelayMs (thr m) ≤ now - lastRequestTime (thr m) →
   ∃ m', step m (Call caller now) = Some m' ∧ acquired m' = acquired m ++ [now]
         ∧ sleeping m' = [])
  ∧ (now - lastRequestTime (thr m) < minDelayMs (thr m) →
     ∃ m' due, step m (Call caller now) = Some m' ∧ sleeping m' = [(caller, due)]
               ∧ acquired m' = acquired m
               ∧ due = lastRequestTime (thr m) + minDelayMs (thr m)
               ∧ 0 < due - now ≤ minDelayMs (thr m)).
Proof.
  intros Hs Hclock. split; intros H; simpl.
  - destruct (now - lastRequestTime (thr m) <? minDelayMs (thr m)) eqn:E; [lia|].
    eexists. split; [done|]. simpl. by rewrite Hs.
  - destruct (now - lastRequestTime (thr m) <? minDelayMs (thr m)) eqn:E; [|lia].
    eexists _, _. split; [done|]. simpl. rewrite Hs. simpl. repeat split; lia.
Qed.

Lemma sequential_wait_is_bounded_witness :
  ∃ m' due, step (mkMachine (mkThrottle 1000000 7500) [] [1000000]) (Call 0 1000100)
            = Some m'
            ∧ sleeping m' = [(0%nat, due)] ∧ due = 1007500.
Proof.
  destruct (proj2 (sequential_wait_is_bounded
                     (mkMachine (mkThrottle 1000000 7500) [] [1000000]) 0 1000100
                     eq_refl ltac:(simpl; lia)) ltac:(simpl; lia))
    as (m' & due & H1 & H2 & _ & H4 & _).
  exists m', due. split; [exact H1|]. split; [exact H2|exact H4].
Defined.

End ThrottleLaws.

(* ===================================================================== *)
(** ** The tracker's percentages, stage by stage *)
(* ===================================================================== *)

Module TrackerLaws.
Import Tracker.

(** The tracker [generate] builds: the totals of the blueprint, and
    counters that have not passed them. *)
Definition in_range (t : ProgressTracker) : Prop :=
  totalSignals t = 11 ∧ totalCategories t = 5
  ∧ 0 ≤ completedSignals t ≤ 11 ∧ 0 ≤ completedCategories t ≤ 5.

(** Each stage reports within its band: data collection at 10, signal
    generation from 20 to 70, category merge from 70 to 90, final
    synthesis from 90 up by the step given.  The end of a band is
    reached exactly when the last signal, or the last category,
    completes; and [getCurrentProgress] lies between 20 and 90. *)
Theorem progress_stays_in_stage_band (t : ProgressTracker) (a b c : string) (p : Z) :
  in_range t →
  progress (emitDataCollection a t).2 = 10
  ∧ 20 ≤ progress (emitSignalStart a b c t).2 ≤ 70
  ∧ (completedSignals t < 11 → 20 ≤ progress (emitSignalComplete a b t).2 ≤ 70)
  ∧ (completedSignals t = 10 → progress (emitSignalComplete a b t).2 = 70)
  ∧ 70 ≤ progress (emitCategoryStart a b t).2 ≤ 90
  ∧ (completedCategories t < 5 → 70 ≤ progress (emitCategoryComplete a t).2 ≤ 90)
  ∧ (completedCategories t = 4 → progress (emitCategoryComplete a t).2 = 90)
  ∧ progress (emitFinalSynthesis a p t).2 = 90 + p
  ∧ 20 ≤ getCurrentProgress t ≤ 90.
Proof.
  intros (Hs & Hc & Hcs & Hcc).
  assert (Hsig : ∀ k, 0 ≤ k ≤ 11 → 20 ≤ 20 + k * 50 / 11 ≤ 70).
  { intros k Hk. assert (0 ≤ k * 50 / 11) by (apply Z.div_pos; lia).
    assert (k * 50 / 11 ≤ 50) by (apply Z.div_le_upper_bound; lia). lia. }
  assert (Hcat : ∀ k, 0 ≤ k ≤ 5 → 70 ≤ 70 + k * 20 / 5 ≤ 90).
  { intros k Hk. assert (0 ≤ k * 20 / 5) by (apply Z.div_pos; lia).
    assert (k * 20 / 5 ≤ 20) by (apply Z.div_le_upper_bound; lia). lia. }
  unfold emitDataCollection, emitSignalStart, emitSignalComplete, emitCategoryStart,
    emitCategoryComplete, emitFinalSynthesis, getCurrentProgress, signal_percent,
    category_percent. simpl. rewrite Hs, Hc.
  split; [done|]. split; [apply Hsig; lia|]. split; [intros; apply Hsig; lia|].
  split; [by intros ->|]. split; [apply Hcat; lia|]. split; [intros; apply Hcat; lia|].
  split; [by intros ->|]. split; [done|].
  destruct (completedSignals t <? 11).
  - specialize (Hsig _ Hcs). lia.
  - destruct (completedCategories t <? 5); [specialize (Hcat _ Hcc)|]; lia.
Qed.

Lemma progress_stays_in_stage_band_witness :
  progress (emitSignalComplete "game_context" "home_vs_away" (mkTracker 11 5 10 0)).2 = 70.
Proof.
  refine (proj1 (proj2 (proj2 (proj2
            (progress_stays_in_stage_band (mkTracker 11 5 10 0)
               "game_context" "home_vs_away" "x" 0 _)))) eq_refl).
  repeat split; simpl; lia.
Defined.

End TrackerLaws.

(* ===================================================================== *)
(** ** What [analyzeSignal] returns *)
(* ===================================================================== *)

Module ChainLaws.
Import Chains.

Lemma complete_intro i n e c :
  Js.truthy_str n = true → Js.truthy_str e = true →
  incomplete (mkSignalOutput i (Some n) (Some e) (Some c)) = false.
Proof.
  intros Hn He. unfold incomplete. simpl. rewrite Hn, He.
  rewrite !bool_decide_eq_true_2 by (by eexists). done.
Qed.

Lemma truthy_default o dflt :
  Js.truthy_str dflt = true →
  Js.truthy_str (from_option id dflt (Store.truthy_opt o)) = true.
Proof.
  intros Hd. destruct o as [s|]; [|done]. simpl.
  by destruct (Js.truthy_str s) eqn:E.
Qed.

(** Whenever [analyzeSignal] returns, the result passes its own
    completeness check: a narrative and an emoji that are not empty and
    a numeric confidence, whether the model's answer was complete,
    patched with defaults, or replaced by the fallback.  The check does
    not cover [insights]: an answer that is complete otherwise is
    returned as it is, with or without them. *)
Theorem analyzeSignal_result_is_complete (m : Model) (input : SignalChainInput)
    (r : SignalReportOutput) :
  analyzeSignal m input = Ok r →
  incomplete r = false
  ∧ (∀ result, signalChain m input = Resolves result → incomplete result = false →
               insights r = insights result).
Proof.
  unfold analyzeSignal. destruct (getChatModel m); [|done]. intros [= <-].
  unfold settle_signal. destruct (signalChain m input) as [e|result].
  - split; [|by intros result [=]]. by apply complete_intro.
  - destruct (incomplete result) eqn:E.
    + split; [|intros result' [= <-] E'; by rewrite E in E'].
      apply complete_intro; by apply truthy_default.
    + split; [done|]. by intros result' [= <-] _.
Qed.

Lemma analyzeSignal_result_is_complete_witness :
  incomplete (fill_defaults (mkSignalOutput None (Some EmptyString) None None)) = false.
Proof.
  exact (proj1 (analyzeSignal_result_is_complete
                  (mkModel (Some "sk-demo")
                     (λ _, Resolves (mkSignalOutput None (Some EmptyString) None None))
                     (λ _, Rejects "unused") (λ _, Rejects "unused"))
                  (mkSignalInput "a" "b" "c" "d" "e" "f" "g") _ eq_refl)).
Defined.

End ChainLaws.

(* ===================================================================== *)
(** ** What a run leaves in the store, stage by stage *)
(* ===================================================================== *)

Module RunFacts.
Import Chains Generator RunLogic SignalFacts FatalFacts.

(** What a best-effort fetch contributes: its payload when it reports
    success and has one. *)
Definition wanted {T} (r : ProxyResult T) : option T :=
  match success r, data r with
  | true, Some d => Some d
  | _, _ => None
  end.

(** The standings stage 1 ends up with: those of the fixture's season,
    or, when that call fails with a message about free plans, those of
    season 2023. *)
Definition standings_found (w : World) (fixture : Store.FixtureData) : option string :=
  let standingsResult :=
    getStandings w (Store.league_id fixture) (Store.league_season fixture) in
  match success standingsResult, data standingsResult with
  | true, Some d => Some d
  | _, _ =>
      if negb (success standingsResult)
         && match error standingsResult with
            | Some e => includes "Free plans" e
            | None => false
            end
      then wanted (getStandings w (Store.league_id fixture) 2023)
      else None
  end.

(** The fragments stage 1 obtains for a session whose first fixture is
    [first]. *)
Definition stage1_data (w : World) (session : Store.Session) (first : Store.FixtureData)
  : Store.CollectedData :=
  {| Store.fixture := Some first;
     Store.statistics := wanted (getStatistics w (Store.fixtureId session));
     Store.injuries := wanted (getInjuries w (Store.fixtureId session));
     Store.lineups := wanted (getLineups w (Store.fixtureId session));
     Store.h2h := wanted (getH2H w (pretty (Store.team_id (Store.home first)) +:+ "-"
                                     +:+ pretty (Store.team_id (Store.away first))));
     Store.standings := standings_found w first |}.

Definition with_collected (cd : Store.CollectedData) (s : Store.Session) : Store.Session :=
  Store.mkSession (Store.sessionId s) (Store.fixtureId s) (Store.createdAt s)
                  (Store.status s) (Store.error_ s) cd (Store.partialReports s)
                  (Store.categoryReports s) (Store.finalReport s) (Store.chatHistory s).

Definition with_partials (p : gmap string Store.PartialReport) (s : Store.Session)
  : Store.Session :=
  Store.mkSession (Store.sessionId s) (Store.fixtureId s) (Store.createdAt s)
                  (Store.status s) (Store.error_ s) (Store.collectedData s) p
                  (Store.categoryReports s) (Store.finalReport s) (Store.chatHistory s).

Definition with_categories (c : gmap string Store.CategoryReport) (s : Store.Session)
  : Store.Session :=
  Store.mkSession (Store.sessionId s) (Store.fixtureId s) (Store.createdAt s)
                  (Store.status s) (Store.error_ s) (Store.collectedData s)
                  (Store.partialReports s) c (Store.finalReport s) (Store.chatHistory s).

(** The session stage 1 leaves: the fragments obtained are laid over
    the ones the session had. *)
Definition after_stage1 (w : World) (first : Store.FixtureData) (s : Store.Session)
  : Store.Session :=
  with_collected (Store.add_collected (Store.collectedData s) (stage1_data w s first)) s.

(** The session stage 2 leaves. *)
Definition after_stage2 (w : World) (first : Store.FixtureData) (s : Store.Session)
  : Store.Session :=
  with_partials (expected_reports w (Store.collectedData s) first Blueprint.getAllSignals
                                  (Store.partialReports s)) s.

(** The report stage 3 obtains for a category, if any: none when the
    category has no partial report, when its partial reports do not
    format, or when the merge call fails. *)
Definition category_report (w : World) (session : Store.Session)
    (fixture : Store.FixtureData) (category : Blueprint.CategoryDefinition)
  : option Store.CategoryReport :=
  let partialReports := category_partials session category in
  if decide (length partialReports = 0%nat) then None
  else
    match formatPartialReportsForCategory w partialReports with
    | Throw _ => None
    | Ok formattedReports =>
        match mergeCategory (model w)
                {| ci_homeTeam := Store.team_name (Store.home fixture);
                   ci_awayTeam := Store.team_name (Store.away fixture);
                   categoryName := Blueprint.cat_name category;
                   categoryEmoji := Blueprint.cat_emoji category;
                   signalReports := formattedReports |} with
        | Throw _ => None
        | Ok result =>
            Some (Store.mkCategoryReport (Blueprint.cat_id category)
                    (co_title result) (co_sections result) (co_talkingPoints result))
        end
    end.

Definition expected_categories (w : World) (session : Store.Session)
    (fixture : Store.FixtureData) (categories : list Blueprint.CategoryDefinition)
    (before : gmap string Store.CategoryReport) : gmap string Store.CategoryReport :=
  foldl (λ acc category,
           match category_report w session fixture category with
           | Some report => <[Blueprint.cat_id category := report]> acc
           | None => acc
           end) before categories.

(** The session stage 3 leaves. *)
Definition after_stage3 (w : World) (first : Store.FixtureData) (s : Store.Session)
  : Store.Session :=
  with_categories (expected_categories w s first Blueprint.REPORT_BLUEPRINT
                                       (Store.categoryReports s)) s.

Definition final_update (w : World) (result : FinalReportOutput) : Store.UpdateSessionParams :=
  Store.mkUpdate None None None None None (Some (formatFinalReportAsMarkdown w result)) None.

(** The session a successful run leaves. *)
Definition after_run (w : World) (first : Store.FixtureData) (result : FinalReportOutput)
    (s : Store.Session) : Store.Session :=
  Store.apply_update (status_update Store.completed None)
    (Store.apply_update (final_update w result)
       (after_stage3 w first
          (after_stage2 w first
             (after_stage1 w first
                (Store.apply_update (status_update Store.generating None) s))))).

Section Live.
Context (w : World) (sid : string) (ttl : Js.Num) (created : Z).
Hypothesis live : never_expires w ttl created.
Hypothesis returns : callback_returns w.

(** The stored session is exactly [X]. *)
Definition exactly (X : Store.Session) : GenState → Prop :=
  sess sid ttl created (λ s, s = X).

Lemma exactly_emit X f E : hoare (exactly X) (emit w f) (λ _, exactly X) E.
Proof. by apply sess_emit. Qed.

Lemma exactly_throttle X E : hoare (exactly X) (throttle_ w) (λ _, exactly X) E.
Proof. apply sess_throttle. Qed.

Lemma exactly_update X u E :
  hoare (exactly X) (updateSession w sid u) (λ _, exactly (Store.apply_update u X)) E.
Proof. apply (sess_updateSession w sid ttl created live). by intros s ->. Qed.

Lemma exactly_get X E :
  hoare (exactly X) (getSession w sid) (λ r gs, exactly X gs ∧ r = Some X) E.
Proof.
  eapply hoare_conseq; [apply (sess_getSession w sid ttl created live)|done| |done].
  intros r gs [H (s & -> & -> & _)]. done.
Qed.

Lemma exactly_ret X (E : string → GenState → Prop) :
  hoare (exactly X) (ret tt) (λ _, exactly X) E.
Proof. by apply hoare_ret. Qed.

(** *** Stage 1 *)

Definition put (o : option string) (store : string → Store.CollectedData)
    (s : Store.Session) : Store.Session :=
  match o with
  | Some d => Store.apply_update (collected (store d)) s
  | None => s
  end.

Lemma fragment_exact X msg result store E :
  hoare (exactly X) (fragment w sid msg result store)
        (λ _, exactly (put (wanted result) store X)) E.
Proof.
  unfold fragment, wanted.
  eapply hoare_bind; [apply exactly_emit|intros ?].
  eapply hoare_bind; [apply exactly_throttle|intros ?].
  destruct (success result), (data result); simpl; try apply exactly_ret.
  eapply hoare_bind; [apply exactly_update|intros ?]. apply exactly_ret.
Qed.

Lemma standings_exact X (fixture : Store.FixtureData) E :
  hoare (exactly X)
        (let standingsResult :=
           getStandings w (Store.league_id fixture) (Store.league_season fixture) in
         match success standingsResult, data standingsResult with
         | true, Some d =>
             updateSession w sid (collected
               (Store.mkCollected None None None None None (Some d))) >> ret tt
         | _, _ =>
             if negb (success standingsResult)
                && match error standingsResult with
                   | Some e => includes "Free plans" e
                   | None => false
                   end
             then
               let fallbackResult := getStandings w (Store.league_id fixture) 2023 in
               match success fallbackResult, data fallbackResult with
               | true, Some d =>
                   updateSession w sid (collected
                     (Store.mkCollected None None None None None (Some d))) >> ret tt
               | _, _ => ret tt
               end
             else ret tt
         end)
        (λ _, exactly (put (standings_found w fixture)
                           (λ d, Store.mkCollected None None None None None (Some d)) X)) E.
Proof.
  unfold standings_found, wanted. simpl.
  set (r := getStandings w (Store.league_id fixture) (Store.league_season fixture)).
  set (r' := getStandings w (Store.league_id fixture) 2023).
  assert (Hfallback : ∀ E,
    hoare (exactly X)
          (match success r', data r' with
           | true, Some d =>
               updateSession w sid (collected
                 (Store.mkCollected None None None None None (Some d))) >> ret tt
           | _, _ => ret tt
           end)
          (λ _, exactly (put (match success r', data r' with
                              | true, Some d => Some d
                              | _, _ => None
                              end)
                             (λ d, Store.mkCollected None None None None None (Some d)) X)) E).
  { intros E'. destruct (success r'), (data r'); simpl; try apply exactly_ret.
    eapply hoare_bind; [apply exactly_update|intros ?]. apply exactly_ret. }
  destruct (success r), (data r); simpl.
  - eapply hoare_bind; [apply exactly_update|intros ?]. apply exactly_ret.
  - apply exactly_ret.
  - destruct (error r) as [e|]; [|apply exactly_ret].
    destruct (includes "Free plans" e); [apply Hfallback|apply exactly_ret].
  - destruct (error r) as [e|]; [|apply exactly_ret].
    destruct (includes "Free plans" e); [apply Hfallback|apply exactly_ret].
Qed.

Lemma stage1_chain X first o1 o2 o3 o4 o5 :
  put o5 (λ d, Store.mkCollected None None None None None (Some d))
    (put o4 (λ d, Store.mkCollected None None None None (Some d) None)
       (put o3 (λ d, Store.mkCollected None None None (Some d) None None)
          (put o2 (λ d, Store.mkCollected None None (Some d) None None None)
             (put o1 (λ d, Store.mkCollected None (Some d) None None None None)
                (Store.apply_update
                   (collected (Store.mkCollected (Some first) None None None None None))
                   X)))))
  = with_collected
      (Store.add_collected (Store.collectedData X)
         (Store.mkCollected (Some first) o1 o2 o3 o4 o5)) X.
Proof.
  destruct X as [xid xfix xcreated xstatus xerr [xf xs xi xl xh xst] xp xc xfinal xchat].
  by destruct o1, o2, o3, o4, o5.
Qed.

(** Stage 1 on a stored, live session whose fixture fetch succeeds:
    it returns normally, whichever of the other fetches fail. *)
Lemma collectData_exact session first others X E :
  Store.fixtureId session = Store.fixtureId X →
  success (getFixtures w (Store.fixtureId session)) = true →
  data (getFixtures w (Store.fixtureId session)) = Some (first :: others) →
  hoare (exactly X) (collectData w sid session) (λ _, exactly (after_stage1 w first X)) E.
Proof.
  intros Hid Hsuccess Hdata. unfold collectData. rewrite Hsuccess, Hdata.
  eapply hoare_bind; [apply exactly_emit|intros ?].
  eapply hoare_bind; [apply exactly_throttle|intros ?].
  apply hoare_bind with
    (R := λ a gs, exactly (Store.apply_update
                     (collected (Store.mkCollected (Some first) None None None None None))
                     X) gs ∧ a = first).
  { eapply hoare_bind; [apply exactly_update|intros ?]. by apply hoare_ret. }
  intros fixture. apply hoare_pure. intros ->.
  do 4 (eapply hoare_bind; [apply fragment_exact|intros ?]).
  eapply hoare_bind; [apply exactly_emit|intros ?].
  eapply hoare_bind; [apply exactly_throttle|intros ?].
  eapply hoare_bind; [apply standings_exact|intros ?].
  rewrite stage1_chain. unfold after_stage1, stage1_data. rewrite Hid.
  apply exactly_emit.
Qed.

(** *** Stage 2 *)

Lemma with_partials_eq (s s' : Store.Session) p :
  Store.partialReports s' = p →
  StoreFacts.but_partials s' = StoreFacts.but_partials s →
  s' = with_partials p s.
Proof.
  destruct s, s'. unfold StoreFacts.but_partials, with_partials. simpl.
  intros -> [=]. by subst.
Qed.

Lemma generateSignals_exact X first E :
  Store.fixture (Store.collectedData X) = Some first →
  hoare (exactly X) (generateSignals w sid) (λ _, exactly (after_stage2 w first X)) E.
Proof.
  intros Hfix gs (Ht & s & Hs & Hc & ->).
  assert (Hlive : never_expires w (Store.SESSION_TTL (manager gs)) (Store.createdAt X))
    by (by rewrite Ht, Hc).
  destruct (generateSignals_reports w sid gs X first Hs Hlive Hfix
              (callback_returns_starts w returns))
    as (Hok & s' & Hs' & Hp & Hrest & Httl).
  destruct (generateSignals w sid gs) as [[[]|e] gs']; [|discriminate Hok].
  cbn [fst snd] in *.
  split; [by rewrite Httl|]. exists s'. split; [exact Hs'|].
  pose proof (with_partials_eq X s' _ Hp Hrest) as Heq.
  split; [|exact Heq]. rewrite Heq. exact Hc.
Qed.

(** *** Stage 3 *)

Definition put_category (o : option Store.CategoryReport)
    (category : Blueprint.CategoryDefinition) (s : Store.Session) : Store.Session :=
  match o with
  | Some report =>
      Store.apply_update
        (Store.mkUpdate None None None None (Some (Blueprint.cat_id category, report))
                        None None) s
  | None => s
  end.

Lemma merge_one_exact X session fixture category E :
  hoare (exactly X) (merge_one w sid session fixture category)
        (λ _, exactly (put_category (category_report w session fixture category)
                                    category X)) E.
Proof.
  unfold merge_one, category_report.
  eapply hoare_bind; [apply exactly_emit|intros ?].
  destruct (decide (length (category_partials session category) = 0%nat)).
  { apply hoare_try_catch with (E' := λ _, exactly X); [apply exactly_ret|].
    intros ?. apply exactly_ret. }
  destruct (formatPartialReportsForCategory w (category_partials session category))
    as [formatted|e1].
  2: { apply hoare_try_catch with (E' := λ _, exactly X); [|intros ?; apply exactly_ret].
       apply hoare_bind with (R := λ _ _, False);
         [apply hoare_lift; by intros gs H|by intros ? gs H]. }
  destruct (mergeCategory (model w) _) as [result|e2] eqn:Hmc.
  2: { apply hoare_try_catch with (E' := λ _, exactly X); [|intros ?; apply exactly_ret].
       apply hoare_bind with (R := λ a gs, exactly X gs ∧ a = formatted);
         [apply hoare_lift; by intros gs H|intros formatted'].
       apply hoare_pure. intros ->. rewrite Hmc.
       apply hoare_bind with (R := λ _ _, False);
         [apply hoare_lift; by intros gs H|by intros ? gs H]. }
  apply hoare_try_catch with (E' := λ _ _, False); [|by intros ? gs H].
  apply hoare_bind with (R := λ a gs, exactly X gs ∧ a = formatted);
    [apply hoare_lift; by intros gs H|intros formatted'].
  apply hoare_pure. intros ->. rewrite Hmc.
  apply hoare_bind with (R := λ a gs, exactly X gs ∧ a = result);
    [apply hoare_lift; by intros gs H|intros result'].
  apply hoare_pure. intros ->.
  eapply hoare_bind; [apply exactly_update|intros ?].
  apply exactly_emit.
Qed.

Definition merged (session : Store.Session) (fixture : Store.FixtureData)
    (categories : list Blueprint.CategoryDefinition) (X : Store.Session) : Store.Session :=
  foldl (λ s category,
           put_category (category_report w session fixture category) category s)
        X categories.

Lemma for_each_exact session fixture categories E : ∀ X,
  hoare (exactly X) (for_each categories (merge_one w sid session fixture))
        (λ _, exactly (merged session fixture categories X)) E.
Proof.
  induction categories as [|category rest IH]; intros X; simpl.
  - apply exactly_ret.
  - eapply hoare_bind; [apply merge_one_exact|intros ?]. apply IH.
Qed.

Lemma merged_categories session fixture categories : ∀ X,
  merged session fixture categories X
  = with_categories (expected_categories w session fixture categories
                       (Store.categoryReports X)) X.
Proof.
  induction categories as [|category rest IH]; intros X; simpl.
  - by destruct X.
  - rewrite IH. unfold put_category.
    destruct (category_report w session fixture category); [|done].
    by destruct X.
Qed.

Lemma mergeCategories_exact X first E :
  Store.fixture (Store.collectedData X) = Some first →
  hoare (exactly X) (mergeCategories w sid) (λ _, exactly (after_stage3 w first X)) E.
Proof.
  intros Hfix. unfold mergeCategories.
  eapply hoare_bind; [apply exactly_get|].
  intros r. apply hoare_pure. intros ->. rewrite Hfix.
  unfold after_stage3. rewrite <- merged_categories. apply for_each_exact.
Qed.

(** *** Stage 4 *)

Lemma synthesizeFinal_exact X first result E :
  Store.fixture (Store.collectedData X) = Some first →
  (∀ input, synthesizeFinalReport (model w) input = Ok result) →
  hoare (exactly X) (synthesizeFinal w sid)
        (λ _, exactly (Store.apply_update (final_update w result) X)) E.
Proof.
  intros Hfix Hfinal. unfold synthesizeFinal.
  eapply hoare_bind; [apply exactly_emit|intros ?].
  eapply hoare_bind; [apply exactly_get|].
  intros r. apply hoare_pure. intros ->. rewrite Hfix.
  apply hoare_try_catch with (E' := λ _ _, False); [|by intros e gs H].
  eapply hoare_bind; [apply exactly_emit|intros ?].
  rewrite Hfinal.
  eapply hoare_bind with (R := λ a gs, exactly X gs ∧ a = result);
    [apply hoare_lift; by intros gs H|intros result'].
  apply hoare_pure. intros ->.
  eapply hoare_bind; [apply exactly_emit|intros ?].
  eapply hoare_bind; [apply exactly_update|intros ?].
  by apply hoare_ret.
Qed.

(** *** The four stages, and the run *)

Lemma after_stage1_fixture first X :
  Store.fixture (Store.collectedData (after_stage1 w first X)) = Some first.
Proof. done. Qed.

Lemma stages_exact session first others result X E :
  Store.fixtureId session = Store.fixtureId X →
  success (getFixtures w (Store.fixtureId session)) = true →
  data (getFixtures w (Store.fixtureId session)) = Some (first :: others) →
  (∀ input, synthesizeFinalReport (model w) input = Ok result) →
  hoare (exactly X) (stages w sid session)
        (λ _, exactly (Store.apply_update (final_update w result)
                         (after_stage3 w first
                            (after_stage2 w first (after_stage1 w first X))))) E.
Proof.
  intros Hid Hsuccess Hdata Hfinal. unfold stages.
  eapply hoare_bind; [by apply (collectData_exact session first others)|intros ?].
  eapply hoare_bind; [by apply (generateSignals_exact _ first)|intros ?].
  eapply hoare_bind; [by apply (mergeCategories_exact _ first)|intros ?].
  by apply (synthesizeFinal_exact _ first).
Qed.

Lemma generate_exact gs s first others result :
  Store.SESSION_TTL (manager gs) = ttl →
  Store.sessions (manager gs) !! sid = Some s → Store.createdAt s = created →
  success (getFixtures w (Store.fixtureId s)) = true →
  data (getFixtures w (Store.fixtureId s)) = Some (first :: others) →
  (∀ input, synthesizeFinalReport (model w) input = Ok result) →
  (generate w sid gs).1 = Ok tt
  ∧ exactly (after_run w first result s) (generate w sid gs).2
  ∧ last (emitted (generate w sid gs).2) = Some completion_update.
Proof.
  intros Ht Hs Hc Hsuccess Hdata Hfinal.
  assert (Hrun : ∃ gsF, generate w sid gs = (Ok tt, gsF)
                        ∧ exactly (after_run w first result s) gsF
                        ∧ last (emitted gsF) = Some completion_update).
  { unfold generate. unfold bind at 1.
    rewrite (getSession_exec w sid ttl created live gs s Ht Hs Hc).
    unfold bind at 1, new_tracker at 1, try_catch. unfold bind at 1.
    match goal with |- context [updateSession w sid ?u ?g] =>
      rewrite (updateSession_exec w sid ttl created live g s u Ht Hs Hc) end.
    match goal with |- context [mkGen ?a ?b ?c ?d ?e ?f] =>
      set (gs2 := mkGen a b c d e f) end.
    assert (Hpre : exactly (Store.apply_update (status_update Store.generating None) s) gs2).
    { split; [done|]. eexists. simpl. rewrite lookup_insert_eq. by repeat split. }
    pose proof (stages_exact s first others result
                  (Store.apply_update (status_update Store.generating None) s)
                  (λ _ _, False) eq_refl Hsuccess Hdata Hfinal gs2 Hpre) as Hstages.
    unfold bind at 1.
    destruct (stages w sid s gs2) as [[[]|e] gs3]; [|done].
    pose proof (exactly_update _ (status_update Store.completed None) (λ _ _, False)
                  gs3 Hstages) as Hdone.
    unfold bind at 1.
    destruct (updateSession w sid (status_update Store.completed None) gs3)
      as [[b|e] gs4]; [|done].
    rewrite (callback_returns_exec w _ _ returns).
    eexists. split; [done|]. split; [exact Hdone|apply last_snoc]. }
  destruct Hrun as (gsF & -> & H1 & H2). done.
Qed.

End Live.

Section AfterRun.
Context (w : World) (first : Store.FixtureData) (result : FinalReportOutput)
        (s : Store.Session).

Lemma after_run_status : Store.status (after_run w first result s) = Store.completed.
Proof. unfold after_run. cbn [Store.status Store.apply_update status_update Store.u_status]. done. Qed.

Lemma after_run_finalReport :
  Store.finalReport (after_run w first result s)
  = Some (formatFinalReportAsMarkdown w result).
Proof.
  unfold after_run.
  cbn [Store.finalReport Store.apply_update status_update final_update
       Store.u_finalReport Store.truthy_opt Store.over].
  done.
Qed.

Lemma after_run_fixture :
  Store.fixture (Store.collectedData (after_run w first result s)) = Some first.
Proof.
  unfold after_run, after_stage3, after_stage2, after_stage1.
  cbn [Store.collectedData Store.apply_update status_update final_update
       Store.u_collectedData with_categories with_partials with_collected
       Store.fixture Store.add_collected stage1_data Store.over].
  done.
Qed.

Lemma after_run_error : Store.error_ (after_run w first result s) = Store.error_ s.
Proof.
  unfold after_run, after_stage3, after_stage2, after_stage1.
  cbn [Store.error_ Store.apply_update status_update final_update
       Store.u_error with_categories with_partials with_collected
       Store.truthy_opt Store.over].
  done.
Qed.

Lemma after_run_chat : Store.chatHistory (after_run w first result s) = Store.chatHistory s.
Proof.
  unfold after_run, after_stage3, after_stage2, after_stage1.
  cbn [Store.chatHistory Store.apply_update status_update final_update
       Store.u_chatMessage with_categories with_partials with_collected].
  done.
Qed.

Lemma category_report_reschedule sch session fixture category :
  category_report (reschedule sch w) session fixture category
  = category_report w session fixture category.
Proof. reflexivity. Qed.

Lemma expected_categories_reschedule sch session fixture categories : ∀ before,
  expected_categories (reschedule sch w) session fixture categories before
  = expected_categories w session fixture categories before.
Proof.
  induction categories as [|c categories IH]; intros before; [done|].
  cbn [expected_categories foldl]. rewrite category_report_reschedule. apply IH.
Qed.

Lemma after_stage1_reschedule sch X :
  after_stage1 (reschedule sch w) first X = after_stage1 w first X.
Proof. reflexivity. Qed.

Lemma after_stage2_reschedule sch X :
  after_stage2 (reschedule sch w) first X = after_stage2 w first X.
Proof. unfold after_stage2. by rewrite expected_reports_reschedule. Qed.

Lemma after_stage3_reschedule sch X :
  after_stage3 (reschedule sch w) first X = after_stage3 w first X.
Proof. unfold after_stage3. by rewrite expected_categories_reschedule. Qed.

Lemma after_run_reschedule sch :
  after_run (reschedule sch w) first result s = after_run w first result s.
Proof.
  unfold after_run.
  rewrite after_stage1_reschedule, after_stage2_reschedule, after_stage3_reschedule.
  done.
Qed.

End AfterRun.

Lemma hoare_run {A} (P : GenState → Prop) (m : M A) (Q : A → GenState → Prop) gs :
  hoare P m Q (λ _ _, False) → P gs → ∃ a gs', m gs = (Ok a, gs') ∧ Q a gs'.
Proof.
  intros H HP. specialize (H gs HP). destruct (m gs) as [[a|e] gs']; [|done].
  by exists a, gs'.
Qed.

Lemma exactly_intro sid gs s :
  Store.sessions (manager gs) !! sid = Some s →
  exactly sid (Store.SESSION_TTL (manager gs)) (Store.createdAt s) s gs.
Proof. intros Hs. split; [done|]. by exists s. Qed.

Lemma exactly_elim sid ttl created X gs :
  exactly sid ttl created X gs → Store.sessions (manager gs) !! sid = Some X.
Proof. by intros (_ & s & Hs & _ & ->). Qed.

(** A run on an id that is not stored, or whose session has expired:
    it throws at once, naming the id; nothing is reported to the
    progress callback and no update is attempted; the store is as the
    lookup left it. *)
Theorem run_on_missing_session (w : World) (sid : string) (m : Store.SessionManager) :
  (Store.getSession (clock w 0) sid m).1 = None →
  (generateReport w sid m).1 = Throw ("Session not found: " +:+ sid)
  ∧ emitted (generateReport w sid m).2 = []
  ∧ calls (generateReport w sid m).2 = []
  ∧ manager (generateReport w sid m).2 = (Store.getSession (clock w 0) sid m).2
  ∧ Store.sessions (manager (generateReport w sid m).2) !! sid = None.
Proof.
  intros Hnone. unfold generateReport, generate, bind, getSession, bind, now, initial. simpl.
  destruct (Store.getSession (clock w 0) sid m) as [r m'] eqn:Hg. simpl in *. subst r.
  simpl. repeat split. unfold Store.getSession in Hg.
  destruct (Store.sessions m !! sid) as [s|] eqn:Hs.
  - destruct (Store.expired m (clock w 0) s); [|done].
    injection Hg as <-. simpl. apply lookup_delete_eq.
  - by injection Hg as <-.
Qed.

(** Stage 1 on a stored, live session, when the fixture fetch succeeds
    and the progress callback returns (the stage calls it seven times,
    outside any [try]): the stage returns normally whatever the other
    fetches do, and the
    session afterwards differs only in its collected data: the fixture
    is the first one fetched, and each other fragment is the payload
    just fetched when that fetch succeeded, and what the session had
    when it did not.  The standings are those of the fixture's season
    or, when that call failed with a message about free plans, those of
    season 2023. *)
Theorem stage1_collects (w : World) (sid : string) (gs : GenState) (s : Store.Session)
    (first : Store.FixtureData) (others : list Store.FixtureData) :
  Store.sessions (manager gs) !! sid = Some s →
  never_expires w (Store.SESSION_TTL (manager gs)) (Store.createdAt s) →
  callback_returns w →
  success (getFixtures w (Store.fixtureId s)) = true →
  data (getFixtures w (Store.fixtureId s)) = Some (first :: others) →
  (collectData w sid s gs).1 = Ok tt
  ∧ Store.sessions (manager (collectData w sid s gs).2) !! sid
    = Some (with_collected
              (Store.add_collected (Store.collectedData s) (stage1_data w s first)) s)
  ∧ Store.add_collected (Store.collectedData s) (stage1_data w s first)
    = {| Store.fixture := Some first;
         Store.statistics :=
           Store.over (wanted (getStatistics w (Store.fixtureId s)))
                      (Store.statistics (Store.collectedData s));
         Store.injuries :=
           Store.over (wanted (getInjuries w (Store.fixtureId s)))
                      (Store.injuries (Store.collectedData s));
         Store.lineups :=
           Store.over (wanted (getLineups w (Store.fixtureId s)))
                      (Store.lineups (Store.collectedData s));
         Store.h2h :=
           Store.over (wanted (getH2H w (pretty (Store.team_id (Store.home first))
                                           +:+ "-"
                                           +:+ pretty (Store.team_id (Store.away first)))))
                      (Store.h2h (Store.collectedData s));
         Store.standings :=
           Store.over (standings_found w first)
                      (Store.standings (Store.collectedData s)) |}.
Proof.
  intros Hs Hlive Hret Hsuccess Hdata.
  destruct (hoare_run _ _ _ gs
              (collectData_exact w sid _ _ Hlive Hret s first others s (λ _ _, False)
                 eq_refl Hsuccess Hdata)
              (exactly_intro sid gs s Hs)) as ([] & gs' & Hrun & Hex).
  rewrite Hrun. simpl. split; [done|]. split; [|done].
  exact (exactly_elim _ _ _ _ _ Hex).
Qed.

Lemma categories_distinct : NoDup (map Blueprint.cat_id Blueprint.REPORT_BLUEPRINT).
Proof. apply (bool_decide_unpack _). by vm_compute. Qed.

Section Categories.
Context (w : World) (session : Store.Session) (fixture : Store.FixtureData).

Lemma expected_categories_other categories : ∀ before k,
  k ∉ map Blueprint.cat_id categories →
  expected_categories w session fixture categories before !! k = before !! k.
Proof.
  induction categories as [|c categories IH]; intros before k Hk; simpl; [done|].
  simpl in Hk. apply not_elem_of_cons in Hk as [Hne Hk].
  rewrite (IH _ _ Hk). destruct (category_report w session fixture c); [|done].
  by rewrite lookup_insert_ne.
Qed.

Lemma expected_categories_lookup categories : ∀ before c,
  NoDup (map Blueprint.cat_id categories) → c ∈ categories →
  expected_categories w session fixture categories before !! Blueprint.cat_id c
  = match category_report w session fixture c with
    | Some report => Some report
    | None => before !! Blueprint.cat_id c
    end.
Proof.
  induction categories as [|c' categories IH]; intros before c Hnd Hin; simpl.
  { by apply elem_of_nil in Hin. }
  simpl in Hnd. apply NoDup_cons in Hnd as [Hfresh Hnd].
  apply elem_of_cons in Hin as [->|Hin].
  - rewrite (expected_categories_other _ _ _ Hfresh).
    destruct (category_report w session fixture c'); [|done].
    by rewrite lookup_insert_eq.
  - rewrite (IH _ _ Hnd Hin).
    destruct (category_report w session fixture c) as [r|] eqn:Hr; [done|].
    destruct (category_report w session fixture c'); [|done].
    rewrite lookup_insert_ne; [done|].
    intros Heq. apply Hfresh. rewrite Heq. by apply list_elem_of_fmap_2.
Qed.

End Categories.

(** Stage 3 on a stored, live session with its fixture, with a progress
    callback that returns (the start event of a category precedes its
    [try]): the stage returns normally whatever happens to the model
    calls of single categories.  A category
    gets its report stored under its id when it has at least one partial
    report, those format, and the merge call succeeds; otherwise what
    was stored under its id stays.  Nothing else of the session
    changes. *)
Theorem category_failures_are_contained (w : World) (sid : string) (gs : GenState)
    (s : Store.Session) (fixture : Store.FixtureData) :
  Store.sessions (manager gs) !! sid = Some s →
  never_expires w (Store.SESSION_TTL (manager gs)) (Store.createdAt s) →
  callback_returns w →
  Store.fixture (Store.collectedData s) = Some fixture →
  (mergeCategories w sid gs).1 = Ok tt
  ∧ ∃ s', Store.sessions (manager (mergeCategories w sid gs).2) !! sid = Some s'
          ∧ s' = with_categories (Store.categoryReports s') s
          ∧ (∀ category, category ∈ Blueprint.REPORT_BLUEPRINT →
               Store.categoryReports s' !! Blueprint.cat_id category
               = match category_report w s fixture category with
                 | Some report => Some report
                 | None => Store.categoryReports s !! Blueprint.cat_id category
                 end)
          ∧ (∀ k, k ∉ map Blueprint.cat_id Blueprint.REPORT_BLUEPRINT →
                  Store.categoryReports s' !! k = Store.categoryReports s !! k).
Proof.
  intros Hs Hlive Hret Hfix.
  destruct (hoare_run _ _ _ gs
              (mergeCategories_exact w sid _ _ Hlive Hret s fixture (λ _ _, False) Hfix)
              (exactly_intro sid gs s Hs)) as ([] & gs' & Hrun & Hex).
  rewrite Hrun. simpl. split; [done|].
  exists (after_stage3 w fixture s). split; [exact (exactly_elim _ _ _ _ _ Hex)|].
  assert (Hcat : Store.categoryReports (after_stage3 w fixture s)
                 = expected_categories w s fixture Blueprint.REPORT_BLUEPRINT
                     (Store.categoryReports s)) by done.
  split; [done|]. rewrite Hcat. split.
  - intros category Hin.
    by apply expected_categories_lookup; [apply categories_distinct|].
  - intros k Hk. by apply expected_categories_other.
Qed.

(** A successful run.  On a stored, live session, when the progress
    callback returns from every call, the fixture fetch succeeds and the
    final synthesis call returns, the run returns
    normally and the stored session is [after_run]: a function of the
    data source and the model's answers alone, so the same for every
    interleaving of the stage-2 workers.  It is completed, holds the
    final report (the rendering of the model's answer) and the fixture
    fetched; an error message left by an earlier run is still there; the
    chat history is untouched; and the last update handed to the
    progress callback is the completion at 100. *)
Theorem successful_run (w : World) (sid : string) (m : Store.SessionManager)
    (s : Store.Session) (first : Store.FixtureData) (others : list Store.FixtureData)
    (result : FinalReportOutput) :
  Store.sessions m !! sid = Some s →
  never_expires w (Store.SESSION_TTL m) (Store.createdAt s) →
  callback_returns w →
  success (getFixtures w (Store.fixtureId s)) = true →
  data (getFixtures w (Store.fixtureId s)) = Some (first :: others) →
  (∀ input, synthesizeFinalReport (model w) input = Ok result) →
  (generateReport w sid m).1 = Ok tt
  ∧ Store.sessions (manager (generateReport w sid m).2) !! sid
    = Some (after_run w first result s)
  ∧ last (emitted (generateReport w sid m).2) = Some completion_update
  ∧ Store.status (after_run w first result s) = Store.completed
  ∧ Store.finalReport (after_run w first result s)
    = Some (formatFinalReportAsMarkdown w result)
  ∧ Store.fixture (Store.collectedData (after_run w first result s)) = Some first
  ∧ Store.error_ (after_run w first result s) = Store.error_ s
  ∧ Store.chatHistory (after_run w first result s) = Store.chatHistory s
  ∧ (∀ sch, after_run (reschedule sch w) first result s = after_run w first result s).
Proof.
  intros Hs Hlive Hret Hsuccess Hdata Hfinal.
  destruct (generate_exact w sid _ _ Hlive Hret (initial w m) s first others result
              eq_refl Hs eq_refl Hsuccess Hdata Hfinal) as (Hok & Hex & Hlast).
  unfold generateReport. split; [exact Hok|].
  split; [exact (exactly_elim _ _ _ _ _ Hex)|]. split; [exact Hlast|].
  split; [apply after_run_status|]. split; [apply after_run_finalReport|].
  split; [apply after_run_fixture|]. split; [apply after_run_error|].
  split; [apply after_run_chat|]. intros sch. apply after_run_reschedule.
Qed.

Lemma run_on_missing_session_witness :
  (generateReport (Demo.usual (λ k, k)) "nobody" Demo.manager0).1
  = Throw "Session not found: nobody".
Proof.
  exact (proj1 (run_on_missing_session (Demo.usual (λ k, k)) "nobody" Demo.manager0
                  eq_refl)).
Defined.

Lemma stage1_collects_witness :
  ∃ s', Store.sessions
          (manager (collectData (Demo.usual (λ k, k)) "sid"
                      (Store.mkSession "sid" 12345 1000 Store.pending None Store.no_data
                                       ∅ ∅ None [])
                      (initial (Demo.usual (λ k, k)) Demo.manager0)).2) !! "sid" = Some s'
        ∧ Store.collectedData s'
          = Store.mkCollected (Some Demo.fixture) (Some "statistics") None
                              (Some "lineups") (Some "h2h") None.
Proof.
  destruct (stage1_collects (Demo.usual (λ k, k)) "sid"
              (initial (Demo.usual (λ k, k)) Demo.manager0)
              (Store.mkSession "sid" 12345 1000 Store.pending None Store.no_data
                               ∅ ∅ None [])
              Demo.fixture [] eq_refl (demo_never_expires _) (demo_callback_returns _)
              eq_refl eq_refl)
    as (_ & Hs' & _).
  eexists. split; [exact Hs'|]. reflexivity.
Defined.

Lemma category_failures_are_contained_witness :
  (mergeCategories (Demo.usual (λ k, k)) "sid"
     (initial (Demo.usual (λ k, k)) Demo.manager1)).1 = Ok tt.
Proof.
  exact (proj1 (category_failures_are_contained (Demo.usual (λ k, k)) "sid"
                  (initial (Demo.usual (λ k, k)) Demo.manager1)
                  Demo.session1 Demo.fixture eq_refl (demo_never_expires _)
                  (demo_callback_returns _) eq_refl)).
Defined.

(** With a progress callback that throws at the start event of the
    first category, stage 3 is left by that exception. *)
Example category_start_event_aborts :
  (mergeCategories hangs_up "sid" (initial hangs_up Demo.manager1)).1
  = Throw "Invalid state: Controller is already closed".
Proof. vm_compute. reflexivity. Qed.

Lemma successful_run_witness :
  (generateReport (Demo.usual (λ k, k)) "sid" Demo.manager0).1 = Ok tt
  ∧ Store.status <$> Store.sessions
                       (manager (generateReport (Demo.usual (λ k, k)) "sid"
                                   Demo.manager0).2) !! "sid"
    = Some Store.completed.
Proof.
  destruct (successful_run (Demo.usual (λ k, k)) "sid" Demo.manager0
              (Store.mkSession "sid" 12345 1000 Store.pending None Store.no_data
                               ∅ ∅ None [])
              Demo.fixture [] (mkFinalOutput "Title" "Subtitle" [] [])
              eq_refl (demo_never_expires _) (demo_callback_returns _)
              eq_refl eq_refl (λ _, eq_refl))
    as (H1 & H2 & _ & H4 & _).
  split; [exact H1|]. rewrite H2. cbn [fmap option_fmap option_map]. by rewrite H4.
Defined.

End RunFacts.

(* ===================================================================== *)
(** ** A run touches its own session only *)
(* ===================================================================== *)

Module IsolationFacts.
Import Chains Generator RunLogic.

(** Everything in the store but the session of the run. *)
Definition others (sid : string) (gs : GenState) : gmap string Store.Session * Js.Num :=
  (delete sid (Store.sessions (manager gs)), Store.SESSION_TTL (manager gs)).

Section Run.
Context (w : World) (sid : string).

Lemma others_getSession : frame (others sid) (getSession w sid).
Proof.
  intros gs. unfold getSession, bind, now, others, Store.getSession. simpl.
  destruct (Store.sessions (manager gs) !! sid) as [s|]; [|done].
  destruct (Store.expired _ _ s); [|done]. simpl. by rewrite delete_delete_eq.
Qed.

Lemma others_updateSession u : frame (others sid) (updateSession w sid u).
Proof.
  intros gs. unfold updateSession, bind, now, others, Store.updateSession,
    Store.getSession. simpl.
  destruct (Store.sessions (manager gs) !! sid) as [s|]; [|done].
  destruct (Store.expired _ _ s); simpl.
  - by rewrite delete_delete_eq.
  - by rewrite delete_insert_eq.
Qed.

Lemma others_emit f : frame (others sid) (emit w f).
Proof. intros gs. unfold emit. by destruct (f (tracker gs)). Qed.

Lemma others_throttle : frame (others sid) (throttle_ w).
Proof. done. Qed.

Lemma others_callback u : frame (others sid) (callback w u).
Proof. done. Qed.

Ltac apart_with tac :=
  repeat match goal with
    | |- frame _ (bind _ _) => apply frame_bind; [|intros ?]
    | |- frame _ (try_catch _ _) => apply frame_try_catch; [|intros ?]
    | |- frame _ (updateSession _ _ _) => apply others_updateSession
    | |- frame _ (getSession _ _) => apply others_getSession
    | |- frame _ (emit _ _) => apply others_emit
    | |- frame _ (throttle_ _) => apply others_throttle
    | |- frame _ (callback _ _) => apply others_callback
    | |- frame _ (ret _) => apply frame_ret
    | |- frame _ (throw _) => apply frame_throw
    | |- frame _ (lift _) => apply frame_lift
    | |- frame _ (match ?x with _ => _ end) => destruct x
    | |- frame _ (if ?x then _ else _) => destruct x
    | |- _ => tac
    end.

Ltac apart := apart_with fail.

Lemma others_fragment msg result store : frame (others sid) (fragment w sid msg result store).
Proof. unfold fragment. apart. Qed.

Lemma others_collectData session : frame (others sid) (collectData w sid session).
Proof. unfold collectData. apart_with ltac:(apply others_fragment). Qed.

Lemma others_task_start (task : Task) : frame (others sid) (task_start w task).
Proof. apply others_emit. Qed.

Lemma others_task_prepare (task : Task) : frame (others sid) (task_prepare w sid task).
Proof. unfold task_prepare. apart. Qed.

Lemma others_task_resume (task : Task) input :
  frame (others sid) (task_resume w sid task input).
Proof. unfold task_resume. apart. Qed.

Lemma others_worker_step v tasks i p :
  others sid (gen p) = v → others sid (gen (worker_step w sid tasks i p)) = v.
Proof.
  intros H. unfold worker_step.
  destruct (workers p !! i) as [[|current input| |]|]; [| |done..].
  - case_decide; [|done]. destruct (tasks !! nextIndex p) as [task|]; [|done].
    pose proof (others_task_start task (gen p)) as H1.
    destruct (task_start w task (gen p)) as [[[]|e] gs1]; simpl in *;
      [|by rewrite H1].
    pose proof (others_task_prepare task gs1) as H2.
    destruct (task_prepare w sid task gs1) as [[input|e] gs2]; simpl in *;
      by rewrite H2, H1.
  - destruct (tasks !! current) as [task|]; [|done]. simpl.
    by rewrite others_task_resume.
Qed.

Lemma others_generateSignals : frame (others sid) (generateSignals w sid).
Proof.
  unfold generateSignals, generateSignals_on.
  apply frame_bind; [apply others_getSession|].
  intros [session|]; [|apply frame_throw].
  destruct (Store.fixture _); [|apply frame_throw].
  intros gs.
  destruct (ProgressFacts.settled_inv w sid Blueprint.getAllSignals
              (λ p, others sid (gen p) = others sid gs)
              (mkPool gs 0 (replicate (min signalConcurrency
                                           (length Blueprint.getAllSignals)) Idle))
              (λ i p, others_worker_step (others sid gs) _ i p) eq_refl) as [H1 H2].
  cbv zeta. by destruct (rejection _).
Qed.

Lemma others_merge_one session fixture category :
  frame (others sid) (merge_one w sid session fixture category).
Proof. unfold merge_one. apart. Qed.

Lemma others_for_each {A} (body : A → M unit) l :
  (∀ x, frame (others sid) (body x)) → frame (others sid) (for_each l body).
Proof.
  intros Hb. induction l as [|x l IH]; simpl.
  - apply frame_ret.
  - apply frame_bind; [apply Hb|]. intros _. apply IH.
Qed.

Lemma others_mergeCategories : frame (others sid) (mergeCategories w sid).
Proof.
  unfold mergeCategories.
  apply frame_bind; [apply others_getSession|].
  intros [session|]; [|apply frame_throw].
  destruct (Store.fixture _); [|apply frame_throw].
  apply others_for_each. intros x. apply others_merge_one.
Qed.

Lemma others_synthesizeFinal : frame (others sid) (synthesizeFinal w sid).
Proof. unfold synthesizeFinal. apart. Qed.

Lemma others_stages session : frame (others sid) (stages w sid session).
Proof.
  unfold stages.
  apply frame_bind; [apply others_collectData|intros ?].
  apply frame_bind; [apply others_generateSignals|intros ?].
  apply frame_bind; [apply others_mergeCategories|intros ?].
  apply others_synthesizeFinal.
Qed.

Lemma others_generate : frame (others sid) (generate w sid).
Proof.
  unfold generate.
  apply frame_bind; [apply others_getSession|].
  intros [session|]; [|apply frame_throw].
  apply frame_bind; [done|intros ?].
  apart_with ltac:(apply others_stages).
Qed.

End Run.

(** Isolation.  Whatever happens in a run (success, failure at any
    stage, an exception of the progress callback, expiry of its session
    on the way, any interleaving of the workers), every session stored under another id is afterwards
    exactly as it was, and so is the configured TTL.  A run neither
    creates nor removes a session under another id. *)
Theorem run_touches_own_session_only (w : World) (sid other : string)
    (m : Store.SessionManager) :
  other ≠ sid →
  Store.sessions (manager (generateReport w sid m).2) !! other = Store.sessions m !! other
  ∧ Store.SESSION_TTL (manager (generateReport w sid m).2) = Store.SESSION_TTL m.
Proof.
  intros Hne. pose proof (others_generate w sid (initial w m)) as H.
  unfold generateReport. unfold others in H. simpl in H.
  injection H as H1 H2. split; [|exact H2].
  rewrite <- (lookup_delete_ne _ sid other) by done. rewrite H1.
  by rewrite lookup_delete_ne.
Qed.

Lemma run_touches_own_session_only_witness :
  Store.sessions
    (manager (generateReport (Demo.usual (λ k, k)) "sid"
                (Store.createSession 2000 "another" 777 Demo.manager0).2).2) !! "another"
  = Some (Store.mkSession "another" 777 2000 Store.pending None Store.no_data ∅ ∅ None []).
Proof.
  rewrite (proj1 (run_touches_own_session_only (Demo.usual (λ k, k)) "sid" "another"
                    (Store.createSession 2000 "another" 777 Demo.manager0).2
                    ltac:(discriminate))).
  reflexivity.
Defined.

End IsolationFacts.
(* ===================================================================== *)
(** ** A run that is aborted in stage 1 *)
(* ===================================================================== *)

Module AbortFacts.
Import Chains Generator RunLogic SignalFacts FatalFacts.

(** The session with another status and error message. *)
Definition with_status (st : Store.SessionStatus) (e : option string) (s : Store.Session)
  : Store.Session :=
  Store.mkSession (Store.sessionId s) (Store.fixtureId s) (Store.createdAt s) st e
                  (Store.collectedData s) (Store.partialReports s)
                  (Store.categoryReports s) (Store.finalReport s) (Store.chatHistory s).

(** A run aborted in stage 1, whatever the progress callback does. *)
Lemma aborted_run_any (w : World) (sid : string) (m : Store.SessionManager)
    (s : Store.Session) :
  Store.sessions m !! sid = Some s →
  never_expires w (Store.SESSION_TTL m) (Store.createdAt s) →
  fixture_fetch_fails (getFixtures w (Store.fixtureId s)) →
  ∃ e, (generateReport w sid m).1 = Throw e
       ∧ e = default "Failed to fetch fixture details" (progressCallback w 0 first_update)
       ∧ emitted (generateReport w sid m).2 = [first_update]
       ∧ Store.sessions (manager (generateReport w sid m).2) !! sid
         = Some (with_status Store.error
                   (Store.over (Store.truthy_opt (Some e)) (Store.error_ s)) s).
Proof.
  intros Hs Hlive Hfail.
  destruct (generate_throws w sid _ _ Hlive
              (λ s', with_status Store.pending None s' = with_status Store.pending None s
                     ∧ Store.error_ s' = Store.error_ s)
              (λ e l, e = abort_message w (initial w m) ∧ l = [first_update])
              (initial w m) s eq_refl Hs eq_refl)
    as (e & s3 & Hres & [He Hem] & [Hsame Herr] & Hs').
  - by destruct s.
  - intros gs1 [Hsess Hemitted].
    destruct (stages_fails w sid s gs1 Hfail) as (gs' & Hrun & Hm & Hemit & _).
    rewrite Hrun. split.
    + unfold sess. rewrite Hm. exact Hsess.
    + unfold abort_message. rewrite Hemit, Hemitted. done.
  - exists e. unfold generateReport. split; [exact Hres|]. split; [exact He|].
    split; [exact Hem|]. rewrite Hs'. f_equal.
    destruct s3, s. unfold with_status in *. simpl in *.
    injection Hsame as -> -> -> -> -> -> -> ->. by subst.
Qed.

Lemma aborted_run (w : World) (sid : string) (m : Store.SessionManager) (s : Store.Session) :
  Store.sessions m !! sid = Some s →
  never_expires w (Store.SESSION_TTL m) (Store.createdAt s) →
  progressCallback w 0 first_update = None →
  fixture_fetch_fails (getFixtures w (Store.fixtureId s)) →
  (generateReport w sid m).1 = Throw "Failed to fetch fixture details"
  ∧ emitted (generateReport w sid m).2 = [first_update]
  ∧ Store.sessions (manager (generateReport w sid m).2) !! sid
    = Some (with_status Store.error (Some "Failed to fetch fixture details") s).
Proof.
  intros Hs Hlive Hfirst Hfail.
  destruct (aborted_run_any w sid m s Hs Hlive Hfail) as (e & Hres & He & Hem & Hs').
  rewrite Hfirst in He. simpl in He. subst e. done.
Qed.

(** A run aborted by the fixture fetch changes the status and the error
    message of the session and nothing else, whatever the progress
    callback does: the status becomes [error], and the error member
    becomes the message of what the run has thrown (it stays as it was
    when that message is empty).  In particular partial reports,
    category reports and a final report left by an earlier run stay: a
    session that was completed ends up in status [error] with its final
    report still stored.  What is thrown is the generator's error for
    the failed fetch, unless the progress callback has thrown at the
    announcement before it; so when the callback returns from that
    call, the message is "Failed to fetch fixture details". *)
Theorem aborted_run_changes_only_status (w : World) (sid : string)
    (m : Store.SessionManager) (s : Store.Session) :
  Store.sessions m !! sid = Some s →
  never_expires w (Store.SESSION_TTL m) (Store.createdAt s) →
  fixture_fetch_fails (getFixtures w (Store.fixtureId s)) →
  (∃ e, (generateReport w sid m).1 = Throw e
        ∧ e = default "Failed to fetch fixture details"
                      (progressCallback w 0 first_update)
        ∧ Store.sessions (manager (generateReport w sid m).2) !! sid
          = Some (with_status Store.error
                    (Store.over (Store.truthy_opt (Some e)) (Store.error_ s)) s))
  ∧ (progressCallback w 0 first_update = None →
     (generateReport w sid m).1 = Throw "Failed to fetch fixture details"
     ∧ Store.sessions (manager (generateReport w sid m).2) !! sid
       = Some (with_status Store.error (Some "Failed to fetch fixture details") s)).
Proof.
  intros Hs Hlive Hfail. split.
  - destruct (aborted_run_any w sid m s Hs Hlive Hfail) as (e & H1 & H2 & _ & H4).
    by exists e.
  - intros Hfirst.
    destruct (aborted_run w sid m s Hs Hlive Hfirst Hfail) as (H1 & _ & H3). by split.
Qed.

(** From the wire to the session.  When the run's fixture lookup is the
    proxy's [getFixtures] for the session's fixture id, the progress
    callback returns from the announcement of that lookup, and the data
    source answers 429 to all three attempts of the client, the proxy
    reports the rate limit, and the run is aborted: the session ends in
    status [error].  The message stored is the generator's own
    ("Failed to fetch fixture details"); the proxy's explanation is not
    kept. *)
Theorem rate_limit_aborts_run (w : World) (cw : Client.World (list Store.FixtureData))
    (st : Client.State (list Store.FixtureData)) (sid : string)
    (m : Store.SessionManager) (s : Store.Session)
    (r1 r2 r3 : Client.Response (list Store.FixtureData)) :
  Store.sessions m !! sid = Some s →
  never_expires w (Store.SESSION_TTL m) (Store.createdAt s) →
  progressCallback w 0 first_update = None →
  getFixtures w (Store.fixtureId s)
  = (Proxy.getFixtures cw {[ "id" := pretty (Store.fixtureId s) ]} st).1 →
  Client.cache st !! Cache.generateKey "/fixtures" {[ "id" := pretty (Store.fixtureId s) ]}
  = None →
  Client.fetch cw 1 = Client.Responded r1 → Client.fetch cw 2 = Client.Responded r2 →
  Client.fetch cw 3 = Client.Responded r3 →
  Client.status r1 = 429 → Client.status r2 = 429 → Client.status r3 = 429 →
  getFixtures w (Store.fixtureId s)
  = mkProxy false None (Some "API rate limit exceeded. Please try again in a moment.")
            (Some 429)
  ∧ (generateReport w sid m).1 = Throw "Failed to fetch fixture details"
  ∧ Store.sessions (manager (generateReport w sid m).2) !! sid
    = Some (with_status Store.error (Some "Failed to fetch fixture details") s).
Proof.
  intros Hs Hlive Hfirst Hproxy Hmiss F1 F2 F3 S1 S2 S3.
  assert (Hres : getFixtures w (Store.fixtureId s)
                 = mkProxy false None
                     (Some "API rate limit exceeded. Please try again in a moment.")
                     (Some 429)).
  { rewrite Hproxy. unfold Proxy.getFixtures, Proxy.call.
    by rewrite (ProxyFacts.rate_limited_request cw _ _ _ _ _ _ Hmiss F1 F2 F3 S1 S2 S3). }
  split; [exact Hres|].
  assert (Hfail : fixture_fetch_fails (getFixtures w (Store.fixtureId s))).
  { left. by rewrite Hres. }
  destruct (aborted_run w sid m s Hs Hlive Hfirst Hfail) as (H1 & _ & H3). by split.
Qed.

Definition completed_before : Store.SessionManager :=
  Store.mkManager
    {[ "sid" := Store.mkSession "sid" 12345 1000 Store.completed None
                  (Store.mkCollected (Some Demo.fixture) None None None None None)
                  ∅ ∅ (Some "# An earlier report") [] ]}
    (Js.Int 7200000).

Definition outage : World :=
  Demo.world (Demo.failed "down") (Demo.model (Some "sk-demo")) (λ k, k).

Lemma aborted_run_changes_only_status_witness :
  (λ s, (Store.status s, Store.finalReport s))
    <$> Store.sessions (manager (generateReport outage "sid" completed_before).2) !! "sid"
  = Some (Store.error, Some "# An earlier report").
Proof.
  destruct (aborted_run_changes_only_status outage "sid" completed_before _
              eq_refl ltac:(intros n; reflexivity) (or_introl eq_refl)) as [_ Hquiet].
  destruct (Hquiet eq_refl) as [_ H].
  rewrite H. reflexivity.
Defined.

Definition always_limited : Client.World (list Store.FixtureData) :=
  Client.mkWorld
    (λ _, Client.Responded
            (Client.mkResponse 429 "Too Many Requests" (Some "0") (Some "100") None
                               (Client.Unparsable "SyntaxError")))
    (λ _, 0) (λ _, 0).

Definition limited : World :=
  Demo.world
    (Proxy.getFixtures always_limited {[ "id" := "12345" ]} (Client.mkState ∅ [] 0)).1
    (Demo.model (Some "sk-demo")) (λ k, k).

Lemma rate_limit_aborts_run_witness :
  (generateReport limited "sid" Demo.manager0).1 = Throw "Failed to fetch fixture details".
Proof.
  eapply (rate_limit_aborts_run limited always_limited (Client.mkState ∅ [] 0)
            "sid" Demo.manager0
            (Store.mkSession "sid" 12345 1000 Store.pending None Store.no_data
                             ∅ ∅ None [])).
  all: try reflexivity.
  all: try (intros n; reflexivity).
Defined.

End AbortFacts.

(* ===================================================================== *)
(** ** The generation route: [GET /api/generate] *)
(* ===================================================================== *)

(** The route as the later version of the file has it, with the rate
    limiter in front.  One request is served alone: nothing else
    touches the limiter or the store while its run is in progress, and
    the client stays connected, so every [enqueue] goes through: the
    progress callback that the route hands to the run returns from
    every call.  The limiter is keyed by the client id that
    [getClientId] reads off the headers. *)
Module Route.
Import Chains Generator.

(** What [sseImmediateError] spreads into the payload beside the
    message. *)
Inductive Extra :=
  | no_extra
  | SESSION_NOT_FOUND
  | RATE_LIMIT_EXCEEDED (limitType : option RateLimit.LimitType)
                        (resetAt remaining : RateLimit.PerWindow).

(** The events of the stream, by name, with their payloads. *)
Inductive Event :=
  | start (sessionId : string)
  | progress (update : Tracker.ProgressUpdate)
  | complete (report : string)
  | done
  | server_error (message : string) (extra : Extra).

Record Request := mkRequest {
  sessionId : option string;       (* searchParams.get('sessionId') *)
  customApiKey : option string;    (* searchParams.get('customApiKey') *)
  clientId : string;
}.

(** The clock reads of the route itself, in the order it makes them:
    in [checkLimit], in [formatResetTime], in [recordRequest] and in the
    first [getSession].  The reads of the run and the one of the last
    [getSession] come from the run's clock. *)
Record Times := mkTimes {
  at_check : Z;
  at_format : Z;
  at_record : Z;
  at_lookup : Z;
}.

Record Server := mkServer {
  rateLimiter : RateLimit.RateLimiter;
  sessionManager : Store.SessionManager;
}.

(** [formatResetTime]; the differences are whole milliseconds. *)
Definition formatResetTime (now resetTimestamp : Z) : string :=
  let diff := resetTimestamp - now in
  if diff <=? 0 then "now"
  else
    let seconds := diff / 1000 in
    let minutes := seconds / 60 in
    let hours := minutes / 60 in
    if 0 <? hours then pretty hours +:+ "h " +:+ pretty (minutes mod 60) +:+ "m"
    else if 0 <? minutes then pretty minutes +:+ "m " +:+ pretty (seconds mod 60) +:+ "s"
    else pretty seconds +:+ "s".

Definition sseImmediateError (message : string) (extra : Extra) : list Event :=
  [server_error message extra; done].

(** The refusal sent for a limit check that does not allow the
    request. *)
Definition refusal (now : Z) (limitCheck : RateLimit.RateLimitResult) : list Event :=
  let resetTime :=
    match RateLimit.limitType limitCheck with
    | Some RateLimit.minute =>
        formatResetTime now (RateLimit.of_minute (RateLimit.resetAt limitCheck))
    | Some RateLimit.hour =>
        formatResetTime now (RateLimit.of_hour (RateLimit.resetAt limitCheck))
    | _ => formatResetTime now (RateLimit.of_day (RateLimit.resetAt limitCheck))
    end in
  sseImmediateError
    ("Rate limit exceeded. You can try again in " +:+ resetTime
     +:+ ", or provide your own OpenAI API key to bypass limits.")
    (RATE_LIMIT_EXCEEDED (RateLimit.limitType limitCheck) (RateLimit.resetAt limitCheck)
                         (RateLimit.remaining limitCheck)).

(** The limit check of the route: a request with a key of its own is
    not checked and not recorded; another one is checked and, when
    allowed, recorded.  [Some] is the refusal to send. *)
Definition limit (t : Times) (request : Request) (rl : RateLimit.RateLimiter)
  : option (list Event) * RateLimit.RateLimiter :=
  match Store.truthy_opt (customApiKey request) with
  | Some _ => (None, rl)
  | None =>
      let '(limitCheck, rl) :=
        RateLimit.guard (clientId request) (at_check t) (at_record t) rl in
      if RateLimit.allowed limitCheck then (None, rl)
      else (Some (refusal (at_format t) limitCheck), rl)
  end.

(** The world of a run started by the route: the progress callback is
    the route's own, [sendEvent('progress', ...)], which on a stream
    that is open returns. *)
Definition connected (w : World) : World := with_callback (λ _ _, None) w.

(** The stream of a run: [start], the updates of the progress callback,
    and then either [complete] with the report found in the session
    followed by [done], or one [server_error] with the message of what
    was thrown, after which the stream is closed without a [done]. *)
Definition stream (w : World) (sid : string) (m : Store.SessionManager)
  : list Event * Store.SessionManager :=
  let '(outcome, gs) := generateReport (connected w) sid m in
  let sent := start sid :: map progress (emitted gs) in
  match outcome with
  | Throw message => (sent ++ [server_error message no_extra], manager gs)
  | Ok _ =>
      let '(updatedSession, m') := Store.getSession (clock w (ticks gs)) sid (manager gs) in
      match Store.truthy_opt (updatedSession ≫= Store.finalReport) with
      | Some report => (sent ++ [complete report; done], m')
      | None =>
          (sent ++ [server_error "Report generation completed but no report found"
                                 no_extra], m')
      end
  end.

Definition GET (w : World) (t : Times) (request : Request) (srv : Server)
  : list Event * Server :=
  match Store.truthy_opt (sessionId request) with
  | None => (sseImmediateError "Missing sessionId parameter" no_extra, srv)
  | Some sid =>
      match limit t request (rateLimiter srv) with
      | (Some refused, rl) => (refused, mkServer rl (sessionManager srv))
      | (None, rl) =>
          let '(session, m) := Store.getSession (at_lookup t) sid (sessionManager srv) in
          match session with
          | None =>
              (sseImmediateError
                 "Session not found. The dev server likely restarted; please go back and generate again."
                 SESSION_NOT_FOUND,
               mkServer rl m)
          | Some _ =>
              let '(events, m') := stream w sid m in (events, mkServer rl m')
          end
      end
  end.

End Route.

Module RouteFacts.
Import Chains Generator RunLogic SignalFacts FatalFacts Route.

Lemma connected_returns (w : World) : callback_returns (connected w).
Proof. intros n u. reflexivity. Qed.

(** A request that passes the limit check and finds its session runs
    the generation on the store as it is. *)
Lemma GET_runs (w : World) (t : Times) (request : Request) (srv : Server)
    (sid : string) (s : Store.Session) :
  Store.truthy_opt (sessionId request) = Some sid →
  (limit t request (rateLimiter srv)).1 = None →
  Store.sessions (sessionManager srv) !! sid = Some s →
  Store.expired (sessionManager srv) (at_lookup t) s = false →
  GET w t request srv
  = ((stream w sid (sessionManager srv)).1,
     mkServer (limit t request (rateLimiter srv)).2
              (stream w sid (sessionManager srv)).2).
Proof.
  intros Hsid Hlim Hs Hexp. unfold GET. rewrite Hsid.
  destruct (limit t request (rateLimiter srv)) as [[r|] rl]; [done|].
  rewrite (StoreFacts.getSession_live _ _ _ _ Hs Hexp). by destruct (stream _ _ _).
Qed.

Lemma stream_of_success (w : World) (sid : string) (m : Store.SessionManager)
    (s : Store.Session) (first : Store.FixtureData) (others : list Store.FixtureData)
    (result : FinalReportOutput) :
  Store.sessions m !! sid = Some s →
  never_expires w (Store.SESSION_TTL m) (Store.createdAt s) →
  success (getFixtures w (Store.fixtureId s)) = true →
  data (getFixtures w (Store.fixtureId s)) = Some (first :: others) →
  (∀ input, synthesizeFinalReport (model w) input = Ok result) →
  stream w sid m
  = (start sid :: map progress (emitted (generateReport (connected w) sid m).2)
       ++ [complete (formatFinalReportAsMarkdown w result); done],
     manager (generateReport (connected w) sid m).2).
Proof.
  intros Hs Hlive Hsuccess Hdata Hfinal.
  destruct (RunFacts.generate_exact (connected w) sid _ _ Hlive (connected_returns w)
              (initial (connected w) m) s first others result
              eq_refl Hs eq_refl Hsuccess Hdata Hfinal) as (Hok & Hex & _).
  unfold stream, generateReport in *.
  destruct (generate (connected w) sid (initial (connected w) m)) as [outcome gs].
  simpl in Hok. subst outcome.
  cbn [fst snd] in *.
  destruct Hex as (Httl & s' & Hs' & Hcreated & ->).
  change (clock w (ticks gs)) with (clock (connected w) (ticks gs)).
  rewrite (StoreFacts.getSession_live _ _ _ _ Hs'
             (not_expired (connected w) _ _ Hlive _ _ _ Httl Hcreated)).
  cbn [mbind option_bind]. rewrite RunFacts.after_run_finalReport. done.
Qed.

Lemma stream_of_abort (w : World) (sid : string) (m : Store.SessionManager)
    (s : Store.Session) :
  Store.sessions m !! sid = Some s →
  never_expires w (Store.SESSION_TTL m) (Store.createdAt s) →
  fixture_fetch_fails (getFixtures w (Store.fixtureId s)) →
  stream w sid m
  = ([start sid; progress first_update;
      server_error "Failed to fetch fixture details" no_extra],
     manager (generateReport (connected w) sid m).2).
Proof.
  intros Hs Hlive Hfail.
  destruct (AbortFacts.aborted_run (connected w) sid m s Hs Hlive eq_refl Hfail)
    as (Hres & Hem & _).
  unfold stream. destruct (generateReport (connected w) sid m) as [outcome gs].
  cbn [fst snd] in *. by rewrite Hres, Hem.
Qed.

(** The stream of a successful run.  A request that passes the limit
    check, for a stored session that is live, whose fixture is fetched
    and whose final synthesis call returns: the stream is [start], the
    progress updates of the run, the last of which is the completion at
    100, then [complete] with the rendered report, then [done]; the
    report sent is the one stored in the session, which is completed. *)
Theorem successful_request (w : World) (t : Times) (request : Request) (srv : Server)
    (sid : string) (s : Store.Session) (first : Store.FixtureData)
    (others : list Store.FixtureData) (result : FinalReportOutput) :
  Store.truthy_opt (sessionId request) = Some sid →
  (limit t request (rateLimiter srv)).1 = None →
  Store.sessions (sessionManager srv) !! sid = Some s →
  Store.expired (sessionManager srv) (at_lookup t) s = false →
  never_expires w (Store.SESSION_TTL (sessionManager srv)) (Store.createdAt s) →
  success (getFixtures w (Store.fixtureId s)) = true →
  data (getFixtures w (Store.fixtureId s)) = Some (first :: others) →
  (∀ input, synthesizeFinalReport (model w) input = Ok result) →
  ∃ updates session,
    (GET w t request srv).1
    = start sid :: map progress updates
        ++ [complete (formatFinalReportAsMarkdown w result); done]
    ∧ last updates = Some completion_update
    ∧ Store.sessions (sessionManager (GET w t request srv).2) !! sid = Some session
    ∧ Store.status session = Store.completed
    ∧ Store.finalReport session = Some (formatFinalReportAsMarkdown w result).
Proof.
  intros Hsid Hlim Hs Hexp Hlive Hsuccess Hdata Hfinal.
  rewrite (GET_runs w t request srv sid s Hsid Hlim Hs Hexp).
  rewrite (stream_of_success w sid _ s first others result Hs Hlive Hsuccess Hdata Hfinal).
  destruct (RunFacts.generate_exact (connected w) sid _ _ Hlive (connected_returns w)
              (initial (connected w) (sessionManager srv))
              s first others result eq_refl Hs eq_refl Hsuccess Hdata Hfinal)
    as (_ & Hex & Hlast).
  exists (emitted (generateReport (connected w) sid (sessionManager srv)).2),
         (RunFacts.after_run (connected w) first result s).
  cbn [fst snd sessionManager]. split; [done|]. split; [exact Hlast|].
  split; [exact (RunFacts.exactly_elim _ _ _ _ _ Hex)|].
  split; [apply RunFacts.after_run_status|].
  apply (RunFacts.after_run_finalReport (connected w)).
Qed.

(** The stream of an aborted run.  When the fixture fetch fails, the
    stream is [start], the first progress update and one [server_error]
    with the generator's message; no [done] follows it.  The session is
    left in status [error]. *)
Theorem aborted_request (w : World) (t : Times) (request : Request) (srv : Server)
    (sid : string) (s : Store.Session) :
  Store.truthy_opt (sessionId request) = Some sid →
  (limit t request (rateLimiter srv)).1 = None →
  Store.sessions (sessionManager srv) !! sid = Some s →
  Store.expired (sessionManager srv) (at_lookup t) s = false →
  never_expires w (Store.SESSION_TTL (sessionManager srv)) (Store.createdAt s) →
  fixture_fetch_fails (getFixtures w (Store.fixtureId s)) →
  (GET w t request srv).1
  = [start sid; progress first_update;
     server_error "Failed to fetch fixture details" no_extra]
  ∧ Store.status <$> Store.sessions (sessionManager (GET w t request srv).2) !! sid
    = Some Store.error.
Proof.
  intros Hsid Hlim Hs Hexp Hlive Hfail.
  rewrite (GET_runs w t request srv sid s Hsid Hlim Hs Hexp).
  rewrite (stream_of_abort w sid _ s Hs Hlive Hfail).
  destruct (AbortFacts.aborted_run (connected w) sid _ s Hs Hlive eq_refl Hfail)
    as (_ & _ & Hst).
  cbn [fst snd sessionManager]. split; [done|]. by rewrite Hst.
Qed.

(** A request without a key of its own that the limiter lets through is
    recorded against its client before the session is looked up: when
    the session is not found, the answer is the session error, and the
    request has still been counted. *)
Theorem unknown_session_is_counted (w : World) (t : Times) (request : Request)
    (srv : Server) (sid : string) :
  Store.truthy_opt (sessionId request) = Some sid →
  Store.truthy_opt (customApiKey request) = None →
  RateLimit.allowed
    (RateLimit.checkLimit (clientId request) (at_check t) (rateLimiter srv)).1 = true →
  (Store.getSession (at_lookup t) sid (sessionManager srv)).1 = None →
  (GET w t request srv).1
  = [server_error
       "Session not found. The dev server likely restarted; please go back and generate again."
       SESSION_NOT_FOUND; done]
  ∧ RateLimit.logs_of (clientId request) (rateLimiter (GET w t request srv).2)
    = RateLimit.after (at_check t - RateLimit.DAY)
        (RateLimit.logs_of (clientId request) (rateLimiter srv)) ++ [at_record t].
Proof.
  intros Hsid Hkey Hallowed Hnone. unfold GET, limit. rewrite Hsid, Hkey.
  pose proof (RateLimitFacts.guard_result (clientId request) (at_check t) (at_record t)
                (rateLimiter srv)) as Hres.
  pose proof (RateLimitFacts.logs_of_guard (clientId request) (at_check t) (at_record t)
                (rateLimiter srv)) as Hlogs.
  rewrite Hallowed in Hlogs.
  destruct (RateLimit.guard _ _ _ _) as [limitCheck rl]. cbn [fst snd] in *.
  rewrite Hres, Hallowed.
  destruct (Store.getSession _ _ _) as [session m]. cbn [fst] in Hnone. subst session.
  by cbn [fst snd rateLimiter].
Qed.

(** A refused request starts nothing: the answer is the limit error and
    [done], the store is not read (so not even an expired session is
    removed), and the request is not counted: the client's log is the
    old one without the entries older than a day. *)
Theorem refused_request_starts_nothing (w : World) (t : Times) (request : Request)
    (srv : Server) (sid : string) :
  Store.truthy_opt (sessionId request) = Some sid →
  Store.truthy_opt (customApiKey request) = None →
  RateLimit.allowed
    (RateLimit.checkLimit (clientId request) (at_check t) (rateLimiter srv)).1 = false →
  (GET w t request srv).1
  = refusal (at_format t)
      (RateLimit.checkLimit (clientId request) (at_check t) (rateLimiter srv)).1
  ∧ sessionManager (GET w t request srv).2 = sessionManager srv
  ∧ RateLimit.logs_of (clientId request) (rateLimiter (GET w t request srv).2)
    = RateLimit.after (at_check t - RateLimit.DAY)
        (RateLimit.logs_of (clientId request) (rateLimiter srv)).
Proof.
  intros Hsid Hkey Hallowed. unfold GET, limit. rewrite Hsid, Hkey.
  pose proof (RateLimitFacts.guard_result (clientId request) (at_check t) (at_record t)
                (rateLimiter srv)) as Hres.
  pose proof (RateLimitFacts.logs_of_guard (clientId request) (at_check t) (at_record t)
                (rateLimiter srv)) as Hlogs.
  rewrite Hallowed in Hlogs.
  destruct (RateLimit.guard _ _ _ _) as [limitCheck rl]. cbn [fst snd] in *.
  rewrite Hres, Hallowed. by cbn [fst snd rateLimiter sessionManager].
Qed.

(** A request with a key of its own never meets the limiter: whatever
    the limiter holds, it is left as it is, and the answer is the one a
    fresh limiter would have given. *)
Theorem own_key_bypasses_limiter (w : World) (t : Times) (request : Request)
    (srv : Server) (key : string) :
  Store.truthy_opt (customApiKey request) = Some key →
  rateLimiter (GET w t request srv).2 = rateLimiter srv
  ∧ (GET w t request srv).1
    = (GET w t request (mkServer RateLimit.new (sessionManager srv))).1.
Proof.
  intros Hkey. unfold GET, limit. rewrite Hkey.
  destruct (Store.truthy_opt (sessionId request)) as [sid|]; [|done].
  cbn [sessionManager rateLimiter].
  destruct (Store.getSession _ _ _) as [[session|] m]; [|done].
  by destruct (stream w sid m).
Qed.

(** The shape of every stream.  Either nothing was started and the
    stream is one [server_error] followed by [done]; or it is [start],
    progress updates and then [complete] and [done], in which case the
    report sent is the one the session holds in the store the request
    leaves behind; or it is [start], progress updates and one
    [server_error], with no [done]. *)
Theorem stream_shape (w : World) (t : Times) (request : Request) (srv : Server) :
  let events := (GET w t request srv).1 in
  (∃ message extra, events = [server_error message extra; done])
  ∨ (∃ sid updates report session,
       events = start sid :: map progress updates ++ [complete report; done]
       ∧ Store.truthy_opt (sessionId request) = Some sid
       ∧ Store.sessions (sessionManager (GET w t request srv).2) !! sid = Some session
       ∧ Store.finalReport session = Some report)
  ∨ (∃ sid updates message,
       events = start sid :: map progress updates ++ [server_error message no_extra]).
Proof.
  unfold GET. destruct (Store.truthy_opt (sessionId request)) as [sid|] eqn:Hsid;
    [|left; by eexists _, _].
  destruct (limit t request (rateLimiter srv)) as [[refused|] rl] eqn:Hlimit.
  { left. unfold limit in Hlimit.
    destruct (Store.truthy_opt (customApiKey request)); [done|].
    destruct (RateLimit.guard _ _ _ _) as [limitCheck rl'].
    destruct (RateLimit.allowed limitCheck); [done|].
    injection Hlimit as <- _. by eexists _, _. }
  destruct (Store.getSession (at_lookup t) sid (sessionManager srv)) as [[session|] m];
    [|left; by eexists _, _].
  right. unfold stream. destruct (generateReport (connected w) sid m) as [[[]|message] gs].
  - unfold Store.getSession.
    destruct (Store.sessions (manager gs) !! sid) as [s'|] eqn:Hs'.
    + destruct (Store.expired (manager gs) (clock w (ticks gs)) s').
      * right. by eexists _, _, _.
      * cbn [mbind option_bind].
        destruct (Store.truthy_opt (Store.finalReport s')) as [report|] eqn:Hreport.
        -- left. exists sid, (emitted gs), report, s'. cbn [fst snd sessionManager].
           split; [done|]. split; [done|]. split; [done|].
           unfold Store.truthy_opt in Hreport.
           destruct (Store.finalReport s') as [r|]; [|done].
           destruct (Js.truthy_str r); by inversion Hreport.
        -- right. by eexists _, _, _.
    + right. by eexists _, _, _.
  - right. by eexists _, _, _.
Qed.

Definition keyless : Request := mkRequest (Some "sid") None "10.0.0.7".
Definition with_key : Request := mkRequest (Some "sid") (Some "sk-own") "10.0.0.7".
Definition times : Times := mkTimes 2000 2001 2002 2003.
Definition fresh : Server := mkServer RateLimit.new Demo.manager0.

(** The client has used up its three requests of the minute. *)
Definition busy : Server :=
  mkServer (RateLimit.mkLimiter {[ "10.0.0.7" := [1000; 1001; 1002] ]}
                                (RateLimit.mkConfig 3 20 50))
           Demo.manager0.

Definition fresh_session : Store.Session :=
  Store.mkSession "sid" 12345 1000 Store.pending None Store.no_data ∅ ∅ None [].

Lemma successful_request_witness :
  ∃ updates,
    (GET (Demo.usual (λ k, k)) times keyless fresh).1
    = start "sid" :: map progress updates
        ++ [complete (formatFinalReportAsMarkdown (Demo.usual (λ k, k))
                        (mkFinalOutput "Title" "Subtitle" [] []));
            done].
Proof.
  destruct (successful_request (Demo.usual (λ k, k)) times keyless fresh "sid"
              fresh_session Demo.fixture [] (mkFinalOutput "Title" "Subtitle" [] [])
              eq_refl eq_refl eq_refl eq_refl (demo_never_expires _) eq_refl eq_refl
              (λ _, eq_refl))
    as (updates & _ & Hevents & _).
  by exists updates.
Defined.

Lemma aborted_request_witness :
  (GET AbortFacts.outage times keyless fresh).1
  = [start "sid"; progress first_update;
     server_error "Failed to fetch fixture details" no_extra].
Proof.
  exact (proj1 (aborted_request AbortFacts.outage times keyless fresh "sid" fresh_session
                  eq_refl eq_refl eq_refl eq_refl (λ _, eq_refl) (or_introl eq_refl))).
Defined.

Lemma unknown_session_is_counted_witness :
  RateLimit.logs_of "10.0.0.7"
    (rateLimiter (GET (Demo.usual (λ k, k)) times
                      (mkRequest (Some "gone") None "10.0.0.7") fresh).2)
  = [2002].
Proof.
  exact (proj2 (unknown_session_is_counted (Demo.usual (λ k, k)) times
                  (mkRequest (Some "gone") None "10.0.0.7") fresh "gone"
                  eq_refl eq_refl eq_refl eq_refl)).
Defined.

Lemma refused_request_starts_nothing_witness :
  (GET (Demo.usual (λ k, k)) times keyless busy).1
  = [server_error
       "Rate limit exceeded. You can try again in 58s, or provide your own OpenAI API key to bypass limits."
       (RATE_LIMIT_EXCEEDED (Some RateLimit.minute)
          (RateLimit.mkPerWindow 61000 3601000 86401000)
          (RateLimit.mkPerWindow 0 17 47));
     done]
  ∧ RateLimit.logs_of "10.0.0.7"
      (rateLimiter (GET (Demo.usual (λ k, k)) times keyless busy).2)
    = [1000; 1001; 1002].
Proof.
  destruct (refused_request_starts_nothing (Demo.usual (λ k, k)) times keyless busy "sid"
              eq_refl eq_refl eq_refl) as (Hevents & _ & Hlogs).
  split; [rewrite Hevents; reflexivity | exact Hlogs].
Defined.

Lemma own_key_bypasses_limiter_witness :
  rateLimiter (GET (Demo.usual (λ k, k)) times with_key busy).2 = rateLimiter busy.
Proof.
  exact (proj1 (own_key_bypasses_limiter (Demo.usual (λ k, k)) times with_key busy
                  "sk-own" eq_refl)).
Defined.

End RouteFacts.
